(** * topblock: interaction, selection and rotation engine

    A shallow embedding of [src/game/BlockObject.ts] (the per-block
    animation state machine) and [src/game/InteractionManager.ts]
    (selection, connectivity, collision detection, drag, gizmo and
    group rotation), together with the properties stated about them.

    Numbers.  JavaScript numbers are embedded as rationals [Q], and
    [Math.round] is [floor (x + 1/2)].  Where the program compares a
    computed number with a threshold, the operations before the
    comparison are rounded as the host rounds them ([Binary64.fl]): the
    distance of the pointer against the click threshold, the angles of
    a gizmo drag against [PI / 4], the elapsed time of an animation
    against its duration, and the normalised pointer.  The vector
    algebra of three.js, the positions on the way of an animation and
    the sums of a position on the grid with a cell offset (integers,
    which the host adds exactly) are exact; [getWorldCellPositions],
    [detectCollisions] and [adjustToFloor] are given a second time in
    [Double], every sum rounded, for positions off the grid.  The
    transcendental functions of the host ([Math.sin], [Math.cos],
    [Math.sqrt], [Math.atan2]) and the constant [Math.PI] are not
    computed here: they are the fields of a [JSMath] environment, and
    every property that depends on their values says which values it
    needs.  Cell offsets are integers in the catalog and [rotateBlock]
    rounds every coordinate it writes, so a cell is a triple of [Z].

    Objects.  [BlockObject] instances are shared mutable objects; the
    model keeps them in the manager's [blocks] array and every other
    reference ([selectedGroup], [centerBlock], [pendingBlock],
    [dragTarget], the keys of the two position maps) is the index of the
    block in that array.

    Beside them: the ring materials of [src/game/RotationGizmo.ts], the
    camera animation of [src/game/SceneManager.ts], the pointer
    normalisation [updateMouse], the string that de-duplicates the
    collision callback, and the release handler of the single-selection
    manager that precedes the group one ([unnamed/part_000]).

    Outside the model: the scene graph (meshes, the pivot wrapper's
    interpolated quaternion, the drag-plane helper's pose, the cursor)
    and what the two host callbacks do.  Ray casting against meshes is
    the host's: its results arrive as fields of the pointer events, as
    does the clock. *)

From Stdlib Require Import ZArith QArith Qround Qabs Qminmax Qpower List Bool
  Lia Lqa FinFun.
From Stdlib Require String Ascii DecimalString DecimalZ DecimalPos.
Import ListNotations.

(** ** The host's Math object *)

Class JSMath : Type := {
  Math_PI : Q;
  Math_sin : Q -> Q;
  Math_cos : Q -> Q;
  Math_sqrt : Q -> Q;
  Math_atan2 : Q -> Q -> Q
}.

(** [Math.round]: nearest integer, halves towards plus infinity. *)
Definition Math_round (x : Q) : Z := Qfloor (x + (1 # 2)).

(** A JavaScript number that holds an integer. *)
Definition num (z : Z) : Q := inject_Z z.

(** [a < b]. *)
Definition Qltb (a b : Q) : bool := negb (Qle_bool b a).

(** [if (v < m) m = v] on a running minimum that starts at [Infinity]
    ([None]). *)
Definition lowerMin (m : option Q) (v : Q) : option Q :=
  match m with
  | Some w => if Qltb v w then Some v else m
  | None => Some v
  end.

(** ** The host's numbers

    A JavaScript number is an IEEE 754 binary64 value, and a sum, a
    difference, a product or a quotient of two numbers is the exact
    result rounded to the nearest one, halves going to the even
    significand.  [fl] is that rounding on the rationals: 53 significant
    bits and the gradual underflow below [2^-1022].  Overflow to
    [Infinity] is outside the model: no quantity of the program comes
    near [2^1024]. *)

Module Binary64.

Definition pow2 (e : Z) : Q := 2 ^ e.

(** [floor (log2 q)] of a positive [q]. *)
Definition binade (q : Q) : Z :=
  let l := (Z.log2 (Qnum q) - Z.log2 (Zpos (Qden q)))%Z in
  if Qle_bool (pow2 l) q then l else (l - 1)%Z.

(** The exponent of the unit in the last place of the numbers around
    [q]. *)
Definition ulpExponent (q : Q) : Z :=
  (Z.max (binade (Qabs q)) (-1022) - 52)%Z.

(** The nearest integer, the even one of two that are equally near. *)
Definition nearestEven (r : Q) : Z :=
  let f := Qfloor r in
  match Qcompare (r - inject_Z f) (1 # 2) with
  | Lt => f
  | Gt => (f + 1)%Z
  | Eq => if Z.even f then f else (f + 1)%Z
  end.

(** The nearest multiple of [2^e]. *)
Definition roundTo (e : Z) (q : Q) : Q :=
  inject_Z (nearestEven (q / pow2 e)) * pow2 e.

Definition fl (q : Q) : Q :=
  if Qeq_bool q 0 then 0 else Qred (roundTo (ulpExponent q) q).

(** [q] is a number of the host. *)
Definition isDouble (q : Q) : Prop := fl q == q.

End Binary64.

(** ** three.js: vectors, quaternions, rays and planes

    The library is a dependency of the repository, not part of it; the
    operations below are its formulas, on exact numbers. *)

Module Three.

Record Vector3 : Type := vec3 { x : Q; y : Q; z : Q }.

Definition zero3 : Vector3 := vec3 0 0 0.

Definition add (a b : Vector3) : Vector3 :=
  vec3 (x a + x b) (y a + y b) (z a + z b).

Definition sub (a b : Vector3) : Vector3 :=
  vec3 (x a - x b) (y a - y b) (z a - z b).

Definition multiplyScalar (a : Vector3) (s : Q) : Vector3 :=
  vec3 (x a * s) (y a * s) (z a * s).

Definition dot (a b : Vector3) : Q :=
  x a * x b + y a * y b + z a * z b.

Definition crossVectors (a b : Vector3) : Vector3 :=
  vec3 (y a * z b - z a * y b)
       (z a * x b - x a * z b)
       (x a * y b - y a * x b).

(** [a.equals(b)]: componentwise [===]. *)
Definition equals (a b : Vector3) : bool :=
  Qeq_bool (x a) (x b) && Qeq_bool (y a) (y b) && Qeq_bool (z a) (z b).

(** [lerpVectors(v1, v2, alpha)]. *)
Definition lerpVectors (v1 v2 : Vector3) (alpha : Q) : Vector3 :=
  vec3 (x v1 + (x v2 - x v1) * alpha)
       (y v1 + (y v2 - y v1) * alpha)
       (z v1 + (z v2 - z v1) * alpha).

Record Quaternion : Type := quat { qx : Q; qy : Q; qz : Q; qw : Q }.

(** [v.applyQuaternion(q)]: [t = 2 (q.xyz x v)], then
    [v + q.w t + q.xyz x t]. *)
Definition applyQuaternion (v : Vector3) (q : Quaternion) : Vector3 :=
  let tx := 2 * (qy q * z v - qz q * y v) in
  let ty := 2 * (qz q * x v - qx q * z v) in
  let tz := 2 * (qx q * y v - qy q * x v) in
  vec3 (x v + qw q * tx + qy q * tz - qz q * ty)
       (y v + qw q * ty + qz q * tx - qx q * tz)
       (z v + qw q * tz + qx q * ty - qy q * tx).

Record Ray : Type := mkRay { origin : Vector3; direction : Vector3 }.

Record Plane : Type := mkPlane { normal : Vector3; constant : Q }.

(** [ray.distanceToPlane(plane)]: [null] when the ray is parallel to the
    plane and off it, or when the plane is behind the ray. *)
Definition distanceToPlane (r : Ray) (p : Plane) : option Q :=
  let denominator := dot (normal p) (direction r) in
  if Qeq_bool denominator 0 then
    if Qeq_bool (dot (normal p) (origin r) + constant p) 0
    then Some 0 else None
  else
    let t := - (dot (origin r) (normal p) + constant p) / denominator in
    if Qle_bool 0 t then Some t else None.

(** [ray.intersectPlane(plane, target)]. *)
Definition intersectPlane (r : Ray) (p : Plane) : option Vector3 :=
  match distanceToPlane r p with
  | Some t => Some (add (origin r) (multiplyScalar (direction r) t))
  | None => None
  end.

Section WithMath.
Context {M : JSMath}.

Definition length (a : Vector3) : Q :=
  Math_sqrt (x a * x a + y a * y a + z a * z a).

(** [a.normalize()] is [a.divideScalar(a.length() || 1)], and
    [divideScalar(s)] is [multiplyScalar(1 / s)]. *)
Definition normalize (a : Vector3) : Vector3 :=
  let l := length a in
  multiplyScalar a (1 / (if Qeq_bool l 0 then 1 else l)).

(** [new Quaternion().setFromAxisAngle(axis, angle)]. *)
Definition setFromAxisAngle (axis : Vector3) (angle : Q) : Quaternion :=
  let halfAngle := angle / 2 in
  let s := Math_sin halfAngle in
  quat (x axis * s) (y axis * s) (z axis * s) (Math_cos halfAngle).

End WithMath.

End Three.

Import Three.

(** ** BlockObject *)

Definition Cell : Type := (Z * Z * Z)%type.

Definition cellVec (c : Cell) : Vector3 :=
  let '(cx, cy, cz) := c in vec3 (num cx) (num cy) (num cz).

Definition roundVec (v : Vector3) : Cell :=
  (Math_round (x v), Math_round (y v), Math_round (z v)).

Definition ROTATION_DURATION : Q := 200.

Record BlockObject : Type := mkBlock {
  blockId : Z;
  cells : list Cell;
  position : Vector3;
  selected : bool;
  (* rotation animation state *)
  isAnimating : bool;
  animStartTime : Q;
  animTargetQuat : Quaternion;
  animPivotGroup : bool;             (* the wrapper exists (is not null) *)
  pendingCells : option (list Cell);
  (* position animation state *)
  posAnimating : bool;
  posAnimStartPos : option Vector3;
  posAnimTargetPos : option Vector3;
  posAnimPivot : option Vector3;
  posAnimAxis : option Vector3;
  posAnimStartTime : Q
}.

Module Block.

(** [new BlockObject(def)]: a block at the origin, at rest. *)
Definition create (id : Z) (cs : list Cell) : BlockObject :=
  mkBlock id cs zero3 false
          false 0 (quat 0 0 0 1) false None
          false None None None None 0.

Definition set_position (b : BlockObject) (p : Vector3) : BlockObject :=
  mkBlock (blockId b) (cells b) p (selected b)
          (isAnimating b) (animStartTime b) (animTargetQuat b)
          (animPivotGroup b) (pendingCells b)
          (posAnimating b) (posAnimStartPos b) (posAnimTargetPos b)
          (posAnimPivot b) (posAnimAxis b) (posAnimStartTime b).

Definition setSelected (s : bool) (b : BlockObject) : BlockObject :=
  mkBlock (blockId b) (cells b) (position b) s
          (isAnimating b) (animStartTime b) (animTargetQuat b)
          (animPivotGroup b) (pendingCells b)
          (posAnimating b) (posAnimStartPos b) (posAnimTargetPos b)
          (posAnimPivot b) (posAnimAxis b) (posAnimStartTime b).

(** [snapToGrid()]. *)
Definition snapToGrid (b : BlockObject) : BlockObject :=
  let p := position b in
  set_position b (vec3 (num (Math_round (x p)))
                       (num (Z.max 0 (Math_round (y p))))
                       (num (Math_round (z p)))).

(** [get animating()]. *)
Definition animating (b : BlockObject) : bool :=
  isAnimating b || posAnimating b.

(** [getWorldCellPositions()], the sums exact, as they are for a block
    on a grid point; [Double.getWorldCellPositions] rounds them. *)
Definition getWorldCellPositions (b : BlockObject) : list Cell :=
  map (fun c : Cell =>
         let '(cx, cy, cz) := c in
         (Math_round (x (position b) + num cx),
          Math_round (y (position b) + num cy),
          Math_round (z (position b) + num cz)))
      (cells b).

(** [getCenterCellWorldPos()]: the pivot of the gizmo, [cells[0]] lifted
    by half a unit.  The catalog has no empty shape; on an empty list the
    source throws and the model reads the origin cell. *)
Definition getCenterCellWorldPos (b : BlockObject) : Vector3 :=
  let '(cx, cy, cz) := hd (0, 0, 0)%Z (cells b) in
  add (vec3 (num cx) (num cy + (1 # 2)) (num cz)) (position b).

(** [getWorldCenter()]: the mean of the cell centres, plus the position. *)
Definition getWorldCenter (b : BlockObject) : Vector3 :=
  let s := fold_left
             (fun acc (c : Cell) =>
                let '(cx, cy, cz) := c in
                add acc (vec3 (num cx) (num cy + (1 # 2)) (num cz)))
             (cells b) zero3 in
  add (multiplyScalar s (1 / num (Z.of_nat (List.length (cells b)))))
      (position b).

(** [adjustToFloor()]: lift the block until its lowest cell is on the
    floor, then snap.  [InteractionManager] never calls it.  The sums
    are exact here, as they are for a block on a grid point;
    [Double.adjustToFloor] rounds them. *)
Definition adjustToFloor (b : BlockObject) : BlockObject :=
  let minY :=
    fold_left
      (fun (m : option Q) (c : Cell) =>
         lowerMin m (y (position b) + num (snd (fst c))))
      (cells b) None in
  snapToGrid
    match minY with
    | Some v =>
        if Qltb v 0
        then set_position b
               (vec3 (x (position b)) (y (position b) - v) (z (position b)))
        else b
    | None => b
    end.

Section WithMath.
Context {M : JSMath}.

(** [animatePositionTo(target, pivot, axis)]; [now] is the value of
    [performance.now()] at the call. *)
Definition animatePositionTo (now : Q) (target : Vector3)
           (pivot axis : option Vector3) (b : BlockObject) : BlockObject :=
  mkBlock (blockId b) (cells b) (position b) (selected b)
          (isAnimating b) (animStartTime b) (animTargetQuat b)
          (animPivotGroup b) (pendingCells b)
          true (Some (position b)) (Some target)
          pivot (option_map normalize axis) now.

(** The cells after a quarter turn: [cells.map(cell => round(q cell))]. *)
Definition rotatedCells (q : Quaternion) (cs : list Cell) : list Cell :=
  map (fun c => roundVec (applyQuaternion (cellVec c) q)) cs.

(** [rotateBlock(axis)].  The call normalises [axis] in place; the
    caller's vector after the call is [rotateBlock_axis]. *)
Definition rotateBlock (now : Q) (axis : Vector3) (b : BlockObject)
  : BlockObject :=
  if isAnimating b then b
  else
    let q := setFromAxisAngle (normalize axis) (Math_PI / 2) in
    mkBlock (blockId b) (cells b) (position b) (selected b)
            true now q true (Some (rotatedCells q (cells b)))
            (posAnimating b) (posAnimStartPos b) (posAnimTargetPos b)
            (posAnimPivot b) (posAnimAxis b) (posAnimStartTime b).

Definition rotateBlock_axis (axis : Vector3) (b : BlockObject) : Vector3 :=
  if isAnimating b then axis else normalize axis.

(** The ease-in-out curve shared by both animations. *)
Definition ease (t : Q) : Q :=
  if Qltb t (1 # 2) then 2 * t * t
  else 1 - ((-2 * t + 2) * (-2 * t + 2)) / 2.

(** [Math.min(elapsed / ROTATION_DURATION, 1)] with
    [elapsed = performance.now() - start]: the difference and the
    quotient are numbers of the host. *)
Definition progress (now start : Q) : Q :=
  Qmin (Binary64.fl (Binary64.fl (now - start) / ROTATION_DURATION)) 1.

(** The position half of [updateAnimation()]. *)
Definition updatePosition (now : Q) (b : BlockObject) : BlockObject :=
  match posAnimating b, posAnimStartPos b, posAnimTargetPos b with
  | true, Some startPos, Some targetPos =>
      let t := progress now (posAnimStartTime b) in
      let e := ease t in
      let p :=
        match posAnimPivot b, posAnimAxis b with
        | Some pivot, Some axis =>
            let relStart := sub startPos pivot in
            let angle := e * (Math_PI / 2) in
            let q := setFromAxisAngle axis angle in
            add pivot (applyQuaternion relStart q)
        | _, _ => lerpVectors startPos targetPos e
        end in
      if Qle_bool 1 t then
        mkBlock (blockId b) (cells b) targetPos (selected b)
                (isAnimating b) (animStartTime b) (animTargetQuat b)
                (animPivotGroup b) (pendingCells b)
                false None None None None (posAnimStartTime b)
      else set_position b p
  | _, _, _ => b
  end.

(** The orientation half of [updateAnimation()]: on completion the
    pending cells become the block's cells. *)
Definition updateOrientation (now : Q) (b : BlockObject) : BlockObject :=
  if negb (isAnimating b) || negb (animPivotGroup b) then b
  else
    let t := progress now (animStartTime b) in
    if Qle_bool 1 t then
      mkBlock (blockId b)
              (match pendingCells b with Some cs => cs | None => cells b end)
              (position b) (selected b)
              false (animStartTime b) (animTargetQuat b) false None
              (posAnimating b) (posAnimStartPos b) (posAnimTargetPos b)
              (posAnimPivot b) (posAnimAxis b) (posAnimStartTime b)
    else b.

(** [updateAnimation()], with the clock reading of this call. *)
Definition updateAnimation (now : Q) (b : BlockObject) : BlockObject :=
  updateOrientation now (updatePosition now b).

End WithMath.

End Block.

(** ** The block catalog ([src/game/blocks.ts]) and the start layout
    ([GameScene.vue]) *)

Definition BLOCK_DEFINITIONS : list (Z * list Cell) :=
  [ (0, [(0, 0, 0); (-1, 0, 0); (0, 0, 1)]);
    (1, [(0, 0, 0); (-1, 0, 0); (0, 0, 1); (1, 0, 1)]);
    (2, [(0, 0, 0); (-1, 0, 0); (1, 0, 0); (1, 0, 1)]);
    (3, [(0, 0, 0); (-1, 0, 0); (1, 0, 0); (0, 0, 1)]);
    (4, [(0, 0, 0); (-1, 0, 0); (0, 0, 1); (0, 1, 0)]);
    (5, [(0, 0, 0); (-1, 0, 0); (0, 0, 1); (-1, 1, 0)]);
    (6, [(0, 0, 0); (-1, 0, 0); (0, 0, 1); (0, 1, 1)]) ]%Z.

Definition startPositions : list Cell :=
  [ (0, 0, 0); (3, 0, 0); (-3, 0, 0); (0, 0, 3);
    (0, 0, -3); (3, 0, 3); (-3, 0, -3) ]%Z.

(** A block of the catalog placed at an integer position, as
    [GameScene.vue] does before handing it to [addBlock]. *)
Definition placeBlock (def : Z * list Cell) (p : Cell) : BlockObject :=
  Block.snapToGrid
    (Block.set_position (Block.create (fst def) (snd def)) (cellVec p)).

Definition initialBlocks : list BlockObject :=
  map (fun dp => placeBlock (fst dp) (snd dp))
      (combine BLOCK_DEFINITIONS startPositions).

(** ** InteractionManager: state *)

Inductive RingAxis : Type := RingX | RingY | RingZ.

(** [gizmo.getAxisForRing(mesh)]. *)
Definition getAxisForRing (r : RingAxis) : Vector3 :=
  match r with
  | RingX => vec3 1 0 0
  | RingY => vec3 0 1 0
  | RingZ => vec3 0 0 1
  end.

(** A pointer event, with what the host computes from it: the ray
    [raycaster.setFromCamera(mouse, camera)], the camera's view
    direction, the first ring and the first block under the ray, and the
    clock. *)
Record PointerEvent : Type := mkPointerEvent {
  button : Z;
  clientX : Q;
  clientY : Q;
  ray : Ray;
  camDir : Vector3;
  ringHit : option RingAxis;
  blockHit : option nat;
  timeStamp : Q
}.

Record Manager : Type := mkManager {
  blocks : list BlockObject;
  (* selection: group + center *)
  selectedGroup : list nat;
  centerBlock : option nat;
  (* pointer state *)
  mouseDownPos : Q * Q;
  pendingBlock : option nat;
  hasMovedPastThreshold : bool;
  (* drag state *)
  isDragging : bool;
  dragTarget : option nat;
  dragPlane : option Plane;
  dragOffset : Vector3;
  dragTargetStartPos : Vector3;
  groupDragStartPositions : list (nat * Vector3);
  isGroupDrag : bool;
  (* rotation gizmo *)
  gizmoVisible : bool;
  gizmoPosition : Vector3;
  isGizmoDragging : bool;
  gizmoDragAxis : option Vector3;
  gizmoDragPlane : option Plane;
  gizmoDragStartAngle : Q;
  gizmoAccumulatedAngle : Q;
  (* the scene manager's orbit controls *)
  controlsEnabled : bool
}.

Definition mouseMoveThreshold : Q := 3.

Definition emptyManager : Manager :=
  mkManager [] [] None (0, 0) None false
            false None None zero3 zero3 [] false
            false zero3 false None None 0 0 true.

(** Field updates, one per group of fields that the source assigns
    together. *)
Definition withBlocks (bs : list BlockObject) (m : Manager) : Manager :=
  mkManager bs (selectedGroup m) (centerBlock m)
            (mouseDownPos m) (pendingBlock m) (hasMovedPastThreshold m)
            (isDragging m) (dragTarget m) (dragPlane m) (dragOffset m)
            (dragTargetStartPos m) (groupDragStartPositions m) (isGroupDrag m)
            (gizmoVisible m) (gizmoPosition m)
            (isGizmoDragging m) (gizmoDragAxis m) (gizmoDragPlane m)
            (gizmoDragStartAngle m) (gizmoAccumulatedAngle m)
            (controlsEnabled m).

Definition withSelection (g : list nat) (c : option nat) (m : Manager)
  : Manager :=
  mkManager (blocks m) g c
            (mouseDownPos m) (pendingBlock m) (hasMovedPastThreshold m)
            (isDragging m) (dragTarget m) (dragPlane m) (dragOffset m)
            (dragTargetStartPos m) (groupDragStartPositions m) (isGroupDrag m)
            (gizmoVisible m) (gizmoPosition m)
            (isGizmoDragging m) (gizmoDragAxis m) (gizmoDragPlane m)
            (gizmoDragStartAngle m) (gizmoAccumulatedAngle m)
            (controlsEnabled m).

Definition withPointer (down : Q * Q) (pending : option nat) (moved : bool)
           (m : Manager) : Manager :=
  mkManager (blocks m) (selectedGroup m) (centerBlock m)
            down pending moved
            (isDragging m) (dragTarget m) (dragPlane m) (dragOffset m)
            (dragTargetStartPos m) (groupDragStartPositions m) (isGroupDrag m)
            (gizmoVisible m) (gizmoPosition m)
            (isGizmoDragging m) (gizmoDragAxis m) (gizmoDragPlane m)
            (gizmoDragStartAngle m) (gizmoAccumulatedAngle m)
            (controlsEnabled m).

Definition withDrag (dragging : bool) (target : option nat)
           (plane : option Plane) (offset startPos : Vector3)
           (starts : list (nat * Vector3)) (group : bool) (m : Manager)
  : Manager :=
  mkManager (blocks m) (selectedGroup m) (centerBlock m)
            (mouseDownPos m) (pendingBlock m) (hasMovedPastThreshold m)
            dragging target plane offset startPos starts group
            (gizmoVisible m) (gizmoPosition m)
            (isGizmoDragging m) (gizmoDragAxis m) (gizmoDragPlane m)
            (gizmoDragStartAngle m) (gizmoAccumulatedAngle m)
            (controlsEnabled m).

Definition withGizmo (visible : bool) (p : Vector3) (m : Manager) : Manager :=
  mkManager (blocks m) (selectedGroup m) (centerBlock m)
            (mouseDownPos m) (pendingBlock m) (hasMovedPastThreshold m)
            (isDragging m) (dragTarget m) (dragPlane m) (dragOffset m)
            (dragTargetStartPos m) (groupDragStartPositions m) (isGroupDrag m)
            visible p
            (isGizmoDragging m) (gizmoDragAxis m) (gizmoDragPlane m)
            (gizmoDragStartAngle m) (gizmoAccumulatedAngle m)
            (controlsEnabled m).

Definition withGizmoDrag (dragging : bool) (axis : option Vector3)
           (plane : option Plane) (startAngle acc : Q) (m : Manager)
  : Manager :=
  mkManager (blocks m) (selectedGroup m) (centerBlock m)
            (mouseDownPos m) (pendingBlock m) (hasMovedPastThreshold m)
            (isDragging m) (dragTarget m) (dragPlane m) (dragOffset m)
            (dragTargetStartPos m) (groupDragStartPositions m) (isGroupDrag m)
            (gizmoVisible m) (gizmoPosition m)
            dragging axis plane startAngle acc
            (controlsEnabled m).

Definition withControls (enabled : bool) (m : Manager) : Manager :=
  mkManager (blocks m) (selectedGroup m) (centerBlock m)
            (mouseDownPos m) (pendingBlock m) (hasMovedPastThreshold m)
            (isDragging m) (dragTarget m) (dragPlane m) (dragOffset m)
            (dragTargetStartPos m) (groupDragStartPositions m) (isGroupDrag m)
            (gizmoVisible m) (gizmoPosition m)
            (isGizmoDragging m) (gizmoDragAxis m) (gizmoDragPlane m)
            (gizmoDragStartAngle m) (gizmoAccumulatedAngle m)
            enabled.

(** ** The block array *)

(** The object behind a reference. *)
Definition getBlock (bs : list BlockObject) (i : nat) : BlockObject :=
  nth i bs (Block.create 0 []).

(** A method call on the object behind reference [i]. *)
Fixpoint updateBlock (f : BlockObject -> BlockObject) (i : nat)
         (bs : list BlockObject) : list BlockObject :=
  match bs, i with
  | [], _ => []
  | b :: rest, O => f b :: rest
  | b :: rest, S j => b :: updateBlock f j rest
  end.

(** [for (const b of group) b.m()]. *)
Definition forEachBlock (f : BlockObject -> BlockObject) (group : list nat)
           (bs : list BlockObject) : list BlockObject :=
  fold_left (fun acc i => updateBlock f i acc) group bs.

(** [addBlock(block)]. *)
Definition addBlock (b : BlockObject) (m : Manager) : Manager :=
  withBlocks (blocks m ++ [b]) m.

(** The manager once [GameScene.vue] has added the catalog. *)
Definition initialManager : Manager :=
  fold_left (fun m b => addBlock b m) initialBlocks emptyManager.

(** ** Selection *)

(** [selectGroupWithCenter(blocks, center)]. *)
Definition selectGroupWithCenter (group : list nat) (center : nat)
           (m : Manager) : Manager :=
  let bs1 := forEachBlock (Block.setSelected false) (selectedGroup m)
                          (blocks m) in
  let bs2 := forEachBlock (Block.setSelected true) group bs1 in
  withGizmo true (Block.getCenterCellWorldPos (getBlock bs2 center))
            (withSelection group (Some center) (withBlocks bs2 m)).

(** [deselectAll()]. *)
Definition deselectAll (m : Manager) : Manager :=
  let bs1 := forEachBlock (Block.setSelected false) (selectedGroup m)
                          (blocks m) in
  withGizmo false (gizmoPosition m)
            (withSelection [] None (withBlocks bs1 m)).

(** ** Adjacency and connectivity *)

(** [areAdjacent(a, b)]: some cell of [a] and some cell of [b] are at
    Manhattan distance one. *)
Definition cellsTouch (ca cb : Cell) : bool :=
  let '(ax, ay, az) := ca in
  let '(bx, by_, bz) := cb in
  (Z.abs (ax - bx) + Z.abs (ay - by_) + Z.abs (az - bz) =? 1)%Z.

Definition areAdjacent (a b : BlockObject) : bool :=
  existsb (fun ca => existsb (fun cb => cellsTouch ca cb)
                             (Block.getWorldCellPositions b))
          (Block.getWorldCellPositions a).

Definition has (i : nat) (s : list nat) : bool := existsb (Nat.eqb i) s.

(** The inner loop of [findConnectedBlocks]: one pass over [this.blocks]
    for the dequeued block.  [visited] is the insertion-ordered set. *)
Fixpoint scanBlocks (bs : list BlockObject) (current : BlockObject)
         (others : list nat) (visited queue : list nat)
  : list nat * list nat :=
  match others with
  | [] => (visited, queue)
  | other :: rest =>
      if has other visited then scanBlocks bs current rest visited queue
      else if areAdjacent current (getBlock bs other)
           then scanBlocks bs current rest (visited ++ [other])
                           (queue ++ [other])
           else scanBlocks bs current rest visited queue
  end.

(** The [while (queue.length > 0)] loop; [None] when the iteration budget
    is used up before the queue is empty. *)
Fixpoint bfsLoop (fuel : nat) (bs : list BlockObject)
         (visited queue : list nat) : option (list nat) :=
  match queue with
  | [] => Some visited
  | current :: queue' =>
      match fuel with
      | O => None
      | S fuel' =>
          let '(visited', queue'') :=
            scanBlocks bs (getBlock bs current)
                       (seq 0 (List.length bs)) visited queue' in
          bfsLoop fuel' bs visited' queue''
      end
  end.

(** [findConnectedBlocks(block)]; [Array.from(visited)] lists the set in
    insertion order. *)
Definition findConnectedBlocksOpt (bs : list BlockObject) (seed : nat)
  : option (list nat) :=
  bfsLoop (S (List.length bs)) bs [seed] [seed].

Definition findConnectedBlocks (bs : list BlockObject) (seed : nat)
  : list nat :=
  match findConnectedBlocksOpt bs seed with
  | Some r => r
  | None => [seed]
  end.

(** [selectBlockById(id)]. *)
Fixpoint findIndexById (id : Z) (bs : list BlockObject) (i : nat)
  : option nat :=
  match bs with
  | [] => None
  | b :: rest => if (blockId b =? id)%Z then Some i
                 else findIndexById id rest (S i)
  end.

Definition selectBlockById (id : Z) (m : Manager) : Manager :=
  match findIndexById id (blocks m) 0 with
  | Some i => selectGroupWithCenter (findConnectedBlocks (blocks m) i) i m
  | None => m
  end.

(** ** Collision detection *)

(** The [Map<string, number[]>] of [detectCollisions], keyed by the cell
    (the key string ["x,y,z"] determines the three integers), in
    insertion order. *)
Definition CellMap : Type := list (Cell * list Z).

Definition cell_eqb (a b : Cell) : bool :=
  let '(ax, ay, az) := a in
  let '(bx, by_, bz) := b in
  ((ax =? bx) && (ay =? by_) && (az =? bz))%Z.

(** [if (!map.has(key)) map.set(key, []); map.get(key).push(id)]. *)
Fixpoint pushId (key : Cell) (id : Z) (m : CellMap) : CellMap :=
  match m with
  | [] => [(key, [id])]
  | (k, ids) :: rest =>
      if cell_eqb k key then (k, ids ++ [id]) :: rest
      else (k, ids) :: pushId key id rest
  end.

Definition buildCellMap (bs : list BlockObject) : CellMap :=
  fold_left
    (fun m b =>
       fold_left (fun m' cell => pushId cell (blockId b) m')
                 (Block.getWorldCellPositions b) m)
    bs [].

(** [set.add(id)] on an insertion-ordered [Set<number>]. *)
Definition setAdd (id : Z) (s : list Z) : list Z :=
  if existsb (Z.eqb id) s then s else s ++ [id].

(** [detectCollisions()]. *)
Definition detectCollisions (bs : list BlockObject) : list Z :=
  fold_left
    (fun colliding (entry : Cell * list Z) =>
       let ids := snd entry in
       if (1 <? List.length ids)%nat
       then fold_left (fun s id => setAdd id s) ids colliding
       else colliding)
    (buildCellMap bs) [].

(** ** The same functions with every sum rounded

    [getWorldCellPositions], [detectCollisions] and [adjustToFloor] add
    a cell offset to a coordinate of the position before they round or
    compare; the sum is a number of the host.  On a grid point within
    reach the sum is an integer and exact, and these are the functions
    above; off the grid the rounding of the sum can move a world cell to
    its neighbour. *)

Module Double.

(** [getWorldCellPositions()]. *)
Definition getWorldCellPositions (b : BlockObject) : list Cell :=
  map (fun c : Cell =>
         let '(cx, cy, cz) := c in
         (Math_round (Binary64.fl (x (position b) + num cx)),
          Math_round (Binary64.fl (y (position b) + num cy)),
          Math_round (Binary64.fl (z (position b) + num cz))))
      (cells b).

Definition buildCellMap (bs : list BlockObject) : CellMap :=
  fold_left
    (fun m b =>
       fold_left (fun m' cell => pushId cell (blockId b) m')
                 (getWorldCellPositions b) m)
    bs [].

(** [detectCollisions()]. *)
Definition detectCollisions (bs : list BlockObject) : list Z :=
  fold_left
    (fun colliding (entry : Cell * list Z) =>
       let ids := snd entry in
       if (1 <? List.length ids)%nat
       then fold_left (fun s id => setAdd id s) ids colliding
       else colliding)
    (buildCellMap bs) [].

(** [adjustToFloor()]. *)
Definition adjustToFloor (b : BlockObject) : BlockObject :=
  let minY :=
    fold_left
      (fun (m : option Q) (c : Cell) =>
         lowerMin m (Binary64.fl (y (position b) + num (snd (fst c)))))
      (cells b) None in
  Block.snapToGrid
    match minY with
    | Some v =>
        if Qltb v 0
        then Block.set_position b
               (vec3 (x (position b)) (Binary64.fl (y (position b) - v))
                     (z (position b)))
        else b
    | None => b
    end.

End Double.

(** ** Drag and group rotation *)

(** A [Map<BlockObject, Vector3>]: [set] replaces the entry of a key that
    is present and appends otherwise. *)
Fixpoint mapSet (k : nat) (v : Vector3) (m : list (nat * Vector3))
  : list (nat * Vector3) :=
  match m with
  | [] => [(k, v)]
  | (k', v') :: rest =>
      if Nat.eqb k' k then (k', v) :: rest else (k', v') :: mapSet k v rest
  end.

Fixpoint mapGet (k : nat) (m : list (nat * Vector3)) : option Vector3 :=
  match m with
  | [] => None
  | (k', v') :: rest => if Nat.eqb k' k then Some v' else mapGet k rest
  end.

(** [chooseDragPlane(block)]: of the three axis planes through the
    block's centre, the first whose normal is the most aligned with the
    view direction. *)
Definition chooseDragPlane (camDir : Vector3) (b : BlockObject) : Plane :=
  let center := Block.getWorldCenter b in
  let planes :=
    [ mkPlane (vec3 1 0 0) (- x center);
      mkPlane (vec3 0 1 0) (- y center);
      mkPlane (vec3 0 0 1) (- z center) ] in
  fst (fold_left
         (fun (best : Plane * option Q) plane =>
            let d := Qabs (dot (normal plane) camDir) in
            match snd best with
            | Some bestDot => if Qltb bestDot d then (plane, Some d) else best
            | None => (plane, Some d)
            end)
         planes (mkPlane (vec3 1 0 0) (- x center), None)).

(** [startDrag(block)], during the pointer move [e]. *)
Definition startDrag (e : PointerEvent) (block : nat) (m : Manager)
  : Manager :=
  let b := getBlock (blocks m) block in
  let group := has block (selectedGroup m) in
  let plane := chooseDragPlane (camDir e) b in
  let starts :=
    if group
    then fold_left
           (fun acc i => mapSet i (position (getBlock (blocks m) i)) acc)
           (selectedGroup m) []
    else [] in
  let planeIntersect :=
    match intersectPlane (ray e) plane with
    | Some p => p
    | None => zero3
    end in
  withDrag true (Some block) (Some plane)
           (sub (position b) planeIntersect) (position b) starts group
           (withGizmo false (gizmoPosition m) m).

Inductive Direction : Type := Up | Down | Left | Right.

Section WithMath.
Context {M : JSMath}.

(** One round of the first loop of [rotateGroup] on the loop state (the
    map of target positions and the lowest world y of the rotated cells
    so far). *)
Definition targetRound (bs : list BlockObject) (center : nat)
           (pivot : Vector3) (q : Quaternion)
           (acc : list (nat * Vector3) * option Q) (i : nat)
  : list (nat * Vector3) * option Q :=
  let block := getBlock bs i in
  let newPos :=
    if Nat.eqb i center then position block
    else
      let relPos := applyQuaternion (sub (position block) pivot) q in
      add pivot (vec3 (num (Math_round (x relPos)))
                      (num (Math_round (y relPos)))
                      (num (Math_round (z relPos)))) in
  (mapSet i newPos (fst acc),
   fold_left
     (fun minWorldY cell =>
        let v := applyQuaternion (cellVec cell) q in
        lowerMin minWorldY (y newPos + num (Math_round (y v))))
     (cells block) (snd acc)).

(** The first loop of [rotateGroup]: the target position of every member
    and the lowest world y of the rotated cells. *)
Definition rotateTargets (bs : list BlockObject) (group : list nat)
           (center : nat) (pivot : Vector3) (q : Quaternion)
  : list (nat * Vector3) * option Q :=
  fold_left (targetRound bs center pivot q) group ([], None).

(** One round of the second loop: rotate the block, lift its target by
    the floor offset, and animate the position when it changes. *)
Definition rotateMember (now : Q) (pivot normalizedAxis : Vector3)
           (axis : Vector3) (pos : Vector3) (b : BlockObject)
  : BlockObject :=
  let b1 := Block.rotateBlock now axis b in
  if negb (equals pos (position b1))
  then Block.animatePositionTo now pos (Some pivot) (Some normalizedAxis) b1
  else b1.

(** One round of the second loop on the loop state: the block array,
    the caller's [axis] (normalised in place by every [rotateBlock] that
    runs) and the map of targets (whose vectors are lifted in place).
    The first loop has given every member a target; the branch without
    one only rotates the block. *)
Definition rotateRound (now : Q) (pivot normalizedAxis : Vector3)
           (yOffset : Q)
           (st : list BlockObject * Vector3 * list (nat * Vector3)) (i : nat)
  : list BlockObject * Vector3 * list (nat * Vector3) :=
  let '(bs, ax, tp) := st in
  let ax' := Block.rotateBlock_axis ax (getBlock bs i) in
  match mapGet i tp with
  | Some pos0 =>
      let pos := vec3 (x pos0) (y pos0 + yOffset) (z pos0) in
      (updateBlock (rotateMember now pivot normalizedAxis ax pos) i bs,
       ax', mapSet i pos tp)
  | None => (updateBlock (Block.rotateBlock now ax) i bs, ax', tp)
  end.

(** The floor adjustment: [minWorldY < 0 ? -minWorldY : 0]. *)
Definition floorOffset (minWorldY : option Q) : Q :=
  match minWorldY with
  | Some v => if Qltb v 0 then - v else 0
  | None => 0
  end.

(** [rotateGroup(axis)]. *)
Definition rotateGroup (now : Q) (axis : Vector3) (m : Manager) : Manager :=
  match centerBlock m with
  | None => m
  | Some center =>
      if existsb (fun i => Block.animating (getBlock (blocks m) i))
                 (selectedGroup m)
      then m
      else
        let pivot := position (getBlock (blocks m) center) in
        let normalizedAxis := normalize axis in
        let q := setFromAxisAngle normalizedAxis (Math_PI / 2) in
        let '(targets, minWorldY) :=
          rotateTargets (blocks m) (selectedGroup m) center pivot q in
        let yOffset := floorOffset minWorldY in
        let '(bs', _, _) :=
          fold_left (rotateRound now pivot normalizedAxis yOffset)
                    (selectedGroup m) (blocks m, axis, targets) in
        withBlocks bs' m
  end.

(** [v.negate()]. *)
Definition negate (v : Vector3) : Vector3 := vec3 (- x v) (- y v) (- z v).

Definition cardinals : list Vector3 :=
  [ vec3 1 0 0; vec3 (-1) 0 0; vec3 0 1 0;
    vec3 0 (-1) 0; vec3 0 0 1; vec3 0 0 (-1) ].

(** The cardinal direction with the largest dot product, the first one
    on a tie. *)
Definition nearestCardinal (axis : Vector3) : Vector3 :=
  fst (fold_left
         (fun (best : Vector3 * option Q) c =>
            let d := dot axis c in
            match snd best with
            | Some bestDot => if Qltb bestDot d then (c, Some d) else best
            | None => (c, Some d)
            end)
         cardinals (vec3 1 0 0, None)).

(** [flipBlock(direction)]: a camera-relative quarter turn about the
    nearest cardinal axis; [cam] is the camera's view direction. *)
Definition flipBlock (now : Q) (cam : Vector3) (direction : Direction)
           (m : Manager) : Manager :=
  match selectedGroup m, centerBlock m with
  | [], _ => m
  | _, None => m
  | _, Some _ =>
      if existsb (fun i => Block.animating (getBlock (blocks m) i))
                 (selectedGroup m)
      then m
      else
        let forward := normalize (vec3 (x cam) 0 (z cam)) in
        let up := vec3 0 1 0 in
        let right := normalize (crossVectors forward up) in
        let axis :=
          match direction with
          | Up => negate right
          | Down => right
          | Left => negate up
          | Right => up
          end in
        rotateGroup now (nearestCardinal axis) m
  end.

(** ** The rotation gizmo *)

(** [getAngleOnPlane(point, center, axis)]. *)
Definition getAngleOnPlane (point center axis : Vector3) : Q :=
  let dir0 := sub point center in
  let dir := normalize (sub dir0 (multiplyScalar axis (dot dir0 axis))) in
  let ref := if Qltb (Qabs (x axis)) (9 # 10)
             then vec3 1 0 0 else vec3 0 1 0 in
  let u := normalize (sub ref (multiplyScalar axis (dot ref axis))) in
  let v := normalize (crossVectors axis u) in
  Math_atan2 (dot dir v) (dot dir u).

(** [while (delta > Math.PI) delta -= Math.PI * 2], run for at most
    [fuel] rounds; the product and the difference are rounded as the
    host rounds them. *)
Fixpoint wrapDown (fuel : nat) (delta : Q) : Q :=
  match fuel with
  | O => delta
  | S fuel' =>
      if Qltb Math_PI delta
      then wrapDown fuel'
             (Binary64.fl (delta - Binary64.fl (Math_PI * 2)))
      else delta
  end.

(** [while (delta < -Math.PI) delta += Math.PI * 2]. *)
Fixpoint wrapUp (fuel : nat) (delta : Q) : Q :=
  match fuel with
  | O => delta
  | S fuel' =>
      if Qltb delta (- Math_PI)
      then wrapUp fuel'
             (Binary64.fl (delta + Binary64.fl (Math_PI * 2)))
      else delta
  end.

(** The rounds granted to each loop: one for every turn in the delta.
    Two angles of [Math.atan2] differ by two turns at most, and one
    round is then enough. *)
Definition wrapRounds (delta : Q) : nat :=
  Z.to_nat (Qceiling (Qabs delta / (Math_PI * 2))).

Definition wrapAngle (delta : Q) : Q :=
  let d := wrapDown (wrapRounds delta) delta in
  wrapUp (wrapRounds d) d.

End WithMath.

(** ** Pointer events *)

Definition isSome {A : Type} (o : option A) : bool :=
  match o with Some _ => true | None => false end.

(** [block === this.centerBlock]. *)
Definition isCenter (block : nat) (m : Manager) : bool :=
  match centerBlock m with
  | Some c => Nat.eqb block c
  | None => false
  end.

(** [resetPointerState()]. *)
Definition resetPointerState (m : Manager) : Manager :=
  withDrag false None None (dragOffset m) (dragTargetStartPos m) [] false
           (withPointer (mouseDownPos m) None false m).

(** The group branch of a drag move: every member goes to its start
    position plus the snapped delta, each clamped to the floor.  A member
    without a recorded start position makes the source throw, which ends
    the loop: the flag of the loop state records that it is still
    running. *)
Definition moveMember (delta : Vector3) (starts : list (nat * Vector3))
           (st : list BlockObject * bool) (i : nat)
  : list BlockObject * bool :=
  if snd st then
    match mapGet i starts with
    | Some startPos =>
        (updateBlock
           (fun b => Block.set_position b
                       (vec3 (x startPos + x delta)
                             (Qmax 0 (y startPos + y delta))
                             (z startPos + z delta)))
           i (fst st), true)
    | None => (fst st, false)
    end
  else st.

Definition moveGroup (delta : Vector3) (starts : list (nat * Vector3))
           (group : list nat) (bs : list BlockObject) : list BlockObject :=
  fst (fold_left (moveMember delta starts) group (bs, true)).

(** The block-dragging branch of [onPointerMove]. *)
Definition dragMove (e : PointerEvent) (target : nat) (plane : Plane)
           (m : Manager) : Manager :=
  match intersectPlane (ray e) plane with
  | Some intersectPoint =>
      let newPos := add intersectPoint (dragOffset m) in
      let snapped := vec3 (num (Math_round (x newPos)))
                          (num (Z.max 0 (Math_round (y newPos))))
                          (num (Math_round (z newPos))) in
      if isGroupDrag m then
        withBlocks (moveGroup (sub snapped (dragTargetStartPos m))
                              (groupDragStartPositions m)
                              (selectedGroup m) (blocks m)) m
      else
        withBlocks (updateBlock (fun b => Block.set_position b snapped)
                                target (blocks m)) m
  | None => m
  end.

Section WithMath.
Context {M : JSMath}.

(** [Math.sqrt(dx * dx + dy * dy)], the distance of the pointer from
    the client position [p], every difference, product and sum rounded
    as the host rounds it. *)
Definition distanceFrom (p : Q * Q) (e : PointerEvent) : Q :=
  let dx := Binary64.fl (clientX e - fst p) in
  let dy := Binary64.fl (clientY e - snd p) in
  Math_sqrt (Binary64.fl (Binary64.fl (dx * dx) + Binary64.fl (dy * dy))).

(** The distance of the pointer from where it went down. *)
Definition pointerDistance (e : PointerEvent) (m : Manager) : Q :=
  distanceFrom (mouseDownPos m) e.

(** [onPointerDown]. *)
Definition onPointerDown (e : PointerEvent) (m : Manager) : Manager :=
  if negb (button e =? 0)%Z then m
  else
    let m1 := withPointer (clientX e, clientY e) (pendingBlock m)
                          (hasMovedPastThreshold m) m in
    match (if gizmoVisible m1 && isSome (centerBlock m1)
           then ringHit e else None) with
    | Some ring =>
        let axis := getAxisForRing ring in
        let center := gizmoPosition m1 in
        let plane := mkPlane axis (- dot axis center) in
        let intersectPoint :=
          match intersectPlane (ray e) plane with
          | Some p => p
          | None => zero3
          end in
        withGizmoDrag true (Some axis) (Some plane)
                      (getAngleOnPlane intersectPoint center axis) 0
                      (withControls false m1)
    | None =>
        match blockHit e with
        | Some block =>
            withControls false
              (withPointer (mouseDownPos m1) (Some block) false m1)
        | None => m1
        end
    end.

(** The end of the gizmo-dragging branch: once the accumulated angle has
    reached an eighth of a turn, one quarter turn in its direction is
    requested and the accumulator starts again from zero. *)
Definition gizmoCommit (e : PointerEvent) (axis : Vector3) (m : Manager)
  : Manager :=
  if Qle_bool (Binary64.fl (Math_PI / 4)) (Qabs (gizmoAccumulatedAngle m))
  then
    let sign : Q := if Qltb 0 (gizmoAccumulatedAngle m) then 1 else -1 in
    let rotAxis := multiplyScalar axis sign in
    let m2 := rotateGroup (timeStamp e) rotAxis m in
    withGizmoDrag (isGizmoDragging m2) (gizmoDragAxis m2)
                  (gizmoDragPlane m2) (gizmoDragStartAngle m2) 0 m2
  else m.

(** The gizmo-dragging branch of [onPointerMove]; the difference of
    the two angles and the sum in the accumulator are rounded as the
    host rounds them. *)
Definition gizmoMove (e : PointerEvent) (axis : Vector3) (plane : Plane)
           (m : Manager) : Manager :=
  match intersectPlane (ray e) plane with
  | Some intersectPoint =>
      let currentAngle :=
        getAngleOnPlane intersectPoint (gizmoPosition m) axis in
      let delta :=
        wrapAngle (Binary64.fl (currentAngle - gizmoDragStartAngle m)) in
      gizmoCommit e axis
        (withGizmoDrag (isGizmoDragging m) (gizmoDragAxis m)
                       (gizmoDragPlane m) currentAngle
                       (Binary64.fl (gizmoAccumulatedAngle m + delta)) m)
  | None => m
  end.

(** [onPointerMove]. *)
Definition onPointerMove (e : PointerEvent) (m : Manager) : Manager :=
  match isGizmoDragging m, gizmoDragAxis m, gizmoDragPlane m,
        centerBlock m with
  | true, Some axis, Some plane, Some _ => gizmoMove e axis plane m
  | _, _, _, _ =>
      (* start the drag once the pointer has left the threshold disc *)
      let m1 :=
        match pendingBlock m with
        | Some block =>
            if negb (hasMovedPastThreshold m) && negb (isDragging m)
               && Qle_bool mouseMoveThreshold (pointerDistance e m)
            then startDrag e block
                   (withPointer (mouseDownPos m) (pendingBlock m) true m)
            else m
        | None => m
        end in
      match isDragging m1, dragTarget m1, dragPlane m1 with
      | true, Some target, Some plane => dragMove e target plane m1
      | _, _, _ => m1     (* hover highlighting only *)
      end
  end.

(** [onPointerUp]. *)
Definition onPointerUp (e : PointerEvent) (m : Manager) : Manager :=
  if negb (button e =? 0)%Z then m
  else if isGizmoDragging m then
    withControls true
      (withGizmoDrag false None None
                     (gizmoDragStartAngle m) (gizmoAccumulatedAngle m) m)
  else if isDragging m then
    let m1 := withDrag false (dragTarget m) (dragPlane m) (dragOffset m)
                       (dragTargetStartPos m) (groupDragStartPositions m)
                       (isGroupDrag m) m in
    let bs :=
      if isGroupDrag m1
      then forEachBlock Block.snapToGrid (selectedGroup m1) (blocks m1)
      else match dragTarget m1 with
           | Some target => updateBlock Block.snapToGrid target (blocks m1)
           | None => blocks m1
           end in
    let m2 := withBlocks bs m1 in
    let m3 :=
      match centerBlock m2 with
      | Some center =>
          withGizmo true
            (Block.getCenterCellWorldPos (getBlock (blocks m2) center)) m2
      | None => m2
      end in
    resetPointerState (withControls true m3)
  else
    match pendingBlock m with
    | Some block =>
        let m1 :=
          if negb (hasMovedPastThreshold m) then
            if isCenter block m then m
            else selectGroupWithCenter
                   (findConnectedBlocks (blocks m) block) block m
          else m in
        resetPointerState (withControls true m1)
    | None =>
        if Qltb (pointerDistance e m) mouseMoveThreshold then
          if gizmoVisible m && isSome (ringHit e) then
            resetPointerState (withControls true m)
          else
            let m1 := match blockHit e with
                      | None => deselectAll m
                      | Some _ => m
                      end in
            resetPointerState (withControls true m1)
        else resetPointerState (withControls true m)
    end.

(** [onDblClick]: isolate the block under the pointer. *)
Definition onDblClick (e : PointerEvent) (m : Manager) : Manager :=
  match blockHit e with
  | Some block =>
      let bs1 := forEachBlock (Block.setSelected false) (selectedGroup m)
                              (blocks m) in
      let bs2 := updateBlock (Block.setSelected true) block bs1 in
      withGizmo true (Block.getCenterCellWorldPos (getBlock bs2 block))
                (withSelection [block] (Some block) (withBlocks bs2 m))
  | None => m
  end.

(** ** The render tick *)

Fixpoint updateAll (clock : nat -> Q) (i : nat) (bs : list BlockObject)
  : list BlockObject :=
  match bs with
  | [] => []
  | b :: rest => Block.updateAnimation (clock i) b :: updateAll clock (S i) rest
  end.

(** [update()]: every block's animation advances, in block-list order,
    each with its own reading of the clock; then the gizmo follows the
    centre block.  The collision scan that ends the tick only feeds the
    host callback. *)
Definition update (clock : nat -> Q) (m : Manager) : Manager :=
  let m1 := withBlocks (updateAll clock 0 (blocks m)) m in
  match centerBlock m1 with
  | Some center =>
      if gizmoVisible m1 && negb (isDragging m1) && negb (isGizmoDragging m1)
      then withGizmo (gizmoVisible m1)
             (Block.getCenterCellWorldPos (getBlock (blocks m1) center)) m1
      else m1
  | None => m1
  end.

(** ** The event loop *)

Inductive Event : Type :=
| PointerDown (e : PointerEvent)
| PointerMove (e : PointerEvent)
| PointerUp (e : PointerEvent)
| DblClick (e : PointerEvent)
| Flip (now : Q) (cam : Vector3) (direction : Direction)
| SelectById (id : Z)
| Tick (clock : nat -> Q).

Definition step (m : Manager) (ev : Event) : Manager :=
  match ev with
  | PointerDown e => onPointerDown e m
  | PointerMove e => onPointerMove e m
  | PointerUp e => onPointerUp e m
  | DblClick e => onDblClick e m
  | Flip now cam d => flipBlock now cam d m
  | SelectById id => selectBlockById id m
  | Tick clock => update clock m
  end.

Definition run (m : Manager) (evs : list Event) : Manager :=
  fold_left step evs m.

End WithMath.

(** ** A host for the examples

    [Math.PI] is the double nearest to pi.  At a quarter of it, [sin] and
    [cos] return the doubles a JavaScript engine returns; elsewhere they
    are Taylor polynomials.  [sqrt] is an integer square root on
    twenty-four decimal digits and [atan2] a piecewise approximation of
    the arctangent. *)

Definition PI_double : Q := 884279719003555 # 281474976710656.
Definition sin_PI_4_double : Q := 1592262918131443 # 2251799813685248.
Definition cos_PI_4_double : Q := 6369051672525773 # 9007199254740992.

Definition taylorSin (a : Q) : Q :=
  let a2 := a * a in
  Qred (a * (1 - a2 / 6 * (1 - a2 / 20 * (1 - a2 / 42 * (1 - a2 / 72))))).

Definition taylorCos (a : Q) : Q :=
  let a2 := a * a in
  Qred (1 - a2 / 2 * (1 - a2 / 12 * (1 - a2 / 30 * (1 - a2 / 56)))).

Definition hostSqrt (a : Q) : Q :=
  Qred (Z.sqrt (Qnum a * Zpos (Qden a) * 10 ^ 24)
        # (Qden a * 10 ^ 12)).

Definition hostAtan (t : Q) : Q :=
  t * ((PI_double / 4) + (273 # 1000) * (1 - Qabs t)).

Definition hostAtan2 (b a : Q) : Q :=
  if Qeq_bool a 0 then
    if Qltb 0 b then PI_double / 2
    else if Qltb b 0 then - (PI_double / 2) else 0
  else
    let r :=
      if Qle_bool (Qabs b) (Qabs a) then hostAtan (b / a)
      else (if Qltb 0 (b / a) then PI_double / 2 else - (PI_double / 2))
           - hostAtan (a / b) in
    if Qltb 0 a then r
    else if Qle_bool 0 b then r + PI_double else r - PI_double.

Definition hostMath : JSMath :=
  {| Math_PI := PI_double;
     Math_sin := fun a => if Qeq_bool a (PI_double / 2 / 2)
                          then sin_PI_4_double else taylorSin a;
     Math_cos := fun a => if Qeq_bool a (PI_double / 2 / 2)
                          then cos_PI_4_double else taylorCos a;
     Math_sqrt := hostSqrt;
     Math_atan2 := hostAtan2 |}.

(** A pointer event at the client position [(cx, cy)] whose ray comes
    straight down the z axis through the world point [(wx, wy)] and hits
    the block [hit]. *)
Definition pointerAt (cx cy wx wy : Q) (hit : option nat) (now : Q)
  : PointerEvent :=
  mkPointerEvent 0 cx cy
                 (mkRay (vec3 wx wy 10) (vec3 0 0 (-1)))
                 (vec3 0 0 (-1)) None hit now.

(** The same event over a gizmo ring. *)
Definition pointerOnRing (cx cy wx wy : Q) (ring : RingAxis) (now : Q)
  : PointerEvent :=
  mkPointerEvent 0 cx cy
                 (mkRay (vec3 wx wy 10) (vec3 0 0 (-1)))
                 (vec3 0 0 (-1)) (Some ring) None now.

(** ** Statements about the gizmo *)

(** What the code keeps true of the gizmo: it is shown only with a
    centre block, and a centre block outside a block drag has it shown. *)
Definition gizmoInvariant (m : Manager) : Prop :=
  (gizmoVisible m = true -> isSome (centerBlock m) = true) /\
  (isSome (centerBlock m) = true -> isDragging m = false ->
   gizmoVisible m = true).

(** "Visible exactly when a centre block is selected". *)
Definition gizmoShowsCenter (m : Manager) : Prop :=
  gizmoVisible m = true <-> isSome (centerBlock m) = true.

(** The three fields the gizmo invariant reads. *)
Definition gizmoView (m : Manager) : bool * option nat * bool :=
  (gizmoVisible m, centerBlock m, isDragging m).

(** ** Statements about the cell count *)

(** [b] has the identity and the number of cells of [b0], and so have
    its pending cells. *)
Definition keepsCellCount (b0 b : BlockObject) : Prop :=
  blockId b = blockId b0 /\
  List.length (cells b) = List.length (cells b0) /\
  match pendingCells b with
  | Some p => List.length p = List.length (cells b0)
  | None => True
  end.

(** [b] is the block of the catalog entry [def], up to rotation. *)
Definition hasCatalogCount (def : Z * list Cell) (b : BlockObject) : Prop :=
  blockId b = fst def /\ List.length (cells b) = List.length (snd def).

(** ** Statements about connectivity *)

(** Face adjacency between the blocks behind two references. *)
Definition adjacent (bs : list BlockObject) (i j : nat) : Prop :=
  areAdjacent (getBlock bs i) (getBlock bs j) = true.

Definition manhattan (a b : Cell) : Z :=
  let '(ax, ay, az) := a in
  let '(bx, by_, bz) := b in
  (Z.abs (ax - bx) + Z.abs (ay - by_) + Z.abs (az - bz))%Z.


(** [connected bs i k]: a chain of adjacent blocks of the array leads
    from [i] to [k]. *)
Inductive connected (bs : list BlockObject) (i : nat) : nat -> Prop :=
| connected_here : connected bs i i
| connected_next : forall j k,
    connected bs i j -> (k < List.length bs)%nat -> adjacent bs j k ->
    connected bs i k.

(** What the loop of [findConnectedBlocks] keeps true of the visited set
    and the queue: the queue is the tail of the visited array, every
    visited block is connected to the seed, and every neighbour of a
    block that has left the queue is visited. *)
Definition floodInvariant (bs : list BlockObject) (seed : nat)
           (visited queue : list nat) : Prop :=
  NoDup visited /\
  In seed visited /\
  (forall v, In v visited -> connected bs seed v) /\
  exists processed,
    visited = processed ++ queue /\
    forall p o, In p processed -> (o < List.length bs)%nat ->
                adjacent bs p o -> In o visited.

(** [r] lists the component of [seed], each block once. *)
Definition isComponent (bs : list BlockObject) (seed : nat) (r : list nat)
  : Prop :=
  NoDup r /\ forall k, In k r <-> connected bs seed k.

(** ** Statements about collisions *)

(** Two blocks share an occupied cell. *)
Definition sharesCell (a b : BlockObject) : Prop :=
  exists c, In c (Block.getWorldCellPositions a) /\
            In c (Block.getWorldCellPositions b).

(** The block behind [i] shares a cell with another block of the
    array. *)
Definition collides (bs : list BlockObject) (i : nat) : Prop :=
  exists j, (j < List.length bs)%nat /\ j <> i /\
            sharesCell (getBlock bs i) (getBlock bs j).

(** The sequence of [(key, id)] pairs that [detectCollisions] pushes. *)
Definition pushes (bs : list BlockObject) : list (Cell * Z) :=
  flat_map (fun b => map (fun c => (c, blockId b))
                         (Block.getWorldCellPositions b)) bs.

(** The ids pushed under the key [k], in order. *)
Definition idsAt (k : Cell) (ps : list (Cell * Z)) : list Z :=
  map snd (filter (fun p => cell_eqb (fst p) k) ps).

(** [map.get(k)], the empty array when the key is absent. *)
Definition getIds (k : Cell) (m : CellMap) : list Z :=
  match find (fun e => cell_eqb (fst e) k) m with
  | Some e => snd e
  | None => []
  end.

(** The block occupies the cell [k]. *)
Definition occupies (k : Cell) (b : BlockObject) : bool :=
  existsb (fun c => cell_eqb c k) (Block.getWorldCellPositions b).

(** The collision scenario: the first catalog shape at the origin and
    a second block of the same shape, with id 1, at [(1, 0, 0)]. *)
Definition scenarioBlocks : list BlockObject :=
  [ placeBlock (0, [(0, 0, 0); (-1, 0, 0); (0, 0, 1)])%Z (0, 0, 0)%Z;
    placeBlock (1, [(0, 0, 0); (-1, 0, 0); (0, 0, 1)])%Z (1, 0, 0)%Z ].

(** The world cell of the cell offset [c] of a block at [p]: position
    plus offset, the sum a number of the host, each coordinate
    rounded. *)
Definition worldCell (p : Vector3) (c : Cell) : Cell :=
  (Math_round (Binary64.fl (x p + num (fst (fst c)))),
   Math_round (Binary64.fl (y p + num (snd (fst c)))),
   Math_round (Binary64.fl (z p + num (snd c)))).

(** Two blocks share an occupied world cell. *)
Definition sharesWorldCell (a b : BlockObject) : Prop :=
  exists ca cb, In ca (cells a) /\ In cb (cells b) /\
                worldCell (position a) ca = worldCell (position b) cb.

(** The block behind [i] shares a world cell with another block of the
    array. *)
Definition overlaps (bs : list BlockObject) (i : nat) : Prop :=
  exists j, (j < List.length bs)%nat /\ j <> i /\
            sharesWorldCell (getBlock bs i) (getBlock bs j).

(** The block puts no two of its cells on one world cell. *)
Definition selfDisjoint (b : BlockObject) : Prop :=
  NoDup (map (worldCell (position b)) (cells b)).

(** The pushes and the occupants, with the sums rounded. *)
Definition roundedPushes (bs : list BlockObject) : list (Cell * Z) :=
  flat_map (fun b => map (fun c => (c, blockId b))
                         (Double.getWorldCellPositions b)) bs.

Definition roundedOccupies (k : Cell) (b : BlockObject) : bool :=
  existsb (fun c => cell_eqb c k) (Double.getWorldCellPositions b).

(** A lone block of the first catalog shape, half a unit and one unit
    in the last place left of the origin: [-(2^52 + 1) / 2^53]. *)
Definition offGridBlock : BlockObject :=
  Block.set_position
    (Block.create 0 [(0, 0, 0); (-1, 0, 0); (0, 0, 1)]%Z)
    (vec3 (- (4503599627370497 # 9007199254740992)) 0 0).

(** The height of the block and the heights of its cells are within
    [2 ^ 50] of zero. *)
Definition withinReach (b : BlockObject) : Prop :=
  Qabs (y (position b)) <= num (2 ^ 50) /\
  Forall (fun c : Cell => (Z.abs (snd (fst c)) <= 2 ^ 50)%Z) (cells b).

(** A block of the fifth catalog shape with one more cell under its
    origin, off the grid and under the floor. *)
Definition sunkBlock : BlockObject :=
  Block.set_position
    (Block.create 4 [(0, 0, 0); (-1, 0, 0); (0, 0, 1); (0, 1, 0);
                     (0, -1, 0)]%Z)
    (vec3 (1 # 10) (- (23 # 10)) (7 # 2)).

(** The first loop of [detectCollisions] on the sequence of pushes. *)
Definition pushAll (ps : list (Cell * Z)) (m : CellMap) : CellMap :=
  fold_left (fun m' p => pushId (fst p) (snd p) m') ps m.

(** The second loop: the ids of every key with more than one
    occupant. *)
Definition collect (m : CellMap) (acc : list Z) : list Z :=
  fold_left
    (fun colliding (entry : Cell * list Z) =>
       let ids := snd entry in
       if (1 <? List.length ids)%nat
       then fold_left (fun s id => setAdd id s) ids colliding
       else colliding)
    m acc.

(** ** Statements about quarter turns *)

(** The six cardinal axes, as integer triples. *)
Definition cardinalCells : list Cell :=
  [ (1, 0, 0); (-1, 0, 0); (0, 1, 0); (0, -1, 0); (0, 0, 1); (0, 0, -1) ]%Z.

Definition crossZ (a v : Cell) : Cell :=
  let '(ax, ay, az) := a in
  let '(vx, vy, vz) := v in
  (ay * vz - az * vy, az * vx - ax * vz, ax * vy - ay * vx)%Z.

(** The quarter turn of the integer grid about the unit axis [a]:
    [a x v + (a . v) a]. *)
Definition quarterTurn (a v : Cell) : Cell :=
  let '(ax, ay, az) := a in
  let '(vx, vy, vz) := v in
  let '(wx, wy, wz) := crossZ a v in
  let d := (ax * vx + ay * vy + az * vz)%Z in
  (wx + d * ax, wy + d * ay, wz + d * az)%Z.

(** The quaternion of [rotateBlock] and [rotateGroup]. *)
Definition quarterQuat {M : JSMath} (axis : Vector3) : Quaternion :=
  setFromAxisAngle (normalize axis) (Math_PI / 2).

(** How far the host's [sin] and [cos] of an eighth of a turn are from
    [2 sin cos = 1] and [2 sin^2 = 1]. *)
Definition quarterTurnError (M : JSMath) : Q :=
  let s := Math_sin (Math_PI / 2 / 2) in
  let c := Math_cos (Math_PI / 2 / 2) in
  Qmax (Qabs (2 * s * c - 1)) (Qabs (2 * s * s - 1)).

(** The host is accurate enough for cells of size up to [B]: its square
    root of one is one, and the drift of a rotated coordinate, at most
    [2 B] times the error, stays below one half. *)
Definition accurateFor (B : Z) (M : JSMath) : Prop :=
  (forall q, q == 1 -> Math_sqrt q == 1) /\
  4 * quarterTurnError M * inject_Z B < 1.

Definition smallCell (B : Z) (c : Cell) : Prop :=
  let '(cx, cy, cz) := c in
  (Z.abs cx <= B /\ Z.abs cy <= B /\ Z.abs cz <= B)%Z.

(** The block stands on a grid point no farther than [B] from the
    origin along each axis. *)
Definition onGrid (B : Z) (b : BlockObject) : Prop :=
  exists p : Cell, position b = cellVec p /\ smallCell B p.

(** A whole quarter turn of a block: [rotateBlock(axis)] at time [now],
    then the tick that ends the animation. *)
Definition turnBlock {M : JSMath} (now : Q) (axis : Vector3)
           (b : BlockObject) : BlockObject :=
  Block.updateAnimation (now + ROTATION_DURATION)
                        (Block.rotateBlock now axis b).

(** Componentwise equality of numbers. *)
Definition veq (a b : Vector3) : Prop :=
  x a == x b /\ y a == y b /\ z a == z b.

Definition qeq (p q : Quaternion) : Prop :=
  qx p == qx q /\ qy p == qy q /\ qz p == qz q /\ qw p == qw q.

(** ** Statements about group rotation *)

(** A target lifted by the floor offset. *)
Definition lift (offset : Q) (p : Vector3) : Vector3 :=
  vec3 (x p) (y p + offset) (z p).

(** The target of member [i] before the floor adjustment: the centre
    block stays where it is, every other member goes to
    [pivot + round(q (memberPos - pivot))]. *)
Definition spec_target (bs : list BlockObject) (center : nat)
           (q : Quaternion) (i : nat) : Vector3 :=
  let pivot := position (getBlock bs center) in
  if Nat.eqb i center then position (getBlock bs i)
  else add pivot
           (cellVec (roundVec
              (applyQuaternion (sub (position (getBlock bs i)) pivot) q))).

(** The world y of every rotated cell of the group, at the targets. *)
Definition spec_worldYs (bs : list BlockObject) (group : list nat)
           (center : nat) (q : Quaternion) : list Q :=
  flat_map
    (fun i =>
       map (fun cell =>
              y (spec_target bs center q i)
              + num (Math_round (y (applyQuaternion (cellVec cell) q))))
           (cells (getBlock bs i)))
    group.

Definition isLowest (ys : list Q) (m : Q) : Prop :=
  In m ys /\ forall v, In v ys -> m <= v.

(** The one offset of the whole group: the opposite of the lowest world
    y when that is negative, zero otherwise. *)
Definition isFloorOffset (ys : list Q) (offset : Q) : Prop :=
  (exists lowest, isLowest ys lowest /\ lowest < 0 /\ offset = - lowest) \/
  ((forall v, In v ys -> 0 <= v) /\ offset = 0).


(** The group is a set of references into the block array. *)
Definition wellFormedGroup (m : Manager) : Prop :=
  NoDup (selectedGroup m) /\
  forall i, In i (selectedGroup m) -> (i < List.length (blocks m))%nat.

(** No member of the group is animating. *)
Definition groupAtRest (m : Manager) : Prop :=
  forall i, In i (selectedGroup m) ->
            Block.animating (getBlock (blocks m) i) = false.

(** ** Statements about the floor *)

(** Every occupied cell of the block is on or above the floor. *)
Definition floorHolds (b : BlockObject) : Prop :=
  forall cell, In cell (cells b) ->
               0 <= y (position b) + num (snd (fst cell)).

(** One block isolated by a double click, turned a quarter about +x by
    the down arrow (its third cell swings under its origin and the floor
    offset lifts the block by one), left to finish the animation, then
    dragged one unit down and released. *)
Definition turnThenDragDown : list Event :=
  [ DblClick (pointerAt 0 0 0 0 (Some 0%nat) 0);
    Flip 10 (vec3 0 0 (-1)) Down;
    Tick (fun _ => 250);
    PointerDown (pointerAt 0 0 0 1 (Some 0%nat) 300);
    PointerMove (pointerAt 0 10 0 1 None 310);
    PointerMove (pointerAt 0 20 0 0 None 320);
    PointerUp (pointerAt 0 20 0 0 None 330) ].

(** ** Statements about the gizmo drag *)

(** The orientation of the block is untouched, or the block, at rest
    before, has been asked for a quarter turn about the grid axis [a]:
    its target is the quaternion of the angle [Math.PI / 2] about [a]
    and its pending cells are its cells turned by a quarter about [a]. *)
Definition turnedAbout {M : JSMath} (a : Cell) (b0 b : BlockObject) : Prop :=
  cells b = cells b0 /\
  ((isAnimating b = isAnimating b0 /\
    animTargetQuat b = animTargetQuat b0 /\
    pendingCells b = pendingCells b0) \/
   (isAnimating b0 = false /\ isAnimating b = true /\
    qeq (animTargetQuat b) (setFromAxisAngle (cellVec a) (Math_PI / 2)) /\
    pendingCells b = Some (map (quarterTurn a) (cells b0)))).

(** The same, for a block whose cells were within [B] of the origin. *)
Definition turnedWithin {M : JSMath} (B : Z) (a : Cell)
           (b0 b : BlockObject) : Prop :=
  turnedAbout a b0 b /\ Forall (smallCell B) (cells b0).

(** A gizmo drag on the z ring of an isolated block, from the angle 0 to
    a quarter of a turn further, and the same drag started while the
    block is still turning. *)
Definition gizmoQuarterDrag : list Event :=
  [ DblClick (pointerAt 0 0 0 0 (Some 0%nat) 0);
    PointerDown (pointerOnRing 0 0 1 (1 # 2) RingZ 20);
    PointerMove (pointerOnRing 0 0 0 (3 # 2) RingZ 30) ].

Definition gizmoDragWhileTurning : list Event :=
  [ DblClick (pointerAt 0 0 0 0 (Some 0%nat) 0);
    Flip 10 (vec3 0 0 (-1)) Down;
    PointerDown (pointerOnRing 0 0 1 (1 # 2) RingZ 20);
    PointerMove (pointerOnRing 0 0 0 (3 # 2) RingZ 30) ].

(** The manager after the press on the ring, and the move that
    follows. *)
Definition gizmoPressed : Manager :=
  run (M := hostMath) initialManager (removelast gizmoQuarterDrag).

Definition gizmoSecondSample : PointerEvent :=
  pointerOnRing 0 0 0 (3 # 2) RingZ 30.

(** ** Statements about clicks *)

(** The press goes to the gizmo: left button, gizmo shown with a centre
    block, a ring under the pointer. *)
Definition pressStartsGizmoDrag (m : Manager) (e : PointerEvent) : bool :=
  (button e =? 0)%Z && gizmoVisible m && isSome (centerBlock m)
  && isSome (ringHit e).

(** The block is as before, except perhaps for its highlight. *)
Definition sameButSelected (b0 b : BlockObject) : Prop :=
  Block.setSelected (selected b0) b = b0.

(** A press, moves, and a release. *)
Definition clickEvents (down : PointerEvent) (moves : list PointerEvent)
           (up : PointerEvent) : list Event :=
  PointerDown down :: map PointerMove moves ++ [PointerUp up].

(** A press on the z ring of the gizmo, a move of the pointer by one
    device pixel in each direction during which the ray sweeps a quarter
    of a turn around the pivot, and the release. *)
Definition gizmoClick : list Event :=
  clickEvents (pointerOnRing 0 0 1 (1 # 2) RingZ 20)
              [pointerOnRing 1 1 0 (3 # 2) RingZ 30]
              (pointerOnRing 1 1 0 (3 # 2) RingZ 40).

(** The first block isolated by a double click, at rest. *)
Definition isolatedFirst : Manager :=
  run (M := hostMath) initialManager
      [DblClick (pointerAt 0 0 0 0 (Some 0%nat) 0)].

(** No gesture is in progress. *)
Definition idle (m : Manager) : Prop :=
  isDragging m = false /\ isGizmoDragging m = false.

(** A left press on the second block, not yet released; then a press
    of the right button elsewhere, two moves that stay within two
    device pixels of that press while the ray goes one unit to the
    right, and the release. *)
Definition secondPressed : Manager :=
  run (M := hostMath) initialManager
      [PointerDown (pointerAt 0 0 3 0 (Some 1%nat) 10)].

Definition rightPress : PointerEvent :=
  mkPointerEvent 2 100 100
                 (mkRay (vec3 3 0 10) (vec3 0 0 (-1)))
                 (vec3 0 0 (-1)) None None 20.

Definition rightClick : list Event :=
  clickEvents rightPress
              [pointerAt 101 101 3 0 None 30; pointerAt 101 101 4 0 None 40]
              (pointerAt 101 101 4 0 None 50).

(** ** The pointer in normalised device coordinates *)

(** [getBoundingClientRect()] of the canvas. *)
Record DOMRect : Type := mkRect {
  rectLeft : Q; rectTop : Q; rectWidth : Q; rectHeight : Q
}.

(** [updateMouse(e)]: the pair [(mouse.x, mouse.y)] that the ray caster
    is given, every operation rounded as the host rounds it. *)
Definition updateMouse (rect : DOMRect) (cx cy : Q) : Q * Q :=
  let fl := Binary64.fl in
  (fl (fl (fl (fl (cx - rectLeft rect) / rectWidth rect) * 2) - 1),
   fl (fl (- fl (fl (cy - rectTop rect) / rectHeight rect) * 2) + 1)).

(** The parts of [updateMouse]: the fraction of the canvas left of (or
    above) the pointer, and the two coordinates from the fractions. *)
Definition canvasFraction (c origin size : Q) : Q :=
  Binary64.fl (Binary64.fl (c - origin) / size).

Definition mouseAcross (u : Q) : Q :=
  Binary64.fl (Binary64.fl (u * 2) - 1).

Definition mouseUp (v : Q) : Q :=
  Binary64.fl (Binary64.fl (- v * 2) + 1).

(** ** RotationGizmo: the rings and their highlight
    ([src/game/RotationGizmo.ts])

    A ring mesh is named by its axis; [highlightRing] is called with a
    ring of the gizmo or with [null], and the two fields of a ring's
    material that the gizmo writes are its opacity and its colour. *)

Module Gizmo.

Definition GIZMO_COLORS_x : Z := 0xff4444.
Definition GIZMO_COLORS_y : Z := 0x44ff44.
Definition GIZMO_COLORS_z : Z := 0x4444ff.
Definition GIZMO_COLORS_hover : Z := 0xffff00.

Definition baseColor (r : RingAxis) : Z :=
  match r with
  | RingX => GIZMO_COLORS_x
  | RingY => GIZMO_COLORS_y
  | RingZ => GIZMO_COLORS_z
  end.

Record Material : Type := mkMaterial { opacity : Q; color : Z }.

Record State : Type := mkState {
  visible : bool;
  position : Vector3;
  material : RingAxis -> Material;
  hoveredRing : option RingAxis
}.

Definition ring_eqb (a b : RingAxis) : bool :=
  match a, b with
  | RingX, RingX | RingY, RingY | RingZ, RingZ => true
  | _, _ => false
  end.

Definition setMaterial (r : RingAxis) (mat : Material)
           (f : RingAxis -> Material) : RingAxis -> Material :=
  fun r' => if ring_eqb r' r then mat else f r'.

(** [new RotationGizmo()]: hidden, every ring in its own colour. *)
Definition create : State :=
  mkState false zero3 (fun r => mkMaterial (7 # 10) (baseColor r)) None.

(** [resetHover()]. *)
Definition resetHover (g : State) : State :=
  match hoveredRing g with
  | Some r =>
      mkState (visible g) (position g)
              (setMaterial r (mkMaterial (7 # 10) (baseColor r)) (material g))
              None
  | None => g
  end.

(** [show(worldCenter)]. *)
Definition show (worldCenter : Vector3) (g : State) : State :=
  mkState true worldCenter (material g) (hoveredRing g).

(** [hide()]. *)
Definition hide (g : State) : State :=
  resetHover (mkState false (position g) (material g) (hoveredRing g)).

(** [this.hoveredRing === mesh]. *)
Definition sameRing (a b : option RingAxis) : bool :=
  match a, b with
  | Some r, Some r' => ring_eqb r r'
  | None, None => true
  | _, _ => false
  end.

(** [highlightRing(mesh)]. *)
Definition highlightRing (mesh : option RingAxis) (g : State) : State :=
  if sameRing (hoveredRing g) mesh then g
  else
    let g1 := resetHover g in
    match mesh with
    | Some r =>
        mkState (visible g1) (position g1)
                (setMaterial r (mkMaterial 1 GIZMO_COLORS_hover) (material g1))
                (Some r)
    | None => g1
    end.

(** The calls the manager makes on the gizmo. *)
Inductive Call : Type :=
| Show (worldCenter : Vector3)
| Hide
| HighlightRing (mesh : option RingAxis).

Definition call (g : State) (c : Call) : State :=
  match c with
  | Show p => show p g
  | Hide => hide g
  | HighlightRing mesh => highlightRing mesh g
  end.

(** Every ring has its own colour and the resting opacity, except the
    hovered one, which has the hover colour at full opacity. *)
Definition hoverInvariant (g : State) : Prop :=
  forall r,
    material g r
    = if sameRing (hoveredRing g) (Some r)
      then mkMaterial 1 GIZMO_COLORS_hover
      else mkMaterial (7 # 10) (baseColor r).

End Gizmo.

(** ** SceneManager: the camera animation
    ([src/game/SceneManager.ts])

    The state is the camera position, the target of the orbit controls
    and the animation fields.  [animateCamera] is the camera block of
    the render loop [animate]; what follows it there
    ([controls.update()], the render callbacks and the render itself)
    is the library's and the host's. *)

Module Camera.

Definition INITIAL_CAMERA_POS : Vector3 := vec3 6 10 8.
Definition LOOK_AT : Vector3 := vec3 0 0 0.

Inductive Mode : Type := ModeRotate | ModeReset.

Record State : Type := mkState {
  position : Vector3;               (* camera.position *)
  target : Vector3;                 (* controls.target *)
  cameraAnimating : bool;
  cameraAnimStart : Q;
  cameraAnimMode : Mode;
  camAnimStartAngle : Q;
  camAnimDeltaAngle : Q;
  camAnimRadius : Q;
  camAnimHeight : Q;
  cameraStartPos : Vector3;
  cameraTargetPos : Vector3
}.

(** The fields after the constructor. *)
Definition create : State :=
  mkState INITIAL_CAMERA_POS LOOK_AT false 0 ModeRotate 0 0 0 0
          (vec3 0 0 0) (vec3 0 0 0).

Section WithMath.
Context {M : JSMath}.





End WithMath.

End Camera.

(** ** The earlier manager: one selected block
    (the earlier [InteractionManager.ts])

    Before groups, the manager kept a single [selectedBlock]; a press on
    a block selected it and started the drag at once, and the release
    snapped the block and called [adjustToFloor].  The selection and the
    release are embedded here. *)

Module Legacy.

Record Manager : Type := mkManager {
  blocks : list BlockObject;
  selectedBlock : option nat;
  isDragging : bool;
  dragPlane : option Plane;
  dragOffset : Vector3;
  dragStartPos : Vector3;
  mouseDownPos : Q * Q;
  gizmoVisible : bool;
  gizmoPosition : Vector3;
  isGizmoDragging : bool;
  gizmoDragAxis : option Vector3;
  gizmoDragPlane : option Plane;
  gizmoDragStartAngle : Q;
  gizmoAccumulatedAngle : Q;
  controlsEnabled : bool
}.

(** [selectBlock(block)]; [None] is [null]. *)
Definition selectBlock (block : option nat) (m : Manager) : Manager :=
  let bs1 :=
    match selectedBlock m with
    | Some s => updateBlock (Block.setSelected false) s (blocks m)
    | None => blocks m
    end in
  match block with
  | Some b =>
      let bs2 := updateBlock (Block.setSelected true) b bs1 in
      mkManager bs2 (Some b) (isDragging m) (dragPlane m) (dragOffset m)
                (dragStartPos m) (mouseDownPos m)
                true (Block.getWorldCenter (getBlock bs2 b))
                (isGizmoDragging m) (gizmoDragAxis m) (gizmoDragPlane m)
                (gizmoDragStartAngle m) (gizmoAccumulatedAngle m)
                (controlsEnabled m)
  | None =>
      mkManager bs1 None (isDragging m) (dragPlane m) (dragOffset m)
                (dragStartPos m) (mouseDownPos m)
                false (gizmoPosition m)
                (isGizmoDragging m) (gizmoDragAxis m) (gizmoDragPlane m)
                (gizmoDragStartAngle m) (gizmoAccumulatedAngle m)
                (controlsEnabled m)
  end.

(** [this.dragPlane = null], the last statement of [onPointerUp]. *)
Definition clearDragPlane (m : Manager) : Manager :=
  mkManager (blocks m) (selectedBlock m) (isDragging m) None (dragOffset m)
            (dragStartPos m) (mouseDownPos m)
            (gizmoVisible m) (gizmoPosition m)
            (isGizmoDragging m) (gizmoDragAxis m) (gizmoDragPlane m)
            (gizmoDragStartAngle m) (gizmoAccumulatedAngle m)
            (controlsEnabled m).

Section WithMath.
Context {M : JSMath}.

(** [onPointerUp]. *)
Definition onPointerUp (e : PointerEvent) (m : Manager) : Manager :=
  if negb (button e =? 0)%Z then m
  else
    let dx := clientX e - fst (mouseDownPos m) in
    let dy := clientY e - snd (mouseDownPos m) in
    let dist := Math_sqrt (dx * dx + dy * dy) in
    if isGizmoDragging m then
      mkManager (blocks m) (selectedBlock m) (isDragging m) (dragPlane m)
                (dragOffset m) (dragStartPos m) (mouseDownPos m)
                (gizmoVisible m) (gizmoPosition m)
                false None None
                (gizmoDragStartAngle m) (gizmoAccumulatedAngle m) true
    else if isDragging m then
      match selectedBlock m with
      | Some s =>
          let bs :=
            updateBlock
              (fun b => Block.adjustToFloor (Block.snapToGrid b))
              s (blocks m) in
          clearDragPlane
            (mkManager bs (selectedBlock m) false (dragPlane m)
                       (dragOffset m) (dragStartPos m) (mouseDownPos m)
                       true (Block.getWorldCenter (getBlock bs s))
                       (isGizmoDragging m) (gizmoDragAxis m)
                       (gizmoDragPlane m) (gizmoDragStartAngle m)
                       (gizmoAccumulatedAngle m) true)
      | None =>
          clearDragPlane
            (mkManager (blocks m) (selectedBlock m) false (dragPlane m)
                       (dragOffset m) (dragStartPos m) (mouseDownPos m)
                       (gizmoVisible m) (gizmoPosition m)
                       (isGizmoDragging m) (gizmoDragAxis m)
                       (gizmoDragPlane m) (gizmoDragStartAngle m)
                       (gizmoAccumulatedAngle m) true)
      end
    else if Qltb dist 5 then
      if gizmoVisible m && isSome (ringHit e) then m
      else
        clearDragPlane
          match blockHit e with
          | None => selectBlock None m
          | Some _ => m
          end
    else clearDragPlane m.

End WithMath.

End Legacy.

(** ** Statements about the grid *)

Definition cellAdd (a b : Cell) : Cell :=
  let '(ax, ay, az) := a in
  let '(bx, by_, bz) := b in
  (ax + bx, ay + by_, az + bz)%Z.

Definition cellSub (a b : Cell) : Cell :=
  let '(ax, ay, az) := a in
  let '(bx, by_, bz) := b in
  (ax - bx, ay - by_, az - bz)%Z.

Definition oppositeCell (a : Cell) : Cell :=
  let '(ax, ay, az) := a in (- ax, - ay, - az)%Z.

(** The block stands at the grid point [c]. *)
Definition atCell (c : Cell) (b : BlockObject) : Prop :=
  veq (position b) (cellVec c).

(** The grid point nearest to the block behind [i]. *)
Definition placeOf (m : Manager) (i : nat) : Cell :=
  roundVec (position (getBlock (blocks m) i)).

(** ** Statements about shapes *)

(** The vector is a cardinal axis, up to the representation of its
    coordinates. *)
Definition nearCardinal (v : Vector3) : Prop :=
  exists a, In a cardinalCells /\ veq v (cellVec a).

(** The axis of a gizmo drag in progress is a cardinal axis. *)
Definition gizmoAxisCardinal (m : Manager) : Prop :=
  forall ax, gizmoDragAxis m = Some ax -> nearCardinal ax.

(** The quarter turns of the grid about the axes [axes], one after the
    other. *)
Definition turnsOf (axes : list Cell) (v : Cell) : Cell :=
  fold_left (fun w a => quarterTurn a w) axes v.

(** [cs] is [cs0] after a sequence of quarter turns about cardinal
    axes. *)
Definition isTurned (cs0 cs : list Cell) : Prop :=
  exists axes, Forall (fun a => In a cardinalCells) axes /\
               cs = map (turnsOf axes) cs0.

(** [b] is [b0] turned: its cells and its pending cells are cells of
    [b0] after quarter turns, of size up to [B]. *)
Definition turnedShape (B : Z) (b0 b : BlockObject) : Prop :=
  blockId b = blockId b0 /\
  isTurned (cells b0) (cells b) /\ Forall (smallCell B) (cells b) /\
  match pendingCells b with
  | Some p => isTurned (cells b0) p /\ Forall (smallCell B) p
  | None => True
  end.

(** [b] is the block of the catalog entry [def] in some orientation:
    distinct cells, each coordinate within one unit of the origin
    cell. *)
Definition catalogShape (def : Z * list Cell) (b : BlockObject) : Prop :=
  blockId b = fst def /\ isTurned (snd def) (cells b) /\
  NoDup (cells b) /\ Forall (smallCell 1) (cells b).

(** The first cell of the block, and of its pending cells, is the
    origin cell. *)
Definition originFirst (b0 b : BlockObject) : Prop :=
  hd_error (cells b) = Some (0, 0, 0)%Z /\
  match pendingCells b with
  | Some p => hd_error p = Some (0, 0, 0)%Z
  | None => True
  end.

(** ** Statements about the best candidate *)

(** The body of the loops of [chooseDragPlane] and [flipBlock]: the
    candidate replaces the best one when its score is strictly
    larger. *)
Definition better {A : Type} (score : A -> Q) (best : A * option Q) (c : A)
  : A * option Q :=
  let d := score c in
  match snd best with
  | Some bestDot => if Qltb bestDot d then (c, Some d) else best
  | None => (c, Some d)
  end.

(** [c] is the first candidate of [l] with the largest score. *)
Definition firstBest {A : Type} (score : A -> Q) (l : list A) (c : A)
  : Prop :=
  exists pre post,
    l = pre ++ c :: post /\
    (forall c', In c' pre -> score c' < score c) /\
    (forall c', In c' post -> score c' <= score c).

(** The three candidate planes of [chooseDragPlane]. *)
Definition axisPlanes (center : Vector3) : list Plane :=
  [ mkPlane (vec3 1 0 0) (- x center);
    mkPlane (vec3 0 1 0) (- y center);
    mkPlane (vec3 0 0 1) (- z center) ].

(** The axis that [flipBlock] hands to [rotateGroup]. *)
Definition flipAxis {M : JSMath} (cam : Vector3) (direction : Direction)
  : Vector3 :=
  let forward := normalize (vec3 (x cam) 0 (z cam)) in
  let up := vec3 0 1 0 in
  let right := normalize (crossVectors forward up) in
  nearestCardinal
    match direction with
    | Up => negate right
    | Down => right
    | Left => negate up
    | Right => up
    end.

(** ** Statements about the selection *)

(** The block under the pointer, when there is one, is a block of an
    array of [n] blocks. *)
Definition validEvent (n : nat) (ev : Event) : Prop :=
  match ev with
  | PointerDown e | PointerMove e | PointerUp e | DblClick e =>
      match blockHit e with
      | Some i => (i < n)%nat
      | None => True
      end
  | _ => True
  end.

(** What the code keeps true of the selection: the group is a list of
    distinct blocks of the array, the centre block is its first member
    (and there is none exactly when the group is empty), the highlighted
    blocks are the members of the group, and the pending block is a
    block of the array. *)
Definition selectionInvariant (m : Manager) : Prop :=
  NoDup (selectedGroup m) /\
  (forall i, In i (selectedGroup m) -> (i < List.length (blocks m))%nat) /\
  centerBlock m = hd_error (selectedGroup m) /\
  (forall i, (i < List.length (blocks m))%nat ->
             (selected (getBlock (blocks m) i) = true
              <-> In i (selectedGroup m))) /\
  (forall i, pendingBlock m = Some i -> (i < List.length (blocks m))%nat).

Definition sameHighlight (b0 b : BlockObject) : Prop :=
  selected b = selected b0.

(** The selection and the pending block. *)
Definition selectionView (m : Manager) : list nat * option nat * option nat :=
  (selectedGroup m, centerBlock m, pendingBlock m).

(** The first catalog block selected from its thumbnail: the group is
    the block and its neighbour at [(-3, 0, 0)]. *)
Definition firstSelected : Manager :=
  run (M := hostMath) initialManager [SelectById 0].

(** ** Statements about gestures *)

(** What the code keeps true of a gesture in progress: the orbit
    controls are off only while a gizmo drag runs or a press on a block
    is pending; a gizmo drag has its axis and its plane and keeps the
    controls off; a block drag has its target, its plane and the pending
    block that started it; the group flag and the recorded start
    positions exist only during a block drag. *)
Definition gestureInvariant (m : Manager) : Prop :=
  (controlsEnabled m = false ->
   isGizmoDragging m = true \/ isSome (pendingBlock m) = true) /\
  (isGizmoDragging m = true ->
   isSome (gizmoDragAxis m) = true /\ isSome (gizmoDragPlane m) = true /\
   controlsEnabled m = false) /\
  (isDragging m = true ->
   isSome (dragTarget m) = true /\ isSome (dragPlane m) = true /\
   isSome (pendingBlock m) = true) /\
  (isDragging m = false ->
   isGroupDrag m = false /\ groupDragStartPositions m = []).

(** The fields the gesture invariant reads. *)
Definition gestureView (m : Manager) :=
  (controlsEnabled m, isGizmoDragging m, isSome (gizmoDragAxis m),
   isSome (gizmoDragPlane m), isSome (pendingBlock m),
   (isDragging m, isSome (dragTarget m), isSome (dragPlane m),
    isGroupDrag m, groupDragStartPositions m)).

(** ** Statements about drags *)



(** ** Statements about the motion of a group *)

(** The motion of the world grid under a quarter turn about the axis
    [a] through the grid point [pivot], followed by a lift of [off]. *)
Definition groupMotion (a pivot : Cell) (off : Z) (w : Cell) : Cell :=
  cellAdd (cellAdd pivot (quarterTurn a (cellSub w pivot))) (0, off, 0)%Z.

(** ** Statements about the world centre *)

(** The centre of the cube of a cell, in the block's frame. *)
Definition cellCentre (c : Cell) : Vector3 :=
  let '(cx, cy, cz) := c in vec3 (num cx) (num cy + (1 # 2)) (num cz).

(** Every coordinate of [v] is within the bounds [lo] and [hi]. *)
Definition withinBox (lo hi v : Vector3) : Prop :=
  x lo <= x v <= x hi /\ y lo <= y v <= y hi /\ z lo <= z v <= z hi.

(** ** The collision callback

    [checkCollisions] compares a string made of the colliding ids with
    the string of its last report.  The strings are the host's:
    [String(n)] of an integer is its decimal numeral with a leading
    minus sign when negative (as it is for every integer below 10^21 in
    magnitude), [Array.prototype.sort()] without a comparator orders the
    elements by their strings, code unit by code unit, and [join(',')]
    puts a comma between the strings of the elements.  The elements of a
    [Set] are distinct, and so are their strings: the sorted array does
    not depend on the host's sorting algorithm, and insertion into a
    sorted array gives it. *)

Module Host.
Import String.







End Host.






(** * Properties *)

(** ** Rounding to a number of the host *)

Module Binary64Facts.
Import Binary64.

Lemma pow2_pos : forall e, 0 < pow2 e.
Proof. intros e. apply Qpower_0_lt. reflexivity. Qed.

Lemma pow2_add : forall a b, pow2 (a + b) == pow2 a * pow2 b.
Proof. intros a b. apply Qpower_plus. discriminate. Qed.

Lemma pow2_opp : forall a, pow2 (- a) == / pow2 a.
Proof. intros a. apply Qpower_opp. Qed.

Lemma pow2_le : forall a b, (a <= b)%Z -> pow2 a <= pow2 b.
Proof. intros a b H. apply Qpower_le_compat_l; [exact H|discriminate]. Qed.

Lemma pow2_lt : forall a b, (a < b)%Z -> pow2 a < pow2 b.
Proof. intros a b H. apply Qpower_lt_compat_l; [exact H|reflexivity]. Qed.

Lemma pow2_lt_inv : forall a b, pow2 a < pow2 b -> (a < b)%Z.
Proof.
  intros a b H. apply Qpower_lt_compat_l_inv with (q := 2); [exact H|].
  reflexivity.
Qed.

Lemma pow2_Z : forall n, (0 <= n)%Z -> pow2 n == inject_Z (2 ^ n).
Proof. intros n H. unfold pow2. now rewrite Zpower_Qpower. Qed.

Lemma pow2_succ : forall a, pow2 (a + 1) == 2 * pow2 a.
Proof. intros a. rewrite pow2_add. change (pow2 1) with 2. ring. Qed.

Lemma pow2_sub : forall a b, pow2 (a - b) * pow2 b == pow2 a.
Proof.
  intros a b. rewrite <- pow2_add. now replace (a - b + b)%Z with a by ring.
Qed.

(** *** The binade *)

Lemma binade_spec : forall q,
  0 < q -> pow2 (binade q) <= q /\ q < pow2 (binade q + 1).
Proof.
  intros [n d] Hq.
  assert (Hn : (0 < n)%Z).
  { unfold Qlt in Hq. simpl in Hq. lia. }
  unfold binade. cbn [Qnum Qden].
  set (a := Z.log2 n). set (b := Z.log2 (Z.pos d)).
  destruct (Z.log2_spec n Hn) as [A1 A2]. fold a in A1, A2.
  destruct (Z.log2_spec (Z.pos d) (Pos2Z.is_pos d)) as [B1 B2].
  fold b in B1, B2.
  assert (Ha : (0 <= a)%Z) by apply Z.log2_nonneg.
  assert (Hb : (0 <= b)%Z) by apply Z.log2_nonneg.
  assert (Eq : n # d == inject_Z n / inject_Z (Z.pos d))
    by apply Qmake_Qdiv.
  assert (Hd : 0 < inject_Z (Z.pos d)).
  { change 0 with (inject_Z 0). rewrite <- Zlt_Qlt. apply Pos2Z.is_pos. }
  assert (Qd : (n # d) * inject_Z (Z.pos d) == inject_Z n).
  { rewrite Eq. field. lra. }
  assert (PA1 : pow2 a <= inject_Z n)
    by (rewrite pow2_Z by lia; now rewrite <- Zle_Qle).
  assert (PA2 : inject_Z n < pow2 (a + 1)).
  { rewrite pow2_Z by lia. rewrite <- Zlt_Qlt.
    now replace (a + 1)%Z with (Z.succ a) by lia. }
  assert (PB1 : pow2 b <= inject_Z (Z.pos d))
    by (rewrite pow2_Z by lia; now rewrite <- Zle_Qle).
  assert (PB2 : inject_Z (Z.pos d) < pow2 (b + 1)).
  { rewrite pow2_Z by lia. rewrite <- Zlt_Qlt.
    now replace (b + 1)%Z with (Z.succ b) by lia. }
  pose proof (pow2_pos b) as Pb. pose proof (pow2_pos (a - b)) as Pl.
  pose proof (pow2_sub a b) as S0.
  pose proof (pow2_succ (a - b)) as S1.
  pose proof (pow2_succ b) as S2.
  pose proof (pow2_succ a) as S3.
  pose proof (pow2_succ (a - b - 1)) as S4.
  replace (a - b - 1 + 1)%Z with (a - b)%Z in S4 by ring.
  pose proof (pow2_pos (a - b - 1)) as Pl1.
  set (q := n # d) in *. set (D := inject_Z (Z.pos d)) in *.
  set (N := inject_Z n) in *.
  set (pa := pow2 a) in *. set (pb := pow2 b) in *.
  set (pl := pow2 (a - b)) in *.
  assert (Upper : q < pow2 (a - b + 1)).
  { rewrite S1. fold pl.
    (* q * D = N < 2 pa = 2 pl pb <= 2 pl D *)
    assert (K : q * D < 2 * pl * D) by nra.
    nra. }
  assert (Lower : pow2 (a - b - 1) < q).
  { (* 2 * p(l-1) = pl; pl * pb = pa <= N = q D < q * 2 pb *)
    assert (K : pl * pb < q * (2 * pb)) by nra.
    nra. }
  destruct (Qle_bool pl q) eqn:E.
  - apply Qle_bool_iff in E. split; [exact E|exact Upper].
  - assert (E' : q < pl).
    { apply Qnot_le_lt. intros H. apply Qle_bool_iff in H. congruence. }
    split; [lra|]. unfold pl in E'.
    now replace (a - b - 1 + 1)%Z with (a - b)%Z by ring.
Qed.

Lemma binade_unique : forall q b,
  0 < q -> pow2 b <= q -> q < pow2 (b + 1) -> binade q = b.
Proof.
  intros q b Hq H1 H2. destruct (binade_spec q Hq) as [S1 S2].
  assert (K1 : (binade q < b + 1)%Z)
    by (apply pow2_lt_inv; lra).
  assert (K2 : (b < binade q + 1)%Z)
    by (apply pow2_lt_inv; lra).
  lia.
Qed.

Lemma binade_comp : forall x y, 0 < x -> x == y -> binade x = binade y.
Proof.
  intros x y Hx E. destruct (binade_spec x Hx) as [S1 S2].
  symmetry. apply binade_unique; rewrite <- E; auto.
Qed.

Lemma binade_mono : forall x y, 0 < x -> x <= y -> (binade x <= binade y)%Z.
Proof.
  intros x y Hx Hxy.
  destruct (binade_spec x Hx) as [S1 _].
  destruct (binade_spec y) as [_ T2]; [lra|].
  assert (K : (binade x < binade y + 1)%Z) by (apply pow2_lt_inv; lra).
  lia.
Qed.

(** *** The nearest integer *)

Lemma nearestEven_cases : forall r,
  let f := Qfloor r in
  inject_Z f <= r < inject_Z f + 1 /\
  (nearestEven r = f /\ r - inject_Z f <= 1 # 2 \/
   nearestEven r = (f + 1)%Z /\ 1 # 2 <= r - inject_Z f) /\
  (r - inject_Z f == 1 # 2 -> Z.even (nearestEven r) = true).
Proof.
  intros r f.
  assert (F1 : inject_Z f <= r) by apply Qfloor_le.
  assert (F2 : r < inject_Z f + 1).
  { pose proof (Qlt_floor r) as H. fold f in H.
    rewrite inject_Z_plus in H. exact H. }
  split; [split; assumption|].
  unfold nearestEven. fold f.
  destruct (Qcompare_spec (r - inject_Z f) (1 # 2)) as [E|L|G].
  - destruct (Z.even f) eqn:Ev.
    + split; [left; split; [reflexivity|lra]|auto].
    + split; [right; split; [reflexivity|lra]|].
      intros _. rewrite Z.even_add. rewrite Ev. reflexivity.
  - split; [left; split; [reflexivity|lra]|]. intros H. lra.
  - split; [right; split; [reflexivity|lra]|]. intros H. lra.
Qed.

Lemma nearestEven_comp : forall r s, r == s -> nearestEven r = nearestEven s.
Proof.
  intros r s E. unfold nearestEven.
  assert (F : Qfloor r = Qfloor s) by now rewrite E.
  rewrite F.
  assert (C : Qcompare (r - inject_Z (Qfloor s)) (1 # 2)
              = Qcompare (s - inject_Z (Qfloor s)) (1 # 2)) by now rewrite E.
  now rewrite C.
Qed.

Lemma nearestEven_Z : forall k : Z, nearestEven (inject_Z k) = k.
Proof.
  intros k. unfold nearestEven. rewrite Qfloor_Z.
  assert (C : Qcompare (inject_Z k - inject_Z k) (1 # 2) = Lt).
  { rewrite <- Qlt_alt. lra. }
  now rewrite C.
Qed.

Lemma Zlt_Q_succ : forall a b : Z,
  inject_Z a < inject_Z b + 1 -> (a <= b)%Z.
Proof.
  intros a b H.
  assert (K : inject_Z a < inject_Z (b + 1)) by (rewrite inject_Z_plus; exact H).
  rewrite <- Zlt_Qlt in K. lia.
Qed.

Lemma nearestEven_mono : forall r s,
  r <= s -> (nearestEven r <= nearestEven s)%Z.
Proof.
  intros r s H.
  destruct (nearestEven_cases r) as ([R1 R2] & Rc & Re).
  destruct (nearestEven_cases s) as ([S1 S2] & Sc & Se).
  set (f := Qfloor r) in *. set (g := Qfloor s) in *.
  assert (Hfg : (f <= g)%Z) by (apply Zlt_Q_succ; lra).
  destruct Rc as [[Er Hr]|[Er Hr]], Sc as [[Es Hs]|[Es Hs]];
    rewrite Er, Es; try lia.
  (* r rounds up, s rounds down *)
  destruct (Z.eq_dec f g) as [E|N]; [|lia].
  exfalso. rewrite <- E in *.
  assert (Hr' : r - inject_Z f == 1 # 2) by lra.
  assert (Hs' : s - inject_Z f == 1 # 2) by lra.
  specialize (Re Hr'). specialize (Se Hs').
  rewrite Er in Re. rewrite Es in Se.
  rewrite Z.even_add in Re. rewrite Se in Re. discriminate.
Qed.

Lemma nearestEven_opp : forall r, nearestEven (- r) = (- nearestEven r)%Z.
Proof.
  intros r.
  destruct (nearestEven_cases r) as ([R1 R2] & Rc & Re).
  destruct (nearestEven_cases (- r)) as ([S1 S2] & Sc & Se).
  set (f := Qfloor r) in *. set (g := Qfloor (- r)) in *.
  assert (G : r == inject_Z f /\ g = (- f)%Z \/
              inject_Z f < r /\ g = (- f - 1)%Z).
  { destruct (Qlt_le_dec (inject_Z f) r) as [L|L].
    - right. split; auto.
      assert (K1 : (g <= - f - 1)%Z).
      { assert (K : inject_Z g < inject_Z (- f)).
        { rewrite inject_Z_opp. lra. }
        rewrite <- Zlt_Qlt in K. lia. }
      assert (K2 : (- f - 1 <= g)%Z).
      { apply Zlt_Q_succ. unfold Zminus. rewrite inject_Z_plus, inject_Z_opp.
        change (inject_Z (- (1))) with (-1). lra. }
      lia.
    - left. assert (E : r == inject_Z f) by lra. split; auto.
      assert (K1 : (g <= - f)%Z).
      { apply Zlt_Q_succ. rewrite inject_Z_opp. lra. }
      assert (K2 : (- f <= g)%Z).
      { apply Zlt_Q_succ. rewrite inject_Z_opp. lra. }
      lia. }
  destruct G as [[E G]|[L G]].
  - rewrite (nearestEven_comp r (inject_Z f) E), nearestEven_Z.
    assert (E' : - r == inject_Z (- f)) by (rewrite inject_Z_opp; lra).
    now rewrite (nearestEven_comp (- r) _ E'), nearestEven_Z.
  - assert (Eg : inject_Z g == - inject_Z f - 1).
    { rewrite G. unfold Zminus. rewrite inject_Z_plus, !inject_Z_opp.
      reflexivity. }
    destruct Rc as [[Er Hr]|[Er Hr]], Sc as [[Es Hs]|[Es Hs]];
      rewrite Er, Es; try lia.
    + (* both down: fractions are one half *)
      exfalso.
      assert (Hr' : r - inject_Z f == 1 # 2) by lra.
      assert (Hs' : - r - inject_Z g == 1 # 2) by lra.
      specialize (Re Hr'). specialize (Se Hs').
      rewrite Er in Re. rewrite Es, G in Se.
      replace (- f - 1)%Z with (- (f + 1))%Z in Se by ring.
      rewrite Z.even_opp, Z.even_add, Re in Se. discriminate.
    + exfalso.
      assert (Hr' : r - inject_Z f == 1 # 2) by lra.
      assert (Hs' : - r - inject_Z g == 1 # 2) by lra.
      specialize (Re Hr'). specialize (Se Hs').
      rewrite Er in Re. rewrite Es, G in Se.
      replace (- f - 1 + 1)%Z with (- f)%Z in Se by ring.
      rewrite Z.even_opp in Se.
      rewrite Z.even_add, Se in Re. discriminate.
Qed.

(** *** The nearest multiple of a power of two *)

Lemma roundTo_comp : forall e x y, x == y -> roundTo e x == roundTo e y.
Proof.
  intros e x y E. unfold roundTo.
  assert (K : x / pow2 e == y / pow2 e) by now rewrite E.
  now rewrite (nearestEven_comp _ _ K).
Qed.

Lemma roundTo_mono : forall e x y, x <= y -> roundTo e x <= roundTo e y.
Proof.
  intros e x y H. unfold roundTo. pose proof (pow2_pos e) as P.
  assert (K : x / pow2 e <= y / pow2 e).
  { unfold Qdiv. apply Qmult_le_compat_r; auto.
    apply Qlt_le_weak, Qinv_lt_0_compat, P. }
  apply nearestEven_mono in K. rewrite Zle_Qle in K.
  apply Qmult_le_compat_r; lra.
Qed.

Lemma roundTo_multiple : forall e (k : Z),
  roundTo e (inject_Z k * pow2 e) == inject_Z k * pow2 e.
Proof.
  intros e k. unfold roundTo. pose proof (pow2_pos e) as P.
  assert (K : inject_Z k * pow2 e / pow2 e == inject_Z k) by (field; lra).
  now rewrite (nearestEven_comp _ _ K), nearestEven_Z.
Qed.

Lemma roundTo_opp : forall e x, roundTo e (- x) == - roundTo e x.
Proof.
  intros e x. unfold roundTo. pose proof (pow2_pos e) as P.
  assert (K : - x / pow2 e == - (x / pow2 e)) by (field; lra).
  rewrite (nearestEven_comp _ _ K), nearestEven_opp, inject_Z_opp. ring.
Qed.

(** A power of two is a multiple of every smaller one. *)
Lemma pow2_multiple : forall e k,
  (e <= k)%Z -> pow2 k == inject_Z (2 ^ (k - e)) * pow2 e.
Proof.
  intros e k H. rewrite <- pow2_Z by lia. now rewrite pow2_sub.
Qed.

(** *** Rounding to a number *)

Lemma fl_unfold : forall q,
  ~ q == 0 -> fl q == roundTo (ulpExponent q) q.
Proof.
  intros q H. unfold fl.
  destruct (Qeq_bool q 0) eqn:E.
  - apply Qeq_bool_iff in E. contradiction.
  - apply Qred_correct.
Qed.

Lemma fl_0 : forall q, q == 0 -> fl q = 0.
Proof.
  intros q H. unfold fl. apply Qeq_bool_iff in H. now rewrite H.
Qed.

Lemma Qabs_nonzero : forall q, ~ q == 0 -> 0 < Qabs q.
Proof.
  intros q N. destruct (Qlt_le_dec 0 (Qabs q)) as [L|L]; auto.
  exfalso. apply N. apply Qabs_Qle_condition in L. lra.
Qed.

Lemma ulpExponent_comp : forall x y,
  ~ x == 0 -> x == y -> ulpExponent x = ulpExponent y.
Proof.
  intros x y Hx E. unfold ulpExponent.
  rewrite (binade_comp (Qabs x) (Qabs y)); auto.
  - now apply Qabs_nonzero.
  - now rewrite E.
Qed.

(** Equal rationals round to the same fraction. *)
Lemma fl_comp : forall x y, x == y -> fl x = fl y.
Proof.
  intros x y E. unfold fl.
  destruct (Qeq_bool x 0) eqn:Ex.
  - apply Qeq_bool_iff in Ex.
    assert (Ey : y == 0) by (rewrite <- E; exact Ex).
    apply Qeq_bool_iff in Ey. now rewrite Ey.
  - assert (Nx : ~ x == 0).
    { intros H. apply Qeq_bool_iff in H. congruence. }
    assert (Ey : Qeq_bool y 0 = false).
    { destruct (Qeq_bool y 0) eqn:Ey; auto.
      apply Qeq_bool_iff in Ey. exfalso. apply Nx. now rewrite E. }
    rewrite Ey. apply Qred_complete.
    rewrite (ulpExponent_comp x y Nx E). now apply roundTo_comp.
Qed.

Lemma fl_opp : forall q, fl (- q) == - fl q.
Proof.
  intros q. destruct (Qeq_dec q 0) as [E|N].
  - rewrite (fl_0 q E). rewrite fl_0; [reflexivity|lra].
  - assert (N' : ~ - q == 0) by (intros H; apply N; lra).
    rewrite (fl_unfold _ N), (fl_unfold _ N').
    assert (U : ulpExponent (- q) = ulpExponent q).
    { unfold ulpExponent.
      rewrite (binade_comp (Qabs (- q)) (Qabs q)); auto.
      - now apply Qabs_nonzero.
      - apply Qabs_opp. }
    rewrite U. apply roundTo_opp.
Qed.

(** The numbers around a positive [q]: the clamped binade [k], the
    unit [2^(k - 52)], and the two powers of two that enclose [q]. *)
Lemma positive_frame : forall q,
  0 < q ->
  let k := Z.max (binade q) (-1022) in
  ulpExponent q = (k - 52)%Z /\ q < pow2 (k + 1) /\
  ((-1022 <= binade q)%Z -> pow2 k <= q).
Proof.
  intros q Hq k. destruct (binade_spec q Hq) as [S1 S2].
  assert (A : Qabs q == q) by (apply Qabs_pos; lra).
  split; [|split].
  - unfold ulpExponent, k. rewrite (binade_comp (Qabs q) q); auto. lra.
  - eapply Qlt_le_trans; [exact S2|]. apply pow2_le. unfold k. lia.
  - intros H. unfold k. rewrite Z.max_l by lia. exact S1.
Qed.

Lemma fl_pos_upper : forall q,
  0 < q -> fl q <= pow2 (Z.max (binade q) (-1022) + 1).
Proof.
  intros q Hq. destruct (positive_frame q Hq) as (E & U & _).
  set (k := Z.max (binade q) (-1022)) in *.
  rewrite fl_unfold by lra. rewrite E.
  rewrite (pow2_multiple (k - 52) (k + 1)) by lia.
  rewrite <- roundTo_multiple. apply roundTo_mono.
  rewrite <- pow2_multiple by lia. lra.
Qed.

Lemma fl_pos_lower : forall q,
  0 < q -> (-1022 <= binade q)%Z -> pow2 (binade q) <= fl q.
Proof.
  intros q Hq Hb. destruct (positive_frame q Hq) as (E & _ & L).
  specialize (L Hb). rewrite Z.max_l in E, L by lia.
  rewrite fl_unfold by lra. rewrite E.
  rewrite (pow2_multiple (binade q - 52) (binade q)) by lia.
  rewrite <- roundTo_multiple. apply roundTo_mono.
  rewrite <- pow2_multiple by lia. exact L.
Qed.

Lemma fl_pos_nonneg : forall q, 0 < q -> 0 <= fl q.
Proof.
  intros q Hq. rewrite fl_unfold by lra.
  assert (Z0 : 0 == inject_Z 0 * pow2 (ulpExponent q)) by ring.
  rewrite Z0 at 1. rewrite <- roundTo_multiple. apply roundTo_mono.
  rewrite <- Z0. lra.
Qed.

Lemma fl_mono_pos : forall x y, 0 < x -> x <= y -> fl x <= fl y.
Proof.
  intros x y Hx Hxy. assert (Hy : 0 < y) by lra.
  pose proof (binade_mono x y Hx Hxy) as Hb.
  destruct (positive_frame x Hx) as (Ex & _ & _).
  destruct (positive_frame y Hy) as (Ey & _ & _).
  set (kx := Z.max (binade x) (-1022)) in *.
  set (ky := Z.max (binade y) (-1022)) in *.
  destruct (Z.eq_dec kx ky) as [E|N].
  - rewrite (fl_unfold x), (fl_unfold y) by lra.
    rewrite Ex, Ey, E. now apply roundTo_mono.
  - assert (Hk : (kx < ky)%Z) by (unfold kx, ky in *; lia).
    assert (Hy' : (-1022 <= binade y)%Z) by (unfold kx, ky in *; lia).
    assert (Ky : ky = binade y) by (unfold ky; lia).
    eapply Qle_trans; [apply (fl_pos_upper x Hx)|]. fold kx.
    eapply Qle_trans; [|apply (fl_pos_lower y Hy Hy')].
    apply pow2_le. lia.
Qed.

(** Rounding keeps the order. *)
Lemma fl_mono : forall x y, x <= y -> fl x <= fl y.
Proof.
  intros x y H.
  destruct (Qlt_le_dec 0 x) as [Hx|Hx].
  - now apply fl_mono_pos.
  - destruct (Qlt_le_dec 0 y) as [Hy|Hy].
    + apply Qle_trans with 0; [|now apply fl_pos_nonneg].
      destruct (Qeq_dec x 0) as [E|N]; [rewrite (fl_0 x E); lra|].
      assert (K : 0 <= fl (- x)) by (apply fl_pos_nonneg; lra).
      rewrite fl_opp in K. lra.
    + destruct (Qeq_dec y 0) as [E|N].
      * rewrite (fl_0 y E).
        destruct (Qeq_dec x 0) as [E'|N']; [rewrite (fl_0 x E'); lra|].
        assert (K : 0 <= fl (- x)) by (apply fl_pos_nonneg; lra).
        rewrite fl_opp in K. lra.
      * assert (K : fl (- y) <= fl (- x)) by (apply fl_mono_pos; lra).
        rewrite !fl_opp in K. lra.
Qed.

(** A significand of at most 53 bits times a power of two from
    [2^-1074] on is a number. *)
Lemma fl_exact_pos : forall (z j : Z),
  (0 < z <= 2 ^ 53)%Z -> (-1074 <= j)%Z ->
  fl (inject_Z z * pow2 j) == inject_Z z * pow2 j.
Proof.
  intros z j Hz Hj. set (q := inject_Z z * pow2 j).
  pose proof (pow2_pos j) as Pj.
  assert (Hz0 : 0 < inject_Z z).
  { change 0 with (inject_Z 0). rewrite <- Zlt_Qlt. lia. }
  assert (Hq : 0 < q) by (unfold q; nra).
  destruct (positive_frame q Hq) as (E & U & L).
  set (k := Z.max (binade q) (-1022)) in *.
  rewrite fl_unfold by lra. rewrite E.
  assert (Hz53 : inject_Z z <= pow2 53).
  { rewrite pow2_Z by lia. rewrite <- Zle_Qle. lia. }
  destruct (Z_le_gt_dec (k - 52) j) as [Hle|Hgt].
  - (* the unit divides [2^j] *)
    assert (M : q == inject_Z (z * 2 ^ (j - (k - 52))) * pow2 (k - 52)).
    { unfold q. rewrite inject_Z_mult, <- Qmult_assoc.
      rewrite <- pow2_multiple by lia. reflexivity. }
    rewrite (roundTo_comp _ _ _ M), roundTo_multiple. now rewrite <- M.
  - (* only when [z] is [2^53] and the unit is [2^(j + 1)] *)
    assert (Hb : (-1022 <= binade q)%Z) by (unfold k in *; lia).
    specialize (L Hb).
    assert (Hk : (k <= j + 53)%Z).
    { assert (K : pow2 k <= pow2 (j + 53)).
      { apply Qle_trans with q; auto. unfold q.
        rewrite (Z.add_comm j 53), pow2_add. nra. }
      destruct (Z_le_gt_dec k (j + 53)); auto.
      exfalso. assert (pow2 (j + 53) < pow2 k) by (apply pow2_lt; lia).
      lra. }
    assert (Ek : k = (j + 53)%Z) by lia.
    assert (Ez : z = (2 ^ 53)%Z).
    { assert (K : pow2 53 <= inject_Z z).
      { rewrite Ek, (Z.add_comm j 53), pow2_add in L. unfold q in L. nra. }
      rewrite pow2_Z in K by lia. rewrite <- Zle_Qle in K. lia. }
    assert (M : q == inject_Z (2 ^ 52) * pow2 (k - 52)).
    { unfold q. rewrite Ez, Ek.
      replace (j + 53 - 52)%Z with (j + 1)%Z by ring.
      rewrite pow2_succ. change (inject_Z (2 ^ 53)) with (2 * inject_Z (2 ^ 52)).
      ring. }
    rewrite (roundTo_comp _ _ _ M), roundTo_multiple. now rewrite <- M.
Qed.

Lemma fl_exact : forall (z j : Z),
  (Z.abs z <= 2 ^ 53)%Z -> (-1074 <= j)%Z ->
  fl (inject_Z z * pow2 j) == inject_Z z * pow2 j.
Proof.
  intros z j Hz Hj.
  destruct (Z.lt_trichotomy z 0) as [N|[E|P]].
  - assert (K : fl (inject_Z (- z) * pow2 j) == inject_Z (- z) * pow2 j)
      by (apply fl_exact_pos; lia).
    rewrite inject_Z_opp in K.
    assert (E : - inject_Z z * pow2 j == - (inject_Z z * pow2 j)) by ring.
    rewrite (fl_comp _ _ E), fl_opp in K. lra.
  - subst z. rewrite fl_0; [|ring]. ring.
  - apply fl_exact_pos; lia.
Qed.

(** The integers up to [2^53] are numbers. *)
Lemma fl_Z : forall z : Z,
  (Z.abs z <= 2 ^ 53)%Z -> fl (inject_Z z) == inject_Z z.
Proof.
  intros z Hz.
  assert (E : inject_Z z == inject_Z z * pow2 0)
    by (change (pow2 0) with 1; ring).
  rewrite (fl_comp _ _ E). rewrite fl_exact by lia. now rewrite <- E.
Qed.

(** So are the quarters up to [2^51]. *)
Lemma fl_quarter : forall z : Z,
  (Z.abs z <= 2 ^ 53)%Z -> fl (inject_Z z / 4) == inject_Z z / 4.
Proof.
  intros z Hz.
  assert (E : inject_Z z / 4 == inject_Z z * pow2 (-2))
    by (change (pow2 (-2)) with (/ 4); reflexivity).
  rewrite (fl_comp _ _ E). rewrite fl_exact by lia. now rewrite <- E.
Qed.

(** The significand of a rounded value has at most 53 bits. *)
Lemma fl_significand : forall q,
  ~ q == 0 ->
  exists z : Z, (Z.abs z <= 2 ^ 53)%Z /\
                fl q == inject_Z z * pow2 (ulpExponent q) /\
                (-1074 <= ulpExponent q)%Z.
Proof.
  intros q N. exists (nearestEven (q / pow2 (ulpExponent q))).
  assert (He : (-1074 <= ulpExponent q)%Z) by (unfold ulpExponent; lia).
  split; [|split; [now rewrite fl_unfold|exact He]].
  pose proof (pow2_pos (ulpExponent q)) as P.
  assert (Ha : 0 < Qabs q) by now apply Qabs_nonzero.
  destruct (positive_frame (Qabs q) Ha) as (E & U & _).
  assert (Eu : ulpExponent (Qabs q) = ulpExponent q).
  { unfold ulpExponent. rewrite (binade_comp (Qabs (Qabs q)) (Qabs q)); auto.
    - rewrite Qabs_pos; lra.
    - apply Qabs_pos. lra. }
  rewrite Eu in E.
  set (k := Z.max (binade (Qabs q)) (-1022)) in *.
  assert (P53 : pow2 (k + 1) == inject_Z (2 ^ 53) * pow2 (k - 52)).
  { rewrite (pow2_multiple (k - 52) (k + 1)) by lia.
    now replace (k + 1 - (k - 52))%Z with 53%Z by ring. }
  assert (B : Qabs (q / pow2 (ulpExponent q)) <= inject_Z (2 ^ 53)).
  { assert (Eabs : Qabs (q / pow2 (ulpExponent q))
                   == Qabs q / pow2 (ulpExponent q)).
    { unfold Qdiv. rewrite Qabs_Qmult.
      rewrite (Qabs_pos (/ pow2 (ulpExponent q)))
        by (apply Qlt_le_weak, Qinv_lt_0_compat, P).
      reflexivity. }
    rewrite Eabs. apply Qle_shift_div_r; auto.
    rewrite E. rewrite <- P53.
    assert (Ua : Qabs (Qabs q) == Qabs q) by (apply Qabs_pos; lra).
    lra. }
  apply Qabs_Qle_condition in B. destruct B as [B1 B2].
  apply Z.abs_le. split.
  - rewrite <- (nearestEven_Z (- 2 ^ 53)).
    apply nearestEven_mono. now rewrite inject_Z_opp.
  - rewrite <- (nearestEven_Z (2 ^ 53)). now apply nearestEven_mono.
Qed.

(** A rounded value is a number, and so are its opposite and its
    double. *)
Lemma fl_idempotent : forall q, isDouble (fl q).
Proof.
  intros q. unfold isDouble. destruct (Qeq_dec q 0) as [E|N].
  - rewrite (fl_0 q E). now rewrite fl_0.
  - destruct (fl_significand q N) as (z & Hz & E & He).
    rewrite (fl_comp _ _ E). rewrite fl_exact; auto. now rewrite E.
Qed.

Lemma isDouble_opp : forall q, isDouble q -> isDouble (- q).
Proof. unfold isDouble. intros q H. now rewrite fl_opp, H. Qed.

Lemma isDouble_twice : forall q, isDouble q -> isDouble (q * 2).
Proof.
  unfold isDouble. intros q H. destruct (Qeq_dec q 0) as [E|N].
  - rewrite fl_0; lra.
  - destruct (fl_significand q N) as (z & Hz & E & He).
    rewrite H in E.
    assert (E2 : q * 2 == inject_Z z * pow2 (ulpExponent q + 1)).
    { rewrite pow2_succ.
      setoid_replace (inject_Z z * (2 * pow2 (ulpExponent q)))
        with (2 * (inject_Z z * pow2 (ulpExponent q))) by ring.
      rewrite <- E. ring. }
    rewrite (fl_comp _ _ E2). rewrite fl_exact by lia. now rewrite E2.
Qed.

Lemma isDouble_Z : forall z : Z, (Z.abs z <= 2 ^ 53)%Z -> isDouble (inject_Z z).
Proof. intros z H. unfold isDouble. now apply fl_Z. Qed.

(** The largest number of the host under one. *)
Lemma fl_under_one : forall q, q <= 1 - pow2 (-53) -> fl q < 1.
Proof.
  intros q H.
  assert (E : 1 - pow2 (-53) == inject_Z (2 ^ 53 - 1) * pow2 (-53))
    by (vm_compute; reflexivity).
  assert (F : fl (1 - pow2 (-53)) == 1 - pow2 (-53)).
  { rewrite (fl_comp _ _ E). rewrite fl_exact; [now rewrite E| |lia].
    vm_compute. discriminate. }
  pose proof (fl_mono _ _ H) as K. rewrite F in K.
  pose proof (pow2_pos (-53)). lra.
Qed.

(** A number of the host under an integer [D] of the binade [b] is
    under [D] by a unit in the last place at least, and its rounded
    quotient by [D] is under one: a frame whose elapsed time is under
    the duration of an animation does not end it. *)
Lemma fl_ratio_under_one : forall (D b : Z) (d : Q),
  (0 <= b <= 52)%Z -> (2 ^ b < D < 2 ^ (b + 1))%Z ->
  isDouble d -> d < inject_Z D -> fl (d / inject_Z D) < 1.
Proof.
  intros D b d Hb [D1 D2] Hd Hlt.
  assert (Dpos : 0 < inject_Z D).
  { change 0 with (inject_Z 0). rewrite <- Zlt_Qlt.
    pose proof (Z.pow_pos_nonneg 2 b). lia. }
  pose proof (pow2_pos (-53)) as Pe.
  set (e := pow2 (-53)) in *.
  assert (E53 : e * inject_Z (2 ^ 53) == 1) by (vm_compute; reflexivity).
  assert (Dle : inject_Z D <= inject_Z (2 ^ 53)).
  { rewrite <- Zle_Qle.
    assert ((2 ^ (b + 1) <= 2 ^ 53)%Z) by (apply Z.pow_le_mono_r; lia).
    lia. }
  apply fl_under_one. fold e. apply Qle_shift_div_r; [exact Dpos|].
  assert (eD : e * inject_Z D <= 1) by nra.
  destruct (Qlt_le_dec d (pow2 b)) as [Lo|Hi].
  - (* under the binade of [D] *)
    assert (P : pow2 b + 1 <= inject_Z D).
    { rewrite pow2_Z by lia. change 1 with (inject_Z 1).
      rewrite <- inject_Z_plus, <- Zle_Qle. lia. }
    lra.
  - (* in the binade of [D] *)
    assert (dpos : 0 < d) by (pose proof (pow2_pos b); lra).
    assert (Up : d < pow2 (b + 1)).
    { apply Qlt_trans with (inject_Z D); [exact Hlt|].
      rewrite pow2_Z by lia. now rewrite <- Zlt_Qlt. }
    assert (Bd : binade d = b) by (apply binade_unique; auto).
    destruct (positive_frame d dpos) as (Eu & _ & _).
    rewrite Bd, Z.max_l in Eu by lia.
    assert (N : ~ d == 0) by lra.
    destruct (fl_significand d N) as (z & _ & Ez & _).
    unfold isDouble in Hd. rewrite Hd, Eu in Ez.
    pose proof (pow2_pos (b - 52)) as Pu.
    set (u := pow2 (b - 52)) in *.
    assert (EK : inject_Z D == inject_Z (D * 2 ^ (52 - b)) * u).
    { rewrite inject_Z_mult, <- pow2_Z by lia.
      rewrite <- Qmult_assoc. unfold u. rewrite <- pow2_add.
      replace (52 - b + (b - 52))%Z with 0%Z by ring.
      change (pow2 0) with 1. ring. }
    assert (Zlt : (z < D * 2 ^ (52 - b))%Z).
    { rewrite Zlt_Qlt. apply Qmult_lt_r with u; [exact Pu|].
      rewrite <- Ez, <- EK. exact Hlt. }
    assert (Step : d + u <= inject_Z D).
    { rewrite Ez, EK.
      assert (S1 : inject_Z z + 1 <= inject_Z (D * 2 ^ (52 - b))).
      { change 1 with (inject_Z 1). rewrite <- inject_Z_plus, <- Zle_Qle.
        lia. }
      nra. }
    assert (Eu53 : u == e * pow2 (b + 1)).
    { unfold u, e. rewrite <- pow2_add. now replace (-53 + (b + 1))%Z
        with (b - 52)%Z by ring. }
    assert (eDu : e * inject_Z D <= u).
    { rewrite Eu53. apply Qmult_le_l; [exact Pe|].
      rewrite pow2_Z by lia. rewrite <- Zle_Qle. lia. }
    lra.
Qed.

(** Within [2 ^ 51] of zero the quarters are numbers of the host, so
    rounding moves a number by a quarter at most. *)
Lemma fl_near : forall q,
  Qabs q <= inject_Z (2 ^ 51) ->
  - (1 # 4) <= fl q - q <= 1 # 4.
Proof.
  intros q H. apply Qabs_Qle_condition in H. destruct H as [H1 H2].
  set (z1 := Qfloor (q * 4)). set (z2 := Qceiling (q * 4)).
  assert (L1 : inject_Z z1 <= q * 4) by apply Qfloor_le.
  assert (L2 : q * 4 <= inject_Z z2) by apply Qle_ceiling.
  assert (L3 : (z2 <= z1 + 1)%Z).
  { unfold z1, z2, Qceiling.
    assert (K : (Qfloor (- (- (q * 4)) - 1) <= Qfloor (q * 4))%Z).
    { apply Qfloor_resp_le. lra. }
    pose proof (Qlt_floor (- (q * 4))) as U.
    pose proof (Qfloor_le (q * 4)) as V.
    assert (W : inject_Z (- Qfloor (- (q * 4))) < inject_Z (Qfloor (q * 4) + 2)).
    { rewrite inject_Z_opp, !inject_Z_plus in *.
      change (inject_Z 1) with 1 in U. change (inject_Z 2) with 2.
      pose proof (Qlt_floor (q * 4)) as X. rewrite inject_Z_plus in X.
      change (inject_Z 1) with 1 in X.
      pose proof (Qfloor_le (- (q * 4))) as Y. lra. }
    rewrite <- Zlt_Qlt in W. lia. }
  assert (B1 : (- 2 ^ 53 <= z1)%Z).
  { unfold z1. rewrite <- (Qfloor_Z (- 2 ^ 53)). apply Qfloor_resp_le.
    change (inject_Z (- 2 ^ 53)) with (- inject_Z (2 ^ 51) * 4).
    revert H1. generalize (inject_Z (2 ^ 51)). intros c H1. lra. }
  assert (B2 : (z2 <= 2 ^ 53)%Z).
  { unfold z2. rewrite <- (Qceiling_Z (2 ^ 53)). apply Qceiling_resp_le.
    change (inject_Z (2 ^ 53)) with (inject_Z (2 ^ 51) * 4).
    revert H2. generalize (inject_Z (2 ^ 51)). intros c H2. lra. }
  clear H1 H2. clearbody z1 z2.
  assert (B3 : (z1 <= z2)%Z).
  { rewrite Zle_Qle. lra. }
  assert (F1 : fl (inject_Z z1 / 4) == inject_Z z1 * (1 # 4))
    by (apply fl_quarter; lia).
  assert (F2 : fl (inject_Z z2 / 4) == inject_Z z2 * (1 # 4))
    by (apply fl_quarter; lia).
  assert (M1 : fl (inject_Z z1 / 4) <= fl q).
  { apply fl_mono. change (inject_Z z1 / 4) with (inject_Z z1 * (1 # 4)).
    lra. }
  assert (M2 : fl q <= fl (inject_Z z2 / 4)).
  { apply fl_mono. change (inject_Z z2 / 4) with (inject_Z z2 * (1 # 4)).
    lra. }
  assert (L3' : inject_Z z2 <= inject_Z z1 + 1).
  { change 1 with (inject_Z 1). rewrite <- inject_Z_plus, <- Zle_Qle. lia. }
  rewrite F1 in M1. rewrite F2 in M2. split; lra.
Qed.

(** An integer within reach is a number of the host. *)
Lemma fl_sum_Z : forall a b : Z,
  (Z.abs a <= 2 ^ 52)%Z -> (Z.abs b <= 2 ^ 52)%Z ->
  fl (inject_Z a + inject_Z b) == inject_Z a + inject_Z b.
Proof.
  intros a b Ha Hb.
  rewrite (fl_comp (inject_Z a + inject_Z b) (inject_Z (a + b)))
    by now rewrite inject_Z_plus.
  rewrite fl_Z by lia. now rewrite inject_Z_plus.
Qed.

(** Rounding keeps a number between two numbers of the host. *)
Lemma fl_between : forall a b q,
  isDouble a -> isDouble b -> a <= q <= b -> a <= fl q <= b.
Proof.
  intros a b q Ha Hb [H1 H2]. unfold isDouble in *. split.
  - apply Qle_trans with (fl a); [rewrite Ha; apply Qle_refl|].
    now apply fl_mono.
  - apply Qle_trans with (fl b); [|rewrite Hb; apply Qle_refl].
    now apply fl_mono.
Qed.

Lemma isDouble_quarter : forall z : Z,
  (Z.abs z <= 2 ^ 53)%Z -> isDouble (inject_Z z * (1 # 4)).
Proof. intros z H. unfold isDouble. now apply fl_quarter. Qed.

Lemma fl_nonneg : forall q, 0 <= q -> 0 <= fl q.
Proof.
  intros q H. apply Qle_trans with (fl 0); [apply Qle_refl|].
  now apply fl_mono.
Qed.

End Binary64Facts.

(** ** The block array: lookups and updates *)

Section BlockArray.

Variable f : BlockObject -> BlockObject.

Lemma updateBlock_length : forall i bs,
  List.length (updateBlock f i bs) = List.length bs.
Proof.
  induction i; destruct bs; simpl; auto.
Qed.

Lemma getBlock_updateBlock_same : forall i bs,
  (i < List.length bs)%nat ->
  getBlock (updateBlock f i bs) i = f (getBlock bs i).
Proof.
  unfold getBlock.
  induction i; destruct bs; simpl; intros; try lia; auto.
  apply IHi; lia.
Qed.

Lemma getBlock_updateBlock_other : forall i j bs,
  i <> j -> getBlock (updateBlock f i bs) j = getBlock bs j.
Proof.
  unfold getBlock.
  induction i; destruct bs, j; simpl; intros; try congruence; auto.
Qed.

Lemma forEachBlock_length : forall group bs,
  List.length (forEachBlock f group bs) = List.length bs.
Proof.
  unfold forEachBlock.
  induction group; simpl; intros; auto.
  rewrite IHgroup. apply updateBlock_length.
Qed.

(** A relation to a reference array that every application of [f]
    keeps is kept by the updates of the array. *)
Variable R : BlockObject -> BlockObject -> Prop.
Hypothesis f_keeps : forall b0 b, R b0 b -> R b0 (f b).

Lemma updateBlock_keeps : forall i bs0 bs,
  Forall2 R bs0 bs -> Forall2 R bs0 (updateBlock f i bs).
Proof.
  induction i; intros bs0 bs H; destruct H; simpl; constructor; auto.
Qed.

Lemma forEachBlock_keeps : forall group bs0 bs,
  Forall2 R bs0 bs -> Forall2 R bs0 (forEachBlock f group bs).
Proof.
  unfold forEachBlock.
  induction group; simpl; intros; auto.
  apply IHgroup. now apply updateBlock_keeps.
Qed.

End BlockArray.

Lemma Forall2_getBlock (R : BlockObject -> BlockObject -> Prop) :
  forall bs0 bs i,
    Forall2 R bs0 bs -> (i < List.length bs0)%nat ->
    R (getBlock bs0 i) (getBlock bs i).
Proof.
  unfold getBlock.
  intros bs0 bs i H. revert i.
  induction H; intros [|i] Hi; simpl in *; try lia; auto.
  apply IHForall2. lia.
Qed.

(** ** Refusal while animating *)

Section Refusal.
Context {M : JSMath}.

Lemma rotateBlock_refused : forall now axis b,
  isAnimating b = true -> Block.rotateBlock now axis b = b.
Proof.
  intros now axis b H. unfold Block.rotateBlock. now rewrite H.
Qed.

Lemma rotateGroup_refused : forall now axis m,
  (exists i, In i (selectedGroup m) /\
             Block.animating (getBlock (blocks m) i) = true) ->
  rotateGroup now axis m = m.
Proof.
  intros now axis m H. unfold rotateGroup.
  destruct (centerBlock m); [|reflexivity].
  replace (existsb _ (selectedGroup m)) with true; [reflexivity|].
  symmetry. now apply existsb_exists.
Qed.

(** C7: a rotation that arrives while a relevant animation is running is
    dropped.  [rotateBlock] on a block whose orientation animation is
    active returns the block as it was (cells, pending cells and
    animation targets included) and does not touch the caller's axis,
    and [rotateGroup] with an animating member returns the manager as it
    was. *)
Theorem rotation_refused_while_animating :
  forall now axis,
    (forall b, isAnimating b = true ->
               Block.rotateBlock now axis b = b /\
               Block.rotateBlock_axis axis b = axis) /\
    (forall m i,
        In i (selectedGroup m) ->
        Block.animating (getBlock (blocks m) i) = true ->
        rotateGroup now axis m = m).
Proof.
  intros now axis. split.
  - intros b H. split; [now apply rotateBlock_refused|].
    unfold Block.rotateBlock_axis. now rewrite H.
  - intros m i Hin Han. apply rotateGroup_refused. eauto.
Qed.

End Refusal.

Example quarter_turn_about_x_lifts_the_block :
  map (fun b => (blockId b, Block.getWorldCellPositions b))
      (firstn 2 (blocks (run (M := hostMath) initialManager
                             [SelectById 0;
                              Flip 0 (vec3 0 0 (-1)) Down;
                              Tick (fun _ => 200)])))
  = [ (0, [(0, 1, 0); (-1, 1, 0); (0, 0, 0)]);
      (1, [(3, 0, 0); (2, 0, 0); (3, 0, 1); (4, 0, 1)]) ]%Z.
Proof. vm_compute. reflexivity. Qed.

(** ** What a group rotation leaves alone *)

Section Frames.
Context {M : JSMath}.

Lemma withBlocks_same : forall m, withBlocks (blocks m) m = m.
Proof. now destruct m. Qed.

Lemma rotateGroup_frame : forall now axis m,
  rotateGroup now axis m = withBlocks (blocks (rotateGroup now axis m)) m.
Proof.
  intros now axis m. unfold rotateGroup.
  destruct (centerBlock m); [|now rewrite withBlocks_same].
  destruct (existsb _ _); [now rewrite withBlocks_same|].
  destruct (rotateTargets _ _ _ _ _) as [targets minWorldY].
  destruct (fold_left _ _ _) as [[bs' ax'] tp']. reflexivity.
Qed.

Lemma flipBlock_frame : forall now cam d m,
  flipBlock now cam d m = withBlocks (blocks (flipBlock now cam d m)) m.
Proof.
  intros now cam d m. unfold flipBlock.
  destruct (selectedGroup m); [now rewrite withBlocks_same|].
  destruct (centerBlock m); [|now rewrite withBlocks_same].
  destruct (existsb _ _); [now rewrite withBlocks_same|].
  apply rotateGroup_frame.
Qed.

Lemma dragMove_frame : forall e target plane m,
  dragMove e target plane m
  = withBlocks (blocks (dragMove e target plane m)) m.
Proof.
  intros e target plane m. unfold dragMove.
  destruct (intersectPlane _ _); [|now rewrite withBlocks_same].
  now destruct (isGroupDrag m).
Qed.

End Frames.

Lemma rotation_refused_while_animating_witness :
  let m := run (M := hostMath) initialManager
               [SelectById 0; Flip 10 (vec3 0 0 (-1)) Down] in
  let b := getBlock (blocks m) 2 in
  let axis := vec3 0 1 0 in
  (isAnimating b = true /\ In 2%nat (selectedGroup m) /\
   Block.animating b = true) /\
  Block.rotateBlock (M := hostMath) 20 axis b = b /\
  rotateGroup (M := hostMath) 20 axis m = m.
Proof.
  intros m b axis.
  assert (Ha : isAnimating b = true) by (vm_compute; reflexivity).
  assert (Hin : In 2%nat (selectedGroup m)) by (vm_compute; auto).
  assert (Han : Block.animating b = true) by (vm_compute; reflexivity).
  destruct (rotation_refused_while_animating (M := hostMath) 20 axis)
    as [Hblock Hgroup].
  split; [exact (conj Ha (conj Hin Han))|].
  split; [exact (proj1 (Hblock b Ha))|].
  exact (Hgroup m 2%nat Hin Han).
Defined.

(** ** The gizmo follows the selection *)

Section GizmoVisibility.
Context {M : JSMath}.

Lemma gizmoInvariant_view : forall m m',
  gizmoView m' = gizmoView m -> gizmoInvariant m -> gizmoInvariant m'.
Proof.
  unfold gizmoView, gizmoInvariant. intros m m' H.
  injection H as -> -> ->. auto.
Qed.

Lemma gizmoInvariant_shown : forall m c,
  gizmoView m = (true, Some c, isDragging m) -> gizmoInvariant m.
Proof.
  unfold gizmoView, gizmoInvariant. intros m c H.
  injection H as -> ->. auto.
Qed.

Lemma gizmoInvariant_hidden : forall m,
  gizmoVisible m = false ->
  (isDragging m = true \/ centerBlock m = None) -> gizmoInvariant m.
Proof.
  unfold gizmoInvariant. intros m Hv [Hd | Hc]; split; intros;
    try congruence.
  rewrite Hc in *. discriminate.
Qed.

Lemma view_rotateGroup : forall now axis m,
  gizmoView (rotateGroup now axis m) = gizmoView m.
Proof. intros. now rewrite rotateGroup_frame. Qed.

Lemma view_withGizmoDrag : forall d a p s acc m,
  gizmoView (withGizmoDrag d a p s acc m) = gizmoView m.
Proof. reflexivity. Qed.

Lemma view_withBlocks : forall bs m, gizmoView (withBlocks bs m) = gizmoView m.
Proof. reflexivity. Qed.

Lemma view_withControls : forall c m,
  gizmoView (withControls c m) = gizmoView m.
Proof. reflexivity. Qed.

Lemma view_withPointer : forall d p h m,
  gizmoView (withPointer d p h m) = gizmoView m.
Proof. reflexivity. Qed.

Lemma view_gizmoCommit : forall e axis m,
  gizmoView (gizmoCommit e axis m) = gizmoView m.
Proof.
  intros e axis m. unfold gizmoCommit.
  destruct (Qle_bool _ _); [|reflexivity]. cbv zeta.
  now rewrite view_withGizmoDrag, view_rotateGroup.
Qed.

Lemma view_gizmoMove : forall e axis plane m,
  gizmoView (gizmoMove e axis plane m) = gizmoView m.
Proof.
  intros e axis plane m. unfold gizmoMove.
  destruct (intersectPlane _ _); [|reflexivity]. cbv zeta.
  now rewrite view_gizmoCommit.
Qed.

Lemma view_dragMove : forall e target plane m,
  gizmoView (dragMove e target plane m) = gizmoView m.
Proof. intros. now rewrite dragMove_frame. Qed.

Lemma gizmoInvariant_pointerDown : forall e m,
  gizmoInvariant m -> gizmoInvariant (onPointerDown e m).
Proof.
  intros e m H. unfold onPointerDown.
  destruct (negb _); [exact H|]. cbv zeta.
  destruct (gizmoVisible _ && _); [destruct (ringHit e)|];
    try (revert H; apply gizmoInvariant_view; reflexivity);
    destruct (blockHit e); revert H; apply gizmoInvariant_view; reflexivity.
Qed.

Lemma gizmoInvariant_pointerMove : forall e m,
  gizmoInvariant m -> gizmoInvariant (onPointerMove e m).
Proof.
  intros e m H. unfold onPointerMove.
  assert (Hdrag : forall m1, gizmoInvariant m1 ->
            gizmoInvariant
              match isDragging m1, dragTarget m1, dragPlane m1 with
              | true, Some target, Some plane => dragMove e target plane m1
              | _, _, _ => m1
              end).
  { intros m1 H1.
    destruct (isDragging m1), (dragTarget m1), (dragPlane m1); auto.
    revert H1. apply gizmoInvariant_view, view_dragMove. }
  assert (Hstart : gizmoInvariant
            match pendingBlock m with
            | Some block =>
                if negb (hasMovedPastThreshold m) && negb (isDragging m)
                   && Qle_bool mouseMoveThreshold (pointerDistance e m)
                then startDrag e block
                       (withPointer (mouseDownPos m) (pendingBlock m) true m)
                else m
            | None => m
            end).
  { destruct (pendingBlock m); auto.
    destruct (_ && _); auto.
    apply gizmoInvariant_hidden; [reflexivity | now left]. }
  destruct (isGizmoDragging m); [|now apply Hdrag].
  destruct (gizmoDragAxis m); [|now apply Hdrag].
  destruct (gizmoDragPlane m); [|now apply Hdrag].
  destruct (centerBlock m) eqn:Hc; [|now apply Hdrag].
  revert H. apply gizmoInvariant_view, view_gizmoMove.
Qed.

Lemma view_resetPointerState : forall m,
  gizmoView (resetPointerState m)
  = (gizmoVisible m, centerBlock m, false).
Proof. reflexivity. Qed.

Lemma gizmoInvariant_reset : forall m,
  gizmoInvariant m -> isDragging m = false ->
  gizmoInvariant (resetPointerState (withControls true m)).
Proof.
  intros m H Hd. revert H. apply gizmoInvariant_view.
  rewrite view_resetPointerState. unfold gizmoView. simpl. now rewrite Hd.
Qed.

Lemma gizmoInvariant_select : forall group center m,
  gizmoInvariant (selectGroupWithCenter group center m).
Proof.
  intros. apply gizmoInvariant_shown with (c := center). reflexivity.
Qed.

Lemma gizmoInvariant_deselect : forall m, gizmoInvariant (deselectAll m).
Proof.
  intros. apply gizmoInvariant_hidden; [reflexivity | now right].
Qed.

Lemma gizmoInvariant_pointerUp : forall e m,
  gizmoInvariant m -> gizmoInvariant (onPointerUp e m).
Proof.
  intros e m H. unfold onPointerUp.
  destruct (negb _); [exact H|].
  destruct (isGizmoDragging m).
  { revert H. apply gizmoInvariant_view. reflexivity. }
  destruct (isDragging m) eqn:Hd.
  { cbv zeta.
    set (m2 := withBlocks _ _).
    assert (Hc : centerBlock m2 = centerBlock m) by reflexivity.
    assert (Hv : gizmoVisible m2 = gizmoVisible m) by reflexivity.
    clearbody m2.
    destruct (centerBlock m2) as [c|] eqn:Hc2.
    - apply gizmoInvariant_shown with (c := c).
      unfold gizmoView. simpl. now rewrite Hc2.
    - apply gizmoInvariant_hidden; [|right; simpl; congruence].
      simpl. rewrite Hv. destruct H as [H _].
      destruct (gizmoVisible m); [|reflexivity].
      specialize (H eq_refl). rewrite <- Hc in H. discriminate. }
  destruct (pendingBlock m).
  - apply gizmoInvariant_reset.
    + destruct (negb _); auto. destruct (isCenter _ _); auto.
      apply gizmoInvariant_select.
    + destruct (negb _); auto. destruct (isCenter _ _); auto.
  - destruct (Qltb _ _); [|now apply gizmoInvariant_reset].
    destruct (_ && _); [now apply gizmoInvariant_reset|].
    apply gizmoInvariant_reset.
    + destruct (blockHit e); auto. apply gizmoInvariant_deselect.
    + destruct (blockHit e); auto.
Qed.

Lemma gizmoInvariant_step : forall ev m,
  gizmoInvariant m -> gizmoInvariant (step m ev).
Proof.
  intros [e|e|e|e|now cam d|id|clock] m H; simpl.
  - now apply gizmoInvariant_pointerDown.
  - now apply gizmoInvariant_pointerMove.
  - now apply gizmoInvariant_pointerUp.
  - unfold onDblClick. destruct (blockHit e) as [b|]; auto.
    now apply gizmoInvariant_shown with (c := b).
  - revert H. apply gizmoInvariant_view.
    now rewrite flipBlock_frame.
  - unfold selectBlockById. destruct (findIndexById _ _ _); auto.
    apply gizmoInvariant_select.
  - unfold update. cbv zeta.
    set (m1 := withBlocks _ m).
    destruct (centerBlock m1); [destruct (_ && _)|];
      revert H; apply gizmoInvariant_view; reflexivity.
Qed.

(** C8, as the code has it: through every sequence of events the gizmo
    is visible only if a centre block is selected, and whenever a centre
    block is selected and no block drag is in progress the gizmo is
    visible.  ([startDrag] hides the gizmo until the release.) *)
Theorem gizmo_visible_with_center_outside_drag :
  forall evs m, gizmoInvariant m -> gizmoInvariant (run m evs).
Proof.
  unfold run.
  induction evs as [|ev evs IH]; simpl; intros m H; auto.
  apply IH. now apply gizmoInvariant_step.
Qed.

End GizmoVisibility.

Lemma gizmo_visible_with_center_outside_drag_witness :
  gizmoInvariant initialManager /\
  gizmoInvariant
    (run (M := hostMath) initialManager
         [SelectById 0;
          PointerDown (pointerAt 0 0 0 0 (Some 0%nat) 0);
          PointerMove (pointerAt 10 0 1 0 None 1)]).
Proof.
  assert (H0 : gizmoInvariant initialManager).
  { split; vm_compute; congruence. }
  split; [exact H0|].
  apply (gizmo_visible_with_center_outside_drag (M := hostMath)).
  exact H0.
Defined.

(** C8, as stated, fails in the middle of a drag: the centre block is
    still selected and the gizmo is hidden. *)
Lemma gizmo_hidden_during_drag :
  let m := run (M := hostMath) initialManager
               [SelectById 0;
                PointerDown (pointerAt 0 0 0 0 (Some 0%nat) 0);
                PointerMove (pointerAt 10 0 1 0 None 1)] in
  centerBlock m = Some 0%nat /\ isDragging m = true /\
  gizmoVisible m = false /\ ~ gizmoShowsCenter m.
Proof.
  vm_compute. repeat split; try reflexivity.
  intros [_ H]. specialize (H eq_refl). discriminate.
Qed.

(** ** Relations that every block operation keeps *)

Section BlocksKeep.
Context {M : JSMath}.

Variable R : BlockObject -> BlockObject -> Prop.
Hypothesis keep_setSelected :
  forall s b0 b, R b0 b -> R b0 (Block.setSelected s b).
Hypothesis keep_set_position :
  forall p b0 b, R b0 b -> R b0 (Block.set_position b p).
Hypothesis keep_rotateBlock :
  forall now axis b0 b, R b0 b -> R b0 (Block.rotateBlock now axis b).
Hypothesis keep_animatePositionTo :
  forall now target pivot axis b0 b,
    R b0 b -> R b0 (Block.animatePositionTo now target pivot axis b).
Hypothesis keep_updateAnimation :
  forall now b0 b, R b0 b -> R b0 (Block.updateAnimation now b).

Variable bs0 : list BlockObject.

Local Abbreviation kept bs := (Forall2 R bs0 bs).

Lemma keep_snapToGrid : forall b0 b, R b0 b -> R b0 (Block.snapToGrid b).
Proof. intros. unfold Block.snapToGrid. now apply keep_set_position. Qed.

Lemma keep_rotateMember : forall now pivot nax ax pos b0 b,
  R b0 b -> R b0 (rotateMember now pivot nax ax pos b).
Proof.
  intros. unfold rotateMember.
  destruct (negb _); auto.
Qed.

Lemma kept_rotateRounds : forall now pivot nax yOffset group st,
  kept (fst (fst st)) ->
  kept (fst (fst (fold_left (rotateRound now pivot nax yOffset) group st))).
Proof.
  induction group as [|i group IH]; simpl; intros st H; auto.
  apply IH. destruct st as [[bs ax] tp]. simpl in *.
  destruct (mapGet i tp); simpl; apply updateBlock_keeps; auto.
  intros. now apply keep_rotateMember.
Qed.

Lemma kept_rotateGroup : forall now axis m,
  kept (blocks m) -> kept (blocks (rotateGroup now axis m)).
Proof.
  intros now axis m H. unfold rotateGroup.
  destruct (centerBlock m); auto.
  destruct (existsb _ _); auto.
  destruct (rotateTargets _ _ _ _ _) as [targets minWorldY].
  match goal with
  | |- context [fold_left ?f ?g ?st] =>
      pose proof (@kept_rotateRounds now
                    (position (getBlock (blocks m) n)) (normalize axis)
                    (floorOffset minWorldY) g st H) as K;
      destruct (fold_left f g st) as [[bs' ax'] tp']
  end.
  exact K.
Qed.

Lemma kept_flipBlock : forall now cam d m,
  kept (blocks m) -> kept (blocks (flipBlock now cam d m)).
Proof.
  intros now cam d m H. unfold flipBlock.
  destruct (selectedGroup m); auto.
  destruct (centerBlock m); auto.
  destruct (existsb _ _); auto.
  now apply kept_rotateGroup.
Qed.

Lemma kept_moveGroup : forall delta starts group bs,
  kept bs -> kept (moveGroup delta starts group bs).
Proof.
  intros delta starts group bs H. unfold moveGroup.
  assert (G : forall st, kept (fst st) ->
                kept (fst (fold_left (moveMember delta starts) group st))).
  { induction group as [|i group IH]; simpl; intros st Hst; auto.
    apply IH. unfold moveMember.
    destruct (snd st); auto.
    destruct (mapGet i starts); simpl; auto.
    apply updateBlock_keeps; auto. }
  now apply G.
Qed.

Lemma kept_dragMove : forall e target plane m,
  kept (blocks m) -> kept (blocks (dragMove e target plane m)).
Proof.
  intros e target plane m H. unfold dragMove.
  destruct (intersectPlane _ _); auto.
  destruct (isGroupDrag m); simpl.
  - now apply kept_moveGroup.
  - apply updateBlock_keeps; auto.
Qed.

Lemma kept_gizmoCommit : forall e axis m,
  kept (blocks m) -> kept (blocks (gizmoCommit e axis m)).
Proof.
  intros e axis m H. unfold gizmoCommit.
  destruct (Qle_bool _ _); auto. cbv zeta. simpl.
  now apply kept_rotateGroup.
Qed.

Lemma kept_gizmoMove : forall e axis plane m,
  kept (blocks m) -> kept (blocks (gizmoMove e axis plane m)).
Proof.
  intros e axis plane m H. unfold gizmoMove.
  destruct (intersectPlane _ _); auto. cbv zeta.
  now apply kept_gizmoCommit.
Qed.

Lemma kept_select : forall group center m,
  kept (blocks m) -> kept (blocks (selectGroupWithCenter group center m)).
Proof.
  intros. unfold selectGroupWithCenter. simpl.
  apply forEachBlock_keeps; auto. apply forEachBlock_keeps; auto.
Qed.

Lemma kept_deselect : forall m,
  kept (blocks m) -> kept (blocks (deselectAll m)).
Proof.
  intros. unfold deselectAll. simpl. apply forEachBlock_keeps; auto.
Qed.

Lemma kept_pointerDown : forall e m,
  kept (blocks m) -> kept (blocks (onPointerDown e m)).
Proof.
  intros e m H. unfold onPointerDown.
  destruct (negb _); auto. cbv zeta.
  destruct (gizmoVisible _ && _); [destruct (ringHit e)|];
    auto; destruct (blockHit e); auto.
Qed.

Lemma kept_pointerMove : forall e m,
  kept (blocks m) -> kept (blocks (onPointerMove e m)).
Proof.
  intros e m H. unfold onPointerMove.
  assert (Hdrag : forall m1, kept (blocks m1) ->
            kept (blocks
              match isDragging m1, dragTarget m1, dragPlane m1 with
              | true, Some target, Some plane => dragMove e target plane m1
              | _, _, _ => m1
              end)).
  { intros m1 H1.
    destruct (isDragging m1), (dragTarget m1), (dragPlane m1); auto.
    now apply kept_dragMove. }
  assert (Hstart : kept (blocks
            match pendingBlock m with
            | Some block =>
                if negb (hasMovedPastThreshold m) && negb (isDragging m)
                   && Qle_bool mouseMoveThreshold (pointerDistance e m)
                then startDrag e block
                       (withPointer (mouseDownPos m) (pendingBlock m) true m)
                else m
            | None => m
            end)).
  { destruct (pendingBlock m); auto. destruct (_ && _); auto. }
  destruct (isGizmoDragging m); [|now apply Hdrag].
  destruct (gizmoDragAxis m); [|now apply Hdrag].
  destruct (gizmoDragPlane m); [|now apply Hdrag].
  destruct (centerBlock m); [|now apply Hdrag].
  now apply kept_gizmoMove.
Qed.

Lemma kept_pointerUp : forall e m,
  kept (blocks m) -> kept (blocks (onPointerUp e m)).
Proof.
  intros e m H. unfold onPointerUp.
  destruct (negb _); auto.
  destruct (isGizmoDragging m); auto.
  destruct (isDragging m).
  { cbv zeta.
    match goal with
    | |- context [withBlocks ?bs ?m1] =>
        assert (K : kept bs); [|set (m2 := withBlocks bs m1);
                                 assert (K2 : kept (blocks m2)) by exact K;
                                 clearbody m2]
    end.
    { simpl. destruct (isGroupDrag m).
      - apply forEachBlock_keeps; auto. apply keep_snapToGrid.
      - destruct (dragTarget m); auto.
        apply updateBlock_keeps; auto. apply keep_snapToGrid. }
    destruct (centerBlock m2); exact K2. }
  destruct (pendingBlock m).
  - simpl. destruct (negb _); auto. destruct (isCenter _ _); auto.
    now apply kept_select.
  - destruct (Qltb _ _); auto.
    destruct (_ && _); auto.
    simpl. destruct (blockHit e); auto. now apply kept_deselect.
Qed.

Lemma kept_updateAll : forall clock bs i,
  kept bs -> kept (updateAll clock i bs).
Proof.
  intros clock bs i H. revert i.
  induction H; simpl; intros; constructor; auto.
Qed.

Lemma kept_step : forall ev m,
  kept (blocks m) -> kept (blocks (step m ev)).
Proof.
  intros [e|e|e|e|now cam d|id|clock] m H; simpl.
  - now apply kept_pointerDown.
  - now apply kept_pointerMove.
  - now apply kept_pointerUp.
  - unfold onDblClick. destruct (blockHit e); auto. simpl.
    apply updateBlock_keeps; auto. apply forEachBlock_keeps; auto.
  - now apply kept_flipBlock.
  - unfold selectBlockById. destruct (findIndexById _ _ _); auto.
    now apply kept_select.
  - unfold update. cbv zeta.
    set (m1 := withBlocks _ m).
    assert (K : kept (blocks m1)) by (apply kept_updateAll; exact H).
    clearbody m1.
    destruct (centerBlock m1); auto. destruct (_ && _); auto.
Qed.

Lemma kept_run : forall evs m,
  kept (blocks m) -> kept (blocks (run m evs)).
Proof.
  unfold run.
  induction evs as [|ev evs IH]; simpl; intros; auto.
  apply IH. now apply kept_step.
Qed.

End BlocksKeep.

(** ** The number of cells of a block *)

Section CellCount.
Context {M : JSMath}.

Lemma rotatedCells_length : forall q cs,
  List.length (Block.rotatedCells q cs) = List.length cs.
Proof. intros. unfold Block.rotatedCells. apply length_map. Qed.

Lemma count_rotateBlock : forall now axis b0 b,
  keepsCellCount b0 b -> keepsCellCount b0 (Block.rotateBlock now axis b).
Proof.
  unfold keepsCellCount, Block.rotateBlock.
  intros now axis b0 b (Hid & Hc & Hp).
  destruct (isAnimating b); simpl; auto.
  rewrite rotatedCells_length. auto.
Qed.

Lemma count_updateAnimation : forall now b0 b,
  keepsCellCount b0 b -> keepsCellCount b0 (Block.updateAnimation now b).
Proof.
  unfold keepsCellCount, Block.updateAnimation.
  intros now b0 b (Hid & Hc & Hp).
  assert (K : blockId (Block.updatePosition now b) = blockId b0 /\
              List.length (cells (Block.updatePosition now b))
              = List.length (cells b0) /\
              match pendingCells (Block.updatePosition now b) with
              | Some p => List.length p = List.length (cells b0)
              | None => True
              end).
  { unfold Block.updatePosition.
    destruct (posAnimating b); auto.
    destruct (posAnimStartPos b); auto.
    destruct (posAnimTargetPos b); auto.
    destruct (Qle_bool _ _); simpl; auto. }
  destruct K as (Kid & Kc & Kp).
  set (b1 := Block.updatePosition now b) in *. clearbody b1.
  unfold Block.updateOrientation.
  destruct (negb (isAnimating b1) || negb (animPivotGroup b1)); auto.
  destruct (Qle_bool _ _); simpl; auto.
  destruct (pendingCells b1); auto.
Qed.

Lemma count_run : forall evs m bs0,
  Forall2 keepsCellCount bs0 (blocks m) ->
  Forall2 keepsCellCount bs0 (blocks (run m evs)).
Proof.
  intros evs m bs0. apply kept_run.
  - unfold keepsCellCount. intros s b0 b H. exact H.
  - unfold keepsCellCount. intros p b0 b H. exact H.
  - apply count_rotateBlock.
  - unfold keepsCellCount. intros now target pivot axis b0 b H. exact H.
  - apply count_updateAnimation.
Qed.

Lemma Forall2_compose (A B C : Type) (P : A -> B -> Prop)
      (Q : B -> C -> Prop) (S : A -> C -> Prop) :
  (forall a b c, P a b -> Q b c -> S a c) ->
  forall la lb lc, Forall2 P la lb -> Forall2 Q lb lc -> Forall2 S la lc.
Proof.
  intros HS la lb lc H. revert lc.
  induction H; intros lc H2; inversion H2; subst; constructor; eauto.
Qed.

Lemma initial_counts :
  Forall2 hasCatalogCount BLOCK_DEFINITIONS (blocks initialManager) /\
  Forall2 keepsCellCount (blocks initialManager) (blocks initialManager).
Proof.
  split; repeat constructor.
Qed.

(** C10: [rotateBlock] prepares as many pending cells as the block has
    cells, the end of the orientation animation is the only assignment
    to [cells], and so the blocks of a session, which are those of the
    catalog, keep the cell count of their catalog entries through every
    sequence of events. *)
Theorem cell_count_is_invariant :
  (forall q cs, List.length (Block.rotatedCells q cs) = List.length cs) /\
  forall evs,
    Forall2 hasCatalogCount BLOCK_DEFINITIONS
            (blocks (run initialManager evs)).
Proof.
  split; [exact rotatedCells_length|].
  intros evs.
  destruct initial_counts as [Hcat Hself].
  apply Forall2_compose
    with (P := hasCatalogCount) (Q := keepsCellCount)
         (lb := blocks initialManager); auto.
  - unfold hasCatalogCount, keepsCellCount.
    intros def b0 b [Hid Hlen] (Kid & Klen & _). split; congruence.
  - now apply count_run.
Qed.

End CellCount.

(** ** Connectivity: the flood fill computes the connected component *)

Section Connectivity.

Lemma has_In : forall i s, has i s = true <-> In i s.
Proof.
  intros i s. unfold has. rewrite existsb_exists. split.
  - intros (k & Hk & E). apply Nat.eqb_eq in E. now subst.
  - intros H. exists i. split; auto. apply Nat.eqb_refl.
Qed.

Lemma has_not_In : forall i s, has i s = false <-> ~ In i s.
Proof.
  intros i s. rewrite <- has_In. destruct (has i s); split; congruence.
Qed.

Lemma cellsTouch_sym : forall a b, cellsTouch a b = cellsTouch b a.
Proof.
  intros [[ax ay] az] [[bx by_] bz]. unfold cellsTouch.
  f_equal. lia.
Qed.

Lemma areAdjacent_sym : forall a b, areAdjacent a b = areAdjacent b a.
Proof.
  intros a b. unfold areAdjacent.
  generalize (Block.getWorldCellPositions a) as la.
  generalize (Block.getWorldCellPositions b) as lb.
  intros lb la.
  apply eq_true_iff_eq. rewrite !existsb_exists. split.
  - intros (ca & Ha & H). apply existsb_exists in H.
    destruct H as (cb & Hb & H).
    exists cb. split; auto. apply existsb_exists.
    exists ca. split; auto. now rewrite cellsTouch_sym.
  - intros (cb & Hb & H). apply existsb_exists in H.
    destruct H as (ca & Ha & H).
    exists ca. split; auto. apply existsb_exists.
    exists cb. split; auto. now rewrite cellsTouch_sym.
Qed.


Lemma adjacent_sym : forall bs i j, adjacent bs i j -> adjacent bs j i.
Proof. unfold adjacent. intros. now rewrite areAdjacent_sym. Qed.

Variable bs : list BlockObject.

Lemma connected_trans : forall i j k,
  connected bs i j -> connected bs j k -> connected bs i k.
Proof.
  intros i j k Hij Hjk. induction Hjk; auto.
  eapply connected_next; eauto.
Qed.

Lemma connected_in_range : forall i k,
  (i < List.length bs)%nat -> connected bs i k -> (k < List.length bs)%nat.
Proof. intros i k Hi H. destruct H; auto. Qed.

Lemma connected_sym : forall i k,
  (i < List.length bs)%nat -> connected bs i k -> connected bs k i.
Proof.
  intros i k Hi H. induction H.
  - constructor.
  - apply connected_trans with (j := j); auto.
    apply connected_next with (j := k); auto using adjacent_sym.
    + constructor.
    + now apply connected_in_range with (i := i).
Qed.

(** One pass over the array for the dequeued block. *)
Lemma scanBlocks_spec : forall current others visited queue,
  exists new,
    scanBlocks bs current others visited queue
    = (visited ++ new, queue ++ new) /\
    (forall o, In o new ->
               In o others /\ ~ In o visited /\
               areAdjacent current (getBlock bs o) = true) /\
    (forall o, In o others ->
               areAdjacent current (getBlock bs o) = true ->
               In o (visited ++ new)) /\
    (NoDup visited -> NoDup (visited ++ new)).
Proof.
  intros current others.
  induction others as [|o rest IH]; intros visited queue; simpl.
  - exists []. rewrite !app_nil_r. repeat split; auto; intros; contradiction.
  - destruct (has o visited) eqn:Hhas.
    + destruct (IH visited queue) as (new & E & Hnew & Hall & Hnd).
      exists new. rewrite E. repeat split; auto.
      * right. now apply Hnew.
      * now apply Hnew.
      * now apply Hnew.
      * intros o' [<-|Hin] Hadj; auto.
        apply in_or_app. left. now apply has_In.
    + apply has_not_In in Hhas.
      destruct (areAdjacent current (getBlock bs o)) eqn:Hadj.
      * destruct (IH (visited ++ [o]) (queue ++ [o]))
          as (new & E & Hnew & Hall & Hnd).
        exists (o :: new). rewrite E.
        rewrite <- !app_assoc. simpl. repeat split; auto.
        -- destruct H as [<-|H]; auto. right. now apply Hnew.
        -- destruct H as [<-|H]; auto.
           intros Hv. apply Hnew in H. destruct H as (_ & H & _).
           apply H. apply in_or_app. now left.
        -- destruct H as [<-|H]; auto. now apply Hnew.
        -- intros o' [<-|Hin] Hadj'.
           ++ apply in_or_app. right. now left.
           ++ specialize (Hall o' Hin Hadj').
              now rewrite <- app_assoc in Hall.
        -- intros Hv. rewrite <- app_assoc in Hnd. apply Hnd.
           apply NoDup_app; auto.
           ++ constructor; [intros []|constructor].
           ++ intros a Ha [<-|[]]. contradiction.
      * destruct (IH visited queue) as (new & E & Hnew & Hall & Hnd).
        exists new. rewrite E. repeat split; auto.
        -- right. now apply Hnew.
        -- now apply Hnew.
        -- now apply Hnew.
        -- intros o' [<-|Hin] Hadj'; auto. congruence.
Qed.

Lemma bounded_NoDup_length : forall n (l : list nat),
  NoDup l -> (forall a, In a l -> (a < n)%nat) -> (List.length l <= n)%nat.
Proof.
  intros n l Hnd Hb.
  apply Nat.le_trans with (List.length (seq 0 n)).
  - apply NoDup_incl_length; auto.
    intros a Ha. apply in_seq. specialize (Hb a Ha). lia.
  - rewrite length_seq. lia.
Qed.

Variable seed : nat.
Hypothesis seed_in_range : (seed < List.length bs)%nat.

Lemma bfsLoop_spec : forall fuel visited queue,
  floodInvariant bs seed visited queue ->
  (List.length queue + List.length bs <= fuel + List.length visited)%nat ->
  exists r, bfsLoop fuel bs visited queue = Some r /\ isComponent bs seed r.
Proof.
  induction fuel as [|fuel IH]; intros visited queue
    (Hnd & Hseed & Hconn & processed & Hsplit & Hclosed) Hfuel.
  - assert (Hlen : (List.length visited <= List.length bs)%nat).
    { apply bounded_NoDup_length; auto.
      intros a Ha. apply connected_in_range with (i := seed); auto. }
    destruct queue as [|current queue]; simpl in *; [|lia].
    exists visited. split; auto. split; auto.
    intros k. split; auto.
    intros Hk. induction Hk; auto.
    rewrite app_nil_r in Hsplit. subst processed. eauto.
  - destruct queue as [|current queue].
    + simpl. exists visited. split; auto. split; auto.
      intros k. split; auto.
      intros Hk. induction Hk; auto.
      rewrite app_nil_r in Hsplit. subst processed. eauto.
    + simpl.
      destruct (scanBlocks_spec (getBlock bs current)
                  (seq 0 (List.length bs)) visited queue)
        as (new & E & Hnew & Hall & Hnd').
      rewrite E.
      assert (Hcur : In current visited).
      { rewrite Hsplit. apply in_or_app. right. now left. }
      apply IH.
      * split; [auto|]. split; [apply in_or_app; now left|].
        split.
        -- intros v Hv. apply in_app_or in Hv. destruct Hv as [Hv|Hv]; auto.
           apply Hnew in Hv. destruct Hv as (Hin & _ & Hadj).
           apply connected_next with (j := current); auto.
           apply in_seq in Hin. lia.
        -- exists (processed ++ [current]). split.
           ++ rewrite Hsplit. rewrite <- !app_assoc. reflexivity.
           ++ intros p o Hp Ho Hadj.
              apply in_app_or in Hp. destruct Hp as [Hp|[<-|[]]].
              ** apply in_or_app. left. eauto.
              ** apply Hall; auto. apply in_seq. lia.
      * rewrite !length_app. simpl in Hfuel. lia.
Qed.

Lemma findConnectedBlocks_spec :
  findConnectedBlocksOpt bs seed = Some (findConnectedBlocks bs seed) /\
  isComponent bs seed (findConnectedBlocks bs seed).
Proof.
  unfold findConnectedBlocks.
  destruct (bfsLoop_spec (S (List.length bs)) [seed] [seed])
    as (r & E & Hr).
  - split; [repeat constructor; intros []|].
    split; [now left|]. split.
    + intros v [<-|[]]. constructor.
    + exists []. split; auto. intros p o [].
  - simpl. lia.
  - unfold findConnectedBlocksOpt. rewrite E. auto.
Qed.

End Connectivity.



(** ** Rounding *)

Lemma Qfloor_unique : forall (q : Q) (n : Z),
  inject_Z n <= q -> q < inject_Z (n + 1) -> Qfloor q = n.
Proof.
  intros q n Hlo Hhi.
  assert (H1 : (n <= Qfloor q)%Z).
  { rewrite <- (Qfloor_Z n). now apply Qfloor_resp_le. }
  assert (H2 : (Qfloor q < n + 1)%Z).
  { rewrite Zlt_Qlt. eapply Qle_lt_trans; [apply Qfloor_le | exact Hhi]. }
  lia.
Qed.

Lemma Math_round_unique : forall (q : Q) (n : Z),
  inject_Z n - (1 # 2) <= q -> q < inject_Z n + (1 # 2) -> Math_round q = n.
Proof.
  intros q n Hlo Hhi. unfold Math_round. apply Qfloor_unique.
  - lra.
  - rewrite inject_Z_plus. change (inject_Z 1) with 1. lra.
Qed.

Lemma Math_round_bounds : forall q : Q,
  inject_Z (Math_round q) - (1 # 2) <= q /\
  q < inject_Z (Math_round q) + (1 # 2).
Proof.
  intros q. unfold Math_round.
  pose proof (Qfloor_le (q + (1 # 2))) as H1.
  pose proof (Qlt_floor (q + (1 # 2))) as H2.
  rewrite inject_Z_plus in H2. change (inject_Z 1) with 1 in H2.
  split; lra.
Qed.

(** Rounding commutes with an integer shift. *)
Lemma Math_round_add_num : forall (q : Q) (k : Z),
  Math_round (q + num k) = (Math_round q + k)%Z.
Proof.
  intros q k. apply Math_round_unique;
    destruct (Math_round_bounds q) as [H1 H2];
    unfold num; rewrite inject_Z_plus; lra.
Qed.

Lemma Math_round_num : forall k : Z, Math_round (num k) = k.
Proof.
  intros k. apply Math_round_unique; unfold num; lra.
Qed.

(** ** World cells *)

Lemma worldCells_shift : forall b,
  Block.getWorldCellPositions b
  = map (fun c : Cell =>
           let '(cx, cy, cz) := c in
           (Math_round (x (position b)) + cx,
            Math_round (y (position b)) + cy,
            Math_round (z (position b)) + cz)%Z)
        (cells b).
Proof.
  intros b. unfold Block.getWorldCellPositions.
  apply map_ext. intros [[cx cy] cz].
  now rewrite !Math_round_add_num.
Qed.

Lemma worldCells_NoDup : forall b,
  NoDup (cells b) -> NoDup (Block.getWorldCellPositions b).
Proof.
  intros b H. rewrite worldCells_shift.
  apply Injective_map_NoDup; auto.
  intros [[ax ay] az] [[bx by_] bz] E.
  injection E as E1 E2 E3. f_equal; [f_equal|]; lia.
Qed.

(** ** Collision detection *)



Section CellMaps.

Lemma cell_eqb_eq : forall a b, cell_eqb a b = true <-> a = b.
Proof.
  intros [[ax ay] az] [[bx by_] bz]. unfold cell_eqb.
  rewrite !andb_true_iff, !Z.eqb_eq. split.
  - intros [[-> ->] ->]. reflexivity.
  - intros E. injection E as -> -> ->. auto.
Qed.

Lemma cell_eqb_refl : forall a, cell_eqb a a = true.
Proof. intros. now apply cell_eqb_eq. Qed.

Lemma cell_eqb_neq : forall a b, cell_eqb a b = false <-> a <> b.
Proof.
  intros a b. rewrite <- cell_eqb_eq. destruct (cell_eqb a b); split;
    congruence.
Qed.

Lemma getIds_pushId_same : forall k id m,
  getIds k (pushId k id m) = getIds k m ++ [id].
Proof.
  intros k id m. unfold getIds.
  induction m as [|[k' ids] m IH]; simpl.
  - now rewrite cell_eqb_refl.
  - destruct (cell_eqb k' k) eqn:E; simpl; rewrite E; auto.
Qed.

Lemma getIds_pushId_other : forall k k' id m,
  k' <> k -> getIds k' (pushId k id m) = getIds k' m.
Proof.
  intros k k' id m Hne. unfold getIds.
  induction m as [|[k0 ids] m IH]; simpl.
  - replace (cell_eqb k k') with false; auto.
    symmetry. apply cell_eqb_neq. congruence.
  - destruct (cell_eqb k0 k) eqn:E; simpl.
    + destruct (cell_eqb k0 k') eqn:E'; auto.
      apply cell_eqb_eq in E, E'. congruence.
    + destruct (cell_eqb k0 k'); auto.
Qed.

Lemma pushId_keys : forall k id m k0,
  In k0 (map fst (pushId k id m)) <-> k0 = k \/ In k0 (map fst m).
Proof.
  intros k id m k0.
  induction m as [|[k' ids] m IH]; simpl.
  - intuition.
  - destruct (cell_eqb k' k) eqn:E; simpl.
    + apply cell_eqb_eq in E. subst. intuition.
    + rewrite IH. intuition.
Qed.

Lemma pushId_keys_NoDup : forall k id m,
  NoDup (map fst m) -> NoDup (map fst (pushId k id m)).
Proof.
  intros k id m.
  induction m as [|[k' ids] m IH]; simpl; intros H.
  - repeat constructor. intros [].
  - inversion H; subst.
    destruct (cell_eqb k' k) eqn:E; simpl.
    + now constructor.
    + constructor; auto.
      rewrite pushId_keys. intros [->|Hin]; auto.
      now rewrite cell_eqb_refl in E.
Qed.

Lemma pushAll_keys_NoDup : forall ps m,
  NoDup (map fst m) -> NoDup (map fst (pushAll ps m)).
Proof.
  unfold pushAll.
  induction ps as [|p ps IH]; simpl; intros; auto.
  apply IH. now apply pushId_keys_NoDup.
Qed.

Lemma pushAll_getIds : forall k ps m,
  getIds k (pushAll ps m) = getIds k m ++ idsAt k ps.
Proof.
  unfold pushAll, idsAt.
  induction ps as [|[k' id] ps IH]; simpl; intros m.
  - now rewrite app_nil_r.
  - rewrite IH. destruct (cell_eqb k' k) eqn:E; simpl.
    + apply cell_eqb_eq in E. subst.
      now rewrite getIds_pushId_same, <- app_assoc.
    + apply cell_eqb_neq in E.
      rewrite getIds_pushId_other; auto.
Qed.

Lemma buildCellMap_pushAll : forall bs,
  buildCellMap bs = pushAll (pushes bs) [].
Proof.
  intros bs. unfold buildCellMap, pushAll, pushes.
  generalize (@nil (Cell * list Z)) as m.
  induction bs as [|b bs IH]; simpl; intros m; auto.
  rewrite fold_left_app, IH. f_equal.
  generalize (Block.getWorldCellPositions b) as cs. clear.
  intros cs. revert m.
  induction cs as [|c cs IH]; simpl; intros; auto.
Qed.

Lemma entry_getIds : forall (m : CellMap) k ids,
  NoDup (map fst m) -> In (k, ids) m -> getIds k m = ids.
Proof.
  intros m k ids. unfold getIds.
  induction m as [|[k' ids'] m IH]; simpl; intros Hnd Hin; [contradiction|].
  inversion Hnd; subst.
  destruct Hin as [E|Hin].
  - injection E as -> ->. now rewrite cell_eqb_refl.
  - destruct (cell_eqb k' k) eqn:E; auto.
    apply cell_eqb_eq in E. subst.
    exfalso. apply H1. change k with (fst (k, ids)). now apply in_map.
Qed.

Lemma getIds_entry : forall (m : CellMap) k,
  getIds k m <> [] -> In (k, getIds k m) m.
Proof.
  intros m k. unfold getIds.
  destruct (find _ m) as [[k' ids]|] eqn:E; [|congruence].
  intros _. apply find_some in E. destruct E as [Hin E].
  simpl in *. apply cell_eqb_eq in E. now subst.
Qed.

Lemma setAdd_In : forall id s a, In a (setAdd id s) <-> a = id \/ In a s.
Proof.
  intros id s a. unfold setAdd.
  destruct (existsb (Z.eqb id) s) eqn:E.
  - split; auto. intros [->|H]; auto.
    apply existsb_exists in E. destruct E as (b & Hb & E).
    apply Z.eqb_eq in E. now subst.
  - rewrite in_app_iff. simpl. intuition.
Qed.

Lemma setAdd_NoDup : forall id s, NoDup s -> NoDup (setAdd id s).
Proof.
  intros id s H. unfold setAdd.
  destruct (existsb (Z.eqb id) s) eqn:E; auto.
  apply NoDup_app; auto.
  - repeat constructor. intros [].
  - intros a Ha [->|[]].
    assert (K : existsb (Z.eqb a) s = true).
    { apply existsb_exists. exists a. split; auto. apply Z.eqb_refl. }
    congruence.
Qed.

Lemma addAll_In : forall ids s a,
  In a (fold_left (fun s id => setAdd id s) ids s) <-> In a ids \/ In a s.
Proof.
  induction ids as [|id ids IH]; simpl; intros s a.
  - intuition.
  - rewrite IH, setAdd_In. intuition.
Qed.

Lemma addAll_NoDup : forall ids s,
  NoDup s -> NoDup (fold_left (fun s id => setAdd id s) ids s).
Proof.
  induction ids as [|id ids IH]; simpl; intros; auto.
  apply IH. now apply setAdd_NoDup.
Qed.

Lemma collect_In : forall m acc a,
  In a (collect m acc) <->
  In a acc \/ exists e, In e m /\ (1 < List.length (snd e))%nat /\
                        In a (snd e).
Proof.
  unfold collect.
  induction m as [|e m IH]; simpl; intros acc a.
  - split; auto. intros [H|(e & [] & _)]; auto.
  - rewrite IH. destruct (1 <? List.length (snd e))%nat eqn:E.
    + apply Nat.ltb_lt in E. rewrite addAll_In. split.
      * intros [[H|H]|(e' & H1 & H2)]; auto.
        -- right. exists e. auto.
        -- right. exists e'. auto.
      * intros [H|(e' & [<-|H1] & H2 & H3)]; auto.
        right. exists e'. auto.
    + apply Nat.ltb_ge in E. split.
      * intros [H|(e' & H1 & H2)]; auto. right. exists e'. auto.
      * intros [H|(e' & [<-|H1] & H2 & H3)]; auto; [lia|].
        right. exists e'. auto.
Qed.

Lemma collect_NoDup : forall m acc, NoDup acc -> NoDup (collect m acc).
Proof.
  unfold collect.
  induction m as [|e m IH]; simpl; intros acc H; auto.
  apply IH. destruct (1 <? _)%nat; auto. now apply addAll_NoDup.
Qed.

(** The result of [detectCollisions], by key. *)
Lemma detectCollisions_by_key : forall bs a,
  In a (detectCollisions bs) <->
  exists k, (1 < List.length (idsAt k (pushes bs)))%nat /\
            In a (idsAt k (pushes bs)).
Proof.
  intros bs a.
  change (detectCollisions bs) with (collect (buildCellMap bs) []).
  rewrite collect_In, buildCellMap_pushAll.
  assert (Hnd : NoDup (map fst (pushAll (pushes bs) []))).
  { apply pushAll_keys_NoDup. constructor. }
  split.
  - intros [[]|([k ids] & Hin & Hlen & Ha)].
    apply entry_getIds in Hin; auto.
    rewrite pushAll_getIds in Hin. simpl in *. subst ids.
    exists k. auto.
  - intros (k & Hlen & Ha). right.
    exists (k, getIds k (pushAll (pushes bs) [])). split.
    + apply getIds_entry. rewrite pushAll_getIds. simpl.
      destruct (idsAt k (pushes bs)); simpl in *; [lia|congruence].
    + rewrite pushAll_getIds. simpl. auto.
Qed.

End CellMaps.

Section Occupancy.

Lemma occupies_In : forall k b,
  occupies k b = true <-> In k (Block.getWorldCellPositions b).
Proof.
  intros k b. unfold occupies. rewrite existsb_exists. split.
  - intros (c & Hc & E). apply cell_eqb_eq in E. now subst.
  - intros H. exists k. split; auto. apply cell_eqb_refl.
Qed.

Lemma filter_key_NoDup : forall k (cs : list Cell),
  NoDup cs ->
  filter (fun c => cell_eqb c k) cs
  = if existsb (fun c => cell_eqb c k) cs then [k] else [].
Proof.
  intros k cs H. induction H as [|c cs Hnotin Hnd IH]; simpl; auto.
  destruct (cell_eqb c k) eqn:E; simpl.
  - apply cell_eqb_eq in E. subst c. rewrite IH.
    destruct (existsb _ cs) eqn:Ex; auto.
    apply existsb_exists in Ex. destruct Ex as (c & Hc & E).
    apply cell_eqb_eq in E. subst. contradiction.
  - exact IH.
Qed.

Lemma idsAt_app : forall k ps qs,
  idsAt k (ps ++ qs) = idsAt k ps ++ idsAt k qs.
Proof. intros. unfold idsAt. now rewrite filter_app, map_app. Qed.

Lemma idsAt_tagged : forall k id (cs : list Cell),
  idsAt k (map (fun c => (c, id)) cs)
  = map (fun _ => id) (filter (fun c => cell_eqb c k) cs).
Proof.
  intros k id cs. unfold idsAt.
  induction cs as [|c cs IH]; simpl; auto.
  destruct (cell_eqb c k); simpl; now rewrite IH.
Qed.

Lemma idsAt_block : forall k b,
  NoDup (cells b) ->
  idsAt k (map (fun c => (c, blockId b)) (Block.getWorldCellPositions b))
  = if occupies k b then [blockId b] else [].
Proof.
  intros k b H. apply worldCells_NoDup in H.
  rewrite idsAt_tagged, (filter_key_NoDup k _ H).
  unfold occupies. now destruct (existsb _ _).
Qed.

Lemma idsAt_pushes : forall k bs,
  Forall (fun b => NoDup (cells b)) bs ->
  idsAt k (pushes bs) = map blockId (filter (occupies k) bs).
Proof.
  intros k bs H. induction H as [|b bs Hb Hbs IH]; simpl; auto.
  rewrite idsAt_app, idsAt_block, IH; auto.
  now destruct (occupies k b).
Qed.

(** Counting the elements of an array that satisfy a test. *)
Lemma filter_nonempty_nth (P : BlockObject -> bool) : forall l d,
  filter P l <> [] ->
  exists j, (j < List.length l)%nat /\ P (nth j l d) = true.
Proof.
  induction l as [|b l IH]; simpl; intros d H; [congruence|].
  destruct (P b) eqn:E.
  - exists 0%nat. split; auto. lia.
  - destruct (IH d H) as (j & Hj & Pj). exists (S j). split; auto. lia.
Qed.

Lemma filter_two_other (P : BlockObject -> bool) : forall l d i,
  (1 < List.length (filter P l))%nat -> (i < List.length l)%nat ->
  exists j, (j < List.length l)%nat /\ j <> i /\ P (nth j l d) = true.
Proof.
  induction l as [|b l IH]; simpl; intros d i Hlen Hi; [lia|].
  destruct (P b) eqn:E; simpl in Hlen.
  - destruct i as [|i].
    + destruct (filter_nonempty_nth P l d) as (j & Hj & Pj).
      { destruct (filter P l); simpl in *; [lia|congruence]. }
      exists (S j). repeat split; auto; lia.
    + exists 0%nat. repeat split; auto; lia.
  - destruct i as [|i].
    + destruct (filter_nonempty_nth P l d) as (j & Hj & Pj).
      { destruct (filter P l); simpl in *; [lia|congruence]. }
      exists (S j). repeat split; auto; lia.
    + destruct (IH d i Hlen) as (j & Hj & Hne & Pj); [lia|].
      exists (S j). repeat split; auto; lia.
Qed.

Lemma filter_length_nth (P : BlockObject -> bool) : forall l d i,
  (i < List.length l)%nat -> P (nth i l d) = true ->
  (0 < List.length (filter P l))%nat.
Proof.
  intros l d i Hi Pi.
  assert (H : In (nth i l d) (filter P l)).
  { apply filter_In. split; auto. now apply nth_In. }
  destruct (filter P l); simpl in *; [contradiction|lia].
Qed.

Lemma filter_two_length (P : BlockObject -> bool) : forall l d i j,
  (i < List.length l)%nat -> (j < List.length l)%nat -> i <> j ->
  P (nth i l d) = true -> P (nth j l d) = true ->
  (1 < List.length (filter P l))%nat.
Proof.
  induction l as [|b l IH]; simpl; intros d i j Hi Hj Hne Pi Pj; [lia|].
  destruct i as [|i], j as [|j]; try congruence.
  - rewrite Pi. simpl.
    assert (0 < List.length (filter P l))%nat
      by (apply filter_length_nth with (d := d) (i := j); auto; lia).
    lia.
  - rewrite Pj. simpl.
    assert (0 < List.length (filter P l))%nat
      by (apply filter_length_nth with (d := d) (i := i); auto; lia).
    lia.
  - assert (1 < List.length (filter P l))%nat.
    { apply IH with (d := d) (i := i) (j := j); auto; lia. }
    destruct (P b); simpl; lia.
Qed.

End Occupancy.

Section Collisions.

Variable bs : list BlockObject.
Hypothesis cells_distinct : Forall (fun b => NoDup (cells b)) bs.


Lemma detectCollisions_In : forall id,
  In id (detectCollisions bs) <->
  exists i, (i < List.length bs)%nat /\
            blockId (getBlock bs i) = id /\ collides bs i.
Proof.
  intros id. rewrite detectCollisions_by_key. split.
  - intros (k & Hlen & Hin).
    rewrite idsAt_pushes in Hlen, Hin; auto.
    rewrite length_map in Hlen.
    apply in_map_iff in Hin. destruct Hin as (b & Hid & Hb).
    apply filter_In in Hb. destruct Hb as [Hb Hocc].
    destruct (In_nth _ _ (Block.create 0 []) Hb) as (i & Hi & E).
    exists i. repeat split; auto.
    + unfold getBlock. now rewrite E.
    + destruct (filter_two_other (occupies k) bs (Block.create 0 []) i
                  Hlen Hi) as (j & Hj & Hne & Pj).
      exists j. repeat split; auto.
      exists k. unfold getBlock. rewrite E. split; now apply occupies_In.
  - intros (i & Hi & Hid & j & Hj & Hne & c & Hci & Hcj).
    apply occupies_In in Hci, Hcj.
    exists c. rewrite idsAt_pushes; auto. split.
    + rewrite length_map.
      apply filter_two_length
        with (d := Block.create 0 []) (i := i) (j := j); auto.
    + apply in_map_iff. exists (getBlock bs i). split; auto.
      apply filter_In. split; auto. now apply nth_In.
Qed.

Lemma detectCollisions_free : forall i,
  NoDup (map blockId bs) -> (i < List.length bs)%nat -> ~ collides bs i ->
  ~ In (blockId (getBlock bs i)) (detectCollisions bs).
Proof.
  intros i Hids Hi Hfree Hin.
  apply detectCollisions_In in Hin.
  destruct Hin as (i' & Hi' & Hid & Hc).
  assert (E : i' = i).
  { rewrite (NoDup_nth _ 0%Z) in Hids.
    apply Hids; rewrite ?length_map; auto.
    change 0%Z with (blockId (Block.create 0 [])).
    now rewrite !map_nth. }
  subst. contradiction.
Qed.

End Collisions.

(** ** [detectCollisions] with the sums rounded *)

Section RoundedCollisions.

Lemma rounded_worldCells : forall b,
  Double.getWorldCellPositions b = map (worldCell (position b)) (cells b).
Proof.
  intros b. unfold Double.getWorldCellPositions. apply map_ext.
  intros [[cx cy] cz]. reflexivity.
Qed.

Lemma rounded_buildCellMap : forall bs,
  Double.buildCellMap bs = pushAll (roundedPushes bs) [].
Proof.
  intros bs. unfold Double.buildCellMap, pushAll, roundedPushes.
  generalize (@nil (Cell * list Z)) as m.
  induction bs as [|b bs IH]; simpl; intros m; auto.
  rewrite fold_left_app, IH. f_equal.
  generalize (Double.getWorldCellPositions b) as cs. clear.
  intros cs. revert m.
  induction cs as [|c cs IH]; simpl; intros; auto.
Qed.

(** The result of [detectCollisions], by key. *)
Lemma rounded_by_key : forall bs a,
  In a (Double.detectCollisions bs) <->
  exists k, (1 < List.length (idsAt k (roundedPushes bs)))%nat /\
            In a (idsAt k (roundedPushes bs)).
Proof.
  intros bs a.
  change (Double.detectCollisions bs)
    with (collect (Double.buildCellMap bs) []).
  rewrite collect_In, rounded_buildCellMap.
  assert (Hnd : NoDup (map fst (pushAll (roundedPushes bs) []))).
  { apply pushAll_keys_NoDup. constructor. }
  split.
  - intros [[]|([k ids] & Hin & Hlen & Ha)].
    apply entry_getIds in Hin; auto.
    rewrite pushAll_getIds in Hin. simpl in *. subst ids.
    exists k. auto.
  - intros (k & Hlen & Ha). right.
    exists (k, getIds k (pushAll (roundedPushes bs) [])). split.
    + apply getIds_entry. rewrite pushAll_getIds. simpl.
      destruct (idsAt k (roundedPushes bs)); simpl in *; [lia|congruence].
    + rewrite pushAll_getIds. simpl. auto.
Qed.

Lemma roundedOccupies_In : forall k b,
  roundedOccupies k b = true <->
  exists c, In c (cells b) /\ worldCell (position b) c = k.
Proof.
  intros k b. unfold roundedOccupies.
  rewrite existsb_exists, rounded_worldCells. split.
  - intros (w & Hw & E). apply cell_eqb_eq in E. subst w.
    apply in_map_iff in Hw. destruct Hw as (c & E & Hc). now exists c.
  - intros (c & Hc & E). exists k. split; [|apply cell_eqb_refl].
    apply in_map_iff. now exists c.
Qed.

Lemma rounded_idsAt_block : forall k b,
  selfDisjoint b ->
  idsAt k (map (fun c => (c, blockId b)) (Double.getWorldCellPositions b))
  = if roundedOccupies k b then [blockId b] else [].
Proof.
  intros k b H. unfold selfDisjoint in H. rewrite <- rounded_worldCells in H.
  rewrite idsAt_tagged, (filter_key_NoDup k _ H).
  unfold roundedOccupies. now destruct (existsb _ _).
Qed.

Lemma rounded_idsAt_pushes : forall k bs,
  Forall selfDisjoint bs ->
  idsAt k (roundedPushes bs) = map blockId (filter (roundedOccupies k) bs).
Proof.
  intros k bs H. induction H as [|b bs Hb Hbs IH]; simpl; auto.
  rewrite idsAt_app, rounded_idsAt_block, IH; auto.
  now destruct (roundedOccupies k b).
Qed.

Lemma rounded_detectCollisions_NoDup : forall bs,
  NoDup (Double.detectCollisions bs).
Proof.
  intros bs.
  change (Double.detectCollisions bs)
    with (collect (Double.buildCellMap bs) []).
  apply collect_NoDup. constructor.
Qed.

Lemma rounded_detectCollisions_In : forall bs id,
  Forall selfDisjoint bs ->
  (In id (Double.detectCollisions bs) <->
   exists i, (i < List.length bs)%nat /\
             blockId (getBlock bs i) = id /\ overlaps bs i).
Proof.
  intros bs id Hd. rewrite rounded_by_key. split.
  - intros (k & Hlen & Hin).
    rewrite rounded_idsAt_pushes in Hlen, Hin; auto.
    rewrite length_map in Hlen.
    apply in_map_iff in Hin. destruct Hin as (b & Hid & Hb).
    apply filter_In in Hb. destruct Hb as [Hb Hocc].
    destruct (In_nth _ _ (Block.create 0 []) Hb) as (i & Hi & E).
    exists i. repeat split; auto.
    + unfold getBlock. now rewrite E.
    + destruct (filter_two_other (roundedOccupies k) bs (Block.create 0 []) i
                  Hlen Hi) as (j & Hj & Hne & Pj).
      exists j. repeat split; auto.
      apply roundedOccupies_In in Hocc, Pj.
      destruct Hocc as (ca & Hca & Ea). destruct Pj as (cb & Hcb & Eb).
      exists ca, cb. unfold getBlock. rewrite E.
      repeat split; auto. congruence.
  - intros (i & Hi & Hid & j & Hj & Hne & ca & cb & Hca & Hcb & E).
    exists (worldCell (position (getBlock bs i)) ca).
    rewrite rounded_idsAt_pushes; auto. split.
    + rewrite length_map.
      apply filter_two_length
        with (d := Block.create 0 []) (i := i) (j := j); auto.
      * apply roundedOccupies_In. now exists ca.
      * apply roundedOccupies_In. now exists cb.
    + apply in_map_iff. exists (getBlock bs i). split; auto.
      apply filter_In. split; [now apply nth_In|].
      apply roundedOccupies_In. now exists ca.
Qed.

Lemma rounded_detectCollisions_free : forall bs i,
  Forall selfDisjoint bs -> NoDup (map blockId bs) ->
  (i < List.length bs)%nat -> ~ overlaps bs i ->
  ~ In (blockId (getBlock bs i)) (Double.detectCollisions bs).
Proof.
  intros bs i Hd Hids Hi Hfree Hin.
  apply rounded_detectCollisions_In in Hin; auto.
  destruct Hin as (i' & Hi' & Hid & Hc).
  assert (E : i' = i).
  { rewrite (NoDup_nth _ 0%Z) in Hids.
    apply Hids; rewrite ?length_map; auto.
    change 0%Z with (blockId (Block.create 0 [])).
    now rewrite !map_nth. }
  subst. contradiction.
Qed.

(** On a grid point within reach each sum is an integer and exact: the
    world cell is the grid point plus the offset. *)
Lemma worldCell_on_grid : forall (p c : Cell),
  smallCell (2 ^ 50) p -> smallCell (2 ^ 50) c ->
  worldCell (cellVec p) c
  = (fst (fst p) + fst (fst c), snd (fst p) + snd (fst c), snd p + snd c)%Z.
Proof.
  intros [[px py] pz] [[cx cy] cz] (P1 & P2 & P3) (C1 & C2 & C3).
  unfold worldCell, cellVec, num. cbn [x y z fst snd].
  assert (R : forall a b : Z,
             (Z.abs a <= 2 ^ 50)%Z -> (Z.abs b <= 2 ^ 50)%Z ->
             Math_round (Binary64.fl (inject_Z a + inject_Z b)) = (a + b)%Z).
  { intros a b Ha Hb.
    assert (E : Binary64.fl (inject_Z a + inject_Z b) == inject_Z (a + b)).
    { rewrite Binary64Facts.fl_sum_Z by lia. now rewrite inject_Z_plus. }
    unfold Math_round. rewrite E. exact (Math_round_num (a + b)). }
  now rewrite !R.
Qed.

Lemma onGrid_selfDisjoint : forall b,
  onGrid (2 ^ 50) b -> Forall (smallCell (2 ^ 50)) (cells b) ->
  NoDup (cells b) -> selfDisjoint b.
Proof.
  intros b (p & Hp & Hs) Hc Hnd. unfold selfDisjoint. rewrite Hp.
  rewrite Forall_forall in Hc.
  apply Injective_map_NoDup_in; [|exact Hnd].
  intros c d Hcin Hdin E.
  rewrite !worldCell_on_grid in E by auto.
  destruct p as [[px py] pz], c as [[cx cy] cz], d as [[dx dy] dz].
  cbn [fst snd] in E. injection E as E1 E2 E3.
  f_equal; [f_equal|]; lia.
Qed.

Lemma smallCell_weaken : forall (B B' : Z) c,
  (B <= B')%Z -> smallCell B c -> smallCell B' c.
Proof.
  intros B B' [[cx cy] cz] H (H1 & H2 & H3). repeat split; lia.
Qed.

End RoundedCollisions.

(** C2, for blocks none of which puts two of its own cells on one world
    cell: [detectCollisions], the sums rounded as the host rounds them,
    returns (each once) exactly the ids of the blocks that share an
    occupied integer cell (position plus offset, the sum a number of
    the host, each coordinate rounded) with another block of the
    array; a block that shares no cell with another block is not
    reported, ids being distinct; and in the scenario of the two
    overlapping blocks the result is [{0, 1}]. *)
Theorem detectCollisions_exact :
  forall bs,
    Forall selfDisjoint bs ->
    NoDup (Double.detectCollisions bs) /\
    (forall id,
        In id (Double.detectCollisions bs) <->
        exists i, (i < List.length bs)%nat /\
                  blockId (getBlock bs i) = id /\ overlaps bs i) /\
    (NoDup (map blockId bs) ->
     forall i, (i < List.length bs)%nat -> ~ overlaps bs i ->
               ~ In (blockId (getBlock bs i)) (Double.detectCollisions bs)) /\
    Double.detectCollisions scenarioBlocks = [0; 1]%Z.
Proof.
  intros bs H. split; [|split; [|split]].
  - apply rounded_detectCollisions_NoDup.
  - intros id. now apply rounded_detectCollisions_In.
  - intros Hids i. now apply rounded_detectCollisions_free.
  - vm_compute. reflexivity.
Qed.

Lemma scenarioBlocks_selfDisjoint : Forall selfDisjoint scenarioBlocks.
Proof.
  apply Forall_cons; [|apply Forall_cons; [|apply Forall_nil]];
    apply onGrid_selfDisjoint.
  - exists (0, 0, 0)%Z. split; [reflexivity|vm_compute; intuition discriminate].
  - repeat apply Forall_cons; try apply Forall_nil;
      vm_compute; intuition discriminate.
  - repeat constructor; simpl; intuition congruence.
  - exists (1, 0, 0)%Z. split; [reflexivity|vm_compute; intuition discriminate].
  - repeat apply Forall_cons; try apply Forall_nil;
      vm_compute; intuition discriminate.
  - repeat constructor; simpl; intuition congruence.
Qed.

Lemma detectCollisions_exact_witness :
  Forall selfDisjoint scenarioBlocks /\
  forall id,
    In id (Double.detectCollisions scenarioBlocks) <->
    exists i, (i < List.length scenarioBlocks)%nat /\
              blockId (getBlock scenarioBlocks i) = id /\
              overlaps scenarioBlocks i.
Proof.
  split; [exact scenarioBlocks_selfDisjoint|].
  destruct (detectCollisions_exact scenarioBlocks
              scenarioBlocks_selfDisjoint) as (_ & Hin & _).
  exact Hin.
Defined.

(** C2, as stated, fails off the grid.  The lone block stands at
    [-(2^52 + 1) / 2^53], a number of the host; the sum with the offset
    [-1] is half way between two numbers and rounds to [-3/2], so the
    cells [(0, 0, 0)] and [(-1, 0, 0)] both land on the world cell
    [(-1, 0, 0)]: the block shares a cell with no other block, its cells
    are distinct, and [detectCollisions] reports it. *)
Lemma lone_block_reported :
  Binary64.isDouble (x (position offGridBlock)) /\
  NoDup (cells offGridBlock) /\
  worldCell (position offGridBlock) (0, 0, 0)%Z = (-1, 0, 0)%Z /\
  worldCell (position offGridBlock) (-1, 0, 0)%Z = (-1, 0, 0)%Z /\
  ~ overlaps [offGridBlock] 0 /\
  Double.detectCollisions [offGridBlock] = [0]%Z.
Proof.
  split; [vm_compute; reflexivity|].
  split; [repeat constructor; simpl; intuition congruence|].
  split; [vm_compute; reflexivity|].
  split; [vm_compute; reflexivity|].
  split; [|vm_compute; reflexivity].
  intros (j & Hj & Hne & _). simpl in Hj. lia.
Qed.

(** ** Quarter turns on the integer grid *)

Section QuarterTurn.
Context {M : JSMath}.

Lemma roundVec_veq : forall a b, veq a b -> roundVec a = roundVec b.
Proof.
  intros a b (Hx & Hy & Hz). unfold roundVec, Math_round.
  now rewrite Hx, Hy, Hz.
Qed.

Lemma applyQuaternion_qeq : forall v p q,
  qeq p q -> veq (applyQuaternion v p) (applyQuaternion v q).
Proof.
  intros v p q (Hx & Hy & Hz & Hw).
  unfold veq, applyQuaternion; simpl.
  rewrite Hx, Hy, Hz, Hw. repeat split; reflexivity.
Qed.

Lemma setFromAxisAngle_veq : forall a b angle,
  veq a b -> qeq (setFromAxisAngle a angle) (setFromAxisAngle b angle).
Proof.
  intros a b angle (Hx & Hy & Hz).
  unfold qeq, setFromAxisAngle; simpl.
  rewrite Hx, Hy, Hz. repeat split; reflexivity.
Qed.

(** A cardinal axis has length one: [normalize] leaves it as it is. *)
Lemma normalize_cardinal : forall a v,
  (forall q, q == 1 -> Math_sqrt q == 1) ->
  In a cardinalCells -> veq v (cellVec a) -> veq (normalize v) (cellVec a).
Proof.
  intros a v Hsqrt Ha (Hx & Hy & Hz).
  assert (Hone : x v * x v + y v * y v + z v * z v == 1).
  { rewrite Hx, Hy, Hz. simpl in Ha.
    repeat (destruct Ha as [<-|Ha]; [|]); try contradiction; reflexivity. }
  apply Hsqrt in Hone.
  assert (H0 : Qeq_bool (Three.length v) 0 = false).
  { unfold Three.length.
    destruct (Qeq_bool _ 0) eqn:E; auto.
    apply Qeq_bool_iff in E. rewrite Hone in E. discriminate. }
  unfold normalize, veq, multiplyScalar. rewrite H0.
  unfold Three.length. cbn [x y z].
  rewrite Hone, Hx, Hy, Hz. repeat split; field.
Qed.

Lemma normalize_iter_cardinal : forall a k,
  (forall q, q == 1 -> Math_sqrt q == 1) -> In a cardinalCells ->
  veq (Nat.iter k normalize (cellVec a)) (cellVec a).
Proof.
  intros a k Hsqrt Ha. induction k as [|k IH]; simpl.
  - repeat split; reflexivity.
  - now apply normalize_cardinal.
Qed.

(** A coordinate that is off an integer by two drift terms rounds to the
    integer. *)
Lemma round_drift : forall (B n l1 l2 : Z) (err e1 e2 q : Q),
  q == inject_Z n + e1 * inject_Z l1 + e2 * inject_Z l2 ->
  Qabs e1 <= err -> Qabs e2 <= err ->
  (Z.abs l1 <= B)%Z -> (Z.abs l2 <= B)%Z ->
  4 * err * inject_Z B < 1 ->
  Math_round q = n.
Proof.
  intros B n l1 l2 err e1 e2 q Hq He1 He2 Hl1 Hl2 Hacc.
  apply Qabs_Qle_condition in He1, He2.
  assert (Hb1 : - inject_Z B <= inject_Z l1 <= inject_Z B).
  { rewrite <- inject_Z_opp, <- !Zle_Qle. lia. }
  assert (Hb2 : - inject_Z B <= inject_Z l2 <= inject_Z B).
  { rewrite <- inject_Z_opp, <- !Zle_Qle. lia. }
  assert (HB : 0 <= inject_Z B).
  { change 0 with (inject_Z 0). rewrite <- Zle_Qle. lia. }
  assert (Herr : 0 <= err) by lra.
  set (u := inject_Z l1) in *. set (v := inject_Z l2) in *.
  set (b := inject_Z B) in *.
  assert (K1 : - (err * b) <= e1 * u <= err * b) by (split; nra).
  assert (K2 : - (err * b) <= e2 * v <= err * b) by (split; nra).
  apply Math_round_unique; rewrite Hq; lra.
Qed.

Lemma quarterTurnError_bounds :
  Qabs (2 * Math_sin (Math_PI / 2 / 2) * Math_cos (Math_PI / 2 / 2) - 1)
  <= quarterTurnError M /\
  Qabs (2 * Math_sin (Math_PI / 2 / 2) * Math_sin (Math_PI / 2 / 2) - 1)
  <= quarterTurnError M.
Proof.
  unfold quarterTurnError. cbv zeta. split.
  - apply Q.le_max_l.
  - apply Q.le_max_r.
Qed.

Lemma triple_eq (a a' b b' c c' : Z) :
  a = a' -> b = b' -> c = c' -> (a, b, c) = (a', b', c').
Proof. congruence. Qed.

Ltac push_inject :=
  unfold num, Z.sub;
  repeat (rewrite ?inject_Z_plus, ?inject_Z_mult, ?inject_Z_opp);
  change (inject_Z 0) with 0; change (inject_Z 1) with 1;
  change (inject_Z (-1)) with (-1).

(** The rounded rotation of a small cell about an exact cardinal axis
    is the quarter turn of the grid: the rotated vector is
    [a x v + (a . v) a] plus [(2 s c - 1) (a x v)] plus
    [(2 s s - 1) (a x (a x v))]. *)
Lemma turn_cell_exact_axis : forall B a v,
  4 * quarterTurnError M * inject_Z B < 1 ->
  In a cardinalCells -> smallCell B v ->
  roundVec (applyQuaternion (cellVec v)
              (setFromAxisAngle (cellVec a) (Math_PI / 2)))
  = quarterTurn a v.
Proof.
  intros B a [[vx vy] vz] Hacc Ha (Hx & Hy & Hz).
  destruct quarterTurnError_bounds as [Hsc Hss].
  set (s := Math_sin (Math_PI / 2 / 2)) in *.
  set (c := Math_cos (Math_PI / 2 / 2)) in *.
  simpl in Ha.
  repeat (destruct Ha as [<-|Ha]; [|]); try contradiction;
    match goal with
    | |- _ = quarterTurn (?ax, ?ay, ?az) _ =>
        pose (w := crossZ (ax, ay, az) (vx, vy, vz));
        pose (u := crossZ (ax, ay, az) w)
    end;
    unfold roundVec, applyQuaternion, setFromAxisAngle, cellVec,
           quarterTurn, crossZ;
    cbn [x y z qx qy qz qw]; fold s; fold c;
    apply triple_eq;
    first
      [ apply (@round_drift B _ (fst (fst w)) (fst (fst u))
                 (quarterTurnError M) (2 * s * c - 1) (2 * s * s - 1));
        try assumption; subst w u; cbn [crossZ fst snd];
        try lia; push_inject; ring
      | apply (@round_drift B _ (snd (fst w)) (snd (fst u))
                 (quarterTurnError M) (2 * s * c - 1) (2 * s * s - 1));
        try assumption; subst w u; cbn [crossZ fst snd];
        try lia; push_inject; ring
      | apply (@round_drift B _ (snd w) (snd u)
                 (quarterTurnError M) (2 * s * c - 1) (2 * s * s - 1));
        try assumption; subst w u; cbn [crossZ fst snd];
        try lia; push_inject; ring ].
Qed.


Lemma turn_cell : forall B a v,
  accurateFor B M -> In a cardinalCells -> smallCell B v ->
  roundVec (applyQuaternion (cellVec v) (quarterQuat (cellVec a)))
  = quarterTurn a v.
Proof.
  intros B a v [Hsqrt Hacc] Ha Hv.
  rewrite <- (turn_cell_exact_axis B a v Hacc Ha Hv).
  apply roundVec_veq, applyQuaternion_qeq, setFromAxisAngle_veq.
  apply normalize_cardinal; auto. repeat split; reflexivity.
Qed.

Lemma quarterTurn_small : forall B a v,
  In a cardinalCells -> smallCell B v -> smallCell B (quarterTurn a v).
Proof.
  intros B a [[vx vy] vz] Ha Hv. simpl in Ha.
  repeat (destruct Ha as [<-|Ha]; [|]); try contradiction;
    unfold smallCell, quarterTurn, crossZ in *; lia.
Qed.

Lemma quarterTurn_four : forall a v,
  In a cardinalCells ->
  quarterTurn a (quarterTurn a (quarterTurn a (quarterTurn a v))) = v.
Proof.
  intros a [[vx vy] vz] Ha. simpl in Ha.
  repeat (destruct Ha as [<-|Ha]; [|]); try contradiction;
    unfold quarterTurn, crossZ; apply triple_eq; lia.
Qed.

Lemma rotatedCells_exact : forall B a cs,
  accurateFor B M -> In a cardinalCells -> Forall (smallCell B) cs ->
  Block.rotatedCells (quarterQuat (cellVec a)) cs = map (quarterTurn a) cs.
Proof.
  intros B a cs Hacc Ha Hcs. unfold Block.rotatedCells.
  induction Hcs as [|v cs Hv Hcs IH]; simpl; auto.
  rewrite IH. f_equal. now apply turn_cell with (B := B).
Qed.

Lemma quarterTurn_all_small : forall B a cs,
  In a cardinalCells -> Forall (smallCell B) cs ->
  Forall (smallCell B) (map (quarterTurn a) cs).
Proof.
  intros B a cs Ha Hcs. induction Hcs; simpl; constructor; auto.
  now apply quarterTurn_small.
Qed.

(** The end of an orientation animation. *)
Lemma duration_number :
  Binary64.fl ROTATION_DURATION == ROTATION_DURATION.
Proof. apply (Binary64Facts.fl_Z 200). simpl. lia. Qed.

(** A frame whose rounded elapsed time has reached the duration ends
    the animation... *)
Lemma progress_over : forall clock start,
  ROTATION_DURATION <= Binary64.fl (clock - start) ->
  Qle_bool 1 (Block.progress clock start) = true.
Proof.
  intros clock start H. apply Qle_bool_iff. unfold Block.progress.
  apply Q.min_glb; [|apply Qle_refl].
  apply Qle_trans with (Binary64.fl 1); [apply Qle_refl|].
  apply Binary64Facts.fl_mono.
  unfold ROTATION_DURATION in *. apply Qle_shift_div_l; lra.
Qed.

(** ... and so does every frame at or after the duration. *)
Lemma elapsed_over : forall clock start,
  start + ROTATION_DURATION <= clock ->
  ROTATION_DURATION <= Binary64.fl (clock - start).
Proof.
  intros clock start H.
  apply Qle_trans with (Binary64.fl ROTATION_DURATION);
    [rewrite duration_number; apply Qle_refl|].
  apply Binary64Facts.fl_mono. lra.
Qed.

Lemma progress_done : forall now,
  Qle_bool 1 (Block.progress (now + ROTATION_DURATION) now) = true.
Proof.
  intros now. apply progress_over, elapsed_over. apply Qle_refl.
Qed.

Lemma updatePosition_orientation : forall now b,
  let b' := Block.updatePosition now b in
  blockId b' = blockId b /\ cells b' = cells b /\
  isAnimating b' = isAnimating b /\ animStartTime b' = animStartTime b /\
  animPivotGroup b' = animPivotGroup b /\ pendingCells b' = pendingCells b.
Proof.
  intros now b. unfold Block.updatePosition.
  destruct (posAnimating b); [|now repeat split].
  destruct (posAnimStartPos b); [|now repeat split].
  destruct (posAnimTargetPos b); [|now repeat split].
  destruct (Qle_bool _ _); now repeat split.
Qed.

Lemma turnBlock_cells : forall now axis b,
  isAnimating b = false ->
  cells (turnBlock now axis b)
  = Block.rotatedCells (quarterQuat axis) (cells b) /\
  isAnimating (turnBlock now axis b) = false.
Proof.
  intros now axis b Hrest.
  unfold turnBlock, Block.updateAnimation.
  set (b1 := Block.rotateBlock now axis b).
  assert (H1 : isAnimating b1 = true /\ animPivotGroup b1 = true /\
               animStartTime b1 = now /\
               pendingCells b1
               = Some (Block.rotatedCells (quarterQuat axis) (cells b))).
  { unfold b1, Block.rotateBlock. rewrite Hrest. now repeat split. }
  destruct H1 as (Ha & Hp & Ht & Hc).
  destruct (updatePosition_orientation (now + ROTATION_DURATION) b1)
    as (_ & _ & Ka & Kt & Kp & Kc).
  unfold Block.updateOrientation.
  rewrite Ka, Kp, Kt, Kc, Ha, Hp, Ht, Hc. simpl.
  rewrite progress_done. simpl. auto.
Qed.

End QuarterTurn.

(** C5: on a host whose [sin] and [cos] are accurate for cells of size
    up to [B], [rotateBlock] about a cardinal axis prepares, for a block
    at rest with cells of that size, exactly the quarter turn of the
    integer grid, which the end of the animation commits; and four such
    turns about the same axis give the block its original cells back. *)
Theorem four_quarter_turns_restore_cells :
  forall (M : JSMath) (B : Z) (a : Cell) (t1 t2 t3 t4 : Q)
         (b : BlockObject),
    accurateFor B M -> In a cardinalCells ->
    Forall (smallCell B) (cells b) -> isAnimating b = false ->
    Block.rotatedCells (quarterQuat (cellVec a)) (cells b)
    = map (quarterTurn a) (cells b) /\
    cells (turnBlock t1 (cellVec a) b) = map (quarterTurn a) (cells b) /\
    cells (turnBlock t4 (cellVec a)
             (turnBlock t3 (cellVec a)
                (turnBlock t2 (cellVec a)
                   (turnBlock t1 (cellVec a) b))))
    = cells b.
Proof.
  intros M B a t1 t2 t3 t4 b Hacc Ha Hsmall Hrest.
  assert (Hturn : forall t b',
            Forall (smallCell B) (cells b') -> isAnimating b' = false ->
            cells (turnBlock t (cellVec a) b')
            = map (quarterTurn a) (cells b') /\
            Forall (smallCell B) (cells (turnBlock t (cellVec a) b')) /\
            isAnimating (turnBlock t (cellVec a) b') = false).
  { intros t b' Hs Hr.
    destruct (turnBlock_cells t (cellVec a) b' Hr) as [Hc Hd].
    rewrite (rotatedCells_exact B a _ Hacc Ha Hs) in Hc.
    rewrite Hc. repeat split; auto.
    now apply quarterTurn_all_small. }
  split; [now apply rotatedCells_exact with (B := B)|].
  destruct (Hturn t1 b Hsmall Hrest) as (E1 & S1 & R1).
  destruct (Hturn t2 _ S1 R1) as (E2 & S2 & R2).
  destruct (Hturn t3 _ S2 R2) as (E3 & S3 & R3).
  destruct (Hturn t4 _ S3 R3) as (E4 & S4 & R4).
  split; [exact E1|].
  rewrite E4, E3, E2, E1, !map_map.
  rewrite <- (map_id (cells b)) at 2.
  apply map_ext. intros v. now apply quarterTurn_four.
Qed.

Lemma hostSqrt_one : forall q, q == 1 -> hostSqrt q == 1.
Proof.
  intros [n d] H. unfold Qeq in H. simpl in H.
  assert (Hn : n = Zpos d) by lia. subst n.
  unfold hostSqrt. rewrite Qred_correct. cbn [Qnum Qden].
  replace (Zpos d * Zpos d * 10 ^ 24)%Z
    with ((Zpos d * 10 ^ 12) * (Zpos d * 10 ^ 12))%Z by ring.
  rewrite Z.sqrt_square by lia.
  unfold Qeq. cbn [Qnum Qden].
  rewrite Pos2Z.inj_mul, Pos2Z.inj_pow. ring.
Qed.

Lemma hostMath_accurate : accurateFor 1000000 hostMath.
Proof.
  split.
  - exact hostSqrt_one.
  - vm_compute. reflexivity.
Qed.

Lemma four_quarter_turns_restore_cells_witness :
  let b := getBlock initialBlocks 6 in
  let a := (1, 0, 0)%Z in
  (accurateFor 1000000 hostMath /\ In a cardinalCells /\
   Forall (smallCell 1000000) (cells b) /\ isAnimating b = false) /\
  cells (turnBlock (M := hostMath) 900 (cellVec a)
           (turnBlock (M := hostMath) 600 (cellVec a)
              (turnBlock (M := hostMath) 300 (cellVec a)
                 (turnBlock (M := hostMath) 0 (cellVec a) b))))
  = cells b.
Proof.
  intros b a.
  assert (Hacc : accurateFor 1000000 hostMath) by exact hostMath_accurate.
  assert (Ha : In a cardinalCells) by (simpl; auto).
  assert (Hs : Forall (smallCell 1000000) (cells b)).
  { subst b. repeat constructor; simpl; lia. }
  assert (Hr : isAnimating b = false) by reflexivity.
  split; [exact (conj Hacc (conj Ha (conj Hs Hr)))|].
  exact (proj2 (proj2 (four_quarter_turns_restore_cells hostMath 1000000 a
                         0 300 600 900 b Hacc Ha Hs Hr))).
Defined.

Example quarter_turn_of_the_last_shape :
  cells (turnBlock (M := hostMath) 0 (vec3 1 0 0) (getBlock initialBlocks 6))
  = [(0, 0, 0); (-1, 0, 0); (0, -1, 0); (0, -1, 1)]%Z.
Proof. vm_compute. reflexivity. Qed.

(** ** Group rotation *)

Section TargetMaps.

Lemma mapGet_mapSet_same : forall k v m, mapGet k (mapSet k v m) = Some v.
Proof.
  intros k v m. induction m as [|[k' v'] m IH]; simpl.
  - now rewrite Nat.eqb_refl.
  - destruct (Nat.eqb k' k) eqn:E; simpl; rewrite E; auto.
Qed.

Lemma mapGet_mapSet_other : forall k k' v m,
  k <> k' -> mapGet k' (mapSet k v m) = mapGet k' m.
Proof.
  intros k k' v m Hne. induction m as [|[k0 v0] m IH]; simpl.
  - destruct (Nat.eqb k k') eqn:E; auto.
    apply Nat.eqb_eq in E. contradiction.
  - destruct (Nat.eqb k0 k) eqn:E; simpl.
    + apply Nat.eqb_eq in E. subst k0.
      destruct (Nat.eqb k k') eqn:E'; auto.
      apply Nat.eqb_eq in E'. contradiction.
    + destruct (Nat.eqb k0 k'); auto.
Qed.

Lemma fold_left_flat_map (A B C : Type) (f : A -> B -> A) (g : C -> list B) :
  forall l a,
    fold_left f (flat_map g l) a
    = fold_left (fun acc c => fold_left f (g c) acc) l a.
Proof.
  induction l as [|c l IH]; simpl; intros a; auto.
  now rewrite fold_left_app, IH.
Qed.

Lemma fold_left_map (A B C : Type) (f : A -> B -> A) (g : C -> B) :
  forall l a,
    fold_left f (map g l) a = fold_left (fun acc c => f acc (g c)) l a.
Proof.
  induction l as [|c l IH]; simpl; intros a; auto.
Qed.

(** The running minimum. *)
Lemma lowerMin_fold : forall ys m0,
  match fold_left lowerMin ys m0 with
  | Some m => (m0 = Some m \/ In m ys) /\
              (forall v, In v ys -> m <= v) /\
              (forall w, m0 = Some w -> m <= w)
  | None => m0 = None /\ ys = []
  end.
Proof.
  induction ys as [|v ys IH]; simpl; intros m0.
  - destruct m0 as [w|]; auto. repeat split; auto.
    + intros v [].
    + intros w' E. injection E as ->. apply Qle_refl.
  - specialize (IH (lowerMin m0 v)).
    destruct (fold_left lowerMin ys (lowerMin m0 v)) as [m|].
    + destruct IH as (Hin & Hle & Hacc).
      assert (Hv : m <= v /\ forall w, m0 = Some w -> m <= w).
      { unfold lowerMin in Hacc. destruct m0 as [w|].
        - unfold Qltb in Hacc.
          destruct (Qle_bool w v) eqn:E; simpl in Hacc.
          + apply Qle_bool_iff in E.
            specialize (Hacc w eq_refl). split.
            * eapply Qle_trans; eauto.
            * intros w' E'. injection E' as <-. auto.
          + assert (~ w <= v) by (rewrite <- Qle_bool_iff; congruence).
            specialize (Hacc v eq_refl). split; auto.
            intros w' E'. injection E' as <-. lra.
        - split; auto. congruence. }
      destruct Hv as [Hv Hw]. repeat split; auto.
      * destruct Hin as [Hin|Hin]; auto.
        unfold lowerMin in Hin. destruct m0 as [w|].
        -- destruct (Qltb v w); injection Hin as <-; auto.
        -- injection Hin as <-; auto.
      * intros v' [<-|Hv']; auto.
    + destruct IH as [IH _]. unfold lowerMin in IH.
      destruct m0 as [w|]; [destruct (Qltb v w)|]; discriminate.
Qed.

Lemma floorOffset_spec : forall ys,
  isFloorOffset ys (floorOffset (fold_left lowerMin ys None)).
Proof.
  intros ys. unfold isFloorOffset, floorOffset.
  pose proof (lowerMin_fold ys None) as H.
  destruct (fold_left lowerMin ys None) as [m|].
  - destruct H as ([H|Hin] & Hle & _); [discriminate|].
    unfold Qltb. destruct (Qle_bool 0 m) eqn:E; simpl.
    + apply Qle_bool_iff in E. right. split; auto.
      intros v Hv. eapply Qle_trans; eauto.
    + assert (~ 0 <= m) by (rewrite <- Qle_bool_iff; congruence).
      left. exists m. repeat split; auto. lra.
  - destruct H as [_ ->]. right. split; auto. intros v [].
Qed.

End TargetMaps.

Section GroupRotation.
Context {M : JSMath}.

(** The first loop. *)
Lemma targetRounds_spec : forall bs center q group acc,
  let pivot := position (getBlock bs center) in
  let r := fold_left (targetRound bs center pivot q) group acc in
  (forall i, In i group ->
             mapGet i (fst r) = Some (spec_target bs center q i)) /\
  (forall i, ~ In i group -> mapGet i (fst r) = mapGet i (fst acc)) /\
  snd r = fold_left lowerMin (spec_worldYs bs group center q) (snd acc).
Proof.
  intros bs center q group. cbv zeta.
  induction group as [|j group IH]; intros acc; simpl.
  - repeat split; auto. intros i [].
  - destruct (IH (targetRound bs center (position (getBlock bs center)) q
                    acc j)) as (Hin & Hout & Hmin).
    repeat split.
    + intros i [<-|Hi].
      * destruct (in_dec Nat.eq_dec j group) as [Hj|Hj]; auto.
        rewrite Hout; auto. unfold targetRound; simpl.
        apply mapGet_mapSet_same.
      * auto.
    + intros i Hi. rewrite Hout by tauto.
      unfold targetRound; simpl. apply mapGet_mapSet_other. tauto.
    + rewrite Hmin, fold_left_app. f_equal.
      unfold targetRound; simpl. now rewrite fold_left_map.
Qed.

Lemma rotateTargets_spec : forall bs center q group,
  let r := rotateTargets bs group center (position (getBlock bs center)) q in
  (forall i, In i group ->
             mapGet i (fst r) = Some (spec_target bs center q i)) /\
  snd r = fold_left lowerMin (spec_worldYs bs group center q) None.
Proof.
  intros bs center q group. cbv zeta. unfold rotateTargets.
  destruct (targetRounds_spec bs center q group ([], None))
    as (Hin & _ & Hmin).
  split; auto.
Qed.

(** One member. *)
Lemma rotateBlock_started : forall now ax b,
  let b1 := Block.rotateBlock now ax b in
  blockId b1 = blockId b /\ position b1 = position b /\
  cells b1 = cells b /\ isAnimating b1 = true /\
  posAnimating b1 = posAnimating b /\
  posAnimStartPos b1 = posAnimStartPos b /\
  posAnimTargetPos b1 = posAnimTargetPos b /\
  posAnimPivot b1 = posAnimPivot b /\ posAnimAxis b1 = posAnimAxis b.
Proof.
  intros now ax b. unfold Block.rotateBlock.
  destruct (isAnimating b) eqn:E; simpl; repeat split; auto.
Qed.


(** The second loop. *)
Lemma rotateRounds_spec : forall now pivot nax yOffset rest bs ax tp,
  NoDup rest -> (forall i, In i rest -> (i < List.length bs)%nat) ->
  let bs' :=
    fst (fst (fold_left (rotateRound now pivot nax yOffset) rest
                        (bs, ax, tp))) in
  List.length bs' = List.length bs /\
  (forall i, ~ In i rest -> getBlock bs' i = getBlock bs i) /\
  (forall i, In i rest ->
     exists k,
       getBlock bs' i
       = match mapGet i tp with
         | Some pos0 =>
             rotateMember now pivot nax (Nat.iter k normalize ax)
                          (lift yOffset pos0) (getBlock bs i)
         | None => Block.rotateBlock now (Nat.iter k normalize ax)
                                     (getBlock bs i)
         end).
Proof.
  intros now pivot nax yOffset. cbv zeta.
  induction rest as [|j rest IH]; intros bs ax tp Hnd Hrange; simpl.
  - repeat split; auto. intros i [].
  - inversion Hnd as [|? ? Hj Hnd']; subst.
    assert (Hjr : (j < List.length bs)%nat) by (apply Hrange; now left).
    set (ax' := Block.rotateBlock_axis ax (getBlock bs j)).
    assert (Hax : exists k, ax' = Nat.iter k normalize ax).
    { unfold ax', Block.rotateBlock_axis.
      destruct (isAnimating _); [now exists 0%nat | now exists 1%nat]. }
    destruct Hax as (k0 & Hk0).
    assert (Hiter : forall k, exists k', Nat.iter k normalize ax'
                                         = Nat.iter k' normalize ax).
    { intros k. exists (k + k0)%nat. rewrite Hk0.
      now rewrite Nat.iter_add. }
    destruct (mapGet j tp) as [pos0|] eqn:Hget.
    + match goal with
      | |- context [fold_left _ rest (?b1, _, ?t1)] =>
          destruct (IH b1 ax' t1 Hnd') as (Hlen & Hout & Hin)
      end.
      { intros i Hi. rewrite updateBlock_length. apply Hrange. now right. }
      rewrite updateBlock_length in Hlen.
      repeat split; auto.
      * intros i Hi. rewrite Hout by tauto.
        apply getBlock_updateBlock_other. tauto.
      * intros i [<-|Hi].
        -- exists 0%nat. rewrite Hout by assumption.
           rewrite getBlock_updateBlock_same by assumption.
           now rewrite Hget.
        -- destruct (Hin i Hi) as (k & Hk).
           destruct (Hiter k) as (k' & Hk').
           exists k'. rewrite Hk, Hk'.
           assert (j <> i) by (intros ->; contradiction).
           rewrite mapGet_mapSet_other by assumption.
           now rewrite getBlock_updateBlock_other by assumption.
    + match goal with
      | |- context [fold_left _ rest (?b1, _, ?t1)] =>
          destruct (IH b1 ax' t1 Hnd') as (Hlen & Hout & Hin)
      end.
      { intros i Hi. rewrite updateBlock_length. apply Hrange. now right. }
      rewrite updateBlock_length in Hlen.
      repeat split; auto.
      * intros i Hi. rewrite Hout by tauto.
        apply getBlock_updateBlock_other. tauto.
      * intros i [<-|Hi].
        -- exists 0%nat. rewrite Hout by assumption.
           rewrite getBlock_updateBlock_same by assumption.
           now rewrite Hget.
        -- destruct (Hin i Hi) as (k & Hk).
           destruct (Hiter k) as (k' & Hk').
           exists k'. rewrite Hk, Hk'.
           assert (j <> i) by (intros ->; contradiction).
           now rewrite getBlock_updateBlock_other by assumption.
Qed.

(** [rotateGroup] on a group at rest, member by member. *)
Lemma rotateGroup_members : forall now axis m center,
  centerBlock m = Some center -> wellFormedGroup m -> groupAtRest m ->
  let q := quarterQuat axis in
  let offset :=
    floorOffset
      (fold_left lowerMin
         (spec_worldYs (blocks m) (selectedGroup m) center q) None) in
  let bs' := blocks (rotateGroup now axis m) in
  List.length bs' = List.length (blocks m) /\
  (forall i, ~ In i (selectedGroup m) ->
             getBlock bs' i = getBlock (blocks m) i) /\
  (forall i, In i (selectedGroup m) ->
     exists k,
       getBlock bs' i
       = rotateMember now (position (getBlock (blocks m) center))
                      (normalize axis) (Nat.iter k normalize axis)
                      (lift offset (spec_target (blocks m) center q i))
                      (getBlock (blocks m) i)).
Proof.
  intros now axis m center Hc [Hnd Hrange] Hrest. cbv zeta.
  unfold rotateGroup. rewrite Hc.
  replace (existsb _ (selectedGroup m)) with false.
  2:{ symmetry. apply not_true_is_false. intros E.
      apply existsb_exists in E. destruct E as (i & Hi & E).
      rewrite (Hrest i Hi) in E. discriminate. }
  fold (quarterQuat axis).
  destruct (rotateTargets_spec (blocks m) center (quarterQuat axis)
              (selectedGroup m)) as (Htp & Hmin).
  destruct (rotateTargets _ _ _ _ _) as [targets minWorldY].
  simpl in Htp, Hmin. subst minWorldY.
  match goal with
  | |- context [fold_left ?f ?g ?st] =>
      pose proof (rotateRounds_spec now
                    (position (getBlock (blocks m) center))
                    (normalize axis)
                    (floorOffset
                       (fold_left lowerMin
                          (spec_worldYs (blocks m) (selectedGroup m) center
                                        (quarterQuat axis)) None))
                    (selectedGroup m) (blocks m) axis targets
                    Hnd Hrange) as K;
      destruct (fold_left f g st) as [[bs' ax'] tp']
  end.
  simpl in K. destruct K as (Hlen & Hout & Hin). simpl.
  repeat split; auto.
  intros i Hi. destruct (Hin i Hi) as (k & Hk).
  exists k. now rewrite Hk, (Htp i Hi).
Qed.




End GroupRotation.



Example isolated_block_turns_in_place :
  let m := run (M := hostMath) initialManager
               [DblClick (pointerAt 0 0 (-3) 0 (Some 2%nat) 0)] in
  let b' := getBlock
              (blocks (flipBlock (M := hostMath) 10 (vec3 0 0 (-1)) Right m))
              2 in
  selectedGroup m = [2%nat] /\ centerBlock m = Some 2%nat /\
  position b' = position (getBlock (blocks m) 2) /\
  posAnimating b' = false /\ isAnimating b' = true /\
  pendingCells b' = Some [(0, 0, 0); (0, 0, 1); (0, 0, -1); (1, 0, -1)]%Z.
Proof. vm_compute. repeat split; reflexivity. Qed.

(** ** The floor *)

(** C1 at a drag: a completed drag clamps the position of the block,
    not its cells.  After the quarter turn about x the first catalog
    shape has a cell one unit under its origin; the drag brings the
    origin down to the floor and the release snaps it there, so the cell
    ends at world y = -1.  [adjustToFloor], documented to keep all cells
    above the floor and never called by the manager, would lift the
    block back.  (For a completed group rotation the floor does hold:
    [completed_rotation_keeps_floor].) *)
Lemma drag_leaves_cell_under_floor :
  let m := run (M := hostMath) initialManager turnThenDragDown in
  let b := getBlock (blocks m) 0 in
  isDragging m = false /\ Block.animating b = false /\
  position b = vec3 0 0 0 /\
  cells b = [(0, 0, 0); (-1, 0, 0); (0, -1, 0)]%Z /\
  Block.getWorldCellPositions b = [(0, 0, 0); (-1, 0, 0); (0, -1, 0)]%Z /\
  ~ floorHolds b /\
  floorHolds (Block.adjustToFloor b).
Proof.
  intros m b.
  assert (Hpos : position b = vec3 0 0 0) by (vm_compute; reflexivity).
  assert (Hcells : cells b = [(0, 0, 0); (-1, 0, 0); (0, -1, 0)]%Z)
    by (vm_compute; reflexivity).
  assert (Hfix : position (Block.adjustToFloor b) = vec3 0 1 0 /\
                 cells (Block.adjustToFloor b) = cells b)
    by (vm_compute; split; reflexivity).
  split; [vm_compute; reflexivity|].
  split; [vm_compute; reflexivity|].
  split; [exact Hpos|]. split; [exact Hcells|].
  split; [vm_compute; reflexivity|]. split.
  - unfold floorHolds. rewrite Hpos, Hcells. intros H.
    assert (K : 0 <= y (vec3 0 0 0) + num (snd (fst (0, -1, 0)%Z)))
      by (apply H; simpl; auto).
    vm_compute in K. apply K. reflexivity.
  - unfold floorHolds. destruct Hfix as [-> ->]. rewrite Hcells.
    intros cell [<-|[<-|[<-|[]]]]; vm_compute; discriminate.
Qed.

Section RotationFloor.
Context {M : JSMath}.

Lemma progress_after : forall clock start,
  start + ROTATION_DURATION <= clock ->
  Qle_bool 1 (Block.progress clock start) = true.
Proof.
  intros clock start H. now apply progress_over, elapsed_over.
Qed.

Lemma floorOffset_lifts : forall ys offset v,
  isFloorOffset ys offset -> In v ys -> 0 <= v + offset.
Proof.
  intros ys offset v [(lowest & [_ Hle] & Hneg & ->)|[Hall ->]] Hv.
  - specialize (Hle v Hv). lra.
  - specialize (Hall v Hv). lra.
Qed.

Lemma turn_cell_near_axis : forall B a v c,
  accurateFor B M -> In a cardinalCells -> veq v (cellVec a) ->
  smallCell B c ->
  roundVec (applyQuaternion (cellVec c) (quarterQuat v)) = quarterTurn a c.
Proof.
  intros B a v c [Hsqrt Hacc] Ha Hv Hc.
  rewrite <- (turn_cell_exact_axis B a c Hacc Ha Hc).
  apply roundVec_veq, applyQuaternion_qeq, setFromAxisAngle_veq.
  now apply normalize_cardinal.
Qed.

Lemma rotatedCells_near_axis : forall B a v cs,
  accurateFor B M -> In a cardinalCells -> veq v (cellVec a) ->
  Forall (smallCell B) cs ->
  Block.rotatedCells (quarterQuat v) cs = map (quarterTurn a) cs.
Proof.
  intros B a v cs Hacc Ha Hv Hcs. unfold Block.rotatedCells.
  induction Hcs as [|c cs Hc Hcs IH]; simpl; auto.
  rewrite IH. f_equal. now apply turn_cell_near_axis with (B := B).
Qed.

(** The ticks of a block, case by case. *)
Lemma updatePosition_idle : forall now b,
  posAnimating b = false -> Block.updatePosition now b = b.
Proof. intros now b H. unfold Block.updatePosition. now rewrite H. Qed.

Lemma updatePosition_done : forall now b s t,
  posAnimating b = true -> posAnimStartPos b = Some s ->
  posAnimTargetPos b = Some t ->
  Qle_bool 1 (Block.progress now (posAnimStartTime b)) = true ->
  position (Block.updatePosition now b) = t /\
  posAnimating (Block.updatePosition now b) = false.
Proof.
  intros now b s t H1 H2 H3 H4. unfold Block.updatePosition.
  rewrite H1, H2, H3, H4. split; reflexivity.
Qed.

Lemma updateOrientation_done : forall now b,
  isAnimating b = true -> animPivotGroup b = true ->
  Qle_bool 1 (Block.progress now (animStartTime b)) = true ->
  let b' := Block.updateOrientation now b in
  cells b' = match pendingCells b with Some cs => cs | None => cells b end /\
  position b' = position b /\ isAnimating b' = false /\
  posAnimating b' = posAnimating b.
Proof.
  intros now b H1 H2 H3. unfold Block.updateOrientation.
  rewrite H1, H2, H3. cbn. repeat split; reflexivity.
Qed.

Lemma rotateBlock_at_rest : forall now ax b,
  isAnimating b = false ->
  let b1 := Block.rotateBlock now ax b in
  animPivotGroup b1 = true /\ animStartTime b1 = now /\
  pendingCells b1 = Some (Block.rotatedCells (quarterQuat ax) (cells b)).
Proof.
  intros now ax b H. unfold Block.rotateBlock. rewrite H.
  repeat split; reflexivity.
Qed.

(** The tick that ends both animations of a rotated member. *)
Lemma rotateMember_completes : forall now pivot nax ax t clock b,
  Block.animating b = false -> now + ROTATION_DURATION <= clock ->
  let b2 := Block.updateAnimation clock (rotateMember now pivot nax ax t b) in
  cells b2 = Block.rotatedCells (quarterQuat ax) (cells b) /\
  y (position b2) == y t /\
  Block.animating b2 = false.
Proof.
  intros now pivot nax ax t clock b Hrest Hclock. cbv zeta.
  unfold Block.animating in Hrest. apply orb_false_iff in Hrest.
  destruct Hrest as [Ha Hp].
  pose proof (progress_after clock now Hclock) as Hdone.
  destruct (rotateBlock_started now ax b)
    as (_ & Kpos & Kcells & Kanim & Kpa & _).
  destruct (rotateBlock_at_rest now ax b Ha) as (Kpiv & Kstart & Kpend).
  unfold rotateMember.
  set (b1 := Block.rotateBlock now ax b) in *. clearbody b1.
  unfold Block.updateAnimation, Block.animating. rewrite Kpos.
  destruct (equals t (position b)) eqn:E; cbn [negb].
  - rewrite updatePosition_idle by congruence.
    destruct (updateOrientation_done clock b1 Kanim Kpiv)
      as (C1 & C2 & C3 & C4); [now rewrite Kstart|].
    rewrite C1, C2, C3, C4, Kpend, Kpos, Kpa, Hp.
    repeat split; auto.
    unfold equals in E. rewrite !andb_true_iff in E.
    destruct E as [[_ E] _]. apply Qeq_bool_iff in E. now symmetry.
  - set (b1' := Block.animatePositionTo now t (Some pivot) (Some nax) b1).
    destruct (updatePosition_done clock b1' (position b1) t)
      as (P1 & P2); try reflexivity; [exact Hdone|].
    destruct (updatePosition_orientation clock b1')
      as (_ & Q2 & Q3 & Q4 & Q5 & Q6).
    change (cells b1') with (cells b1) in Q2.
    change (isAnimating b1') with (isAnimating b1) in Q3.
    change (animStartTime b1') with (animStartTime b1) in Q4.
    change (animPivotGroup b1') with (animPivotGroup b1) in Q5.
    change (pendingCells b1') with (pendingCells b1) in Q6.
    destruct (updateOrientation_done clock (Block.updatePosition clock b1'))
      as (C1 & C2 & C3 & C4); try congruence.
    rewrite C1, C2, C3, C4, Q6, Kpend, P1, P2.
    repeat split; auto.
Qed.

Lemma getBlock_updateAll : forall clock bs i k,
  (i < List.length bs)%nat ->
  getBlock (updateAll clock k bs) i
  = Block.updateAnimation (clock (k + i)%nat) (getBlock bs i).
Proof.
  unfold getBlock. intros clock bs. 
  induction bs as [|b bs IH]; intros i k Hi; simpl in *; [lia|].
  destruct i as [|i].
  - now rewrite Nat.add_0_r.
  - rewrite IH by lia. now rewrite Nat.add_succ_r.
Qed.

(** The floor holds for every member once a group rotation about a
    cardinal axis has completed. *)
Lemma completed_rotation_keeps_floor :
  forall B a now clock m center,
    accurateFor B M -> In a cardinalCells ->
    centerBlock m = Some center -> wellFormedGroup m -> groupAtRest m ->
    (forall i, In i (selectedGroup m) ->
               Forall (smallCell B) (cells (getBlock (blocks m) i))) ->
    (forall i, now + ROTATION_DURATION <= clock i) ->
    let m2 := update clock (rotateGroup now (cellVec a) m) in
    forall i, In i (selectedGroup m) ->
      floorHolds (getBlock (blocks m2) i) /\
      Block.animating (getBlock (blocks m2) i) = false.
Proof.
  intros B a now clock m center Hacc Ha Hc Hwf Hrest Hsmall Hclock m2 i Hi.
  destruct (rotateGroup_members now (cellVec a) m center Hc Hwf Hrest)
    as (Hlen & _ & Hin).
  destruct (Hin i Hi) as (k & Hk).
  assert (Hblocks : blocks m2
                    = updateAll clock 0
                        (blocks (rotateGroup now (cellVec a) m))).
  { unfold m2, update. cbv zeta.
    set (m1 := withBlocks _ _).
    destruct (centerBlock m1); [destruct (_ && _)|]; reflexivity. }
  assert (Hir : (i < List.length (blocks m))%nat) by (now apply Hwf).
  rewrite Hblocks, getBlock_updateAll by lia. rewrite Hk. simpl plus.
  set (q := quarterQuat (cellVec a)) in *.
  set (ys := spec_worldYs (blocks m) (selectedGroup m) center q) in *.
  set (offset := floorOffset (fold_left lowerMin ys None)) in *.
  set (t := lift offset (spec_target (blocks m) center q i)).
  destruct (rotateMember_completes now
              (position (getBlock (blocks m) center))
              (normalize (cellVec a))
              (Nat.iter k normalize (cellVec a)) t (clock i)
              (getBlock (blocks m) i) (Hrest i Hi) (Hclock i))
    as (Hcells & Hy & Hdone).
  split; [|exact Hdone].
  assert (Hv : veq (Nat.iter k normalize (cellVec a)) (cellVec a)).
  { apply normalize_iter_cardinal; auto. apply Hacc. }
  rewrite (rotatedCells_near_axis B a _ _ Hacc Ha Hv (Hsmall i Hi)) in Hcells.
  unfold floorHolds. rewrite Hcells.
  intros cell' Hcell'. rewrite Hy. apply in_map_iff in Hcell'.
  destruct Hcell' as (cell & <- & Hcell).
  assert (Hsc : smallCell B cell).
  { specialize (Hsmall i Hi). rewrite Forall_forall in Hsmall. auto. }
  assert (Hround :
            Math_round (y (applyQuaternion (cellVec cell) q))
            = snd (fst (quarterTurn a cell))).
  { change (Math_round (y (applyQuaternion (cellVec cell) q)))
      with (snd (fst (roundVec (applyQuaternion (cellVec cell) q)))).
    unfold q. now rewrite (turn_cell B a cell Hacc Ha Hsc). }
  assert (Hys : In (y (spec_target (blocks m) center q i)
                    + num (snd (fst (quarterTurn a cell)))) ys).
  { unfold ys, spec_worldYs. apply in_flat_map. exists i. split; auto.
    apply in_map_iff. exists cell. split; auto. now rewrite Hround. }
  pose proof (floorOffset_lifts ys offset _
                (floorOffset_spec ys) Hys) as K.
  unfold t, lift. cbn [y]. lra.
Qed.

End RotationFloor.

(** ** The gizmo drag *)

Section AngleWrap.
Context {M : JSMath}.
Hypothesis PI_positive : 0 < Math_PI.

Lemma Qltb_true : forall a b, Qltb a b = true <-> a < b.
Proof.
  intros a b. unfold Qltb. rewrite negb_true_iff.
  split; intros H.
  - apply Qnot_le_lt. rewrite <- Qle_bool_iff. congruence.
  - apply not_true_is_false. rewrite Qle_bool_iff. lra.
Qed.

Lemma Qltb_false : forall a b, Qltb a b = false <-> b <= a.
Proof.
  intros a b. unfold Qltb. rewrite negb_false_iff. apply Qle_bool_iff.
Qed.

Hypothesis PI_number : Binary64.isDouble Math_PI.

Lemma two_PI : Binary64.fl (Math_PI * 2) == Math_PI * 2.
Proof. apply Binary64Facts.isDouble_twice, PI_number. Qed.

Lemma wrapDown_stop : forall fuel d,
  d <= Math_PI -> wrapDown fuel d = d.
Proof.
  intros [|fuel] d H; cbn [wrapDown]; auto.
  apply Qltb_false in H. now rewrite H.
Qed.

Lemma wrapUp_stop : forall fuel d,
  - Math_PI <= d -> wrapUp fuel d = d.
Proof.
  intros [|fuel] d H; cbn [wrapUp]; auto.
  apply Qltb_false in H. now rewrite H.
Qed.

(** A delta that is not zero is granted a round. *)
Lemma wrapRounds_one : forall d,
  ~ d == 0 -> exists n, wrapRounds d = S n.
Proof.
  intros d N. unfold wrapRounds.
  set (r := Qabs d / (Math_PI * 2)).
  assert (Hr : 0 < r).
  { unfold r. apply Qlt_shift_div_l; [lra|].
    pose proof (Binary64Facts.Qabs_nonzero d N). lra. }
  assert (Hc : (0 < Qceiling r)%Z).
  { pose proof (Qle_ceiling r) as K.
    assert (L : inject_Z 0 < inject_Z (Qceiling r))
      by (change (inject_Z 0) with 0; lra).
    now rewrite <- Zlt_Qlt in L. }
  exists (Nat.pred (Z.to_nat (Qceiling r))). lia.
Qed.

(** A delta of two turns at most: one round of one loop brings it into
    [[-PI, PI]]. *)
Lemma wrapAngle_one_turn : forall raw,
  - (Math_PI * 2) <= raw <= Math_PI * 2 ->
  let d := wrapAngle raw in
  - Math_PI <= d <= Math_PI /\
  (Math_PI < raw ->
   d = Binary64.fl (raw - Binary64.fl (Math_PI * 2))) /\
  (raw < - Math_PI ->
   d = Binary64.fl (raw + Binary64.fl (Math_PI * 2))) /\
  (- Math_PI <= raw <= Math_PI -> d = raw).
Proof.
  intros raw [R1 R2]. cbv zeta. unfold wrapAngle.
  pose proof two_PI as T.
  assert (Fm : Binary64.fl (- Math_PI) == - Math_PI)
    by (apply Binary64Facts.isDouble_opp, PI_number).
  assert (Fp : Binary64.fl Math_PI == Math_PI) by exact PI_number.
  assert (F0 : Binary64.fl 0 == 0) by reflexivity.
  destruct (Qlt_le_dec Math_PI raw) as [Hhi|Hhi].
  - (* one round of the first loop *)
    destruct (wrapRounds_one raw) as (n & En); [lra|].
    rewrite En. cbn [wrapDown].
    rewrite (proj2 (Qltb_true _ _) Hhi).
    set (d1 := Binary64.fl (raw - Binary64.fl (Math_PI * 2))).
    assert (E1 : d1 = Binary64.fl (raw - Math_PI * 2)).
    { unfold d1. apply Binary64Facts.fl_comp. now rewrite T. }
    assert (L1 : - Math_PI <= d1).
    { apply Qle_trans with (Binary64.fl (- Math_PI)); [rewrite Fm; lra|].
      rewrite E1. apply Binary64Facts.fl_mono. lra. }
    assert (U1 : d1 <= 0).
    { apply Qle_trans with (Binary64.fl 0); [|rewrite F0; lra].
      rewrite E1. apply Binary64Facts.fl_mono. lra. }
    rewrite wrapDown_stop by lra. rewrite wrapUp_stop by lra.
    split; [lra|]. split; [reflexivity|]. split; intros; lra.
  - rewrite wrapDown_stop by lra.
    destruct (Qlt_le_dec raw (- Math_PI)) as [Hlo|Hlo].
    + (* one round of the second loop *)
      destruct (wrapRounds_one raw) as (n & En); [lra|].
      rewrite En. cbn [wrapUp].
      rewrite (proj2 (Qltb_true _ _) Hlo).
      set (d1 := Binary64.fl (raw + Binary64.fl (Math_PI * 2))).
      assert (E1 : d1 = Binary64.fl (raw + Math_PI * 2)).
      { unfold d1. apply Binary64Facts.fl_comp. now rewrite T. }
      assert (L1 : 0 <= d1).
      { apply Qle_trans with (Binary64.fl 0); [rewrite F0; lra|].
        rewrite E1. apply Binary64Facts.fl_mono. lra. }
      assert (U1 : d1 <= Math_PI).
      { apply Qle_trans with (Binary64.fl Math_PI); [|rewrite Fp; lra].
        rewrite E1. apply Binary64Facts.fl_mono. lra. }
      rewrite wrapUp_stop by lra.
      split; [lra|]. split; [intros; lra|]. split; [reflexivity|].
      intros; lra.
    + rewrite wrapUp_stop by lra.
      split; [lra|]. split; [intros; lra|]. split; [intros; lra|].
      reflexivity.
Qed.

(** The rounded difference of two angles of [[-PI, PI]]. *)
Lemma angle_difference : forall a b,
  - Math_PI <= a <= Math_PI -> - Math_PI <= b <= Math_PI ->
  - (Math_PI * 2) <= Binary64.fl (a - b) <= Math_PI * 2.
Proof.
  intros a b Ha Hb. pose proof two_PI as T.
  assert (Tm : Binary64.fl (- (Math_PI * 2)) == - (Math_PI * 2)).
  { rewrite Binary64Facts.fl_opp. now rewrite T. }
  split.
  - apply Qle_trans with (Binary64.fl (- (Math_PI * 2)));
      [rewrite Tm; lra|].
    apply Binary64Facts.fl_mono. lra.
  - apply Qle_trans with (Binary64.fl (Math_PI * 2)); [|rewrite T; lra].
    apply Binary64Facts.fl_mono. lra.
Qed.

End AngleWrap.

Section GizmoDrag.
Context {M : JSMath}.

Lemma rotateGroup_withGizmoDrag : forall now ax d a p s acc m,
  rotateGroup now ax (withGizmoDrag d a p s acc m)
  = withGizmoDrag d a p s acc (rotateGroup now ax m).
Proof.
  intros now ax d a p s acc m. unfold rotateGroup.
  cbn [centerBlock selectedGroup blocks withGizmoDrag].
  destruct (centerBlock m); [|reflexivity].
  destruct (existsb _ _); [reflexivity|].
  destruct (rotateTargets _ _ _ _ _) as [targets minWorldY].
  destruct (fold_left _ _ _) as [[bs' ax'] tp']. reflexivity.
Qed.

(** The end of a gizmo move, by the accumulated angle. *)
Lemma gizmoCommit_spec : forall e axis m,
  0 < Binary64.fl (Math_PI / 4) ->
  let acc := gizmoAccumulatedAngle m in
  let m' := gizmoCommit e axis m in
  gizmoDragStartAngle m' = gizmoDragStartAngle m /\
  (Qabs acc < Binary64.fl (Math_PI / 4) -> m' = m) /\
  (Binary64.fl (Math_PI / 4) <= Qabs acc ->
   gizmoAccumulatedAngle m' = 0 /\
   exists sign : Q,
     (0 < acc /\ sign = 1 \/ acc < 0 /\ sign = -1) /\
     blocks m'
     = blocks (rotateGroup (timeStamp e) (multiplyScalar axis sign) m)).
Proof.
  intros e axis m HPI. cbv zeta. unfold gizmoCommit.
  destruct (Qle_bool (Binary64.fl (Math_PI / 4))
                     (Qabs (gizmoAccumulatedAngle m))) eqn:E.
  - apply Qle_bool_iff in E. cbv zeta.
    split; [now rewrite rotateGroup_frame|].
    split; [intros H; lra|].
    intros _. split; [reflexivity|].
    destruct (Qltb 0 (gizmoAccumulatedAngle m)) eqn:S.
    + apply Qltb_true in S. exists 1. split; auto.
    + apply Qltb_false in S. exists (-1). split; auto.
      right. split; auto.
      destruct (Qlt_le_dec (gizmoAccumulatedAngle m) 0) as [Hn|Hp]; auto.
      assert (Hz : gizmoAccumulatedAngle m == 0) by lra.
      assert (Ha : Qabs (gizmoAccumulatedAngle m) == 0)
        by (rewrite Hz; reflexivity).
      lra.
  - assert (Hlt : Qabs (gizmoAccumulatedAngle m)
                  < Binary64.fl (Math_PI / 4)).
    { apply Qnot_le_lt. rewrite <- Qle_bool_iff. congruence. }
    split; [reflexivity|]. split; [auto|]. intros H; lra.
Qed.

(** An eighth of a turn, as the host divides it, is positive. *)
Lemma eighth_positive : 1 <= Math_PI -> 1 # 4 <= Binary64.fl (Math_PI / 4).
Proof.
  intros HPI.
  assert (Q4 : Binary64.fl (inject_Z 1 / 4) == inject_Z 1 / 4)
    by (apply Binary64Facts.fl_quarter; simpl; lia).
  apply Qle_trans with (Binary64.fl (inject_Z 1 / 4)).
  - rewrite Q4. apply Qle_lteq. right. reflexivity.
  - apply Binary64Facts.fl_mono. apply Qle_shift_div_l; [reflexivity|].
    setoid_replace (inject_Z 1 / 4 * 4) with 1 by reflexivity. exact HPI.
Qed.

(** The drag axis with the sign of the accumulator. *)
Lemma signed_axis : forall (a : Cell) (v : Vector3),
  In a cardinalCells -> veq v (cellVec a) ->
  veq (multiplyScalar v 1) (cellVec a) /\
  veq (multiplyScalar v (-1)) (cellVec (oppositeCell a)) /\
  In (oppositeCell a) cardinalCells.
Proof.
  intros [[ax ay] az] v Ha (Hx & Hy & Hz).
  unfold veq, multiplyScalar, oppositeCell, cellVec in *. cbn [x y z] in *.
  rewrite Hx, Hy, Hz. unfold num. rewrite !inject_Z_opp.
  split; [repeat split; ring|]. split; [repeat split; ring|].
  simpl in Ha. simpl.
  repeat (destruct Ha as [Ha|Ha]; [injection Ha as <- <- <-; tauto|]).
  contradiction.
Qed.

(** A quarter turn about [a] of the blocks of the array, through the
    loops of [rotateGroup]. *)
Section TurnedAbout.

Variables (B : Z) (a : Cell).
Hypothesis accurate : accurateFor B M.
Hypothesis cardinal : In a cardinalCells.

Lemma turnedAbout_rotateBlock : forall now ax b0 b,
  veq ax (cellVec a) -> turnedWithin B a b0 b ->
  turnedWithin B a b0 (Block.rotateBlock now ax b).
Proof.
  intros now ax b0 b Hax [[Hc Hs] Hsmall]. split; [|exact Hsmall].
  assert (Hcase : isAnimating b = true \/ isAnimating b = false)
    by (destruct (isAnimating b); auto).
  unfold Block.rotateBlock. destruct Hcase as [E|E]; rewrite E.
  - split; [exact Hc|exact Hs].
  - split; [exact Hc|]. right. cbn [isAnimating animTargetQuat pendingCells].
    destruct Hs as [(Ha & _ & _)|(_ & Ha & _)]; [|congruence].
    split; [congruence|]. split; [reflexivity|]. split.
    + apply setFromAxisAngle_veq.
      apply normalize_cardinal; auto. apply accurate.
    + fold (quarterQuat ax). rewrite Hc.
      now rewrite (rotatedCells_near_axis B a ax (cells b0) accurate
                     cardinal Hax Hsmall).
Qed.

Lemma turnedAbout_rotateMember : forall now pivot nax ax pos b0 b,
  veq ax (cellVec a) -> turnedWithin B a b0 b ->
  turnedWithin B a b0 (rotateMember now pivot nax ax pos b).
Proof.
  intros now pivot nax ax pos b0 b Hax H. unfold rotateMember.
  pose proof (turnedAbout_rotateBlock now ax b0 b Hax H) as K.
  destruct (negb _); auto.
Qed.

Lemma turnedAbout_rotateRounds : forall bs0 now pivot nax yOffset group st,
  veq (snd (fst st)) (cellVec a) ->
  Forall2 (turnedWithin B a) bs0 (fst (fst st)) ->
  Forall2 (turnedWithin B a) bs0
    (fst (fst (fold_left (rotateRound now pivot nax yOffset) group st))).
Proof.
  intros bs0 now pivot nax yOffset.
  induction group as [|i group IH]; simpl; intros st Hax H; auto.
  destruct st as [[bs ax] tp]. simpl in *.
  assert (Hax' : veq (Block.rotateBlock_axis ax (getBlock bs i)) (cellVec a)).
  { unfold Block.rotateBlock_axis. destruct (isAnimating _); auto.
    apply normalize_cardinal; auto. apply accurate. }
  destruct (mapGet i tp); apply IH; simpl; auto;
    apply updateBlock_keeps; auto.
  - intros. now apply turnedAbout_rotateMember.
  - intros. now apply turnedAbout_rotateBlock.
Qed.

Lemma turnedAbout_refl : forall bs,
  Forall (fun b => Forall (smallCell B) (cells b)) bs ->
  Forall2 (turnedWithin B a) bs bs.
Proof.
  induction 1; constructor; auto. split; auto. split; auto.
Qed.

Lemma turnedAbout_rotateGroup : forall now axis m,
  veq axis (cellVec a) ->
  Forall (fun b => Forall (smallCell B) (cells b)) (blocks m) ->
  Forall2 (turnedAbout a) (blocks m) (blocks (rotateGroup now axis m)).
Proof.
  intros now axis m Hax Hsmall.
  assert (K : Forall2 (turnedWithin B a) (blocks m)
                      (blocks (rotateGroup now axis m))).
  { pose proof (turnedAbout_refl _ Hsmall) as H0.
    unfold rotateGroup.
    destruct (centerBlock m); auto.
    destruct (existsb _ _); auto.
    destruct (rotateTargets _ _ _ _ _) as [targets minWorldY].
    match goal with
    | |- context [fold_left ?f ?g ?st] =>
        pose proof (turnedAbout_rotateRounds (blocks m) now
                      (position (getBlock (blocks m) n)) (normalize axis)
                      (floorOffset minWorldY) g st Hax H0) as K;
        destruct (fold_left f g st) as [[bs' ax'] tp']
    end.
    exact K. }
  clear Hsmall. induction K; constructor; auto. apply H.
Qed.

End TurnedAbout.

End GizmoDrag.

(** C9, as the code has it, in double precision.  On a gizmo move whose
    ray meets the rotation plane, the two angles being angles of
    [Math.atan2], the rounded difference from the previous sample is
    brought into [[-PI, PI]] by one turn at most (subtracted or added
    and rounded) and added to the accumulator, the sum rounded, and the
    sample becomes the previous one.  Below the rounded [PI / 4] nothing
    else changes; from it on, the accumulator is reset to zero and
    [rotateGroup] is called once, on the axis times the sign of the
    accumulator.  For a ring axis, on an accurate host, every block whose
    orientation changes has been at rest and is asked for a quarter turn
    about that signed axis: the quaternion of [PI / 2] about it, and as
    pending cells its cells turned by a quarter. *)
Theorem gizmo_drag_commits_quarter_turns :
  forall (M : JSMath) (e : PointerEvent) (axis : Vector3) (plane : Plane)
         (m : Manager) (p : Vector3),
    1 <= Math_PI -> Binary64.isDouble Math_PI ->
    intersectPlane (ray e) plane = Some p ->
    let current := getAngleOnPlane p (gizmoPosition m) axis in
    - Math_PI <= current <= Math_PI ->
    - Math_PI <= gizmoDragStartAngle m <= Math_PI ->
    let raw := Binary64.fl (current - gizmoDragStartAngle m) in
    let delta := wrapAngle raw in
    let acc := Binary64.fl (gizmoAccumulatedAngle m + delta) in
    let eighth := Binary64.fl (Math_PI / 4) in
    let m' := gizmoMove e axis plane m in
    (- Math_PI <= delta <= Math_PI /\
     (Math_PI < raw ->
      delta = Binary64.fl (raw - Binary64.fl (Math_PI * 2))) /\
     (raw < - Math_PI ->
      delta = Binary64.fl (raw + Binary64.fl (Math_PI * 2))) /\
     (- Math_PI <= raw <= Math_PI -> delta = raw)) /\
    gizmoDragStartAngle m' = current /\
    (Qabs acc < eighth ->
     gizmoAccumulatedAngle m' = acc /\ blocks m' = blocks m) /\
    (eighth <= Qabs acc ->
     gizmoAccumulatedAngle m' = 0 /\
     exists sign : Q,
       (0 < acc /\ sign = 1 \/ acc < 0 /\ sign = -1) /\
       blocks m'
       = blocks (rotateGroup (timeStamp e) (multiplyScalar axis sign) m)) /\
    (forall (B : Z) (a : Cell),
       accurateFor B M -> In a cardinalCells -> veq axis (cellVec a) ->
       Forall (fun b => Forall (smallCell B) (cells b)) (blocks m) ->
       Forall2 (turnedAbout (if Qltb 0 acc then a else oppositeCell a))
               (blocks m) (blocks m')).
Proof.
  intros M e axis plane m p HPI Hd Hp current Hc Hs raw delta acc eighth m'.
  assert (HPI0 : 0 < Math_PI) by lra.
  pose proof (eighth_positive HPI) as He. fold eighth in He.
  split.
  { apply (wrapAngle_one_turn HPI0 Hd).
    now apply (angle_difference Hd). }
  unfold m', gizmoMove. rewrite Hp. cbv zeta.
  fold current. fold raw. fold delta. fold acc.
  match goal with
  | |- context [gizmoCommit e axis ?m1] =>
      destruct (gizmoCommit_spec e axis m1) as (H1 & H2 & H3);
      [fold eighth; lra|]
  end.
  cbn [gizmoAccumulatedAngle gizmoDragStartAngle withGizmoDrag] in H1, H2, H3.
  fold eighth in H2, H3.
  split; [exact H1|]. split; [|split].
  - intros Hlt. rewrite (H2 Hlt). split; reflexivity.
  - intros Hge. destruct (H3 Hge) as (Hz & sign & Hsg & Hb).
    split; [exact Hz|]. exists sign. split; [exact Hsg|].
    rewrite Hb. now rewrite rotateGroup_withGizmoDrag.
  - intros B a Hacc Ha Hax Hsmall.
    destruct (Qlt_le_dec (Qabs acc) eighth) as [Hlt|Hge].
    + rewrite (H2 Hlt). cbn [blocks withGizmoDrag].
      clear. induction (blocks m) as [|b bs IH]; constructor; [|exact IH].
      split; [reflexivity|]. left. repeat split.
    + destruct (H3 Hge) as (_ & sign & Hsg & Hb). rewrite Hb.
      rewrite rotateGroup_withGizmoDrag.
      cbn [blocks withGizmoDrag].
      destruct (signed_axis a axis Ha Hax) as (V1 & V2 & Ho).
      destruct Hsg as [[Hpos ->]|[Hneg ->]].
      * rewrite (proj2 (Qltb_true _ _) Hpos).
        now apply (turnedAbout_rotateGroup B a Hacc Ha).
      * assert (F : Qltb 0 acc = false) by (apply Qltb_false; lra).
        rewrite F.
        now apply (turnedAbout_rotateGroup B (oppositeCell a) Hacc Ho).
Qed.

Lemma gizmo_drag_commits_quarter_turns_witness :
  let e := gizmoSecondSample in
  let axis := vec3 0 0 1 in
  let plane := mkPlane (vec3 0 0 1) (0 # 2) in
  let p := vec3 (0 # 4) (12 # 8) (0 # 4) in
  let m := gizmoPressed in
  let current := getAngleOnPlane (M := hostMath) p (gizmoPosition m) axis in
  (1 <= Math_PI (JSMath := hostMath) /\
   Binary64.isDouble (Math_PI (JSMath := hostMath)) /\
   intersectPlane (ray e) plane = Some p /\
   - Math_PI (JSMath := hostMath) <= current <= Math_PI (JSMath := hostMath) /\
   - Math_PI (JSMath := hostMath) <= gizmoDragStartAngle m
     <= Math_PI (JSMath := hostMath)) /\
  gizmoDragStartAngle (gizmoMove (M := hostMath) e axis plane m) = current /\
  gizmoAccumulatedAngle (gizmoMove (M := hostMath) e axis plane m) = 0.
Proof.
  intros e axis plane p m current.
  assert (HPI : 1 <= Math_PI (JSMath := hostMath))
    by (vm_compute; discriminate).
  assert (Hd : Binary64.isDouble (Math_PI (JSMath := hostMath)))
    by (vm_compute; reflexivity).
  assert (Hp : intersectPlane (ray e) plane = Some p)
    by (vm_compute; reflexivity).
  assert (Hc : - Math_PI (JSMath := hostMath) <= current
               <= Math_PI (JSMath := hostMath))
    by (split; vm_compute; discriminate).
  assert (Hs : - Math_PI (JSMath := hostMath) <= gizmoDragStartAngle m
               <= Math_PI (JSMath := hostMath))
    by (split; vm_compute; discriminate).
  split; [exact (conj HPI (conj Hd (conj Hp (conj Hc Hs))))|].
  destruct (gizmo_drag_commits_quarter_turns hostMath e axis plane m p
              HPI Hd Hp Hc Hs) as (_ & K1 & _ & K3 & _).
  split; [exact K1|].
  apply K3. vm_compute. discriminate.
Defined.


(** C9, as stated, fails twice.  A delta of exactly [-PI] passes both
    loops unchanged, so the wrapped delta is not in [(-PI, PI]]; and a
    drag that reaches [PI / 4] while the block is still turning resets
    the accumulator without any rotation: [rotateGroup] refuses. *)
Lemma gizmo_wrap_closed_and_turn_dropped :
  (wrapAngle (M := hostMath) (0 - PI_double) == - PI_double /\
   ~ (- PI_double < wrapAngle (M := hostMath) (0 - PI_double))) /\
  (let before := run (M := hostMath) initialManager
                     (removelast gizmoDragWhileTurning) in
   let after := run (M := hostMath) initialManager gizmoDragWhileTurning in
   isGizmoDragging before = true /\
   gizmoDragStartAngle before == 0 /\
   gizmoDragStartAngle after == PI_double / 2 /\
   gizmoAccumulatedAngle after = 0 /\
   blocks after = blocks before).
Proof.
  split.
  - assert (E : wrapAngle (M := hostMath) (0 - PI_double) == - PI_double)
      by (vm_compute; reflexivity).
    split; [exact E|]. rewrite E. apply Qlt_irrefl.
  - cbv zeta.
    split; [vm_compute; reflexivity|].
    split; [vm_compute; reflexivity|].
    split; [vm_compute; reflexivity|].
    split; vm_compute; reflexivity.
Qed.

Example gizmo_quarter_drag_turns_the_block :
  let after := run (M := hostMath) initialManager gizmoQuarterDrag in
  gizmoAccumulatedAngle after = 0 /\
  pendingCells (getBlock (blocks after) 0)
  = Some [(0, 0, 0); (0, -1, 0); (0, 0, 1)]%Z.
Proof. vm_compute. split; reflexivity. Qed.

(** ** Clicks *)

Section Clicks.
Context {M : JSMath}.

Lemma sameButSelected_refl : forall bs, Forall2 sameButSelected bs bs.
Proof.
  induction bs as [|b bs IH]; constructor; auto.
  unfold sameButSelected. now destruct b.
Qed.

Lemma sameButSelected_setSelected : forall s b0 b,
  sameButSelected b0 b -> sameButSelected b0 (Block.setSelected s b).
Proof. unfold sameButSelected. intros s b0 b H. exact H. Qed.

Lemma sameButSelected_isAnimating : forall b0 b,
  sameButSelected b0 b -> isAnimating b = isAnimating b0.
Proof. unfold sameButSelected. intros b0 b <-. reflexivity. Qed.

Lemma sameButSelected_select : forall bs0 group center m,
  Forall2 sameButSelected bs0 (blocks m) ->
  Forall2 sameButSelected bs0
          (blocks (selectGroupWithCenter group center m)).
Proof.
  intros. unfold selectGroupWithCenter. cbn [blocks withGizmo withSelection
                                             withBlocks].
  apply forEachBlock_keeps; [apply sameButSelected_setSelected|].
  apply forEachBlock_keeps; [apply sameButSelected_setSelected|]. auto.
Qed.

Lemma sameButSelected_deselect : forall bs0 m,
  Forall2 sameButSelected bs0 (blocks m) ->
  Forall2 sameButSelected bs0 (blocks (deselectAll m)).
Proof.
  intros. unfold deselectAll. cbn [blocks withGizmo withSelection withBlocks].
  apply forEachBlock_keeps; [apply sameButSelected_setSelected|]. auto.
Qed.

(** A press that does not go to the gizmo only records the candidate. *)
Lemma press_records : forall e m,
  idle m -> pressStartsGizmoDrag m e = false ->
  idle (onPointerDown e m) /\ blocks (onPointerDown e m) = blocks m.
Proof.
  intros e m [Hd Hg] Hpress. unfold onPointerDown, idle.
  unfold pressStartsGizmoDrag in Hpress.
  destruct (button e =? 0)%Z; cbn [negb]; [|auto]. cbv zeta.
  cbn [gizmoVisible centerBlock withPointer].
  cbn [andb] in Hpress.
  destruct (gizmoVisible m && isSome (centerBlock m)) eqn:E.
  - cbn [andb] in Hpress. destruct (ringHit e); [discriminate|].
    destruct (blockHit e); cbn; auto.
  - destruct (blockHit e); cbn; auto.
Qed.

(** A move inside the threshold disc does nothing. *)
Lemma small_move_ignored : forall e m,
  idle m -> pointerDistance e m < mouseMoveThreshold ->
  onPointerMove e m = m.
Proof.
  intros e m [Hd Hg] Hsmall. unfold onPointerMove.
  rewrite Hg.
  assert (Hno : Qle_bool mouseMoveThreshold (pointerDistance e m) = false).
  { apply not_true_is_false. rewrite Qle_bool_iff. lra. }
  rewrite Hno, andb_false_r.
  destruct (pendingBlock m); now rewrite Hd.
Qed.

Lemma small_moves_ignored : forall moves m,
  idle m ->
  Forall (fun e => pointerDistance e m < mouseMoveThreshold) moves ->
  run m (map PointerMove moves) = m.
Proof.
  unfold run.
  induction moves as [|e moves IH]; intros m Hidle Hall; cbn; auto.
  inversion Hall; subst.
  rewrite small_move_ignored by assumption. auto.
Qed.

(** A release outside a gesture is a click: it changes highlights
    only. *)
Lemma release_selects : forall e m,
  idle m -> Forall2 sameButSelected (blocks m) (blocks (onPointerUp e m)).
Proof.
  intros e m [Hd Hg]. unfold onPointerUp. rewrite Hd, Hg.
  destruct (negb _); [apply sameButSelected_refl|].
  destruct (pendingBlock m).
  - cbn [blocks resetPointerState withDrag withPointer withControls].
    destruct (negb _); [|apply sameButSelected_refl].
    destruct (isCenter _ _); [apply sameButSelected_refl|].
    apply sameButSelected_select, sameButSelected_refl.
  - destruct (Qltb _ _); [|apply sameButSelected_refl].
    destruct (_ && _); [apply sameButSelected_refl|].
    cbn [blocks resetPointerState withDrag withPointer withControls].
    destruct (blockHit e); [apply sameButSelected_refl|].
    apply sameButSelected_deselect, sameButSelected_refl.
Qed.

End Clicks.

(** A left press that does not go to the gizmo records where it
    happened. *)
Lemma press_position : forall (M : JSMath) e m,
  button e = 0%Z -> pressStartsGizmoDrag m e = false ->
  mouseDownPos (onPointerDown e m) = (clientX e, clientY e).
Proof.
  intros M e m Hb Hpress. unfold onPointerDown.
  unfold pressStartsGizmoDrag in Hpress. rewrite Hb in *.
  cbn [Z.eqb negb andb] in *. cbv zeta.
  cbn [gizmoVisible centerBlock withPointer].
  destruct (gizmoVisible m && isSome (centerBlock m)) eqn:E.
  - cbn [andb] in Hpress. destruct (ringHit e); [discriminate|].
    destruct (blockHit e); reflexivity.
  - destruct (blockHit e); reflexivity.
Qed.

(** C4, as the code has it: from a state with no gesture in progress,
    a press of the left button that does not go to the gizmo, any
    number of moves that stay within the threshold of three device
    pixels from the press, and the release leave every block as it was
    except for its highlight; no position, no cell list and no
    animation state changes. *)
Theorem click_changes_selection_only :
  forall (M : JSMath) (m : Manager) (down up : PointerEvent)
         (moves : list PointerEvent),
    isDragging m = false -> isGizmoDragging m = false ->
    button down = 0%Z ->
    pressStartsGizmoDrag m down = false ->
    Forall (fun e => distanceFrom (clientX down, clientY down) e
                     < mouseMoveThreshold) moves ->
    Forall2 sameButSelected (blocks m)
            (blocks (run m (clickEvents down moves up))).
Proof.
  intros M m down up moves Hd Hg Hb Hpress Hsmall.
  destruct (press_records down m (conj Hd Hg) Hpress) as [Hidle Hblocks].
  unfold clickEvents, run. cbn [fold_left step].
  rewrite fold_left_app. cbn [fold_left step].
  fold (run (onPointerDown down m) (map PointerMove moves)).
  rewrite small_moves_ignored.
  - rewrite <- Hblocks. now apply release_selects.
  - exact Hidle.
  - unfold pointerDistance. now rewrite press_position.
Qed.

Lemma click_changes_selection_only_witness :
  let down := pointerAt 5 5 (-3) 0 (Some 2%nat) 50 in
  let moves := [pointerAt 6 6 (-3) 0 (Some 2%nat) 60] in
  let up := pointerAt 6 6 (-3) 0 (Some 2%nat) 70 in
  (isDragging isolatedFirst = false /\
   isGizmoDragging isolatedFirst = false /\
   button down = 0%Z /\
   pressStartsGizmoDrag isolatedFirst down = false /\
   Forall (fun e => distanceFrom (M := hostMath)
                      (clientX down, clientY down) e
                    < mouseMoveThreshold) moves) /\
  Forall2 sameButSelected (blocks isolatedFirst)
          (blocks (run (M := hostMath) isolatedFirst
                       (clickEvents down moves up))).
Proof.
  intros down moves up.
  assert (Hd : isDragging isolatedFirst = false) by reflexivity.
  assert (Hg : isGizmoDragging isolatedFirst = false) by reflexivity.
  assert (Hb : button down = 0%Z) by reflexivity.
  assert (Hp : pressStartsGizmoDrag isolatedFirst down = false)
    by (vm_compute; reflexivity).
  assert (Hs : Forall (fun e => distanceFrom (M := hostMath)
                                  (clientX down, clientY down) e
                                < mouseMoveThreshold) moves).
  { repeat constructor. }
  split; [exact (conj Hd (conj Hg (conj Hb (conj Hp Hs))))|].
  exact (click_changes_selection_only hostMath isolatedFirst down up moves
           Hd Hg Hb Hp Hs).
Defined.

(** C4, as stated, fails for a press on the gizmo: the pointer stays
    within the threshold, the drag of the ring reaches an eighth of a
    turn, and the block is turned; right after the release its
    animation state has changed, and the tick that ends the animation
    replaces its cells. *)
Lemma gizmo_click_turns_block :
  let m := isolatedFirst in
  let m1 := run (M := hostMath) m gizmoClick in
  let m2 := run (M := hostMath) m1 [Tick (fun _ => 300)] in
  (isDragging m = false /\ isGizmoDragging m = false /\
   Block.animating (getBlock (blocks m) 0) = false) /\
  pointerDistance (M := hostMath) (pointerOnRing 1 1 0 (3 # 2) RingZ 30)
    (onPointerDown (M := hostMath) (pointerOnRing 0 0 1 (1 # 2) RingZ 20) m)
  < mouseMoveThreshold /\
  isAnimating (getBlock (blocks m1) 0) = true /\
  ~ Forall2 sameButSelected (blocks m) (blocks m1) /\
  cells (getBlock (blocks m) 0) = [(0, 0, 0); (-1, 0, 0); (0, 0, 1)]%Z /\
  cells (getBlock (blocks m2) 0) = [(0, 0, 0); (0, -1, 0); (0, 0, 1)]%Z.
Proof.
  cbv zeta.
  assert (Ha : isAnimating
                 (getBlock (blocks (run (M := hostMath) isolatedFirst
                                        gizmoClick)) 0) = true)
    by (vm_compute; reflexivity).
  assert (Hb : isAnimating (getBlock (blocks isolatedFirst) 0) = false)
    by (vm_compute; reflexivity).
  split; [split; [|split]; vm_compute; reflexivity|].
  split; [vm_compute; reflexivity|].
  split; [exact Ha|]. split; [|split; vm_compute; reflexivity].
  intros H.
  apply Forall2_getBlock with (i := 0%nat) in H; [|vm_compute; lia].
  apply sameButSelected_isAnimating in H.
  rewrite Ha, Hb in H. discriminate.
Qed.

(** The button matters.  A press of another button returns at once and
    records nothing, so the moves after it are measured from the press
    before: with the second block still pending from a left press, a
    right press elsewhere and two moves within two device pixels of it
    start a drag, and the block goes from [(3, 0, 0)] to
    [(4, 0, 0)]. *)
Example right_press_keeps_the_earlier_press :
  let m := secondPressed in
  let m1 := run (M := hostMath) m rightClick in
  (isDragging m = false /\ isGizmoDragging m = false /\
   pendingBlock m = Some 1%nat /\
   pressStartsGizmoDrag m rightPress = false) /\
  button rightPress = 2%Z /\
  Forall (fun e => distanceFrom (M := hostMath)
                     (clientX rightPress, clientY rightPress) e
                   < mouseMoveThreshold)
         [pointerAt 101 101 3 0 None 30; pointerAt 101 101 4 0 None 40] /\
  position (getBlock (blocks m) 1) = cellVec (3, 0, 0)%Z /\
  position (getBlock (blocks m1) 1) = cellVec (4, 0, 0)%Z.
Proof.
  cbv zeta.
  split; [repeat split; vm_compute; reflexivity|].
  split; [reflexivity|].
  split; [repeat constructor|].
  split; vm_compute; reflexivity.
Qed.

(** * More of the code *)

(** ** Snapping and the floor repair *)

Lemma Math_round_nonneg : forall q, 0 <= q -> (0 <= Math_round q)%Z.
Proof.
  intros q H. destruct (Math_round_bounds q) as [H1 H2].
  assert (K : inject_Z (-1) < inject_Z (Math_round q)).
  { change (inject_Z (-1)) with (-1). lra. }
  rewrite <- Zlt_Qlt in K. lia.
Qed.

Lemma Math_round_comp : forall p q, p == q -> Math_round p = Math_round q.
Proof. intros p q E. unfold Math_round. now rewrite E. Qed.

Lemma set_position_same : forall b, Block.set_position b (position b) = b.
Proof. now destruct b. Qed.

Lemma snapToGrid_position : forall b,
  position (Block.snapToGrid b)
  = cellVec (Math_round (x (position b)),
             Z.max 0 (Math_round (y (position b))),
             Math_round (z (position b))).
Proof. reflexivity. Qed.

Lemma snapToGrid_at_cell : forall b (p : Cell),
  position b = cellVec p -> (0 <= snd (fst p))%Z -> Block.snapToGrid b = b.
Proof.
  intros b [[px py] pz] Hp Hy. simpl in Hy.
  unfold Block.snapToGrid. rewrite Hp. cbn [cellVec x y z].
  rewrite !Math_round_num. rewrite Z.max_r by lia.
  change (vec3 (num px) (num py) (num pz)) with (cellVec (px, py, pz)).
  rewrite <- Hp. apply set_position_same.
Qed.

(** X3: [snapToGrid] moves the block to the nearest grid point, halves
    going up, and to height zero when that point is under the floor: the
    new position has integer coordinates and a height of at least zero;
    the old x is at least the new x minus one half and less than the
    new x plus one half, and so for z, and for y when it was at least
    minus one half, and y becomes zero otherwise; nothing but the
    position changes, and snapping a second time changes nothing. *)
Theorem snapToGrid_nearest_grid_point : forall b,
  let p := position b in
  let p' := position (Block.snapToGrid b) in
  (exists c : Cell, p' = cellVec c /\ (0 <= snd (fst c))%Z) /\
  x p' - (1 # 2) <= x p < x p' + (1 # 2) /\
  z p' - (1 # 2) <= z p < z p' + (1 # 2) /\
  (- (1 # 2) <= y p -> y p' - (1 # 2) <= y p < y p' + (1 # 2)) /\
  (y p < - (1 # 2) -> y p' = 0) /\
  Block.set_position (Block.snapToGrid b) p = b /\
  Block.snapToGrid (Block.snapToGrid b) = Block.snapToGrid b.
Proof.
  intros b. cbv zeta. rewrite snapToGrid_position.
  destruct (Math_round_bounds (x (position b))) as [X1 X2].
  destruct (Math_round_bounds (y (position b))) as [Y1 Y2].
  destruct (Math_round_bounds (z (position b))) as [Z1 Z2].
  cbn [cellVec x y z]. unfold num.
  split; [|split; [|split; [|split; [|split; [|split]]]]].
  - eexists (_, _, _). split; [reflexivity|]. apply Z.le_max_l.
  - split; assumption.
  - split; assumption.
  - intros Hy.
    assert (K : (0 <= Math_round (y (position b)))%Z).
    { assert (K : inject_Z (-1) < inject_Z (Math_round (y (position b)))).
      { change (inject_Z (-1)) with (-1). lra. }
      rewrite <- Zlt_Qlt in K. lia. }
    rewrite Z.max_r by lia. split; assumption.
  - intros Hy.
    assert (K : (Math_round (y (position b)) <= 0)%Z).
    { assert (K : inject_Z (Math_round (y (position b))) < inject_Z 1).
      { change (inject_Z 1) with 1. lra. }
      rewrite <- Zlt_Qlt in K. lia. }
    now rewrite Z.max_l by lia.
  - now destruct b.
  - apply snapToGrid_at_cell
      with (p := (Math_round (x (position b)),
                  Z.max 0 (Math_round (y (position b))),
                  Math_round (z (position b)))).
    + reflexivity.
    + apply Z.le_max_l.
Qed.

(** The minimum that [adjustToFloor] computes. *)
Lemma adjust_minY : forall b,
  fold_left (fun (m : option Q) (c : Cell) =>
               lowerMin m (y (position b) + num (snd (fst c))))
            (cells b) None
  = fold_left lowerMin
      (map (fun c : Cell => y (position b) + num (snd (fst c))) (cells b))
      None.
Proof. intros b. now rewrite fold_left_map. Qed.

Lemma snapToGrid_floor : forall b,
  (forall cell, In cell (cells b) ->
                0 <= y (position b) + num (snd (fst cell))) ->
  floorHolds (Block.snapToGrid b).
Proof.
  intros b H cell Hc. simpl in Hc |- *.
  specialize (H cell Hc).
  assert (K : (0 <= Math_round (y (position b) + num (snd (fst cell))))%Z)
    by now apply Math_round_nonneg.
  rewrite Math_round_add_num in K.
  unfold num. rewrite <- inject_Z_plus. change 0 with (inject_Z 0).
  rewrite <- Zle_Qle. lia.
Qed.

Lemma adjustToFloor_floor : forall b, floorHolds (Block.adjustToFloor b).
Proof.
  intros b. unfold Block.adjustToFloor. rewrite adjust_minY.
  pose proof (lowerMin_fold
                (map (fun c : Cell => y (position b) + num (snd (fst c)))
                     (cells b)) None) as H.
  destruct (fold_left lowerMin _ None) as [v|].
  - destruct H as (_ & Hle & _).
    destruct (Qltb v 0) eqn:E.
    + apply snapToGrid_floor. simpl. intros cell Hc.
      assert (K : v <= y (position b) + num (snd (fst cell))).
      { apply Hle. apply in_map_iff. now exists cell. }
      lra.
    + apply snapToGrid_floor. intros cell Hc.
      assert (K : v <= y (position b) + num (snd (fst cell))).
      { apply Hle. apply in_map_iff. now exists cell. }
      apply Qltb_false in E. lra.
  - destruct H as [_ H]. apply snapToGrid_floor.
    intros cell Hc. apply map_eq_nil in H. rewrite H in Hc. destruct Hc.
Qed.

Lemma adjustToFloor_on_grid : forall b,
  exists p : Cell,
    position (Block.adjustToFloor b) = cellVec p /\ (0 <= snd (fst p))%Z.
Proof.
  intros b. unfold Block.adjustToFloor, Block.snapToGrid.
  eexists (_, _, _). simpl. split; [reflexivity|]. apply Z.le_max_l.
Qed.

Lemma floor_world_cells : forall b,
  floorHolds b ->
  forall c, In c (Block.getWorldCellPositions b) -> (0 <= snd (fst c))%Z.
Proof.
  intros b F c Hc. rewrite worldCells_shift in Hc.
  apply in_map_iff in Hc. destruct Hc as ([[cx cy] cz] & <- & Hc).
  specialize (F _ Hc). simpl snd in *. simpl fst in *.
  assert (K : (0 <= Math_round (y (position b) + num cy))%Z)
    by now apply Math_round_nonneg.
  now rewrite Math_round_add_num in K.
Qed.

(** ** [adjustToFloor] with the sums rounded *)

Section RoundedFloor.

Lemma Math_round_above : forall (q : Q) (n : Z),
  inject_Z n - (1 # 2) <= q -> (n <= Math_round q)%Z.
Proof.
  intros q n H. destruct (Math_round_bounds q) as [_ U].
  assert (K : inject_Z n < inject_Z (Math_round q + 1)).
  { rewrite inject_Z_plus. change (inject_Z 1) with 1. lra. }
  rewrite <- Zlt_Qlt in K. lia.
Qed.

Lemma reach_bounds : forall (Y : Q) (k : Z),
  Qabs Y <= num (2 ^ 50) -> (Z.abs k <= 2 ^ 50)%Z ->
  Qabs (Y + num k) <= inject_Z (2 ^ 51).
Proof.
  intros Y k HY Hk. unfold num in *.
  assert (K1 : inject_Z (- 2 ^ 50) <= inject_Z k)
    by (rewrite <- Zle_Qle; lia).
  assert (K2 : inject_Z k <= inject_Z (2 ^ 50))
    by (rewrite <- Zle_Qle; lia).
  apply Qabs_Qle_condition in HY. destruct HY as [Y1 Y2].
  apply Qabs_Qle_condition.
  change (inject_Z (2 ^ 51)) with (inject_Z (2 ^ 50) + inject_Z (2 ^ 50)).
  change (inject_Z (- 2 ^ 50)) with (- inject_Z (2 ^ 50)) in K1.
  revert Y1 Y2 K1 K2. generalize (inject_Z (2 ^ 50)), (inject_Z k).
  intros c n Y1 Y2 K1 K2. split; lra.
Qed.

(** The rounded height of a cell is within a quarter of its height. *)
Lemma cell_height_near : forall b cell,
  withinReach b -> In cell (cells b) ->
  let t := y (position b) + num (snd (fst cell)) in
  - (1 # 4) <= Binary64.fl t - t <= 1 # 4.
Proof.
  intros b cell [HY Hc] Hin t. apply Binary64Facts.fl_near.
  apply reach_bounds; [exact HY|].
  rewrite Forall_forall in Hc. now apply Hc.
Qed.

Lemma double_adjust_minY : forall b,
  fold_left (fun (m : option Q) (c : Cell) =>
               lowerMin m (Binary64.fl (y (position b) + num (snd (fst c)))))
            (cells b) None
  = fold_left lowerMin
      (map (fun c : Cell =>
              Binary64.fl (y (position b) + num (snd (fst c))))
           (cells b))
      None.
Proof. intros b. now rewrite fold_left_map. Qed.

(** The lift: the rounded difference is the opposite of the lowest
    height offset, up to a quarter. *)
Lemma lift_rounds_to_offset : forall (Y v : Q) (k : Z),
  (Z.abs k <= 2 ^ 50)%Z ->
  - (1 # 4) <= v - (Y + num k) <= 1 # 4 ->
  Math_round (Binary64.fl (Y - v)) = (- k)%Z.
Proof.
  intros Y v k Hk [N1 N2]. unfold num in *.
  assert (D1 : Binary64.isDouble (inject_Z (- 4 * k - 1) * (1 # 4)))
    by (apply Binary64Facts.isDouble_quarter; lia).
  assert (D2 : Binary64.isDouble (inject_Z (- 4 * k + 1) * (1 # 4)))
    by (apply Binary64Facts.isDouble_quarter; lia).
  assert (E1 : inject_Z (- 4 * k - 1) * (1 # 4) == - inject_Z k - (1 # 4)).
  { unfold Z.sub. rewrite inject_Z_plus, inject_Z_mult.
    change (inject_Z (- 4)) with (- (4)). change (inject_Z (- (1))) with (- (1)).
    field. }
  assert (E2 : inject_Z (- 4 * k + 1) * (1 # 4) == - inject_Z k + (1 # 4)).
  { rewrite inject_Z_plus, inject_Z_mult.
    change (inject_Z (- 4)) with (- (4)). change (inject_Z 1) with 1.
    field. }
  destruct (Binary64Facts.fl_between _ _ (Y - v) D1 D2) as [B1 B2].
  { rewrite E1, E2. split; lra. }
  rewrite E1 in B1. rewrite E2 in B2.
  apply Math_round_unique; rewrite inject_Z_opp; lra.
Qed.

Lemma double_adjust_floor : forall b,
  withinReach b -> floorHolds (Double.adjustToFloor b).
Proof.
  intros b Hr. unfold Double.adjustToFloor. rewrite double_adjust_minY.
  pose proof (lowerMin_fold
                (map (fun c : Cell =>
                        Binary64.fl (y (position b) + num (snd (fst c))))
                     (cells b)) None) as H.
  destruct (fold_left lowerMin _ None) as [v|].
  - destruct H as ([H|Hin] & Hle & _); [discriminate|].
    apply in_map_iff in Hin. destruct Hin as (c0 & Hv & Hc0).
    pose proof (cell_height_near b c0 Hr Hc0) as N0. cbv zeta in N0.
    rewrite Hv in N0.
    assert (Hk : (Z.abs (snd (fst c0)) <= 2 ^ 50)%Z).
    { destruct Hr as [_ Hc]. rewrite Forall_forall in Hc. now apply Hc. }
    destruct (Qltb v 0) eqn:E.
    + intros cell Hcell. cbn [Block.snapToGrid Block.set_position cells
                              position y] in Hcell |- *.
      rewrite (lift_rounds_to_offset _ v (snd (fst c0)) Hk N0).
      pose proof (cell_height_near b cell Hr Hcell) as Nc. cbv zeta in Nc.
      assert (L : v <= Binary64.fl (y (position b) + num (snd (fst cell)))).
      { apply Hle. apply in_map_iff. now exists cell. }
      assert (K : (snd (fst c0) <= snd (fst cell))%Z).
      { assert (K : inject_Z (snd (fst c0)) < inject_Z (snd (fst cell) + 1)).
        { rewrite inject_Z_plus. change (inject_Z 1) with 1.
          unfold num in *. lra. }
        rewrite <- Zlt_Qlt in K. lia. }
      unfold num. rewrite <- inject_Z_plus. change 0 with (inject_Z 0).
      rewrite <- Zle_Qle. lia.
    + apply Qltb_false in E.
      intros cell Hcell. cbn [Block.snapToGrid Block.set_position cells
                              position y] in Hcell |- *.
      pose proof (cell_height_near b cell Hr Hcell) as Nc. cbv zeta in Nc.
      assert (L : v <= Binary64.fl (y (position b) + num (snd (fst cell)))).
      { apply Hle. apply in_map_iff. now exists cell. }
      assert (K : (- snd (fst cell) <= Math_round (y (position b)))%Z).
      { apply Math_round_above. rewrite inject_Z_opp. unfold num in *. lra. }
      unfold num. rewrite <- inject_Z_plus. change 0 with (inject_Z 0).
      rewrite <- Zle_Qle. lia.
  - destruct H as [_ H]. apply map_eq_nil in H.
    intros cell Hcell. cbn [Block.snapToGrid Block.set_position cells] in Hcell.
    rewrite H in Hcell. destruct Hcell.
Qed.

Lemma double_adjust_cells : forall b,
  cells (Double.adjustToFloor b) = cells b.
Proof.
  intros b. unfold Double.adjustToFloor.
  destruct (fold_left _ _ _) as [v|]; [destruct (Qltb v 0)|]; reflexivity.
Qed.

Lemma double_adjust_on_grid : forall b,
  exists p : Cell,
    position (Double.adjustToFloor b) = cellVec p /\ (0 <= snd (fst p))%Z.
Proof.
  intros b. unfold Double.adjustToFloor, Block.snapToGrid.
  eexists (_, _, _). simpl. split; [reflexivity|]. apply Z.le_max_l.
Qed.

(** With the sums rounded too, no world cell of a block on the floor is
    under it. *)
Lemma floor_rounded_world_cells : forall b,
  floorHolds b ->
  forall c, In c (Double.getWorldCellPositions b) -> (0 <= snd (fst c))%Z.
Proof.
  intros b F c Hc. unfold Double.getWorldCellPositions in Hc.
  apply in_map_iff in Hc. destruct Hc as ([[cx cy] cz] & <- & Hc).
  specialize (F _ Hc). simpl snd in *. simpl fst in *.
  apply Math_round_nonneg. now apply Binary64Facts.fl_nonneg.
Qed.

Lemma double_adjust_at_rest : forall b (p : Cell),
  position b = cellVec p -> (0 <= snd (fst p))%Z -> floorHolds b ->
  Double.adjustToFloor b = b.
Proof.
  intros b p Hp Hy Hf. unfold Double.adjustToFloor.
  rewrite double_adjust_minY.
  pose proof (lowerMin_fold
                (map (fun c : Cell =>
                        Binary64.fl (y (position b) + num (snd (fst c))))
                     (cells b)) None) as H.
  destruct (fold_left lowerMin _ None) as [v|].
  - destruct H as ([H|H] & _); [discriminate|].
    apply in_map_iff in H. destruct H as (cell & <- & Hc).
    specialize (Hf cell Hc).
    replace (Qltb _ 0) with false.
    + now apply snapToGrid_at_cell with (p := p).
    + symmetry. apply Qltb_false. now apply Binary64Facts.fl_nonneg.
  - now apply snapToGrid_at_cell with (p := p).
Qed.

End RoundedFloor.

(** X1: [adjustToFloor], the sums rounded as the host rounds them: for
    a block whose height and whose cells' heights are within [2 ^ 50]
    of zero, after [adjustToFloor] every cell of the block is on or
    above the floor (so is every world cell that
    [getWorldCellPositions] lists), the block stands on a grid point at
    height zero or more, and its cells are the ones it had. *)
Theorem adjustToFloor_reaches_floor : forall b,
  withinReach b ->
  floorHolds (Double.adjustToFloor b) /\
  (forall c, In c (Double.getWorldCellPositions (Double.adjustToFloor b)) ->
             (0 <= snd (fst c))%Z) /\
  cells (Double.adjustToFloor b) = cells b /\
  exists p : Cell,
    position (Double.adjustToFloor b) = cellVec p /\ (0 <= snd (fst p))%Z.
Proof.
  intros b Hr. split; [now apply double_adjust_floor|].
  split; [now apply floor_rounded_world_cells, double_adjust_floor|].
  split; [apply double_adjust_cells|apply double_adjust_on_grid].
Qed.

Lemma sunkBlock_withinReach : withinReach sunkBlock.
Proof.
  split; [vm_compute; discriminate|].
  repeat constructor; vm_compute; discriminate.
Qed.

Lemma adjustToFloor_reaches_floor_witness :
  withinReach sunkBlock /\
  floorHolds (Double.adjustToFloor sunkBlock) /\
  position (Double.adjustToFloor sunkBlock) = cellVec (0, 1, 4)%Z.
Proof.
  split; [exact sunkBlock_withinReach|].
  split; [|vm_compute; reflexivity].
  exact (proj1 (adjustToFloor_reaches_floor sunkBlock sunkBlock_withinReach)).
Defined.

Lemma adjustToFloor_at_rest : forall b (p : Cell),
  position b = cellVec p -> (0 <= snd (fst p))%Z -> floorHolds b ->
  Block.adjustToFloor b = b.
Proof.
  intros b p Hp Hy Hf. unfold Block.adjustToFloor. rewrite adjust_minY.
  pose proof (lowerMin_fold
                (map (fun c : Cell => y (position b) + num (snd (fst c)))
                     (cells b)) None) as H.
  destruct (fold_left lowerMin _ None) as [v|].
  - destruct H as ([H|H] & _); [discriminate|].
    apply in_map_iff in H. destruct H as (cell & <- & Hc).
    specialize (Hf cell Hc).
    replace (Qltb _ 0) with false.
    + now apply snapToGrid_at_cell with (p := p).
    + symmetry. now apply Qltb_false.
  - now apply snapToGrid_at_cell with (p := p).
Qed.

(** X2: [adjustToFloor], the sums rounded as the host rounds them,
    leaves a block alone when it stands on a grid point at height zero
    or more with no cell under the floor; and for a block whose height
    and whose cells' heights are within [2 ^ 50] of zero, applying it
    twice is applying it once. *)
Theorem adjustToFloor_settles :
  (forall b (p : Cell),
     position b = cellVec p -> (0 <= snd (fst p))%Z -> floorHolds b ->
     Double.adjustToFloor b = b) /\
  (forall b, withinReach b ->
             Double.adjustToFloor (Double.adjustToFloor b)
             = Double.adjustToFloor b).
Proof.
  split; [exact double_adjust_at_rest|].
  intros b Hr. destruct (double_adjust_on_grid b) as (p & Hp & Hy).
  apply double_adjust_at_rest with (p := p); auto.
  now apply double_adjust_floor.
Qed.

Lemma adjustToFloor_settles_witness :
  let b := getBlock initialBlocks 4 in
  (position b = cellVec (0, 0, -3)%Z /\ floorHolds b /\
   withinReach sunkBlock) /\
  Double.adjustToFloor b = b /\
  Double.adjustToFloor (Double.adjustToFloor sunkBlock)
  = Double.adjustToFloor sunkBlock.
Proof.
  intros b.
  assert (Hp : position b = cellVec (0, 0, -3)%Z) by (vm_compute; reflexivity).
  assert (Hy : (0 <= snd (fst (0, 0, -3)%Z))%Z) by (simpl; lia).
  assert (Hf : floorHolds b).
  { intros cell [<-|[<-|[<-|[<-|[]]]]]; vm_compute; discriminate. }
  split; [exact (conj Hp (conj Hf sunkBlock_withinReach))|].
  split.
  - exact (proj1 adjustToFloor_settles b (0, 0, -3)%Z Hp Hy Hf).
  - exact (proj2 adjustToFloor_settles sunkBlock sunkBlock_withinReach).
Defined.

(** ** The ease curve *)

Lemma ease_low : forall t, t < 1 # 2 -> Block.ease t == 2 * t * t.
Proof.
  intros t H. unfold Block.ease.
  replace (Qltb t (1 # 2)) with true; [reflexivity|].
  symmetry. now apply Qltb_true.
Qed.

Lemma ease_high : forall t, 1 # 2 <= t ->
  Block.ease t == 1 - 2 * (1 - t) * (1 - t).
Proof.
  intros t H. unfold Block.ease.
  replace (Qltb t (1 # 2)) with false; [field|].
  symmetry. now apply Qltb_false.
Qed.

(** X4: the ease curve of the two block animations and of the camera is
    a ramp from 0 to 1: it is 0 at 0, one half at one half and 1 at 1,
    stays between 0 and 1 and never decreases on the unit interval, and
    is symmetric about the middle: [ease (1 - t) = 1 - ease t]. *)
Theorem ease_is_a_monotone_ramp :
  Block.ease 0 == 0 /\ Block.ease (1 # 2) == 1 # 2 /\ Block.ease 1 == 1 /\
  (forall t, 0 <= t -> t <= 1 ->
             0 <= Block.ease t /\ Block.ease t <= 1) /\
  (forall t u, 0 <= t -> t <= u -> u <= 1 ->
               Block.ease t <= Block.ease u) /\
  (forall t, Block.ease (1 - t) == 1 - Block.ease t).
Proof.
  split; [reflexivity|]. split; [reflexivity|]. split; [reflexivity|].
  split; [|split].
  - intros t H0 H1. destruct (Qlt_le_dec t (1 # 2)) as [H|H].
    + rewrite (ease_low t H). split; nra.
    + rewrite (ease_high t H). split; nra.
  - intros t u H0 Htu H1.
    destruct (Qlt_le_dec t (1 # 2)) as [Ht|Ht];
      destruct (Qlt_le_dec u (1 # 2)) as [Hu|Hu].
    + rewrite (ease_low t Ht), (ease_low u Hu). nra.
    + rewrite (ease_low t Ht), (ease_high u Hu). nra.
    + lra.
    + rewrite (ease_high t Ht), (ease_high u Hu). nra.
  - intros t. destruct (Qlt_le_dec t (1 # 2)) as [H|H].
    + rewrite (ease_low t H), (ease_high (1 - t)) by lra. ring.
    + destruct (Qeq_dec t (1 # 2)) as [E|E].
      * rewrite (ease_high t H), (ease_high (1 - t)) by lra.
        rewrite E. reflexivity.
      * rewrite (ease_high t H), (ease_low (1 - t)).
        -- ring.
        -- assert (~ t <= 1 # 2) by (intros K; apply E; lra). lra.
Qed.

(** ** The life of an animation *)


Section AnimationLifeCycle.
Context {M : JSMath}.

(** A frame whose rounded elapsed time is under the duration does not
    end the animation: the rounded quotient is under one. *)
Lemma progress_before : forall clock start,
  Binary64.fl (clock - start) < ROTATION_DURATION ->
  Qle_bool 1 (Block.progress clock start) = false.
Proof.
  intros clock start H. apply not_true_is_false. intros E.
  apply Qle_bool_iff in E. unfold Block.progress in E.
  assert (K : 1 <= Binary64.fl (Binary64.fl (clock - start)
                                / ROTATION_DURATION)).
  { eapply Qle_trans; [exact E|]. apply Q.le_min_l. }
  assert (U : Binary64.fl (Binary64.fl (clock - start) / inject_Z 200) < 1).
  { apply (Binary64Facts.fl_ratio_under_one 200 7).
    - lia.
    - split; reflexivity.
    - apply Binary64Facts.fl_idempotent.
    - exact H. }
  change (inject_Z 200) with ROTATION_DURATION in U. lra.
Qed.

(** X5: a quarter turn asked of a block at rest changes its cells at
    one moment only.  The elapsed time of a tick is its clock reading
    minus the start of the turn, a number of the host.  On every tick
    whose elapsed time is under [ROTATION_DURATION] the cells are the
    old ones, the block is animating and the turned cells wait as
    pending cells; on a tick whose elapsed time has reached it the
    pending cells become the cells and the animation state is cleared;
    and a tick at or after the start plus the duration is such a
    tick. *)
Theorem rotation_commits_cells_on_completion :
  forall now axis clock b,
    isAnimating b = false ->
    let b2 := Block.updateAnimation clock (Block.rotateBlock now axis b) in
    let elapsed := Binary64.fl (clock - now) in
    (elapsed < ROTATION_DURATION ->
       cells b2 = cells b /\ isAnimating b2 = true /\
       pendingCells b2
       = Some (Block.rotatedCells (quarterQuat axis) (cells b))) /\
    (ROTATION_DURATION <= elapsed ->
       cells b2 = Block.rotatedCells (quarterQuat axis) (cells b) /\
       isAnimating b2 = false /\ pendingCells b2 = None /\
       animPivotGroup b2 = false) /\
    (now + ROTATION_DURATION <= clock -> ROTATION_DURATION <= elapsed).
Proof.
  intros now axis clock b Hrest. cbv zeta.
  destruct (rotateBlock_started now axis b) as (_ & _ & Kc & Ka & _).
  destruct (rotateBlock_at_rest now axis b Hrest) as (Kp & Kt & Kpend).
  set (b1 := Block.rotateBlock now axis b) in *. clearbody b1.
  destruct (updatePosition_orientation clock b1)
    as (_ & Q2 & Q3 & Q4 & Q5 & Q6).
  unfold Block.updateAnimation, Block.updateOrientation.
  set (b1' := Block.updatePosition clock b1) in *. clearbody b1'.
  rewrite Q3, Q5, Q4, Ka, Kp, Kt. cbn [negb orb].
  split; [|split]; intros H.
  - rewrite progress_before by exact H.
    rewrite Q2, Q3, Q6, Kc, Ka, Kpend. auto.
  - rewrite progress_over by exact H.
    cbn [cells isAnimating pendingCells animPivotGroup].
    rewrite Q6, Kpend. auto.
  - now apply elapsed_over.
Qed.

(** X6: a position animation ends exactly on its target, whatever the
    host's sine and cosine make of the arc.  The elapsed time of a tick
    is its clock reading minus the start of the animation, a number of
    the host.  On a tick whose elapsed time has reached
    [ROTATION_DURATION] the position is the target and the animation
    fields are cleared; on a tick whose elapsed time is under it the
    animation runs on, with its start and its target; and a tick at or
    after the start plus the duration has reached it. *)
Theorem position_animation_lands_on_target :
  forall now target pivot axis clock b,
    let b2 := Block.updateAnimation clock
                (Block.animatePositionTo now target pivot axis b) in
    let elapsed := Binary64.fl (clock - now) in
    (ROTATION_DURATION <= elapsed ->
       position b2 = target /\ posAnimating b2 = false /\
       posAnimStartPos b2 = None /\ posAnimTargetPos b2 = None /\
       posAnimPivot b2 = None /\ posAnimAxis b2 = None) /\
    (elapsed < ROTATION_DURATION ->
       posAnimating b2 = true /\ posAnimStartPos b2 = Some (position b) /\
       posAnimTargetPos b2 = Some target) /\
    (now + ROTATION_DURATION <= clock -> ROTATION_DURATION <= elapsed).
Proof.
  intros now target pivot axis clock b. cbv zeta.
  set (b1 := Block.animatePositionTo now target pivot axis b).
  assert (Hpos : forall b', position (Block.updateOrientation clock b')
                            = position b' /\
                            posAnimating (Block.updateOrientation clock b')
                            = posAnimating b' /\
                            posAnimStartPos (Block.updateOrientation clock b')
                            = posAnimStartPos b' /\
                            posAnimTargetPos (Block.updateOrientation clock b')
                            = posAnimTargetPos b' /\
                            posAnimPivot (Block.updateOrientation clock b')
                            = posAnimPivot b' /\
                            posAnimAxis (Block.updateOrientation clock b')
                            = posAnimAxis b').
  { intros b'. unfold Block.updateOrientation.
    destruct (negb _ || negb _); [now repeat split|].
    destruct (Qle_bool _ _); now repeat split. }
  unfold Block.updateAnimation.
  destruct (Hpos (Block.updatePosition clock b1))
    as (P1 & P2 & P3 & P4 & P5 & P6).
  rewrite P1, P2, P3, P4, P5, P6.
  unfold Block.updatePosition, b1.
  cbn [Block.animatePositionTo posAnimating posAnimStartPos posAnimTargetPos
       posAnimStartTime posAnimPivot posAnimAxis].
  split; [|split]; intros H.
  - rewrite progress_over by exact H. now repeat split.
  - rewrite progress_before by exact H. now repeat split.
  - now apply elapsed_over.
Qed.

End AnimationLifeCycle.

Lemma rotation_commits_cells_on_completion_witness :
  let b := getBlock initialBlocks 0 in
  let b2 := Block.updateAnimation (M := hostMath) (2001 # 10)
              (Block.rotateBlock (M := hostMath) (1 # 10) (vec3 1 0 0) b) in
  isAnimating b = false /\
  cells b2
  = Block.rotatedCells (quarterQuat (M := hostMath) (vec3 1 0 0)) (cells b) /\
  isAnimating b2 = false.
Proof.
  intros b b2.
  assert (Hr : isAnimating b = false) by reflexivity.
  assert (Ht : (1 # 10) + ROTATION_DURATION <= 2001 # 10)
    by (vm_compute; discriminate).
  split; [exact Hr|].
  destruct (rotation_commits_cells_on_completion
              (M := hostMath) (1 # 10) (vec3 1 0 0) (2001 # 10) b Hr)
    as (_ & K2 & K3).
  destruct (K2 (K3 Ht)) as (H1 & H2 & _).
  exact (conj H1 H2).
Defined.


(** ** Quarter turns as motions of the grid *)



Lemma oppositeCell_cardinal : forall a,
  In a cardinalCells -> In (oppositeCell a) cardinalCells.
Proof.
  intros a Ha. simpl in Ha.
  repeat (destruct Ha as [<-|Ha]; [simpl; tauto|]). contradiction.
Qed.

Lemma quarterTurn_opposite : forall a v,
  In a cardinalCells -> quarterTurn (oppositeCell a) (quarterTurn a v) = v.
Proof.
  intros a [[vx vy] vz] Ha. simpl in Ha.
  repeat (destruct Ha as [<-|Ha]; [|]); try contradiction;
    unfold quarterTurn, crossZ, oppositeCell; apply triple_eq; lia.
Qed.

Lemma quarterTurn_injective : forall a u v,
  In a cardinalCells -> quarterTurn a u = quarterTurn a v -> u = v.
Proof.
  intros a u v Ha E.
  rewrite <- (quarterTurn_opposite a u Ha), <- (quarterTurn_opposite a v Ha).
  now rewrite E.
Qed.

Lemma turnsOf_injective : forall axes,
  Forall (fun a => In a cardinalCells) axes ->
  forall u v, turnsOf axes u = turnsOf axes v -> u = v.
Proof.
  unfold turnsOf. induction 1 as [|a axes Ha _ IH]; simpl; intros u v E; auto.
  apply IH in E. now apply quarterTurn_injective in E.
Qed.

Lemma quarterTurn_origin : forall a, quarterTurn a (0, 0, 0)%Z = (0, 0, 0)%Z.
Proof.
  intros [[ax ay] az]. unfold quarterTurn, crossZ. apply triple_eq; lia.
Qed.

Lemma turnsOf_origin : forall axes, turnsOf axes (0, 0, 0)%Z = (0, 0, 0)%Z.
Proof.
  unfold turnsOf. induction axes as [|a axes IH]; cbn [fold_left]; auto.
  now rewrite quarterTurn_origin.
Qed.

Lemma isTurned_refl : forall cs, isTurned cs cs.
Proof.
  intros cs. exists []. split; [constructor|].
  symmetry. apply map_id.
Qed.

Lemma isTurned_turn : forall a cs0 cs,
  In a cardinalCells -> isTurned cs0 cs ->
  isTurned cs0 (map (quarterTurn a) cs).
Proof.
  intros a cs0 cs Ha (axes & Hax & ->).
  exists (axes ++ [a]). split.
  - apply Forall_app. split; auto.
  - rewrite map_map. apply map_ext. intros v.
    unfold turnsOf. now rewrite fold_left_app.
Qed.

Lemma isTurned_NoDup : forall cs0 cs,
  NoDup cs0 -> isTurned cs0 cs -> NoDup cs.
Proof.
  intros cs0 cs Hnd (axes & Hax & ->).
  apply Injective_map_NoDup; auto.
  intros u v. now apply turnsOf_injective.
Qed.

Section CardinalKeep.
Context {M : JSMath}.
Hypothesis sqrt_one : forall q, q == 1 -> Math_sqrt q == 1.

Variable R : BlockObject -> BlockObject -> Prop.
Hypothesis keep_setSelected :
  forall s b0 b, R b0 b -> R b0 (Block.setSelected s b).
Hypothesis keep_set_position :
  forall p b0 b, R b0 b -> R b0 (Block.set_position b p).
Hypothesis keep_rotateBlock :
  forall now axis b0 b,
    nearCardinal axis -> R b0 b -> R b0 (Block.rotateBlock now axis b).
Hypothesis keep_animatePositionTo :
  forall now target pivot axis b0 b,
    R b0 b -> R b0 (Block.animatePositionTo now target pivot axis b).
Hypothesis keep_updateAnimation :
  forall now b0 b, R b0 b -> R b0 (Block.updateAnimation now b).

Variable bs0 : list BlockObject.

Local Abbreviation kept bs := (Forall2 R bs0 bs).

Lemma nearCardinal_normalize : forall v,
  nearCardinal v -> nearCardinal (normalize v).
Proof.
  intros v (a & Ha & Hv). exists a. split; auto.
  now apply normalize_cardinal.
Qed.

Lemma nearCardinal_cardinals : forall c, In c cardinals -> nearCardinal c.
Proof.
  intros c Hc. simpl in Hc.
  destruct Hc as [<-|[<-|[<-|[<-|[<-|[<-|[]]]]]]].
  - exists (1, 0, 0)%Z. split; [simpl; tauto|now repeat split].
  - exists (-1, 0, 0)%Z. split; [simpl; tauto|now repeat split].
  - exists (0, 1, 0)%Z. split; [simpl; tauto|now repeat split].
  - exists (0, -1, 0)%Z. split; [simpl; tauto|now repeat split].
  - exists (0, 0, 1)%Z. split; [simpl; tauto|now repeat split].
  - exists (0, 0, -1)%Z. split; [simpl; tauto|now repeat split].
Qed.

Lemma nearCardinal_ring : forall r, nearCardinal (getAxisForRing r).
Proof.
  intros r. apply nearCardinal_cardinals. destruct r; simpl; tauto.
Qed.

Lemma nearCardinal_signed : forall v (s : Q),
  nearCardinal v -> s = 1 \/ s = -1 -> nearCardinal (multiplyScalar v s).
Proof.
  intros v s (a & Ha & Hx & Hy & Hz) [-> | ->].
  - exists a. split; auto. unfold veq, multiplyScalar. cbn [x y z].
    rewrite Hx, Hy, Hz. repeat split; ring.
  - exists (oppositeCell a). split; [now apply oppositeCell_cardinal|].
    destruct a as [[ax ay] az].
    unfold veq, multiplyScalar, oppositeCell, cellVec in *. cbn [x y z] in *.
    rewrite Hx, Hy, Hz. unfold num. rewrite !inject_Z_opp.
    repeat split; ring.
Qed.

Lemma nearestCardinal_In : forall v, In (nearestCardinal v) cardinals.
Proof.
  intros v. unfold nearestCardinal, cardinals. cbn [fold_left snd fst].
  repeat match goal with
         | |- context [if ?c then _ else _] => destruct c; cbn [snd fst]
         end; simpl; tauto.
Qed.

Lemma ckeep_rotateMember : forall now pivot nax ax pos b0 b,
  nearCardinal ax -> R b0 b -> R b0 (rotateMember now pivot nax ax pos b).
Proof.
  intros. unfold rotateMember. destruct (negb _); auto.
Qed.

Lemma ckept_rotateRounds : forall now pivot nax yOffset group st,
  nearCardinal (snd (fst st)) -> kept (fst (fst st)) ->
  kept (fst (fst (fold_left (rotateRound now pivot nax yOffset) group st))).
Proof.
  induction group as [|i group IH]; simpl; intros st Hax H; auto.
  destruct st as [[bs ax] tp]. simpl in *.
  assert (Hax' : nearCardinal (Block.rotateBlock_axis ax (getBlock bs i))).
  { unfold Block.rotateBlock_axis. destruct (isAnimating _); auto.
    now apply nearCardinal_normalize. }
  destruct (mapGet i tp); apply IH; simpl; auto;
    apply updateBlock_keeps; auto.
  intros. now apply ckeep_rotateMember.
Qed.

Lemma ckept_rotateGroup : forall now axis m,
  nearCardinal axis ->
  kept (blocks m) -> kept (blocks (rotateGroup now axis m)).
Proof.
  intros now axis m Hax H. unfold rotateGroup.
  destruct (centerBlock m); auto.
  destruct (existsb _ _); auto.
  destruct (rotateTargets _ _ _ _ _) as [targets minWorldY].
  match goal with
  | |- context [fold_left ?f ?g ?st] =>
      pose proof (@ckept_rotateRounds now
                    (position (getBlock (blocks m) n)) (normalize axis)
                    (floorOffset minWorldY) g st Hax H) as K;
      destruct (fold_left f g st) as [[bs' ax'] tp']
  end.
  exact K.
Qed.

Lemma ckept_flipBlock : forall now cam d m,
  kept (blocks m) -> kept (blocks (flipBlock now cam d m)).
Proof.
  intros now cam d m H. unfold flipBlock.
  destruct (selectedGroup m); auto.
  destruct (centerBlock m); auto.
  destruct (existsb _ _); auto.
  apply ckept_rotateGroup; auto.
  apply nearCardinal_cardinals, nearestCardinal_In.
Qed.

Lemma ckept_gizmoCommit : forall e axis m,
  nearCardinal axis ->
  kept (blocks m) -> kept (blocks (gizmoCommit e axis m)).
Proof.
  intros e axis m Hax H. unfold gizmoCommit.
  destruct (Qle_bool _ _); auto. cbv zeta. simpl.
  apply ckept_rotateGroup; auto.
  apply nearCardinal_signed; auto.
  destruct (Qltb _ _); auto.
Qed.

Lemma ckept_gizmoMove : forall e axis plane m,
  nearCardinal axis ->
  kept (blocks m) -> kept (blocks (gizmoMove e axis plane m)).
Proof.
  intros e axis plane m Hax H. unfold gizmoMove.
  destruct (intersectPlane _ _); auto. cbv zeta.
  now apply ckept_gizmoCommit.
Qed.

Lemma ckept_pointerMove : forall e m,
  gizmoAxisCardinal m ->
  kept (blocks m) -> kept (blocks (onPointerMove e m)).
Proof.
  intros e m Hax H. unfold onPointerMove.
  assert (Hdrag : forall m1, kept (blocks m1) ->
            kept (blocks
              match isDragging m1, dragTarget m1, dragPlane m1 with
              | true, Some target, Some plane => dragMove e target plane m1
              | _, _, _ => m1
              end)).
  { intros m1 H1.
    destruct (isDragging m1), (dragTarget m1), (dragPlane m1); auto.
    now apply kept_dragMove. }
  assert (Hstart : kept (blocks
            match pendingBlock m with
            | Some block =>
                if negb (hasMovedPastThreshold m) && negb (isDragging m)
                   && Qle_bool mouseMoveThreshold (pointerDistance e m)
                then startDrag e block
                       (withPointer (mouseDownPos m) (pendingBlock m) true m)
                else m
            | None => m
            end)).
  { destruct (pendingBlock m); auto. destruct (_ && _); auto. }
  destruct (isGizmoDragging m); [|now apply Hdrag].
  destruct (gizmoDragAxis m) as [ax|] eqn:E; [|now apply Hdrag].
  destruct (gizmoDragPlane m); [|now apply Hdrag].
  destruct (centerBlock m); [|now apply Hdrag].
  apply ckept_gizmoMove; auto.
Qed.

Lemma axis_gizmoCommit : forall e axis m,
  gizmoDragAxis (gizmoCommit e axis m) = gizmoDragAxis m.
Proof.
  intros e axis m. unfold gizmoCommit.
  destruct (Qle_bool _ _); [|reflexivity]. cbv zeta.
  cbn [gizmoDragAxis withGizmoDrag]. now rewrite rotateGroup_frame.
Qed.

Lemma axis_pointerMove : forall e m,
  gizmoDragAxis (onPointerMove e m) = gizmoDragAxis m.
Proof.
  intros e m. unfold onPointerMove.
  assert (Hdrag : forall m1,
            gizmoDragAxis
              match isDragging m1, dragTarget m1, dragPlane m1 with
              | true, Some target, Some plane => dragMove e target plane m1
              | _, _, _ => m1
              end = gizmoDragAxis m1).
  { intros m1.
    destruct (isDragging m1), (dragTarget m1), (dragPlane m1); auto.
    now rewrite dragMove_frame. }
  assert (Hstart : gizmoDragAxis
            match pendingBlock m with
            | Some block =>
                if negb (hasMovedPastThreshold m) && negb (isDragging m)
                   && Qle_bool mouseMoveThreshold (pointerDistance e m)
                then startDrag e block
                       (withPointer (mouseDownPos m) (pendingBlock m) true m)
                else m
            | None => m
            end = gizmoDragAxis m).
  { destruct (pendingBlock m); auto. destruct (_ && _); auto. }
  assert (Hrest : gizmoDragAxis
            (let m1 :=
               match pendingBlock m with
               | Some block =>
                   if negb (hasMovedPastThreshold m) && negb (isDragging m)
                      && Qle_bool mouseMoveThreshold (pointerDistance e m)
                   then startDrag e block
                          (withPointer (mouseDownPos m) (pendingBlock m) true m)
                   else m
               | None => m
               end in
             match isDragging m1, dragTarget m1, dragPlane m1 with
             | true, Some target, Some plane => dragMove e target plane m1
             | _, _, _ => m1
             end) = gizmoDragAxis m).
  { cbv zeta. now rewrite Hdrag. }
  destruct (isGizmoDragging m); [|exact Hrest].
  destruct (gizmoDragAxis m) as [ax|] eqn:E; [|exact Hrest].
  destruct (gizmoDragPlane m); [|exact Hrest].
  destruct (centerBlock m); [|exact Hrest].
  unfold gizmoMove. destruct (intersectPlane _ _); auto. cbv zeta.
  now rewrite axis_gizmoCommit.
Qed.

Lemma axis_pointerUp : forall e m,
  gizmoDragAxis (onPointerUp e m) = gizmoDragAxis m \/
  gizmoDragAxis (onPointerUp e m) = None.
Proof.
  intros e m. unfold onPointerUp.
  destruct (negb _); auto.
  destruct (isGizmoDragging m); auto.
  destruct (isDragging m).
  { cbv zeta. left.
    match goal with
    | |- context [withBlocks ?bs ?m1] => set (m2 := withBlocks bs m1)
    end.
    assert (K : gizmoDragAxis m2 = gizmoDragAxis m) by reflexivity.
    clearbody m2. destruct (centerBlock m2); exact K. }
  left. destruct (pendingBlock m).
  - destruct (negb _); auto. destruct (isCenter _ _); auto.
  - destruct (Qltb _ _); auto.
    destruct (_ && _); auto. destruct (blockHit e); auto.
Qed.

Lemma axis_pointerDown : forall e m,
  gizmoAxisCardinal m -> gizmoAxisCardinal (onPointerDown e m).
Proof.
  intros e m H. unfold onPointerDown.
  destruct (negb _); auto. cbv zeta.
  destruct (gizmoVisible _ && _); [destruct (ringHit e) as [r|]|].
  - intros ax E. injection E as <-. apply nearCardinal_ring.
  - destruct (blockHit e); exact H.
  - destruct (blockHit e); exact H.
Qed.

Lemma axis_step : forall ev m,
  gizmoAxisCardinal m -> gizmoAxisCardinal (step m ev).
Proof.
  intros [e|e|e|e|now cam d|id|clock] m H; simpl.
  - now apply axis_pointerDown.
  - unfold gizmoAxisCardinal. now rewrite axis_pointerMove.
  - unfold gizmoAxisCardinal.
    destruct (axis_pointerUp e m) as [-> | ->]; auto. discriminate.
  - unfold onDblClick. destruct (blockHit e); auto.
  - unfold gizmoAxisCardinal. now rewrite flipBlock_frame.
  - unfold selectBlockById. destruct (findIndexById _ _ _); auto.
  - unfold update. cbv zeta.
    set (m1 := withBlocks _ m).
    assert (K : gizmoAxisCardinal m1) by exact H. clearbody m1.
    destruct (centerBlock m1); auto. destruct (_ && _); auto.
Qed.

Lemma ckept_step : forall ev m,
  gizmoAxisCardinal m ->
  kept (blocks m) -> kept (blocks (step m ev)).
Proof.
  intros [e|e|e|e|now cam d|id|clock] m Hax H; simpl.
  - now apply kept_pointerDown.
  - now apply ckept_pointerMove.
  - now apply kept_pointerUp.
  - unfold onDblClick. destruct (blockHit e); auto. simpl.
    apply updateBlock_keeps; auto. apply forEachBlock_keeps; auto.
  - now apply ckept_flipBlock.
  - unfold selectBlockById. destruct (findIndexById _ _ _); auto.
    now apply kept_select.
  - unfold update. cbv zeta.
    set (m1 := withBlocks _ m).
    assert (K : kept (blocks m1)) by (apply kept_updateAll; auto).
    clearbody m1.
    destruct (centerBlock m1); auto. destruct (_ && _); auto.
Qed.

Lemma ckept_run : forall evs m,
  gizmoAxisCardinal m -> kept (blocks m) ->
  kept (blocks (run m evs)) /\ gizmoAxisCardinal (run m evs).
Proof.
  unfold run.
  induction evs as [|ev evs IH]; simpl; intros m Hax H; auto.
  apply IH; [now apply axis_step | now apply ckept_step].
Qed.

End CardinalKeep.


(** X7: on an accurate host, a quarter turn of a block about a cardinal
    axis followed, once it has completed, by a quarter turn about the
    opposite axis gives the block its cells back (what the up arrow does,
    the down arrow undoes). *)
Theorem opposite_quarter_turns_cancel :
  forall (M : JSMath) (B : Z) (a : Cell) (t1 t2 : Q) (b : BlockObject),
    accurateFor B M -> In a cardinalCells ->
    Forall (smallCell B) (cells b) -> isAnimating b = false ->
    cells (turnBlock t2 (cellVec (oppositeCell a))
             (turnBlock t1 (cellVec a) b))
    = cells b.
Proof.
  intros M B a t1 t2 b Hacc Ha Hsmall Hrest.
  destruct (turnBlock_cells t1 (cellVec a) b Hrest) as [E1 R1].
  rewrite (rotatedCells_exact B a _ Hacc Ha Hsmall) in E1.
  destruct (turnBlock_cells t2 (cellVec (oppositeCell a)) _ R1) as [E2 _].
  rewrite (rotatedCells_exact B (oppositeCell a)) in E2; auto.
  - rewrite E2, E1, map_map. rewrite <- (map_id (cells b)) at 2.
    apply map_ext. intros v. now apply quarterTurn_opposite.
  - now apply oppositeCell_cardinal.
  - rewrite E1. now apply quarterTurn_all_small.
Qed.

Lemma opposite_quarter_turns_cancel_witness :
  let b := getBlock initialBlocks 6 in
  let a := (1, 0, 0)%Z in
  (accurateFor 1000000 hostMath /\ In a cardinalCells /\
   Forall (smallCell 1000000) (cells b) /\ isAnimating b = false) /\
  cells (turnBlock (M := hostMath) 300 (cellVec (oppositeCell a))
           (turnBlock (M := hostMath) 0 (cellVec a) b))
  = cells b.
Proof.
  intros b a.
  assert (Hacc : accurateFor 1000000 hostMath) by exact hostMath_accurate.
  assert (Ha : In a cardinalCells) by (simpl; auto).
  assert (Hs : Forall (smallCell 1000000) (cells b)).
  { subst b. repeat constructor; simpl; lia. }
  assert (Hr : isAnimating b = false) by reflexivity.
  split; [exact (conj Hacc (conj Ha (conj Hs Hr)))|].
  exact (opposite_quarter_turns_cancel hostMath 1000000 a 0 300 b
           Hacc Ha Hs Hr).
Defined.

(** ** The shapes of a session *)

Lemma hostMath_accurate_unit : accurateFor 1 hostMath.
Proof.
  split.
  - exact hostSqrt_one.
  - vm_compute. reflexivity.
Qed.

Section TurnedShapes.
Context {M : JSMath}.
Variable B : Z.
Hypothesis accurate : accurateFor B M.

Lemma turnedShape_rotateBlock : forall now axis b0 b,
  nearCardinal axis -> turnedShape B b0 b ->
  turnedShape B b0 (Block.rotateBlock now axis b).
Proof.
  intros now axis b0 b (a & Ha & Hv) (Hid & Ht & Hs & Hp).
  unfold Block.rotateBlock. destruct (isAnimating b).
  - repeat split; auto.
  - unfold turnedShape. cbn [blockId cells pendingCells].
    fold (quarterQuat axis).
    rewrite (rotatedCells_near_axis B a axis (cells b) accurate Ha Hv Hs).
    repeat split; auto.
    + now apply isTurned_turn.
    + now apply quarterTurn_all_small.
Qed.

Lemma turnedShape_updateAnimation : forall now b0 b,
  turnedShape B b0 b -> turnedShape B b0 (Block.updateAnimation now b).
Proof.
  intros now b0 b (Hid & Ht & Hs & Hp).
  destruct (updatePosition_orientation now b)
    as (Q1 & Q2 & Q3 & Q4 & Q5 & Q6).
  unfold Block.updateAnimation, Block.updateOrientation.
  set (b1 := Block.updatePosition now b) in *. clearbody b1.
  unfold turnedShape.
  destruct (negb _ || negb _).
  - rewrite Q1, Q2, Q6. auto.
  - destruct (Qle_bool _ _).
    + cbn [blockId cells pendingCells]. rewrite Q1, Q2, Q6.
      destruct (pendingCells b); intuition.
    + rewrite Q1, Q2, Q6. auto.
Qed.

Lemma turnedShape_run : forall bs0 evs m,
  gizmoAxisCardinal m -> Forall2 (turnedShape B) bs0 (blocks m) ->
  Forall2 (turnedShape B) bs0 (blocks (run m evs)).
Proof.
  intros bs0 evs m Hax H.
  refine (proj1 (ckept_run (proj1 accurate) (turnedShape B)
                   _ _ _ _ _ bs0 evs m Hax H)).
  - intros s b0 b K. exact K.
  - intros p b0 b K. exact K.
  - intros. now apply turnedShape_rotateBlock.
  - intros now target pivot axis b0 b K. exact K.
  - intros. now apply turnedShape_updateAnimation.
Qed.

End TurnedShapes.

Lemma initialManager_blocks : blocks initialManager = initialBlocks.
Proof. reflexivity. Qed.

Lemma initial_axis : gizmoAxisCardinal initialManager.
Proof. intros ax E. discriminate. Qed.

Lemma initial_shapes : Forall2 (turnedShape 1) initialBlocks initialBlocks.
Proof.
  repeat constructor; try apply isTurned_refl; simpl; lia.
Qed.

Lemma initial_catalog :
  Forall2 (fun def b => blockId b = fst def /\ cells b = snd def /\
                        NoDup (cells b))
          BLOCK_DEFINITIONS initialBlocks.
Proof.
  repeat constructor; simpl; intuition congruence.
Qed.

Lemma reachable_shapes : forall (M : JSMath) evs,
  accurateFor 1 M ->
  Forall2 catalogShape BLOCK_DEFINITIONS (blocks (run initialManager evs)).
Proof.
  intros M evs Hacc.
  pose proof (turnedShape_run 1 Hacc initialBlocks evs initialManager
                initial_axis initial_shapes) as H.
  apply Forall2_compose
    with (P := fun def b => blockId b = fst def /\ cells b = snd def /\
                            NoDup (cells b))
         (Q := turnedShape 1) (lb := initialBlocks); auto.
  - intros def b0 b (Hid & Hc & Hnd) (Kid & Kt & Ks & _).
    unfold catalogShape. rewrite <- Hc. repeat split; auto.
    + congruence.
    + now apply isTurned_NoDup with (cs0 := cells b0).
  - exact initial_catalog.
Qed.

(** X8: on a host accurate for cells of size one, whatever the events
    of a session, every block is its catalog shape in some orientation:
    it has the id of its catalog entry, its cells are the catalog cells
    after a sequence of quarter turns of the grid about cardinal axes,
    they are pairwise distinct, and no coordinate of a cell is further
    than one unit from the origin cell.  (Every axis that reaches
    [rotateBlock] is a cardinal axis: a ring axis with a sign, or the
    cardinal nearest to the camera-relative axis of a flip.) *)
Theorem reachable_cells_are_turned_catalog_shapes :
  forall (M : JSMath) (evs : list Event),
    accurateFor 1 M ->
    Forall2 catalogShape BLOCK_DEFINITIONS (blocks (run initialManager evs)).
Proof. exact reachable_shapes. Qed.

Lemma reachable_cells_are_turned_catalog_shapes_witness :
  accurateFor 1 hostMath /\
  Forall2 catalogShape BLOCK_DEFINITIONS
          (blocks (run (M := hostMath) initialManager turnThenDragDown)).
Proof.
  split; [exact hostMath_accurate_unit|].
  exact (reachable_cells_are_turned_catalog_shapes hostMath turnThenDragDown
           hostMath_accurate_unit).
Defined.

Lemma applyQuaternion_origin : forall q,
  roundVec (applyQuaternion (cellVec (0, 0, 0)%Z) q) = (0, 0, 0)%Z.
Proof.
  intros q. 
  assert (E : veq (applyQuaternion (cellVec (0, 0, 0)%Z) q) (vec3 0 0 0)).
  { unfold veq, applyQuaternion, cellVec, num. cbn [x y z].
    change (inject_Z 0) with 0. repeat split; ring. }
  now rewrite (roundVec_veq _ _ E).
Qed.

Lemma originFirst_run : forall (M : JSMath) bs0 evs m,
  Forall2 originFirst bs0 (blocks m) ->
  Forall2 originFirst bs0 (blocks (run m evs)).
Proof.
  intros M bs0 evs m H. apply kept_run; auto.
  - intros now axis b0 b (Hc & Hp). unfold Block.rotateBlock.
    destruct (isAnimating b); [now split|].
    unfold originFirst. cbn [cells pendingCells]. split; auto.
    destruct (cells b) as [|c cs]; [discriminate|].
    injection Hc as ->. unfold Block.rotatedCells. cbn [map hd_error].
    now rewrite applyQuaternion_origin.
  - intros now b0 b (Hc & Hp).
    destruct (updatePosition_orientation now b)
      as (Q1 & Q2 & Q3 & Q4 & Q5 & Q6).
    unfold Block.updateAnimation, Block.updateOrientation.
    set (b1 := Block.updatePosition now b) in *. clearbody b1.
    unfold originFirst.
    destruct (negb _ || negb _).
    + now rewrite Q2, Q6.
    + destruct (Qle_bool _ _).
      * cbn [cells pendingCells]. rewrite Q2, Q6.
        destruct (pendingCells b); auto.
      * now rewrite Q2, Q6.
Qed.

(** X9: whatever the host and the events of a session, the first cell of
    every block stays the origin cell, so [getCenterCellWorldPos], the
    pivot of the gizmo, is the position of the block raised by half a
    unit: the pivot does not move when the block turns. *)
Theorem gizmo_pivot_is_the_block_origin :
  forall (M : JSMath) (evs : list Event),
    Forall (fun b => hd_error (cells b) = Some (0, 0, 0)%Z /\
                     Block.getCenterCellWorldPos b
                     = add (vec3 0 (1 # 2) 0) (position b))
           (blocks (run initialManager evs)).
Proof.
  intros M evs.
  assert (H0 : Forall2 originFirst initialBlocks (blocks initialManager)).
  { repeat constructor. }
  pose proof (originFirst_run M initialBlocks evs initialManager H0) as H.
  clear H0. induction H as [|b0 b bs0 bs [Hc _] _ IH]; constructor; auto.
  split; auto. unfold Block.getCenterCellWorldPos.
  destruct (cells b) as [|c cs]; [discriminate|].
  injection Hc as ->. reflexivity.
Qed.

Lemma map_blockId_shapes : forall defs bs,
  Forall2 catalogShape defs bs -> map blockId bs = map fst defs.
Proof.
  induction 1 as [|d b defs bs [Hid _] _ IH]; simpl; congruence.
Qed.

Lemma onGrid_by_positions : forall B bs ps,
  map position bs = map cellVec ps -> Forall (smallCell B) ps ->
  Forall (onGrid B) bs.
Proof.
  intros B bs. induction bs as [|b bs IH]; intros [|p ps] E H;
    try discriminate; constructor.
  - injection E as E1 _. exists p. split; [exact E1|now inversion H].
  - injection E as _ E2. apply (IH ps E2). now inversion H.
Qed.

(** X10: on a host accurate for cells of size one, in every state of a
    session in which every block stands on a grid point no farther than
    [2 ^ 50] from the origin along each axis, [detectCollisions] (the
    sums rounded as the host rounds them) lists each id once, and the
    id of a block is listed exactly when the block shares a world cell
    with another block. *)
Theorem reachable_collisions_are_exact :
  forall (M : JSMath) (evs : list Event),
    accurateFor 1 M ->
    let bs := blocks (run initialManager evs) in
    Forall (onGrid (2 ^ 50)) bs ->
    NoDup (Double.detectCollisions bs) /\
    forall i, (i < List.length bs)%nat ->
              (In (blockId (getBlock bs i)) (Double.detectCollisions bs)
               <-> overlaps bs i).
Proof.
  intros M evs Hacc bs Hgrid.
  pose proof (reachable_shapes M evs Hacc) as H. fold bs in H.
  assert (Hnd : Forall selfDisjoint bs).
  { clear -H Hgrid. revert Hgrid.
    induction H as [|d b defs bs' (_ & _ & Hn & Hs) _ IH];
      intros Hgrid; constructor.
    - apply onGrid_selfDisjoint; [now inversion Hgrid| |exact Hn].
      eapply Forall_impl; [|exact Hs].
      intros c. apply smallCell_weaken. lia.
    - apply IH. now inversion Hgrid. }
  assert (Hids : NoDup (map blockId bs)).
  { rewrite (map_blockId_shapes _ _ H). simpl.
    repeat constructor; simpl; intuition discriminate. }
  split; [apply rounded_detectCollisions_NoDup|].
  intros i Hi. split.
  - intros Hin.
    destruct (proj1 (rounded_detectCollisions_In bs _ Hnd) Hin)
      as (j & Hj & Hid & Hc).
    assert (E : j = i).
    { apply (proj1 (NoDup_nth (map blockId bs)
                      (blockId (Block.create 0 []))) Hids);
        try (rewrite length_map; lia).
      rewrite !map_nth. exact Hid. }
    now subst j.
  - intros Hc. apply (rounded_detectCollisions_In bs _ Hnd). now exists i.
Qed.

Lemma reachable_collisions_are_exact_witness :
  let bs := blocks (run (M := hostMath) initialManager turnThenDragDown) in
  (accurateFor 1 hostMath /\ Forall (onGrid (2 ^ 50)) bs) /\
  NoDup (Double.detectCollisions bs) /\
  ((0 < List.length bs)%nat ->
   (In (blockId (getBlock bs 0)) (Double.detectCollisions bs)
    <-> overlaps bs 0)).
Proof.
  intros bs.
  assert (Hgrid : Forall (onGrid (2 ^ 50)) bs).
  { apply onGrid_by_positions with (ps := startPositions).
    - vm_compute. reflexivity.
    - repeat apply Forall_cons; try apply Forall_nil;
        vm_compute; intuition discriminate. }
  split; [exact (conj hostMath_accurate_unit Hgrid)|].
  destruct (reachable_collisions_are_exact hostMath turnThenDragDown
              hostMath_accurate_unit Hgrid) as [H1 H2].
  split; [exact H1|]. exact (H2 0%nat).
Defined.

(** ** The best candidate of a loop *)

Section FirstBest.
Variable A : Type.
Variable score : A -> Q.

Lemma better_fold : forall l c0,
  let r := fold_left (better score) l (c0, None) in
  match l with
  | [] => r = (c0, None)
  | _ :: _ => snd r = Some (score (fst r)) /\ firstBest score l (fst r)
  end.
Proof.
  intros l c0. cbv zeta. induction l as [|c l IH] using rev_ind.
  - reflexivity.
  - rewrite fold_left_app. cbn [fold_left].
    destruct l as [|c1 l].
    + cbn [app fold_left] in *. unfold better. cbn [snd fst].
      split; auto. exists [], []. repeat split; auto; intros c' [].
    + cbn [app] in *.
      set (r := fold_left (better score) (c1 :: l) (c0, None)) in *.
      destruct IH as (Hs & pre & post & Hl & Hpre & Hpost).
      unfold better. rewrite Hs.
      destruct (Qltb (score (fst r)) (score c)) eqn:E; cbn [snd fst].
      * apply Qltb_true in E. split; auto.
        exists (c1 :: l), []. repeat split; auto.
        -- intros c' Hc'. rewrite Hl in Hc'.
           apply in_app_or in Hc'. destruct Hc' as [Hc'|[<-|Hc']]; auto.
           ++ specialize (Hpre c' Hc'). lra.
           ++ specialize (Hpost c' Hc'). lra.
        -- intros c' [].
      * apply Qltb_false in E. split; auto.
        exists pre, (post ++ [c]). repeat split; auto.
        -- change (c1 :: l ++ [c]) with ((c1 :: l) ++ [c]).
           rewrite Hl, <- app_assoc. reflexivity.
        -- intros c' Hc'. apply in_app_or in Hc'.
           destruct Hc' as [Hc'|[<-|[]]]; auto.
Qed.

Lemma firstBest_In : forall l c, firstBest score l c -> In c l.
Proof.
  intros l c (pre & post & -> & _). apply in_or_app. right. now left.
Qed.

Lemma firstBest_max : forall l c c',
  firstBest score l c -> In c' l -> score c' <= score c.
Proof.
  intros l c c' (pre & post & -> & Hpre & Hpost) Hc'.
  apply in_app_or in Hc'. destruct Hc' as [Hc'|[<-|Hc']].
  - apply Qlt_le_weak. auto.
  - apply Qle_refl.
  - auto.
Qed.

End FirstBest.

Lemma chooseDragPlane_best : forall cam b,
  firstBest (fun p => Qabs (dot (normal p) cam))
            (axisPlanes (Block.getWorldCenter b))
            (chooseDragPlane cam b).
Proof.
  intros cam b.
  exact (proj2 (better_fold Plane (fun p => Qabs (dot (normal p) cam))
                  (axisPlanes (Block.getWorldCenter b))
                  (mkPlane (vec3 1 0 0) (- x (Block.getWorldCenter b))))).
Qed.

(** X11: the drag plane that [chooseDragPlane] returns is one of the
    three axis planes through the world centre of the block (the centre
    is on it), and its normal is the axis most aligned with the view
    direction: no other axis has a larger absolute dot product with it,
    and on a tie the earlier of x, y, z wins. *)
Theorem chooseDragPlane_faces_the_camera : forall cam b,
  let p := chooseDragPlane cam b in
  let c := Block.getWorldCenter b in
  In p (axisPlanes c) /\
  dot (normal p) c + constant p == 0 /\
  (forall p', In p' (axisPlanes c) ->
              Qabs (dot (normal p') cam) <= Qabs (dot (normal p) cam)) /\
  firstBest (fun p' => Qabs (dot (normal p') cam)) (axisPlanes c) p.
Proof.
  intros cam b. cbv zeta.
  pose proof (chooseDragPlane_best cam b) as H.
  split; [eapply firstBest_In; exact H|].
  split; [|split; [|exact H]].
  - pose proof (firstBest_In _ _ _ _ H) as Hin.
    set (p := chooseDragPlane cam b) in *. clearbody p.
    set (c := Block.getWorldCenter b) in *. clearbody c.
    unfold axisPlanes in Hin. cbn [In] in Hin.
    destruct Hin as [<-|[<-|[<-|[]]]];
      unfold dot; cbn [normal constant x y z]; ring.
  - intros p' Hp'.
    exact (firstBest_max _ (fun p => Qabs (dot (normal p) cam)) _ _ _ H Hp').
Qed.

Lemma nearestCardinal_best : forall v,
  firstBest (fun c => dot v c) cardinals (nearestCardinal v).
Proof.
  intros v.
  exact (proj2 (better_fold Vector3 (fun c => dot v c) cardinals (vec3 1 0 0))).
Qed.

(** X12: the axis that the last loop of [flipBlock] picks is one of the
    six cardinal directions and the first of them with the largest dot
    product with the given axis; that dot product is at least the
    absolute value of every coordinate of the axis. *)
Theorem nearestCardinal_is_the_first_best : forall v,
  In (nearestCardinal v) cardinals /\
  firstBest (fun c => dot v c) cardinals (nearestCardinal v) /\
  (forall c, In c cardinals -> dot v c <= dot v (nearestCardinal v)) /\
  Qabs (x v) <= dot v (nearestCardinal v) /\
  Qabs (y v) <= dot v (nearestCardinal v) /\
  Qabs (z v) <= dot v (nearestCardinal v).
Proof.
  intros v. pose proof (nearestCardinal_best v) as H.
  assert (Hmax : forall c, In c cardinals ->
                           dot v c <= dot v (nearestCardinal v)).
  { intros c Hc.
    exact (firstBest_max _ (fun c => dot v c) _ _ _ H Hc). }
  split; [eapply firstBest_In; exact H|].
  split; [exact H|]. split; [exact Hmax|].
  pose proof (Hmax (vec3 1 0 0)) as X1.
  pose proof (Hmax (vec3 (-1) 0 0)) as X2.
  pose proof (Hmax (vec3 0 1 0)) as Y1.
  pose proof (Hmax (vec3 0 (-1) 0)) as Y2.
  pose proof (Hmax (vec3 0 0 1)) as Z1.
  pose proof (Hmax (vec3 0 0 (-1))) as Z2.
  set (d := dot v (nearestCardinal v)) in *. clearbody d.
  unfold dot, cardinals in *. cbn [x y z In] in *.
  repeat split; apply Qabs_Qle_condition; split;
    first [ specialize (X1 ltac:(tauto)); specialize (X2 ltac:(tauto)); lra
          | specialize (Y1 ltac:(tauto)); specialize (Y2 ltac:(tauto)); lra
          | specialize (Z1 ltac:(tauto)); specialize (Z2 ltac:(tauto)); lra ].
Qed.

(** ** The axis of a flip *)

Lemma nearestCardinal_unfold : forall v,
  nearestCardinal v
  = let d1 := dot v (vec3 1 0 0) in
    let d2 := dot v (vec3 (-1) 0 0) in
    let d3 := dot v (vec3 0 1 0) in
    let d4 := dot v (vec3 0 (-1) 0) in
    let d5 := dot v (vec3 0 0 1) in
    let d6 := dot v (vec3 0 0 (-1)) in
    fst (better (dot v)
          (better (dot v)
            (better (dot v)
              (better (dot v)
                (better (dot v) (vec3 1 0 0, Some d1) (vec3 (-1) 0 0))
                (vec3 0 1 0))
              (vec3 0 (-1) 0))
            (vec3 0 0 1))
          (vec3 0 0 (-1))).
Proof. reflexivity. Qed.

Ltac qltb_cases :=
  repeat match goal with
         | |- context [Qltb ?a ?b] =>
             let E := fresh "E" in
             destruct (Qltb a b) eqn:E;
             [apply Qltb_true in E | apply Qltb_false in E];
             cbn [snd fst]; try (exfalso; lra)
         end.

Lemma nearestCardinal_horizontal : forall r,
  y r == 0 -> ~ (x r == 0 /\ z r == 0) ->
  nearestCardinal (negate r) = negate (nearestCardinal r) /\
  y (nearestCardinal r) = 0.
Proof.
  intros [rx ry rz] Hy Hnz. cbn [x y z] in *.
  assert (Hcase : rx < 0 \/ 0 < rx \/ rz < 0 \/ 0 < rz).
  { destruct (Q_dec rx 0) as [[H|H]|H]; auto.
    destruct (Q_dec rz 0) as [[K|K]|K]; auto.
    exfalso. apply Hnz. now split. }
  clear Hnz.
  rewrite !nearestCardinal_unfold. cbv zeta.
  unfold better, negate, dot. cbn [x y z snd fst].
  destruct Hcase as [H|[H|[H|H]]]; qltb_cases; split; reflexivity.
Qed.

Section FlipAxis.
Context {M : JSMath}.

Lemma flipBlock_flipAxis : forall now cam d m,
  selectedGroup m <> [] ->
  flipBlock now cam d m = rotateGroup now (flipAxis cam d) m.
Proof.
  intros now cam d m Hne. unfold flipBlock, flipAxis.
  destruct (selectedGroup m) as [|i g] eqn:Eg; [contradiction|].
  destruct (centerBlock m) as [c|] eqn:Ec.
  - destruct (existsb _ (i :: g)) eqn:Ea; [|reflexivity].
    unfold rotateGroup. now rewrite Ec, Eg, Ea.
  - unfold rotateGroup. now rewrite Ec.
Qed.

Lemma normalize_scale : forall v,
  exists s, ~ s == 0 /\ normalize v = multiplyScalar v (1 / s).
Proof.
  intros v. unfold normalize.
  destruct (Qeq_bool (Three.length v) 0) eqn:E.
  - exists 1. split; [discriminate|reflexivity].
  - exists (Three.length v). split; [|reflexivity].
    intros K. apply Qeq_bool_iff in K. congruence.
Qed.

Lemma right_vector : forall cam,
  let right :=
    normalize (crossVectors (normalize (vec3 (x cam) 0 (z cam)))
                            (vec3 0 1 0)) in
  y right == 0 /\
  ((x right == 0 /\ z right == 0) <-> (x cam == 0 /\ z cam == 0)).
Proof.
  intros cam. cbv zeta.
  destruct (normalize_scale (vec3 (x cam) 0 (z cam))) as (s & Hs & ->).
  destruct (normalize_scale
              (crossVectors (multiplyScalar (vec3 (x cam) 0 (z cam)) (1 / s))
                            (vec3 0 1 0))) as (s' & Hs' & ->).
  unfold multiplyScalar, crossVectors. cbn [x y z].
  assert (Ka : ~ 1 / s == 0).
  { intros K. apply Hs. rewrite <- (Qinv_involutive s).
    setoid_replace (/ s) with (1 / s) by field; auto. now rewrite K. }
  assert (Kb : ~ 1 / s' == 0).
  { intros K. apply Hs'. rewrite <- (Qinv_involutive s').
    setoid_replace (/ s') with (1 / s') by field; auto. now rewrite K. }
  set (a := 1 / s) in *. set (b := 1 / s') in *. clearbody a b.
  split; [ring|]. split.
  - intros [Hx Hz]. split.
    + assert (E : (x cam * a) * b == 0) by (rewrite <- Hz; ring).
      apply Qmult_integral in E. destruct E as [E|E]; [|contradiction].
      apply Qmult_integral in E. destruct E as [E|E]; [auto|contradiction].
    + assert (E : (z cam * a) * b == 0).
      { setoid_replace (z cam * a * b)
          with (- ((0 * a * 0 - z cam * a * 1) * b)) by ring.
        rewrite Hx. ring. }
      apply Qmult_integral in E. destruct E as [E|E]; [|contradiction].
      apply Qmult_integral in E. destruct E as [E|E]; [auto|contradiction].
  - intros [Hx Hz]. rewrite Hx, Hz. split; ring.
Qed.

Lemma nearestCardinal_zero : forall v,
  x v == 0 -> y v == 0 -> z v == 0 -> nearestCardinal v = vec3 1 0 0.
Proof.
  intros [vx vy vz] Hx Hy Hz. cbn [x y z] in *.
  rewrite nearestCardinal_unfold. cbv zeta.
  unfold better, dot. cbn [x y z snd fst].
  qltb_cases; reflexivity.
Qed.

(** X13: with a non-empty selection, [flipBlock] is [rotateGroup] about
    a cardinal axis that depends on the camera and the direction only.
    Left and right always turn about minus y and plus y.  Up and down
    turn about opposite horizontal axes, unless the camera looks
    straight up or down: then the projected forward vector is zero and
    both turn about plus x. *)
Theorem flipBlock_turns_about_a_cardinal_axis : forall cam,
  (forall now d m, selectedGroup m <> [] ->
     flipBlock now cam d m = rotateGroup now (flipAxis cam d) m) /\
  (forall d, In (flipAxis cam d) cardinals) /\
  flipAxis cam Left = vec3 0 (-1) 0 /\
  flipAxis cam Right = vec3 0 1 0 /\
  (x cam == 0 /\ z cam == 0 ->
   flipAxis cam Up = vec3 1 0 0 /\ flipAxis cam Down = vec3 1 0 0) /\
  (~ (x cam == 0 /\ z cam == 0) ->
   flipAxis cam Up = negate (flipAxis cam Down) /\
   y (flipAxis cam Down) = 0).
Proof.
  intros cam.
  split; [intros; now apply flipBlock_flipAxis|].
  split; [intros d; apply nearestCardinal_In|].
  split; [reflexivity|]. split; [reflexivity|].
  destruct (right_vector cam) as [Hy Hxz]. cbv zeta in Hy, Hxz.
  unfold flipAxis. cbv zeta.
  set (right := normalize _) in *. clearbody right.
  split.
  - intros Hcam. apply Hxz in Hcam. destruct Hcam as [Hx Hz].
    split; apply nearestCardinal_zero; auto;
      unfold negate; cbn [x y z]; lra.
  - intros Hcam. apply nearestCardinal_horizontal; auto.
    intros K. apply Hcam. now apply Hxz.
Qed.

End FlipAxis.

(** ** The selection *)

Section SelectionKept.
Context {M : JSMath}.

Lemma forEach_selected : forall s group bs i,
  (i < List.length bs)%nat ->
  selected (getBlock (forEachBlock (Block.setSelected s) group bs) i)
  = if has i group then s else selected (getBlock bs i).
Proof.
  intros s group. unfold forEachBlock.
  induction group as [|j group IH]; intros bs i Hi; cbn [fold_left].
  - reflexivity.
  - rewrite IH by now rewrite updateBlock_length.
    unfold has at 2. cbn [existsb]. fold (has i group).
    destruct (has i group); [now rewrite orb_true_r|].
    rewrite orb_false_r.
    destruct (Nat.eqb i j) eqn:E.
    + apply Nat.eqb_eq in E. subst j.
      now rewrite getBlock_updateBlock_same.
    + apply Nat.eqb_neq in E.
      now rewrite getBlock_updateBlock_other by congruence.
Qed.

Lemma scanBlocks_grows : forall bs current others visited queue,
  exists new, fst (scanBlocks bs current others visited queue)
              = visited ++ new.
Proof.
  intros bs current others visited queue.
  destruct (scanBlocks_spec bs current others visited queue)
    as (new & E & _).
  exists new. now rewrite E.
Qed.

Lemma bfsLoop_grows : forall fuel bs visited queue r,
  bfsLoop fuel bs visited queue = Some r -> exists t, r = visited ++ t.
Proof.
  induction fuel as [|fuel IH]; intros bs visited queue r H.
  - destruct queue; [|discriminate]. injection H as <-.
    exists []. now rewrite app_nil_r.
  - destruct queue as [|c queue].
    + injection H as <-. exists []. now rewrite app_nil_r.
    + cbn [bfsLoop] in H.
      destruct (scanBlocks_spec bs (getBlock bs c)
                  (seq 0 (List.length bs)) visited queue)
        as (new & E & _).
      rewrite E in H. apply IH in H. destruct H as (t & ->).
      exists (new ++ t). now rewrite app_assoc.
Qed.

Lemma findConnectedBlocks_head : forall bs seed,
  hd_error (findConnectedBlocks bs seed) = Some seed.
Proof.
  intros bs seed. unfold findConnectedBlocks, findConnectedBlocksOpt.
  destruct (bfsLoop _ bs [seed] [seed]) as [r|] eqn:E; [|reflexivity].
  apply bfsLoop_grows in E. now destruct E as (t & ->).
Qed.

Lemma findConnectedBlocks_group : forall bs seed,
  (seed < List.length bs)%nat ->
  NoDup (findConnectedBlocks bs seed) /\
  forall i, In i (findConnectedBlocks bs seed) -> (i < List.length bs)%nat.
Proof.
  intros bs seed Hs.
  destruct (findConnectedBlocks_spec bs seed Hs) as (_ & Hnd & Hc).
  split; auto. intros i Hi. apply Hc in Hi.
  now apply connected_in_range with (i := seed).
Qed.

Lemma selection_select : forall group center m,
  NoDup group ->
  (forall i, In i group -> (i < List.length (blocks m))%nat) ->
  hd_error group = Some center ->
  selectionInvariant m ->
  selectionInvariant (selectGroupWithCenter group center m).
Proof.
  intros group center m Hnd Hrange Hhd (_ & _ & _ & Hsel & Hpend).
  unfold selectionInvariant, selectGroupWithCenter.
  cbn [selectedGroup centerBlock blocks pendingBlock withGizmo withSelection
       withBlocks].
  rewrite !forEachBlock_length.
  split; [exact Hnd|]. split; [exact Hrange|].
  split; [now symmetry|]. split; [|exact Hpend].
  intros i Hi.
  rewrite forEach_selected by now rewrite forEachBlock_length.
  destruct (has i group) eqn:E.
  - apply has_In in E. tauto.
  - apply has_not_In in E.
    rewrite forEach_selected by assumption.
    destruct (has i (selectedGroup m)) eqn:E'.
    + split; [discriminate|contradiction].
    + apply has_not_In in E'. rewrite (Hsel i Hi). tauto.
Qed.

Lemma selection_deselect : forall m,
  selectionInvariant m -> selectionInvariant (deselectAll m).
Proof.
  intros m (_ & _ & _ & Hsel & Hpend).
  unfold selectionInvariant, deselectAll.
  cbn [selectedGroup centerBlock blocks pendingBlock withGizmo withSelection
       withBlocks].
  rewrite !forEachBlock_length.
  split; [constructor|]. split; [intros i []|].
  split; [reflexivity|]. split; [|exact Hpend].
  intros i Hi. rewrite forEach_selected by assumption.
  destruct (has i (selectedGroup m)) eqn:E.
  - split; [discriminate|contradiction].
  - apply has_not_In in E. rewrite (Hsel i Hi). simpl. tauto.
Qed.

Lemma selection_dblclick : forall e m,
  match blockHit e with
  | Some i => (i < List.length (blocks m))%nat
  | None => True
  end ->
  selectionInvariant m -> selectionInvariant (onDblClick e m).
Proof.
  intros e m Hv Hinv. unfold onDblClick.
  destruct (blockHit e) as [block|]; [|exact Hinv].
  destruct Hinv as (_ & _ & _ & Hsel & Hpend).
  unfold selectionInvariant.
  cbn [selectedGroup centerBlock blocks pendingBlock withGizmo withSelection
       withBlocks].
  rewrite updateBlock_length, forEachBlock_length.
  split; [repeat constructor; simpl; tauto|].
  split; [intros i [<-|[]]; exact Hv|].
  split; [reflexivity|]. split; [|exact Hpend].
  intros i Hi. destruct (Nat.eq_dec block i) as [->|Hne].
  - rewrite getBlock_updateBlock_same by now rewrite forEachBlock_length.
    simpl. tauto.
  - rewrite getBlock_updateBlock_other by assumption.
    rewrite forEach_selected by assumption.
    destruct (has i (selectedGroup m)) eqn:E.
    + split; [discriminate|]. intros [K|[]]. contradiction.
    + apply has_not_In in E. rewrite (Hsel i Hi). simpl. tauto.
Qed.

(** Operations that only change blocks, and keep their highlight. *)
Lemma selection_blocks : forall bs m,
  Forall2 sameHighlight (blocks m) bs ->
  selectionInvariant m -> selectionInvariant (withBlocks bs m).
Proof.
  intros bs m H (Hnd & Hrange & Hc & Hsel & Hpend).
  pose proof (Forall2_length H) as Hlen.
  unfold selectionInvariant.
  cbn [selectedGroup centerBlock blocks pendingBlock withBlocks].
  rewrite <- Hlen.
  split; [exact Hnd|]. split; [exact Hrange|]. split; [exact Hc|].
  split; [|exact Hpend].
  intros i Hi.
  rewrite (Forall2_getBlock sameHighlight _ _ i H Hi). now apply Hsel.
Qed.

Lemma selection_view : forall m m',
  selectionView m' = selectionView m ->
  Forall2 sameHighlight (blocks m) (blocks m') ->
  selectionInvariant m -> selectionInvariant m'.
Proof.
  intros m m' Hv H Hinv.
  apply (selection_blocks _ _ H) in Hinv.
  unfold selectionView in Hv. injection Hv as Hg Hc Hp.
  unfold selectionInvariant in *.
  cbn [selectedGroup centerBlock blocks pendingBlock withBlocks] in Hinv.
  now rewrite Hg, Hc, Hp.
Qed.

Lemma sameHighlight_refl : forall bs, Forall2 sameHighlight bs bs.
Proof. induction bs; constructor; auto. reflexivity. Qed.

Lemma view_of_dragMove : forall e target plane m,
  selectionView (dragMove e target plane m) = selectionView m.
Proof. intros. now rewrite dragMove_frame. Qed.

Lemma view_of_gizmoMove : forall e axis plane m,
  selectionView (gizmoMove e axis plane m) = selectionView m.
Proof.
  intros e axis plane m. unfold gizmoMove.
  destruct (intersectPlane _ _); [|reflexivity]. cbv zeta.
  unfold gizmoCommit. destruct (Qle_bool _ _); [|reflexivity].
  cbv zeta. unfold selectionView.
  cbn [selectedGroup centerBlock pendingBlock withGizmoDrag].
  now rewrite rotateGroup_frame.
Qed.

Lemma view_of_pointerMove : forall e m,
  selectionView (onPointerMove e m) = selectionView m.
Proof.
  intros e m. unfold onPointerMove.
  assert (Hdrag : forall m1,
            selectionView
              match isDragging m1, dragTarget m1, dragPlane m1 with
              | true, Some target, Some plane => dragMove e target plane m1
              | _, _, _ => m1
              end = selectionView m1).
  { intros m1.
    destruct (isDragging m1), (dragTarget m1), (dragPlane m1); auto.
    apply view_of_dragMove. }
  assert (Hrest : selectionView
            (let m1 :=
               match pendingBlock m with
               | Some block =>
                   if negb (hasMovedPastThreshold m) && negb (isDragging m)
                      && Qle_bool mouseMoveThreshold (pointerDistance e m)
                   then startDrag e block
                          (withPointer (mouseDownPos m) (pendingBlock m) true m)
                   else m
               | None => m
               end in
             match isDragging m1, dragTarget m1, dragPlane m1 with
             | true, Some target, Some plane => dragMove e target plane m1
             | _, _, _ => m1
             end) = selectionView m).
  { cbv zeta. rewrite Hdrag.
    destruct (pendingBlock m) eqn:E; auto. destruct (_ && _); auto.
    unfold selectionView. cbn. now rewrite E. }
  destruct (isGizmoDragging m); [|exact Hrest].
  destruct (gizmoDragAxis m) as [ax|]; [|exact Hrest].
  destruct (gizmoDragPlane m); [|exact Hrest].
  destruct (centerBlock m) eqn:Ec; [|exact Hrest].
  apply view_of_gizmoMove.
Qed.

Lemma highlight_rotateBlock : forall now axis b0 b,
  sameHighlight b0 b -> sameHighlight b0 (Block.rotateBlock now axis b).
Proof.
  intros now axis b0 b K. unfold sameHighlight, Block.rotateBlock in *.
  now destruct (isAnimating b).
Qed.

Lemma highlight_pointerMove : forall e m,
  Forall2 sameHighlight (blocks m) (blocks (onPointerMove e m)).
Proof.
  intros e m. apply kept_pointerMove; try (intros; assumption).
  - apply highlight_rotateBlock.
  - apply sameHighlight_refl.
Qed.

Lemma highlight_updateAnimation : forall now b0 b,
  sameHighlight b0 b -> sameHighlight b0 (Block.updateAnimation now b).
Proof.
  intros now b0 b K. unfold sameHighlight in *. rewrite <- K.
  unfold Block.updateAnimation, Block.updateOrientation.
  assert (E : selected (Block.updatePosition now b) = selected b).
  { unfold Block.updatePosition.
    destruct (posAnimating b); auto.
    destruct (posAnimStartPos b); auto.
    destruct (posAnimTargetPos b); auto.
    destruct (Qle_bool _ _); auto. }
  destruct (negb _ || negb _); auto.
  destruct (Qle_bool _ _); auto.
Qed.

Lemma selection_reset : forall m,
  selectionInvariant m ->
  selectionInvariant (resetPointerState (withControls true m)).
Proof.
  intros m (Hnd & Hrange & Hc & Hsel & _).
  unfold selectionInvariant.
  cbn [selectedGroup centerBlock blocks pendingBlock resetPointerState
       withDrag withPointer withControls].
  repeat (split; auto). intros i K. discriminate.
Qed.

Lemma selection_pointerUp : forall e m,
  selectionInvariant m -> selectionInvariant (onPointerUp e m).
Proof.
  intros e m Hinv. unfold onPointerUp.
  destruct (negb _); [exact Hinv|].
  destruct (isGizmoDragging m); [exact Hinv|].
  destruct (isDragging m).
  { cbv zeta.
    match goal with
    | |- context [withBlocks ?bs ?m1] =>
        assert (K : Forall2 sameHighlight (blocks m) bs);
        [|set (m2 := withBlocks bs m1);
          assert (K2 : selectionInvariant m2)
            by (exact (selection_blocks _ _ K Hinv));
          clearbody m2]
    end.
    { cbn [isGroupDrag blocks withDrag selectedGroup dragTarget].
      destruct (isGroupDrag m).
      - apply forEachBlock_keeps; [|apply sameHighlight_refl].
        intros b0 b H. exact H.
      - destruct (dragTarget m); [|apply sameHighlight_refl].
        apply updateBlock_keeps; [|apply sameHighlight_refl].
        intros b0 b H. exact H. }
    apply selection_reset.
    destruct (centerBlock m2); exact K2. }
  destruct (pendingBlock m) as [block|] eqn:Ep.
  - apply selection_reset.
    destruct (negb _); [|exact Hinv].
    destruct (isCenter _ _); [exact Hinv|].
    assert (Hb : (block < List.length (blocks m))%nat).
    { destruct Hinv as (_ & _ & _ & _ & Hpend). now apply Hpend. }
    destruct (findConnectedBlocks_group (blocks m) block Hb) as [G1 G2].
    apply selection_select; auto.
    apply findConnectedBlocks_head.
  - destruct (Qltb _ _); [|now apply selection_reset].
    destruct (_ && _); [now apply selection_reset|].
    apply selection_reset.
    destruct (blockHit e); [exact Hinv|].
    now apply selection_deselect.
Qed.

Lemma findIndexById_range : forall id bs k i,
  findIndexById id bs k = Some i ->
  ((k <= i)%nat /\ (i < k + List.length bs)%nat) /\
  blockId (nth (i - k) bs (Block.create 0 [])) = id /\
  forall j, (j < i - k)%nat ->
            blockId (nth j bs (Block.create 0 [])) <> id.
Proof.
  intros id bs. induction bs as [|b bs IH]; intros k i H; [discriminate|].
  cbn [findIndexById] in H.
  destruct (blockId b =? id)%Z eqn:E.
  - injection H as <-. rewrite Nat.sub_diag. cbn [List.length nth].
    apply Z.eqb_eq in E. repeat split; auto; lia.
  - apply IH in H. destruct H as (Hr & Hid & Hfirst).
    cbn [List.length]. split; [lia|].
    replace (i - k)%nat with (S (i - S k)) by lia. cbn [nth].
    split; auto.
    intros [|j] Hj; cbn [nth].
    + now apply Z.eqb_neq.
    + apply Hfirst. lia.
Qed.

Lemma selection_byId : forall id m,
  selectionInvariant m -> selectionInvariant (selectBlockById id m).
Proof.
  intros id m Hinv. unfold selectBlockById.
  destruct (findIndexById id (blocks m) 0) as [i|] eqn:E; [|exact Hinv].
  apply findIndexById_range in E. destruct E as (Hr & _).
  assert (Hb : (i < List.length (blocks m))%nat) by lia.
  destruct (findConnectedBlocks_group (blocks m) i Hb) as [G1 G2].
  apply selection_select; auto.
  apply findConnectedBlocks_head.
Qed.

Lemma selection_pointerDown : forall e m,
  match blockHit e with
  | Some i => (i < List.length (blocks m))%nat
  | None => True
  end ->
  selectionInvariant m -> selectionInvariant (onPointerDown e m).
Proof.
  intros e m Hv Hinv. unfold onPointerDown.
  destruct (negb _); [exact Hinv|]. cbv zeta.
  destruct (gizmoVisible _ && _); [destruct (ringHit e)|];
    try exact Hinv;
    (destruct (blockHit e) as [block|]; [|exact Hinv]);
    destruct Hinv as (Hnd & Hrange & Hc & Hsel & _);
    unfold selectionInvariant;
    cbn [selectedGroup centerBlock blocks pendingBlock withPointer
         withControls];
    (repeat (split; auto)); intros i K; injection K as <-; exact Hv.
Qed.

Lemma selection_step : forall ev m,
  validEvent (List.length (blocks m)) ev ->
  selectionInvariant m ->
  selectionInvariant (step m ev) /\
  List.length (blocks (step m ev)) = List.length (blocks m).
Proof.
  intros ev m Hv Hinv. split.
  - destruct ev as [e|e|e|e|now cam d|id|clock]; cbn [step validEvent] in *.
    + now apply selection_pointerDown.
    + apply (selection_view m); auto.
      * apply view_of_pointerMove.
      * apply highlight_pointerMove.
    + now apply selection_pointerUp.
    + now apply selection_dblclick.
    + rewrite flipBlock_frame. apply selection_blocks; auto.
      apply kept_flipBlock; try (intros; assumption).
      * apply highlight_rotateBlock.
      * apply sameHighlight_refl.
    + now apply selection_byId.
    + unfold update. cbv zeta.
      set (m1 := withBlocks _ m).
      assert (K : selectionInvariant m1).
      { apply selection_blocks; auto.
        apply kept_updateAll; [|apply sameHighlight_refl].
        apply highlight_updateAnimation. }
      clearbody m1.
      destruct (centerBlock m1); auto. destruct (_ && _); auto.
  - symmetry. apply (Forall2_length (A := BlockObject) (B := BlockObject)
                       (R := fun _ _ => True)).
    apply kept_step; auto. clear. induction (blocks m); constructor; auto.
Qed.

Lemma selection_run : forall evs m,
  Forall (validEvent (List.length (blocks m))) evs ->
  selectionInvariant m -> selectionInvariant (run m evs).
Proof.
  unfold run. induction evs as [|ev evs IH]; intros m Hv Hinv; auto.
  inversion Hv as [|? ? Hev Hevs]; subst. cbn [fold_left].
  destruct (selection_step ev m Hev Hinv) as [K L].
  apply IH; auto. now rewrite L.
Qed.

End SelectionKept.

Lemma initial_selection : selectionInvariant initialManager.
Proof.
  unfold selectionInvariant. cbn.
  split; [constructor|]. split; [intros i []|]. split; [reflexivity|].
  split; [|intros i K; discriminate].
  intros i Hi.
  do 7 (destruct i as [|i]; [cbn; split; [discriminate|contradiction]|]).
  lia.
Qed.

(** X14: whatever the events of a session (the block under the pointer,
    when there is one, being a block of the scene), the selected group
    lists distinct blocks of the scene, the centre block is the first
    member of the group (and there is none exactly when the group is
    empty), the highlighted blocks are exactly the members of the group,
    and a pending block is a block of the scene. *)
Theorem selection_is_a_group_with_its_center_first :
  forall (M : JSMath) (evs : list Event),
    Forall (validEvent (List.length initialBlocks)) evs ->
    selectionInvariant (run initialManager evs).
Proof.
  intros M evs Hv. apply selection_run; [exact Hv|exact initial_selection].
Qed.

Lemma selection_is_a_group_with_its_center_first_witness :
  Forall (validEvent (List.length initialBlocks)) turnThenDragDown /\
  selectionInvariant (run (M := hostMath) initialManager turnThenDragDown).
Proof.
  assert (Hv : Forall (validEvent (List.length initialBlocks))
                      turnThenDragDown).
  { repeat constructor; simpl; lia. }
  split; [exact Hv|].
  exact (selection_is_a_group_with_its_center_first hostMath
           turnThenDragDown Hv).
Defined.

(** ** Selecting *)




Section ClickSemantics.
Context {M : JSMath}.


Lemma press_on_nothing : forall down m,
  button down = 0%Z -> pressStartsGizmoDrag m down = false ->
  blockHit down = None ->
  onPointerDown down m
  = withPointer (clientX down, clientY down) (pendingBlock m)
                (hasMovedPastThreshold m) m.
Proof.
  intros down m Hb Hg Hhit. unfold onPointerDown.
  rewrite Hb. cbn [Z.eqb negb]. cbv zeta.
  unfold pressStartsGizmoDrag in Hg. rewrite Hb in Hg.
  cbn [Z.eqb andb] in Hg.
  cbn [gizmoVisible centerBlock withPointer].
  destruct (gizmoVisible m && isSome (centerBlock m)) eqn:E.
  - cbn [andb] in Hg. destruct (ringHit down); [discriminate|].
    now rewrite Hhit.
  - now rewrite Hhit.
Qed.


(** X20: a press of the left button on empty space followed by its
    release, with no drag running and no earlier press on a block
    pending: when the pointer has stayed within the threshold and the
    release is neither over a ring of the shown gizmo nor over a block,
    everything is deselected
    (empty group, no centre block, gizmo hidden, no member of the old
    group highlighted); when the pointer has moved further (an orbit of
    the camera), or the release is over a ring or a block, the selection
    and the blocks are as before.  The controls are on afterwards. *)
Theorem click_on_empty_space_deselects :
  forall (down up : PointerEvent) (m : Manager),
    button down = 0%Z -> button up = 0%Z ->
    isDragging m = false -> isGizmoDragging m = false ->
    pendingBlock m = None ->
    pressStartsGizmoDrag m down = false ->
    blockHit down = None ->
    let m1 := onPointerDown down m in
    let m' := onPointerUp up m1 in
    controlsEnabled m' = true /\
    (pointerDistance up m1 < mouseMoveThreshold ->
     gizmoVisible m && isSome (ringHit up) = false ->
     blockHit up = None ->
     selectedGroup m' = [] /\ centerBlock m' = None /\
     gizmoVisible m' = false /\
     forall i, In i (selectedGroup m) ->
               (i < List.length (blocks m))%nat ->
               selected (getBlock (blocks m') i) = false) /\
    (mouseMoveThreshold <= pointerDistance up m1 \/
     gizmoVisible m && isSome (ringHit up) = true \/
     (exists hit, blockHit up = Some hit) ->
     blocks m' = blocks m /\ selectedGroup m' = selectedGroup m /\
     centerBlock m' = centerBlock m /\ gizmoVisible m' = gizmoVisible m).
Proof.
  intros down up m Hd Hu Hdrag Hgiz Hpend Hpress Hhit. cbv zeta.
  rewrite (press_on_nothing down m Hd Hpress Hhit).
  set (m1 := withPointer _ _ _ m).
  unfold onPointerUp. rewrite Hu. cbn [Z.eqb negb].
  change (isGizmoDragging m1) with (isGizmoDragging m).
  change (isDragging m1) with (isDragging m).
  change (pendingBlock m1) with (pendingBlock m).
  change (gizmoVisible m1) with (gizmoVisible m).
  rewrite Hgiz, Hdrag, Hpend.
  split; [|split].
  - destruct (Qltb _ _); [|reflexivity].
    destruct (_ && _); reflexivity.
  - intros Hnear Hring Hup.
    replace (Qltb (pointerDistance up m1) mouseMoveThreshold) with true
      by (symmetry; now apply Qltb_true).
    rewrite Hring, Hup.
    split; [reflexivity|]. split; [reflexivity|]. split; [reflexivity|].
    intros i Hi Hr.
    change (blocks (resetPointerState (withControls true (deselectAll m1))))
      with (forEachBlock (Block.setSelected false) (selectedGroup m)
                         (blocks m)).
    rewrite forEach_selected by assumption.
    apply has_In in Hi. now rewrite Hi.
  - intros [Hfar|[Hring|(hit & Hup)]].
    + replace (Qltb (pointerDistance up m1) mouseMoveThreshold) with false
        by (symmetry; now apply Qltb_false).
      repeat split.
    + destruct (Qltb _ _); [|repeat split]. rewrite Hring. repeat split.
    + destruct (Qltb _ _); [|repeat split].
      destruct (_ && _); [repeat split|]. rewrite Hup. repeat split.
Qed.

End ClickSemantics.



Lemma click_on_empty_space_deselects_witness :
  let e := pointerAt 0 0 5 5 None 10 in
  let m := isolatedFirst in
  let m1 := onPointerDown (M := hostMath) e m in
  let m' := onPointerUp (M := hostMath) e m1 in
  (button e = 0%Z /\ isDragging m = false /\ isGizmoDragging m = false /\
   pendingBlock m = None /\ pressStartsGizmoDrag m e = false /\
   blockHit e = None /\
   pointerDistance (M := hostMath) e m1 < mouseMoveThreshold /\
   gizmoVisible m && isSome (ringHit e) = false) /\
  selectedGroup m = [0%nat] /\
  selectedGroup m' = [] /\ centerBlock m' = None /\ gizmoVisible m' = false.
Proof.
  intros e m m1 m'.
  assert (H1 : button e = 0%Z) by reflexivity.
  assert (H2 : isDragging m = false) by (vm_compute; reflexivity).
  assert (H3 : isGizmoDragging m = false) by (vm_compute; reflexivity).
  assert (H4 : pendingBlock m = None) by (vm_compute; reflexivity).
  assert (H5 : pressStartsGizmoDrag m e = false) by (vm_compute; reflexivity).
  assert (H6 : blockHit e = None) by reflexivity.
  assert (H7 : pointerDistance (M := hostMath) e m1 < mouseMoveThreshold)
    by (vm_compute; reflexivity).
  assert (H8 : gizmoVisible m && isSome (ringHit e) = false)
    by (vm_compute; reflexivity).
  split; [exact (conj H1 (conj H2 (conj H3 (conj H4 (conj H5 (conj H6
                   (conj H7 H8)))))))|].
  split; [vm_compute; reflexivity|].
  destruct (click_on_empty_space_deselects (M := hostMath)
              e e m H1 H1 H2 H3 H4 H5 H6) as (_ & K & _).
  destruct (K H7 H8 H6) as (K1 & K2 & K3 & _).
  exact (conj K1 (conj K2 K3)).
Defined.

(** ** Gestures *)

Section Gestures.
Context {M : JSMath}.

Lemma gesture_view : forall m m',
  gestureView m' = gestureView m -> gestureInvariant m -> gestureInvariant m'.
Proof.
  intros m m' Hv H. unfold gestureView in Hv.
  injection Hv as V1 V2 V3 V4 V5 V6 V7 V8 V9 V10.
  unfold gestureInvariant in *.
  now rewrite V1, V2, V3, V4, V5, V6, V7, V8, V9, V10.
Qed.

Lemma gestureView_withBlocks : forall bs m,
  gestureView (withBlocks bs m) = gestureView m.
Proof. reflexivity. Qed.

Lemma gestureView_gizmoMove : forall e axis plane m,
  gestureView (gizmoMove e axis plane m) = gestureView m.
Proof.
  intros e axis plane m. unfold gizmoMove.
  destruct (intersectPlane _ _); [|reflexivity]. cbv zeta.
  unfold gizmoCommit. destruct (Qle_bool _ _); [|reflexivity].
  cbv zeta. unfold gestureView.
  cbn [controlsEnabled isGizmoDragging gizmoDragAxis gizmoDragPlane
       pendingBlock isDragging dragTarget dragPlane isGroupDrag
       groupDragStartPositions withGizmoDrag].
  now rewrite rotateGroup_frame.
Qed.

Ltac gesture_fields :=
  unfold gestureInvariant;
  cbn [controlsEnabled isGizmoDragging gizmoDragAxis gizmoDragPlane
       pendingBlock isDragging dragTarget dragPlane isGroupDrag
       groupDragStartPositions withGizmoDrag withControls withPointer
       withDrag withGizmo resetPointerState isSome].

Lemma gesture_pointerDown : forall e m,
  gestureInvariant m -> gestureInvariant (onPointerDown e m).
Proof.
  intros e m Hinv. unfold onPointerDown.
  destruct (negb _); [exact Hinv|]. cbv zeta.
  destruct (gizmoVisible _ && _); [destruct (ringHit e)|];
    try (destruct (blockHit e); [|exact Hinv]);
    destruct Hinv as (H1 & H2 & H3 & H4); gesture_fields;
    (split; [|split; [|split]]);
    try (intros K; apply H2 in K); try (intros K; apply H3 in K);
    try (intros K; apply H4 in K); try tauto; try discriminate; auto.
Qed.

Lemma gesture_startDrag : forall e block m,
  pendingBlock m = Some block ->
  gestureInvariant m ->
  gestureInvariant
    (startDrag e block (withPointer (mouseDownPos m) (pendingBlock m) true m)).
Proof.
  intros e block m Hp (H1 & H2 & H3 & H4).
  unfold startDrag. gesture_fields.
  rewrite Hp in *. cbn [isSome] in *.
  split; [|split; [|split]]; auto; discriminate.
Qed.

Lemma gesture_pointerMove : forall e m,
  gestureInvariant m -> gestureInvariant (onPointerMove e m).
Proof.
  intros e m Hinv. unfold onPointerMove.
  assert (Hdrag : forall m1, gestureInvariant m1 ->
            gestureInvariant
              match isDragging m1, dragTarget m1, dragPlane m1 with
              | true, Some target, Some plane => dragMove e target plane m1
              | _, _, _ => m1
              end).
  { intros m1 K.
    destruct (isDragging m1), (dragTarget m1), (dragPlane m1); auto.
    rewrite dragMove_frame. exact K. }
  assert (Hrest : gestureInvariant
            (let m1 :=
               match pendingBlock m with
               | Some block =>
                   if negb (hasMovedPastThreshold m) && negb (isDragging m)
                      && Qle_bool mouseMoveThreshold (pointerDistance e m)
                   then startDrag e block
                          (withPointer (mouseDownPos m) (pendingBlock m) true m)
                   else m
               | None => m
               end in
             match isDragging m1, dragTarget m1, dragPlane m1 with
             | true, Some target, Some plane => dragMove e target plane m1
             | _, _, _ => m1
             end)).
  { cbv zeta. apply Hdrag.
    destruct (pendingBlock m) eqn:E; auto. destruct (_ && _); auto.
    rewrite <- E. apply gesture_startDrag; auto. }
  destruct (isGizmoDragging m) eqn:Eg; [|exact Hrest].
  destruct (gizmoDragAxis m) as [ax|]; [|exact Hrest].
  destruct (gizmoDragPlane m); [|exact Hrest].
  destruct (centerBlock m) eqn:Ec; [|exact Hrest].
  apply (gesture_view m); auto. apply gestureView_gizmoMove.
Qed.

Lemma gesture_reset : forall m,
  isGizmoDragging m = false ->
  gestureInvariant (resetPointerState (withControls true m)).
Proof.
  intros m Hg. gesture_fields. rewrite Hg.
  split; [|split; [|split]]; auto; discriminate.
Qed.

Lemma gesture_pointerUp : forall e m,
  gestureInvariant m -> gestureInvariant (onPointerUp e m).
Proof.
  intros e m Hinv. unfold onPointerUp.
  destruct (negb _); [exact Hinv|].
  destruct (isGizmoDragging m) eqn:Eg.
  { destruct Hinv as (H1 & H2 & H3 & H4). gesture_fields.
    split; [|split; [|split]]; auto; discriminate. }
  destruct (isDragging m).
  { cbv zeta.
    match goal with
    | |- context [withBlocks ?bs ?m1] => set (m2 := withBlocks bs m1)
    end.
    assert (K : isGizmoDragging m2 = false) by exact Eg. clearbody m2.
    apply gesture_reset. destruct (centerBlock m2); exact K. }
  destruct (pendingBlock m) as [block|].
  - apply gesture_reset.
    destruct (negb _); auto. destruct (isCenter _ _); auto.
  - destruct (Qltb _ _); [|now apply gesture_reset].
    destruct (_ && _); [now apply gesture_reset|].
    apply gesture_reset. destruct (blockHit e); auto.
Qed.

Lemma gesture_step : forall ev m,
  gestureInvariant m -> gestureInvariant (step m ev).
Proof.
  intros [e|e|e|e|now cam d|id|clock] m H; cbn [step].
  - now apply gesture_pointerDown.
  - now apply gesture_pointerMove.
  - now apply gesture_pointerUp.
  - unfold onDblClick. destruct (blockHit e); auto.
  - now rewrite flipBlock_frame.
  - unfold selectBlockById. destruct (findIndexById _ _ _); auto.
  - unfold update. cbv zeta.
    set (m1 := withBlocks _ m).
    assert (K : gestureInvariant m1) by exact H. clearbody m1.
    destruct (centerBlock m1); auto. destruct (_ && _); auto.
Qed.

Lemma release_enables_controls : forall e m,
  button e = 0%Z -> controlsEnabled (onPointerUp e m) = true.
Proof.
  intros e m Hb. unfold onPointerUp. rewrite Hb. cbn [Z.eqb negb].
  destruct (isGizmoDragging m); [reflexivity|].
  destruct (isDragging m).
  { cbv zeta.
    match goal with
    | |- context [withBlocks ?bs ?m1] => set (m2 := withBlocks bs m1)
    end.
    clearbody m2. destruct (centerBlock m2); reflexivity. }
  destruct (pendingBlock m) as [block|]; [reflexivity|].
  destruct (Qltb _ _); [|reflexivity].
  destruct (_ && _); reflexivity.
Qed.

End Gestures.

(** X15: whatever the events of a session, the orbit controls are off
    only while a gizmo drag runs or a press on a block is pending; a
    gizmo drag in progress has its axis and its plane and keeps the
    controls off; a block drag in progress has its target, its plane
    and a pending block; outside a block drag the group flag is off and
    no start position is recorded.  Every release of the left button
    turns the controls on. *)
Theorem controls_are_off_only_during_a_gesture :
  forall (M : JSMath) (evs : list Event),
    gestureInvariant (run initialManager evs) /\
    forall e, button e = 0%Z ->
              controlsEnabled (onPointerUp e (run initialManager evs)) = true.
Proof.
  intros M evs. split.
  - assert (H : gestureInvariant initialManager).
    { unfold gestureInvariant. cbn. repeat split; auto; discriminate. }
    revert H. generalize initialManager. unfold run.
    induction evs as [|ev evs IH]; intros m H; cbn [fold_left]; auto.
    apply IH. now apply gesture_step.
  - intros e He. now apply release_enables_controls.
Qed.

(** ** Drags *)

Section Drag.



End Drag.





(** ** A group rotation as a motion of the grid *)


Ltac inject_cells :=
  unfold num, Z.sub;
  repeat (rewrite ?inject_Z_plus, ?inject_Z_mult, ?inject_Z_opp);
  change (inject_Z 0) with 0; change (inject_Z 1) with 1.

Lemma veq_refl : forall v, veq v v.
Proof. intros v. repeat split; reflexivity. Qed.

Lemma veq_sym : forall u v, veq u v -> veq v u.
Proof. intros u v (H1 & H2 & H3). repeat split; now symmetry. Qed.

Lemma veq_trans : forall u v w, veq u v -> veq v w -> veq u w.
Proof.
  intros u v w (H1 & H2 & H3) (K1 & K2 & K3).
  repeat split; etransitivity; eauto.
Qed.

Lemma equals_veq : forall u v, equals u v = true -> veq u v.
Proof.
  intros u v E. unfold equals in E. rewrite !andb_true_iff in E.
  destruct E as [[E1 E2] E3]. repeat split; now apply Qeq_bool_iff.
Qed.

Lemma applyQuaternion_veq : forall u v q,
  veq u v -> veq (applyQuaternion u q) (applyQuaternion v q).
Proof.
  intros u v q (Hx & Hy & Hz). unfold veq, applyQuaternion. cbn [x y z].
  rewrite Hx, Hy, Hz. repeat split; reflexivity.
Qed.

Lemma quarterTurn_add : forall a u v,
  quarterTurn a (cellAdd u v) = cellAdd (quarterTurn a u) (quarterTurn a v).
Proof.
  intros [[ax ay] az] [[ux uy] uz] [[vx vy] vz].
  unfold quarterTurn, crossZ, cellAdd. apply triple_eq; ring.
Qed.

Lemma worldCells_atCell : forall p b,
  atCell p b ->
  Block.getWorldCellPositions b = map (cellAdd p) (cells b).
Proof.
  intros [[px py] pz] b (Hx & Hy & Hz). rewrite worldCells_shift.
  apply map_ext. intros [[cx cy] cz]. cbn [cellVec x y z] in *.
  rewrite (Math_round_comp _ _ Hx), (Math_round_comp _ _ Hy),
          (Math_round_comp _ _ Hz), !Math_round_num.
  reflexivity.
Qed.

Section Rigid.
Context {M : JSMath}.

(** The tick that ends both animations of a rotated member leaves it on
    its target. *)
Lemma rotateMember_lands : forall now pivot nax ax t clock b,
  Block.animating b = false -> now + ROTATION_DURATION <= clock ->
  let b2 := Block.updateAnimation clock (rotateMember now pivot nax ax t b) in
  cells b2 = Block.rotatedCells (quarterQuat ax) (cells b) /\
  veq (position b2) t /\
  Block.animating b2 = false.
Proof.
  intros now pivot nax ax t clock b Hrest Hclock. cbv zeta.
  unfold Block.animating in Hrest. apply orb_false_iff in Hrest.
  destruct Hrest as [Ha Hp].
  pose proof (progress_after clock now Hclock) as Hdone.
  destruct (rotateBlock_started now ax b)
    as (_ & Kpos & Kcells & Kanim & Kpa & _).
  destruct (rotateBlock_at_rest now ax b Ha) as (Kpiv & Kstart & Kpend).
  unfold rotateMember.
  set (b1 := Block.rotateBlock now ax b) in *. clearbody b1.
  unfold Block.updateAnimation, Block.animating. rewrite Kpos.
  destruct (equals t (position b)) eqn:E; cbn [negb].
  - rewrite updatePosition_idle by congruence.
    destruct (updateOrientation_done clock b1 Kanim Kpiv)
      as (C1 & C2 & C3 & C4); [now rewrite Kstart|].
    rewrite C1, C2, C3, C4, Kpend, Kpos, Kpa, Hp.
    repeat split; auto; apply equals_veq in E; destruct E as (E1 & E2 & E3);
      now symmetry.
  - set (b1' := Block.animatePositionTo now t (Some pivot) (Some nax) b1).
    destruct (updatePosition_done clock b1' (position b1) t)
      as (P1 & P2); try reflexivity; [exact Hdone|].
    destruct (updatePosition_orientation clock b1')
      as (_ & Q2 & Q3 & Q4 & Q5 & Q6).
    change (cells b1') with (cells b1) in Q2.
    change (isAnimating b1') with (isAnimating b1) in Q3.
    change (animStartTime b1') with (animStartTime b1) in Q4.
    change (animPivotGroup b1') with (animPivotGroup b1) in Q5.
    change (pendingCells b1') with (pendingCells b1) in Q6.
    destruct (updateOrientation_done clock (Block.updatePosition clock b1'))
      as (C1 & C2 & C3 & C4); try congruence.
    rewrite C1, C2, C3, C4, Q6, Kpend, P1, P2.
    repeat split; auto; reflexivity.
Qed.

Variable B : Z.
Hypothesis accurate : accurateFor B M.
Variable a : Cell.
Hypothesis a_cardinal : In a cardinalCells.

Lemma turn_vector : forall v c,
  veq v (cellVec c) -> smallCell B c ->
  roundVec (applyQuaternion v (quarterQuat (cellVec a))) = quarterTurn a c.
Proof.
  intros v c Hv Hc.
  rewrite (roundVec_veq _ _ (applyQuaternion_veq _ _ _ Hv)).
  now apply turn_cell with (B := B).
Qed.

Variable m : Manager.
Variable center : nat.
Variable places : nat -> Cell.
Hypothesis center_set : centerBlock m = Some center.
Hypothesis center_place : atCell (places center) (getBlock (blocks m) center).
Hypothesis member_places : forall i, In i (selectedGroup m) ->
  atCell (places i) (getBlock (blocks m) i) /\
  smallCell B (cellSub (places i) (places center)) /\
  Forall (smallCell B) (cells (getBlock (blocks m) i)).

Local Abbreviation q := (quarterQuat (cellVec a)).
Local Abbreviation bs := (blocks m).

Lemma spec_target_place : forall i,
  In i (selectedGroup m) ->
  veq (spec_target bs center q i)
      (cellVec (cellAdd (places center)
                  (quarterTurn a (cellSub (places i) (places center))))).
Proof.
  intros i Hi. destruct (member_places i Hi) as (Hp & Hs & _).
  unfold spec_target. destruct (Nat.eqb i center) eqn:E.
  - apply Nat.eqb_eq in E. subst i.
    eapply veq_trans; [exact center_place|].
    destruct (places center) as [[px py] pz].
    replace (cellSub (px, py, pz) (px, py, pz)) with (0, 0, 0)%Z
      by (unfold cellSub; apply triple_eq; lia).
    rewrite quarterTurn_origin.
    unfold veq, cellVec, cellAdd, num. cbn [x y z].
    rewrite !Z.add_0_r. repeat split; reflexivity.
  - assert (Hrel : veq (sub (position (getBlock bs i))
                            (position (getBlock bs center)))
                       (cellVec (cellSub (places i) (places center)))).
    { destruct Hp as (X1 & X2 & X3). destruct center_place as (Y1 & Y2 & Y3).
      destruct (places i) as [[px py] pz].
      destruct (places center) as [[cx cy] cz].
      unfold veq, sub, cellSub, cellVec in *. cbn [x y z] in *.
      rewrite X1, X2, X3, Y1, Y2, Y3. inject_cells. repeat split; ring. }
    rewrite (turn_vector _ _ Hrel Hs).
    destruct center_place as (Y1 & Y2 & Y3).
    destruct (quarterTurn a _) as [[rx ry] rz].
    destruct (places center) as [[cx cy] cz].
    unfold veq, add, cellAdd, cellVec in *. cbn [x y z] in *.
    rewrite Y1, Y2, Y3. inject_cells. repeat split; ring.
Qed.

Lemma spec_worldYs_integers : forall group v,
  (forall i, In i group -> In i (selectedGroup m)) ->
  In v (spec_worldYs bs group center q) -> exists k : Z, v == num k.
Proof.
  intros group v Hg Hv. unfold spec_worldYs in Hv.
  apply in_flat_map in Hv. destruct Hv as (i & Hi & Hv).
  apply in_map_iff in Hv. destruct Hv as (cell & <- & Hcell).
  destruct (spec_target_place i (Hg i Hi)) as (_ & Hy & _).
  destruct (cellAdd _ _) as [[tx ty] tz]. cbn [cellVec y] in Hy.
  exists (ty + Math_round (y (applyQuaternion (cellVec cell) q)))%Z.
  rewrite Hy. unfold num. now rewrite inject_Z_plus.
Qed.

Lemma floorOffset_integer :
  exists off : Z, (0 <= off)%Z /\
    floorOffset
      (fold_left lowerMin (spec_worldYs bs (selectedGroup m) center q) None)
    == num off.
Proof.
  destruct (floorOffset_spec (spec_worldYs bs (selectedGroup m) center q))
    as [(lowest & [Hin _] & Hneg & ->)|[_ ->]].
  - destruct (spec_worldYs_integers _ _ (fun i H => H) Hin) as (k & Hk).
    exists (- k)%Z. split.
    + rewrite Hk in Hneg. unfold num in Hneg.
      change 0 with (inject_Z 0) in Hneg. rewrite <- Zlt_Qlt in Hneg. lia.
    + rewrite Hk. unfold num. now rewrite inject_Z_opp.
  - exists 0%Z. split; [lia|reflexivity].
Qed.

Lemma group_rotation_rigid : forall now clock,
  wellFormedGroup m -> groupAtRest m ->
  (forall i, now + ROTATION_DURATION <= clock i) ->
  let m2 := update clock (rotateGroup now (cellVec a) m) in
  exists off : Z, (0 <= off)%Z /\
    forall i, In i (selectedGroup m) ->
      let b := getBlock bs i in
      let b2 := getBlock (blocks m2) i in
      atCell (cellAdd (cellAdd (places center)
                         (quarterTurn a (cellSub (places i) (places center))))
                      (0, off, 0)%Z) b2 /\
      cells b2 = map (quarterTurn a) (cells b) /\
      Block.animating b2 = false /\
      Block.getWorldCellPositions b2
      = map (groupMotion a (places center) off)
            (Block.getWorldCellPositions b).
Proof.
  intros now clock Hwf Hrest Hclock m2.
  destruct floorOffset_integer as (off & Hoff & Eoff).
  exists off. split; [exact Hoff|].
  intros i Hi. cbv zeta.
  destruct (rotateGroup_members now (cellVec a) m center center_set Hwf Hrest)
    as (Hlen & _ & Hin).
  destruct (Hin i Hi) as (k & Hk).
  assert (Hblocks : blocks m2
                    = updateAll clock 0
                        (blocks (rotateGroup now (cellVec a) m))).
  { unfold m2, update. cbv zeta.
    set (m1 := withBlocks _ _).
    destruct (centerBlock m1); [destruct (_ && _)|]; reflexivity. }
  assert (Hir : (i < List.length bs)%nat) by (now apply Hwf).
  rewrite Hblocks, getBlock_updateAll by lia. rewrite Hk. cbn [plus].
  set (ys := spec_worldYs bs (selectedGroup m) center q) in *.
  set (offset := floorOffset (fold_left lowerMin ys None)) in *.
  set (t := lift offset (spec_target bs center q i)).
  destruct (rotateMember_lands now
              (position (getBlock bs center))
              (normalize (cellVec a))
              (Nat.iter k normalize (cellVec a)) t (clock i)
              (getBlock bs i) (Hrest i Hi) (Hclock i))
    as (Hcells & Hpos & Hdone).
  set (b2 := Block.updateAnimation (clock i) _) in *. clearbody b2.
  destruct (member_places i Hi) as (Hp & Hs & Hsmall).
  assert (Hv : veq (Nat.iter k normalize (cellVec a)) (cellVec a)).
  { apply normalize_iter_cardinal; auto. apply accurate. }
  rewrite (rotatedCells_near_axis B a _ _ accurate a_cardinal Hv Hsmall)
    in Hcells.
  assert (Hat : atCell
                  (cellAdd (cellAdd (places center)
                              (quarterTurn a
                                 (cellSub (places i) (places center))))
                           (0, off, 0)%Z) b2).
  { unfold atCell. eapply veq_trans; [exact Hpos|].
    destruct (spec_target_place i Hi) as (T1 & T2 & T3).
    destruct (cellAdd (places center) _) as [[tx ty] tz].
    unfold t, lift, veq, cellAdd, cellVec in *. cbn [x y z] in *.
    rewrite T1, T2, T3, Eoff. inject_cells. repeat split; ring. }
  split; [exact Hat|]. split; [exact Hcells|]. split; [exact Hdone|].
  rewrite (worldCells_atCell _ _ Hat), (worldCells_atCell _ _ Hp), Hcells.
  rewrite !map_map. apply map_ext. intros cell.
  unfold groupMotion.
  replace (cellSub (cellAdd (places i) cell) (places center))
    with (cellAdd (cellSub (places i) (places center)) cell).
  - rewrite quarterTurn_add.
    destruct (places center) as [[cx cy] cz].
    destruct (quarterTurn a (cellSub _ _)) as [[rx ry] rz].
    destruct (quarterTurn a cell) as [[ux uy] uz].
    unfold cellAdd. apply triple_eq; ring.
  - destruct (places i) as [[px py] pz].
    destruct (places center) as [[cx cy] cz].
    destruct cell as [[ux uy] uz].
    unfold cellAdd, cellSub. apply triple_eq; ring.
Qed.

End Rigid.

Lemma groupMotion_manhattan : forall a pivot off u v,
  In a cardinalCells ->
  manhattan (groupMotion a pivot off u) (groupMotion a pivot off v)
  = manhattan u v.
Proof.
  intros a [[px py] pz] off [[ux uy] uz] [[vx vy] vz] Ha. simpl in Ha.
  repeat (destruct Ha as [<-|Ha]; [|]); try contradiction;
    unfold groupMotion, quarterTurn, crossZ, cellAdd, cellSub, manhattan;
    lia.
Qed.

Lemma manhattan_zero : forall u v, manhattan u v = 0%Z <-> u = v.
Proof.
  intros [[ux uy] uz] [[vx vy] vz]. unfold manhattan. split.
  - intros H. apply triple_eq; lia.
  - intros E. injection E as -> -> ->. lia.
Qed.

Lemma groupMotion_injective : forall a pivot off u v,
  In a cardinalCells ->
  groupMotion a pivot off u = groupMotion a pivot off v -> u = v.
Proof.
  intros a pivot off u v Ha E. apply manhattan_zero.
  rewrite <- (groupMotion_manhattan a pivot off u v Ha).
  now apply manhattan_zero.
Qed.

Lemma cellsTouch_manhattan : forall u v,
  cellsTouch u v = (manhattan u v =? 1)%Z.
Proof. intros [[ux uy] uz] [[vx vy] vz]. reflexivity. Qed.

Lemma existsb_map (A B : Type) (f : B -> bool) (g : A -> B) : forall l,
  existsb f (map g l) = existsb (fun x => f (g x)) l.
Proof. induction l as [|x l IH]; simpl; congruence. Qed.

Lemma existsb_same (A : Type) (f g : A -> bool) : forall l,
  (forall x, f x = g x) -> existsb f l = existsb g l.
Proof. intros l H. induction l as [|x l IH]; simpl; congruence. Qed.

Lemma moved_contacts : forall a pivot off b1 b2 b1' b2',
  In a cardinalCells ->
  Block.getWorldCellPositions b1'
  = map (groupMotion a pivot off) (Block.getWorldCellPositions b1) ->
  Block.getWorldCellPositions b2'
  = map (groupMotion a pivot off) (Block.getWorldCellPositions b2) ->
  areAdjacent b1' b2' = areAdjacent b1 b2 /\
  (sharesCell b1' b2' <-> sharesCell b1 b2).
Proof.
  intros a pivot off b1 b2 b1' b2' Ha E1 E2. split.
  - unfold areAdjacent. rewrite E1, E2, existsb_map.
    apply existsb_same. intros u. rewrite existsb_map.
    apply existsb_same. intros v.
    now rewrite !cellsTouch_manhattan, groupMotion_manhattan.
  - unfold sharesCell. rewrite E1, E2. split.
    + intros (c & H1 & H2). apply in_map_iff in H1, H2.
      destruct H1 as (u & <- & Hu). destruct H2 as (v & Ev & Hv).
      apply groupMotion_injective in Ev; auto. subst v. now exists u.
    + intros (c & H1 & H2). exists (groupMotion a pivot off c).
      split; now apply in_map.
Qed.

(** X21: on an accurate host, a completed [rotateGroup] about a cardinal
    axis moves the group as one rigid body.  For a group at rest whose
    members stand on grid points, once the tick after
    [ROTATION_DURATION] has run, the world cells of every member are
    the images of its old world cells under one motion of the grid: the
    quarter turn about the axis through the centre block, followed by a
    lift of a whole number of units, zero or more.  The cells of every
    member are its old cells turned, and no member is animating. *)
Theorem group_rotation_is_a_rigid_motion :
  forall (M : JSMath) (B : Z) (a : Cell) (now : Q) (clock : nat -> Q)
         (m : Manager) (center : nat) (places : nat -> Cell),
    accurateFor B M -> In a cardinalCells ->
    centerBlock m = Some center -> wellFormedGroup m -> groupAtRest m ->
    atCell (places center) (getBlock (blocks m) center) ->
    (forall i, In i (selectedGroup m) ->
       atCell (places i) (getBlock (blocks m) i) /\
       smallCell B (cellSub (places i) (places center)) /\
       Forall (smallCell B) (cells (getBlock (blocks m) i))) ->
    (forall i, now + ROTATION_DURATION <= clock i) ->
    let m2 := update clock (rotateGroup now (cellVec a) m) in
    exists off : Z, (0 <= off)%Z /\
      forall i, In i (selectedGroup m) ->
        Block.getWorldCellPositions (getBlock (blocks m2) i)
        = map (groupMotion a (places center) off)
              (Block.getWorldCellPositions (getBlock (blocks m) i)) /\
        cells (getBlock (blocks m2) i)
        = map (quarterTurn a) (cells (getBlock (blocks m) i)) /\
        Block.animating (getBlock (blocks m2) i) = false.
Proof.
  intros M B a now clock m center places Hacc Ha Hc Hwf Hrest Hcp Hmp
         Hclock m2.
  destruct (group_rotation_rigid B Hacc a Ha m center places Hc Hcp Hmp
              now clock Hwf Hrest Hclock) as (off & Hoff & H).
  exists off. split; [exact Hoff|].
  intros i Hi. destruct (H i Hi) as (_ & H2 & H3 & H4). auto.
Qed.

(** X22: under the same conditions a completed group rotation keeps the
    contacts inside the group: two members are adjacent afterwards
    exactly when they were before, and share a cell afterwards exactly
    when they did before. *)
Theorem group_rotation_keeps_contacts :
  forall (M : JSMath) (B : Z) (a : Cell) (now : Q) (clock : nat -> Q)
         (m : Manager) (center : nat) (places : nat -> Cell),
    accurateFor B M -> In a cardinalCells ->
    centerBlock m = Some center -> wellFormedGroup m -> groupAtRest m ->
    atCell (places center) (getBlock (blocks m) center) ->
    (forall i, In i (selectedGroup m) ->
       atCell (places i) (getBlock (blocks m) i) /\
       smallCell B (cellSub (places i) (places center)) /\
       Forall (smallCell B) (cells (getBlock (blocks m) i))) ->
    (forall i, now + ROTATION_DURATION <= clock i) ->
    let m2 := update clock (rotateGroup now (cellVec a) m) in
    forall i j, In i (selectedGroup m) -> In j (selectedGroup m) ->
      areAdjacent (getBlock (blocks m2) i) (getBlock (blocks m2) j)
      = areAdjacent (getBlock (blocks m) i) (getBlock (blocks m) j) /\
      (sharesCell (getBlock (blocks m2) i) (getBlock (blocks m2) j)
       <-> sharesCell (getBlock (blocks m) i) (getBlock (blocks m) j)).
Proof.
  intros M B a now clock m center places Hacc Ha Hc Hwf Hrest Hcp Hmp
         Hclock m2 i j Hi Hj.
  destruct (group_rotation_rigid B Hacc a Ha m center places Hc Hcp Hmp
              now clock Hwf Hrest Hclock) as (off & Hoff & H).
  destruct (H i Hi) as (_ & _ & _ & Ei).
  destruct (H j Hj) as (_ & _ & _ & Ej).
  now apply moved_contacts with (a := a) (pivot := places center) (off := off).
Qed.

Lemma firstSelected_facts :
  selectedGroup firstSelected = [0; 2]%nat /\
  centerBlock firstSelected = Some 0%nat /\
  List.length (blocks firstSelected) = 7%nat /\
  groupAtRest firstSelected /\
  (forall i, In i (selectedGroup firstSelected) ->
     atCell (placeOf firstSelected i) (getBlock (blocks firstSelected) i) /\
     smallCell 1000000 (cellSub (placeOf firstSelected i)
                                (placeOf firstSelected 0)) /\
     Forall (smallCell 1000000)
            (cells (getBlock (blocks firstSelected) i))).
Proof.
  assert (G : selectedGroup firstSelected = [0; 2]%nat)
    by (vm_compute; reflexivity).
  split; [exact G|]. split; [vm_compute; reflexivity|].
  split; [vm_compute; reflexivity|]. split.
  - unfold groupAtRest. rewrite G.
    intros i [<-|[<-|[]]]; vm_compute; reflexivity.
  - rewrite G. intros i [<-|[<-|[]]].
    + split; [vm_compute; auto|]. split; [vm_compute; intuition discriminate|].
      repeat constructor; vm_compute; intuition discriminate.
    + split; [vm_compute; auto|]. split; [vm_compute; intuition discriminate|].
      repeat constructor; vm_compute; intuition discriminate.
Qed.

Lemma firstSelected_wellFormed : wellFormedGroup firstSelected.
Proof.
  destruct firstSelected_facts as (G & _ & L & _).
  unfold wellFormedGroup. rewrite G, L. split.
  - repeat constructor; simpl; intuition discriminate.
  - intros i [<-|[<-|[]]]; lia.
Qed.

Lemma group_rotation_is_a_rigid_motion_witness :
  let m := firstSelected in
  let a := (1, 0, 0)%Z in
  let m2 := update (M := hostMath) (fun _ => 200)
              (rotateGroup (M := hostMath) 0 (cellVec a) m) in
  (accurateFor 1000000 hostMath /\ In a cardinalCells /\
   centerBlock m = Some 0%nat /\ wellFormedGroup m /\ groupAtRest m /\
   atCell (placeOf m 0) (getBlock (blocks m) 0)) /\
  exists off : Z, (0 <= off)%Z /\
    forall i, In i (selectedGroup m) ->
      Block.getWorldCellPositions (getBlock (blocks m2) i)
      = map (groupMotion a (placeOf m 0) off)
            (Block.getWorldCellPositions (getBlock (blocks m) i)).
Proof.
  intros m a m2.
  destruct firstSelected_facts as (G & C & L & R & P).
  assert (Hacc : accurateFor 1000000 hostMath) by exact hostMath_accurate.
  assert (Ha : In a cardinalCells) by (simpl; auto).
  assert (Hw : wellFormedGroup m) by exact firstSelected_wellFormed.
  assert (Hc : atCell (placeOf m 0) (getBlock (blocks m) 0)).
  { apply P. rewrite G. simpl. auto. }
  assert (Ht : forall i : nat, 0 + ROTATION_DURATION <= (fun _ => 200) i)
    by (intros i; vm_compute; discriminate).
  split; [exact (conj Hacc (conj Ha (conj C (conj Hw (conj R Hc)))))|].
  destruct (group_rotation_is_a_rigid_motion hostMath 1000000 a 0
              (fun _ => 200) m 0%nat (placeOf m)
              Hacc Ha C Hw R Hc P Ht) as (off & Hoff & K).
  exists off. split; [exact Hoff|].
  intros i Hi. exact (proj1 (K i Hi)).
Defined.

Lemma group_rotation_keeps_contacts_witness :
  let m := firstSelected in
  let a := (1, 0, 0)%Z in
  let m2 := update (M := hostMath) (fun _ => 200)
              (rotateGroup (M := hostMath) 0 (cellVec a) m) in
  (accurateFor 1000000 hostMath /\ In a cardinalCells /\
   centerBlock m = Some 0%nat /\ wellFormedGroup m /\ groupAtRest m /\
   In 0%nat (selectedGroup m) /\ In 2%nat (selectedGroup m)) /\
  areAdjacent (getBlock (blocks m2) 0) (getBlock (blocks m2) 2)
  = areAdjacent (getBlock (blocks m) 0) (getBlock (blocks m) 2).
Proof.
  intros m a m2.
  destruct firstSelected_facts as (G & C & L & R & P).
  assert (Hacc : accurateFor 1000000 hostMath) by exact hostMath_accurate.
  assert (Ha : In a cardinalCells) by (simpl; auto).
  assert (Hw : wellFormedGroup m) by exact firstSelected_wellFormed.
  assert (H0 : In 0%nat (selectedGroup m))
    by (unfold m; rewrite G; simpl; auto).
  assert (H2 : In 2%nat (selectedGroup m))
    by (unfold m; rewrite G; simpl; auto).
  assert (Hc : atCell (placeOf m 0) (getBlock (blocks m) 0))
    by (apply P; exact H0).
  assert (Ht : forall i : nat, 0 + ROTATION_DURATION <= (fun _ => 200) i)
    by (intros i; vm_compute; discriminate).
  split; [exact (conj Hacc (conj Ha (conj C (conj Hw (conj R (conj H0 H2))))))|].
  exact (proj1 (group_rotation_keeps_contacts hostMath 1000000 a 0
                  (fun _ => 200) m 0%nat (placeOf m)
                  Hacc Ha C Hw R Hc P Ht 0%nat 2%nat H0 H2)).
Defined.

(** ** The pointer on the canvas *)

Lemma Qdiv_le_compat : forall a b w, 0 < w -> a <= b -> a / w <= b / w.
Proof.
  intros a b w Hw H. unfold Qdiv. apply Qmult_le_compat_r; [exact H|].
  apply Qinv_le_0_compat. lra.
Qed.

Lemma canvasFraction_mono : forall origin size c c',
  0 < size -> c <= c' ->
  canvasFraction c origin size <= canvasFraction c' origin size.
Proof.
  intros origin size c c' Hs H. unfold canvasFraction.
  apply Binary64Facts.fl_mono. apply Qdiv_le_compat; [exact Hs|].
  apply Binary64Facts.fl_mono. lra.
Qed.

Lemma canvasFraction_unit : forall origin size c,
  0 < size -> Binary64.isDouble size ->
  origin <= c <= origin + size ->
  0 <= canvasFraction c origin size <= 1.
Proof.
  intros origin size c Hs Hd [H1 H2]. unfold canvasFraction.
  assert (D : 0 <= Binary64.fl (c - origin) <= size).
  { apply Binary64Facts.fl_between;
      [apply (Binary64Facts.isDouble_Z 0); simpl; lia|exact Hd|].
    split; lra. }
  apply (Binary64Facts.fl_between (inject_Z 0) (inject_Z 1));
    [apply Binary64Facts.isDouble_Z; simpl; lia
    |apply Binary64Facts.isDouble_Z; simpl; lia|].
  split.
  - apply Qle_shift_div_l; [exact Hs|]. change (inject_Z 0) with 0. lra.
  - apply Qle_shift_div_r; [exact Hs|]. change (inject_Z 1) with 1. lra.
Qed.

Lemma canvasFraction_origin : forall origin size c,
  0 < size -> c == origin -> canvasFraction c origin size == 0.
Proof.
  intros origin size c Hs E. unfold canvasFraction.
  rewrite (Binary64Facts.fl_0 (c - origin)) by lra.
  rewrite (Binary64Facts.fl_0 (0 / size)); [reflexivity|].
  field. lra.
Qed.

Lemma canvasFraction_end : forall origin size c,
  0 < size -> Binary64.isDouble size -> c == origin + size ->
  canvasFraction c origin size == 1.
Proof.
  intros origin size c Hs Hd E. unfold canvasFraction.
  rewrite (Binary64Facts.fl_comp (c - origin) size) by lra.
  rewrite (Binary64Facts.fl_comp (Binary64.fl size / size) (inject_Z 1)).
  - apply Binary64Facts.fl_Z. simpl; lia.
  - unfold Binary64.isDouble in Hd. rewrite Hd.
    change (inject_Z 1) with 1. field. lra.
Qed.

Lemma updateMouse_fractions : forall rect cx cy,
  updateMouse rect cx cy
  = (mouseAcross (canvasFraction cx (rectLeft rect) (rectWidth rect)),
     mouseUp (canvasFraction cy (rectTop rect) (rectHeight rect))).
Proof. reflexivity. Qed.

Lemma mouseAcross_mono : forall u u', u <= u' -> mouseAcross u <= mouseAcross u'.
Proof.
  intros u u' H. unfold mouseAcross. apply Binary64Facts.fl_mono.
  assert (K : Binary64.fl (u * 2) <= Binary64.fl (u' * 2))
    by (apply Binary64Facts.fl_mono; lra).
  lra.
Qed.

Lemma mouseUp_anti : forall v v', v <= v' -> mouseUp v' <= mouseUp v.
Proof.
  intros v v' H. unfold mouseUp. apply Binary64Facts.fl_mono.
  assert (K : Binary64.fl (- v' * 2) <= Binary64.fl (- v * 2))
    by (apply Binary64Facts.fl_mono; lra).
  lra.
Qed.

Lemma mouseAcross_ends : mouseAcross 0 = -1 /\ mouseAcross 1 = 1.
Proof. split; vm_compute; reflexivity. Qed.

Lemma mouseUp_ends : mouseUp 0 = 1 /\ mouseUp 1 = -1.
Proof. split; vm_compute; reflexivity. Qed.

Lemma mouseAcross_comp : forall u u', u == u' -> mouseAcross u = mouseAcross u'.
Proof.
  intros u u' E. unfold mouseAcross. apply Binary64Facts.fl_comp.
  rewrite (Binary64Facts.fl_comp (u * 2) (u' * 2)); [reflexivity|].
  now rewrite E.
Qed.

Lemma mouseUp_comp : forall v v', v == v' -> mouseUp v = mouseUp v'.
Proof.
  intros v v' E. unfold mouseUp. apply Binary64Facts.fl_comp.
  rewrite (Binary64Facts.fl_comp (- v * 2) (- v' * 2)); [reflexivity|].
  now rewrite E.
Qed.

(** X23: [updateMouse], every operation rounded as the host rounds it,
    maps the canvas rectangle into the square [-1, 1] x [-1, 1]: for a
    canvas whose width and height are positive numbers of the host, a
    pointer inside the rectangle gets both coordinates between -1 and 1,
    the left and right edges get x = -1 and x = 1, the top and bottom
    edges y = 1 and y = -1, x never decreases as the pointer goes right
    and y never increases as it goes down. *)
Theorem updateMouse_normalises_the_canvas :
  forall (rect : DOMRect) (cx cy : Q),
    0 < rectWidth rect -> 0 < rectHeight rect ->
    Binary64.isDouble (rectWidth rect) ->
    Binary64.isDouble (rectHeight rect) ->
    let mx := fun c => fst (updateMouse rect c cy) in
    let my := fun c => snd (updateMouse rect cx c) in
    (rectLeft rect <= cx <= rectLeft rect + rectWidth rect ->
     -1 <= mx cx <= 1) /\
    (rectTop rect <= cy <= rectTop rect + rectHeight rect ->
     -1 <= my cy <= 1) /\
    (mx (rectLeft rect) == -1 /\
     mx (rectLeft rect + rectWidth rect) == 1) /\
    (my (rectTop rect) == 1 /\
     my (rectTop rect + rectHeight rect) == -1) /\
    (forall c c', c <= c' -> mx c <= mx c' /\ my c' <= my c).
Proof.
  intros [l t w h] cx cy Hw Hh Dw Dh mx my.
  cbn [rectLeft rectTop rectWidth rectHeight] in *.
  assert (Ex : forall c, mx c = mouseAcross (canvasFraction c l w))
    by reflexivity.
  assert (Ey : forall c, my c = mouseUp (canvasFraction c t h))
    by reflexivity.
  destruct mouseAcross_ends as [A0 A1]. destruct mouseUp_ends as [U0 U1].
  assert (Xl : mx l == -1).
  { rewrite Ex, (mouseAcross_comp _ 0), A0; [reflexivity|].
    apply canvasFraction_origin; [exact Hw|reflexivity]. }
  assert (Xr : mx (l + w) == 1).
  { rewrite Ex, (mouseAcross_comp _ 1), A1; [reflexivity|].
    apply canvasFraction_end; [exact Hw|exact Dw|reflexivity]. }
  assert (Yt : my t == 1).
  { rewrite Ey, (mouseUp_comp _ 0), U0; [reflexivity|].
    apply canvasFraction_origin; [exact Hh|reflexivity]. }
  assert (Yb : my (t + h) == -1).
  { rewrite Ey, (mouseUp_comp _ 1), U1; [reflexivity|].
    apply canvasFraction_end; [exact Hh|exact Dh|reflexivity]. }
  assert (Mono : forall c c', c <= c' -> mx c <= mx c' /\ my c' <= my c).
  { intros c c' H. rewrite !Ex, !Ey. split.
    - apply mouseAcross_mono. now apply canvasFraction_mono.
    - apply mouseUp_anti. now apply canvasFraction_mono. }
  split; [|split; [|split; [|split]]].
  - intros [H1 H2]. pose proof (proj1 (Mono l cx H1)).
    pose proof (proj1 (Mono cx (l + w) H2)). lra.
  - intros [H1 H2]. pose proof (proj2 (Mono t cy H1)).
    pose proof (proj2 (Mono cy (t + h) H2)). lra.
  - exact (conj Xl Xr).
  - exact (conj Yt Yb).
  - exact Mono.
Qed.

Lemma updateMouse_normalises_the_canvas_witness :
  let rect := mkRect (1 # 10) 20 800 600 in
  (0 < rectWidth rect /\ 0 < rectHeight rect /\
   Binary64.isDouble (rectWidth rect) /\
   Binary64.isDouble (rectHeight rect) /\
   rectLeft rect <= 400 <= rectLeft rect + rectWidth rect) /\
  -1 <= fst (updateMouse rect 400 20) <= 1 /\
  snd (updateMouse rect 400 (rectTop rect)) == 1.
Proof.
  intros rect.
  assert (Hw : 0 < rectWidth rect) by reflexivity.
  assert (Hh : 0 < rectHeight rect) by reflexivity.
  assert (Dw : Binary64.isDouble (rectWidth rect))
    by (vm_compute; reflexivity).
  assert (Dh : Binary64.isDouble (rectHeight rect))
    by (vm_compute; reflexivity).
  assert (Hin : rectLeft rect <= 400 <= rectLeft rect + rectWidth rect)
    by (split; vm_compute; discriminate).
  split; [exact (conj Hw (conj Hh (conj Dw (conj Dh Hin))))|].
  destruct (updateMouse_normalises_the_canvas rect 400 20 Hw Hh Dw Dh)
    as (K1 & _ & _ & (K4 & _) & _).
  exact (conj (K1 Hin) K4).
Defined.

(** ** The centre of a block *)

Lemma centre_sum : forall cs acc,
  fold_left (fun acc (c : Cell) =>
               let '(cx, cy, cz) := c in
               add acc (vec3 (num cx) (num cy + (1 # 2)) (num cz)))
            cs acc
  = fold_left (fun acc c => add acc (cellCentre c)) cs acc.
Proof.
  induction cs as [|[[cx cy] cz] cs IH]; intros acc; cbn [fold_left]; auto.
Qed.

Lemma sum_within : forall lo hi cs acc (n : Z),
  (forall c, In c cs -> withinBox lo hi (cellCentre c)) ->
  x lo * inject_Z n <= x acc <= x hi * inject_Z n /\
  y lo * inject_Z n <= y acc <= y hi * inject_Z n /\
  z lo * inject_Z n <= z acc <= z hi * inject_Z n ->
  let s := fold_left (fun acc c => add acc (cellCentre c)) cs acc in
  let k := inject_Z (n + Z.of_nat (List.length cs)) in
  x lo * k <= x s <= x hi * k /\
  y lo * k <= y s <= y hi * k /\
  z lo * k <= z s <= z hi * k.
Proof.
  intros lo hi cs. induction cs as [|c cs IH]; intros acc n Hc Hacc;
    cbv zeta; cbn [fold_left List.length].
  - now rewrite Z.add_0_r.
  - replace (n + Z.of_nat (S (List.length cs)))%Z
      with ((n + 1) + Z.of_nat (List.length cs))%Z by lia.
    apply IH.
    + intros c' Hc'. apply Hc. now right.
    + destruct (Hc c (or_introl eq_refl)) as (X & Y & Zc).
      unfold add. cbn [x y z]. rewrite inject_Z_plus.
      change (inject_Z 1) with 1. nra.
Qed.

(** X26: [getWorldCenter] of a block with at least one cell lies inside
    every axis-aligned box, moved to the block's position, that holds
    the centre points of the block's local cells: the gizmo is shown
    within the extent of the block it belongs to. *)
Theorem getWorldCenter_is_inside_the_bounding_box :
  forall (b : BlockObject) (lo hi : Vector3),
    cells b <> [] ->
    (forall c, In c (cells b) -> withinBox lo hi (cellCentre c)) ->
    withinBox (add lo (position b)) (add hi (position b))
              (Block.getWorldCenter b).
Proof.
  intros b lo hi Hne Hc. unfold Block.getWorldCenter.
  rewrite centre_sum.
  assert (H0 : x lo * inject_Z 0 <= x zero3 <= x hi * inject_Z 0 /\
               y lo * inject_Z 0 <= y zero3 <= y hi * inject_Z 0 /\
               z lo * inject_Z 0 <= z zero3 <= z hi * inject_Z 0).
  { unfold zero3. cbn [x y z]. change (inject_Z 0) with 0. lra. }
  pose proof (sum_within lo hi (cells b) zero3 0 Hc H0) as H.
  cbv zeta in H. rewrite Z.add_0_l in H. clear H0.
  set (s := fold_left _ (cells b) zero3) in *. clearbody s.
  assert (Hn : 0 < num (Z.of_nat (List.length (cells b)))).
  { unfold num. change 0 with (inject_Z 0). rewrite <- Zlt_Qlt.
    destruct (cells b); [contradiction|]. cbn [List.length]. lia. }
  unfold num in *. set (n := inject_Z _) in *. clearbody n.
  destruct H as (X & Y & Zs).
  assert (Ex : x s * (1 / n) * n == x s) by (field; lra).
  assert (Ey : y s * (1 / n) * n == y s) by (field; lra).
  assert (Ez : z s * (1 / n) * n == z s) by (field; lra).
  unfold withinBox, add, multiplyScalar. cbn [x y z].
  set (ux := x s * (1 / n)) in *. set (uy := y s * (1 / n)) in *.
  set (uz := z s * (1 / n)) in *. clearbody ux uy uz.
  repeat split; nra.
Qed.

Lemma getWorldCenter_is_inside_the_bounding_box_witness :
  let b := Block.set_position (Block.create 7 [(0, 0, 0); (1, 0, 0); (1, 1, 0)]%Z)
                              (vec3 3 0 (-3)) in
  let lo := vec3 0 (1 # 2) 0 in
  let hi := vec3 1 (3 # 2) 0 in
  (cells b <> [] /\
   forall c, In c (cells b) -> withinBox lo hi (cellCentre c)) /\
  withinBox (vec3 3 (1 # 2) (-3)) (vec3 4 (3 # 2) (-3))
            (Block.getWorldCenter b).
Proof.
  intros b lo hi.
  assert (H1 : cells b <> []) by discriminate.
  assert (H2 : forall c, In c (cells b) -> withinBox lo hi (cellCentre c)).
  { intros c [<-|[<-|[<-|[]]]]; vm_compute; intuition discriminate. }
  split; [exact (conj H1 H2)|].
  pose proof (getWorldCenter_is_inside_the_bounding_box b lo hi H1 H2) as K.
  exact K.
Defined.

(** ** The rotation gizmo *)

Module GizmoFacts.
Import Gizmo.

Lemma ring_eqb_eq : forall a b, ring_eqb a b = true <-> a = b.
Proof. intros [] []; simpl; split; congruence. Qed.

Lemma hover_resetHover : forall g,
  hoverInvariant g ->
  hoverInvariant (resetHover g) /\ hoveredRing (resetHover g) = None.
Proof.
  intros g H. unfold resetHover.
  destruct (hoveredRing g) as [r0|] eqn:E; [|now split].
  split; [|reflexivity]. intros r. cbn. unfold setMaterial.
  specialize (H r). rewrite E in H. cbn in H.
  destruct r, r0; cbn in *; auto.
Qed.

Lemma hover_highlightRing : forall mesh g,
  hoverInvariant g ->
  hoverInvariant (highlightRing mesh g) /\
  hoveredRing (highlightRing mesh g) = mesh.
Proof.
  intros mesh g H. unfold highlightRing.
  destruct (sameRing (hoveredRing g) mesh) eqn:E.
  - split; auto.
    destruct (hoveredRing g) as [r|], mesh as [r'|]; try discriminate; auto.
    cbn in E. apply ring_eqb_eq in E. now subst.
  - cbv zeta. destruct (hover_resetHover g H) as [H1 H2].
    destruct mesh as [r0|]; [|now split].
    split; [|reflexivity]. intros r. cbn. unfold setMaterial.
    specialize (H1 r). rewrite H2 in H1. cbn in H1.
    destruct r, r0; cbn in *; auto.
Qed.

Lemma hover_call : forall c g, hoverInvariant g -> hoverInvariant (call g c).
Proof.
  intros [p| |mesh] g H; cbn [call].
  - exact H.
  - unfold hide.
    apply (hover_resetHover
             (mkState false (position g) (material g) (hoveredRing g))).
    exact H.
  - now apply hover_highlightRing.
Qed.

End GizmoFacts.

(** X24: whatever sequence of [show], [hide] and [highlightRing] calls a
    fresh gizmo receives, at most one ring is highlighted: the hovered
    ring, when there is one, has the hover colour and opacity 1, and
    every other ring has its own axis colour and opacity 0.7.  [hide]
    leaves no ring highlighted, [highlightRing] makes its argument the
    hovered ring, and calling it a second time with the same argument
    changes nothing. *)
Theorem gizmo_highlights_one_ring_at_most :
  forall calls : list Gizmo.Call,
    let g := fold_left Gizmo.call calls Gizmo.create in
    Gizmo.hoverInvariant g /\
    Gizmo.hoveredRing (Gizmo.hide g) = None /\
    (forall r, Gizmo.material (Gizmo.hide g) r
               = Gizmo.mkMaterial (7 # 10) (Gizmo.baseColor r)) /\
    (forall mesh, Gizmo.hoveredRing (Gizmo.highlightRing mesh g) = mesh) /\
    (forall mesh,
       Gizmo.highlightRing mesh (Gizmo.highlightRing mesh g)
       = Gizmo.highlightRing mesh g).
Proof.
  intros calls g.
  assert (H : Gizmo.hoverInvariant g).
  { subst g. assert (H0 : Gizmo.hoverInvariant Gizmo.create)
      by (intros []; reflexivity).
    revert H0. generalize Gizmo.create.
    induction calls as [|c calls IH]; intros g0 H0; cbn [fold_left]; auto.
    apply IH. now apply GizmoFacts.hover_call. }
  split; [exact H|].
  destruct (GizmoFacts.hover_resetHover
              (Gizmo.mkState false (Gizmo.position g) (Gizmo.material g)
                             (Gizmo.hoveredRing g)) H) as [K1 K2].
  split; [exact K2|]. split.
  - intros r. specialize (K1 r). unfold Gizmo.hide. now rewrite K2 in K1.
  - split.
    + intros mesh. now apply GizmoFacts.hover_highlightRing.
    + intros mesh.
      destruct (GizmoFacts.hover_highlightRing mesh g H) as [_ E].
      unfold Gizmo.highlightRing at 1. rewrite E.
      destruct mesh as [[]|]; reflexivity.
Qed.

(** ** The camera *)

Section CameraAnimation.
Context {M : JSMath}.





End CameraAnimation.

(** ** The single-selection manager *)

(** X27: in the single-selection manager ([unnamed/part_000]), a release
    of the left button that ends a block drag snaps the selected block
    to the grid and lifts it onto the floor: the block stands on a grid
    point at height zero or more, no cell of it is under the floor, the
    gizmo is shown at its centre, the drag is over with the controls on
    and the drag plane cleared, and no other block has changed. *)
Theorem legacy_release_rests_the_block_on_the_floor :
  forall (M : JSMath) (e : PointerEvent) (m : Legacy.Manager) (s : nat),
    button e = 0%Z ->
    Legacy.isGizmoDragging m = false ->
    Legacy.isDragging m = true ->
    Legacy.selectedBlock m = Some s ->
    (s < List.length (Legacy.blocks m))%nat ->
    let m' := Legacy.onPointerUp e m in
    let b' := getBlock (Legacy.blocks m') s in
    (exists p : Cell, position b' = cellVec p /\ (0 <= snd (fst p))%Z) /\
    (forall c, In c (Block.getWorldCellPositions b') ->
               (0 <= snd (fst c))%Z) /\
    cells b' = cells (getBlock (Legacy.blocks m) s) /\
    Legacy.gizmoVisible m' = true /\
    Legacy.gizmoPosition m' = Block.getWorldCenter b' /\
    Legacy.isDragging m' = false /\
    Legacy.controlsEnabled m' = true /\
    Legacy.dragPlane m' = None /\
    (forall j, j <> s ->
       getBlock (Legacy.blocks m') j = getBlock (Legacy.blocks m) j).
Proof.
  intros M e m s Hb Hg Hd Hs Hr m' b'.
  assert (E : m' = Legacy.clearDragPlane
                (Legacy.mkManager
                   (updateBlock
                      (fun b => Block.adjustToFloor (Block.snapToGrid b))
                      s (Legacy.blocks m))
                   (Legacy.selectedBlock m) false (Legacy.dragPlane m)
                   (Legacy.dragOffset m) (Legacy.dragStartPos m)
                   (Legacy.mouseDownPos m) true
                   (Block.getWorldCenter
                      (getBlock
                         (updateBlock
                            (fun b => Block.adjustToFloor (Block.snapToGrid b))
                            s (Legacy.blocks m)) s))
                   (Legacy.isGizmoDragging m) (Legacy.gizmoDragAxis m)
                   (Legacy.gizmoDragPlane m) (Legacy.gizmoDragStartAngle m)
                   (Legacy.gizmoAccumulatedAngle m) true)).
  { unfold m', Legacy.onPointerUp. rewrite Hb, Hg, Hd, Hs. reflexivity. }
  assert (Eb : b' = Block.adjustToFloor
                      (Block.snapToGrid (getBlock (Legacy.blocks m) s))).
  { unfold b'. rewrite E. cbn [Legacy.clearDragPlane Legacy.blocks].
    now apply getBlock_updateBlock_same. }
  split; [rewrite Eb; apply adjustToFloor_on_grid|].
  split.
  { rewrite Eb. apply floor_world_cells, adjustToFloor_floor. }
  split.
  { rewrite Eb. unfold Block.adjustToFloor.
    destruct (fold_left _ _ _) as [v|]; [destruct (Qltb v 0)|]; reflexivity. }
  rewrite E. cbn [Legacy.clearDragPlane Legacy.blocks Legacy.gizmoVisible
                  Legacy.gizmoPosition Legacy.isDragging
                  Legacy.controlsEnabled Legacy.dragPlane].
  repeat (split; [reflexivity|]).
  split.
  { unfold b'. rewrite E. reflexivity. }
  repeat (split; [reflexivity|]).
  intros j Hj. apply getBlock_updateBlock_other. congruence.
Qed.

Lemma legacy_release_rests_the_block_on_the_floor_witness :
  let b := Block.set_position
             (Block.create 3 [(0, 0, 0); (0, -1, 0); (1, -1, 0)]%Z)
             (vec3 (13 # 10) (2 # 5) (-(7 # 4))) in
  let m := Legacy.mkManager [Block.create 1 [(0, 0, 0)%Z]; b] (Some 1%nat)
             true None zero3 zero3 (0, 0) false zero3 false None None 0 0
             false in
  let e := pointerAt 40 30 0 0 None 100 in
  let m' := Legacy.onPointerUp (M := hostMath) e m in
  (button e = 0%Z /\ Legacy.isGizmoDragging m = false /\
   Legacy.isDragging m = true /\ Legacy.selectedBlock m = Some 1%nat /\
   (1 < List.length (Legacy.blocks m))%nat) /\
  (forall c, In c (Block.getWorldCellPositions (getBlock (Legacy.blocks m') 1)) ->
             (0 <= snd (fst c))%Z) /\
  position (getBlock (Legacy.blocks m') 1) = cellVec (1, 1, -2)%Z.
Proof.
  intros b m e m'.
  assert (H1 : button e = 0%Z) by reflexivity.
  assert (H2 : Legacy.isGizmoDragging m = false) by reflexivity.
  assert (H3 : Legacy.isDragging m = true) by reflexivity.
  assert (H4 : Legacy.selectedBlock m = Some 1%nat) by reflexivity.
  assert (H5 : (1 < List.length (Legacy.blocks m))%nat) by (simpl; lia).
  split; [exact (conj H1 (conj H2 (conj H3 (conj H4 H5))))|].
  split; [|vm_compute; reflexivity].
  exact (proj1 (proj2 (legacy_release_rests_the_block_on_the_floor
                         hostMath e m 1%nat H1 H2 H3 H4 H5))).
Defined.

(** ** The collision callback *)

Module HostFacts.
Import Host.


















End HostFacts.



